(* ===== verification/_CoqProject ===== *)
-Q . S2P
Prelude.v
GoStrings.v
Trie.v
TrieQuery.v
TrieSpec.v
TrieConcurrent.v
GoTime.v
DaoErrors.v
Shard.v
Dao.v
DaoSafety.v
Errors.v
Redsync.v
RedisLock.v
EtcdListen.v
EtcdWatcher.v
Grpc.v
GrpcInterceptors.v
Support.v
Email.v
Producer.v
MqConfig.v
Publishers.v
ServiceRegister.v
GrpcServing.v
Grace.v
Lifecycle.v
Http.v
HttpAnswers.v
Serving.v
Wrappers.v
