(* ===== verification/Prelude.v ===== *)
(** * Verification of the j7f micro-service toolkit: root file

    j7f (under [src/]) is a Go library of parts that a service is put together
    from: routing of database queries to nodes and tables, a sensitive-word
    filter, errors with business codes, gRPC and message-queue wrappers, service
    discovery by etcd, distributed locks and graceful restarts. The parts are
    mostly independent packages; where one calls another the files require each
    other. This file holds what all of them share.

    ** How programs are modelled

    - Go functions are Gallina functions. A call that can panic or block has the
      type [outcome]: [Ret] with the Go results (an [error] result is an
      [option], nil is [None]), [Panic], or [Hang]. Methods that change their
      receiver take it and return it.
    - Variables of a package are one record, passed on by each operation
      (EtcdListen, Grace). Goroutines that interleave are step relations over
      such a record, one step per access to shared state (TrieConcurrent,
      RedisLock, EtcdWatcher, Grpc, Publishers, Serving).
    - [int], [int64] and [time.Duration] are numbers in [Z] with [i64] after
      every operation that may overflow; strings are sequences of bytes, with
      UTF-8 decoded where the code converts to runes (GoStrings).
    - The order in which Go visits a map is not specified: definitions that
      range over a map take it from the class [RangeOrder], and the theorems
      hold for every instance.
    - Loops that are not structural have fuel, computed from the input by the
      caller; running out is [Hang], and the theorems exclude it: [Query] has
      the length of the text ([query_returns]), [Gcd] the least weight
      ([gcd_correct]), [Cause] walks a finite chain ([cause_is_root]).
    - What is not under [src/] is a parameter: the drivers of SQL, Redis (behind
      a class with the documented behaviour of its commands), etcd, nsq and
      gRPC, JSON decoding, semver, clocks and random numbers.

    ** Files

    - GoStrings: runes and UTF-8, [strconv], [strings.Index]; GoTime: the
      calendar of [time.Time].
    - Trie, TrieQuery ([components/trie/trie.go]): the keyword trie. [Node] has
      the walks of [Add], [Del] and [ReadAll], [Trie] the structure with its two
      white lists and [Query]. [censor] is the reference: from the left, the
      longest keyword of at least two runes. [query_is_censor] shows that [Query]
      computes it, up to the exception at the end of the text that [best_match]
      writes out; [query_safe] and [query_complete] say which words are reported
      with white lists and without. TrieSpec: the abstract dictionary, a set of
      words, and the refinement [trie_refines] of any sequence of calls.
      TrieConcurrent: the same walks over a heap of nodes, one step per
      operation of a [sync.Map]; words added by any number of goroutines are all
      there in the end ([concurrent_adds]), deletions can lose a word
      ([dels_lose_a_word]).
    - DaoErrors, Shard ([components/dao/errors], [components/dao/shard]): keys of
      every dynamic type to table numbers. Each kind of shard gets the table its
      configuration means ([num_range_routes], [mod_shard_in_range],
      [date_shard_of_second], [date_shard_of_text]).
    - Dao, DaoSafety ([components/dao/node.go], [balancer.go]): opening a node,
      weighted round robin, table names, transactions. [weighted_round] is
      fairness: over one turn of the queue each slave is used as often as its
      weight says. [node_type_safe] is the invariant of a node from [NewNode]
      on: no method that reads it panics, whatever the weights.
    - Errors ([components/errors]): wrapping, causes, response headers, printing.
    - Redsync ([lib/gopkg.in/redsync.v1]): the mutex over several Redis servers,
      against any loss of commands and any interference the hypotheses allow:
      mutual exclusion ([lock_excludes]), no damage to other holders, success
      when the servers are free, clean failure, unlocking and extending.
    - RedisLock ([components/lock/redis.go]): the local lock in front of it, any
      number of goroutines: [one_holder] by invariant over the steps,
      [unlock_can_be_lost] by a reachable state without way out.
    - EtcdListen ([util/etcd_listen/etcd_listen.go], [util/funcs.go]): groups of
      watched services. Two indexes and the settings are kept in agreement
      ([add_group], [empty_group]), and exports are exactly the matching servers
      ([exported_output]). EtcdWatcher ([etcd_watcher.go]): the goroutines of
      the watches over the same variables. A key has one watch at most
      ([one_watch_per_key]); a watch that is alone on its key keeps the settings
      equal to what etcd holds ([watched_settings_follow_etcd]); a failed watch
      blocks its key ([failed_watch_stays]).
    - Grpc ([components/grpc]): the wrapped streams, the connections of a client,
      the set-up of a server. It builds its time-out answer with Errors, and the
      theorems follow that answer through every run. GrpcInterceptors: what is
      logged around a call ([client_calls_logged]). GrpcServing: serving,
      stopping, the list of services, calling by name.
    - Support: the small packages: JSON columns ([types]; [json_column_roundtrip]),
      [util], logging ([components/log], [internal/log]) and the answers to the
      queue's lookup. Email ([components/email]): the dialer. Wrappers: methods
      that hand a call on, of the consumer, the streams and the logger.
    - Producer, MqConfig, Publishers ([components/mq]): connection pools, lookup,
      publishing, closing; the options that a configuration replaces
      ([config_overrides]); publishing and closing from several goroutines, with
      connections conserved ([connections_conserved]) and two ways to lose the
      producer ([exhausted_pool_blocks], [close_races_publish]).
    - ServiceRegister ([components/service_register]): service nodes, the class
      [RegisterFunc] and its etcd implementation, whose calls may fail at any
      point ([register_script]). Grace ([components/grace]) is proved against
      that class: signals, one shutdown, fork. Lifecycle puts both together:
      what stands in etcd while a server runs and after
      ([registration_lifecycle]). What etcd holds is a parameter there, of which
      only the documented is asked: a call without an error was carried out, one
      with an error may or may not have been, and a lease may run out.
    - Http, HttpAnswers ([components/http]): registrations, unknown routes,
      middleware, answers, starting and stopping. The stack that the recovery
      prints keeps the file read last; [stack_is_uncached] shows that this
      changes nothing.
    - Serving: the process of a server, made of Grace, a registration and a
      listener, the interface [graceListener] that the gRPC and the HTTP server
      implement. The signal handler and [shutdown] go statement by statement.
      [serving_ends] says, over every interleaving, when the registration is
      taken back and that the process gets to its end.

    ** Limits

    - Methods under a lock are single steps, and so is a callback of EtcdListen,
      which reads the groups and the settings outside of their locks: that Go may
      end the process over such an access is not represented. [Query] and [ReadAll] of the trie
      are not interleaved with writers, and the goroutines of RedisLock see the
      distributed mutex as choices, not as the protocol of Redsync.
    - What is only logged is left out.
    - Not modelled: configuration ([components/config], an embedded viper
      without methods of its own), the application manager (commented out) and
      the generated [common.pb.go], which is represented by the fields the code
      reads.
    - Planned: Redsync under RedisLock across several processes, [Query]
      against concurrent writers, the float arithmetic of Redsync's drift. *)

From Stdlib Require Export ZArith Lia.
From stdpp Require Export base option list gmap sets strings fin_maps.

(** ** Machine integers

    [int], [int64] and [time.Duration] are 64-bit two's complement (the Go
    ports this code is deployed on), [uint64] is the ring modulo 2^64. *)

Definition u64 (z : Z) : Z := (z mod 2 ^ 64)%Z.
Definition i64 (z : Z) : Z := ((z + 2 ^ 63) mod 2 ^ 64 - 2 ^ 63)%Z.
Definition i32 (z : Z) : Z := ((z + 2 ^ 31) mod 2 ^ 32 - 2 ^ 31)%Z.

Definition in_int64 (z : Z) : Prop := (- 2 ^ 63 <= z < 2 ^ 63)%Z.
Definition in_uint64 (z : Z) : Prop := (0 <= z < 2 ^ 64)%Z.
Definition in_int32 (z : Z) : Prop := (- 2 ^ 31 <= z < 2 ^ 31)%Z.

Section machine_integers.
Local Open Scope Z_scope.

Lemma u64_id z : in_uint64 z -> u64 z = z.
Proof. unfold u64, in_uint64. intros. apply Z.mod_small. lia. Qed.

Lemma i64_id z : in_int64 z -> i64 z = z.
Proof. unfold i64, in_int64. intros. rewrite Z.mod_small; lia. Qed.

Lemma i32_id z : in_int32 z -> i32 z = z.
Proof. unfold i32, in_int32. intros. rewrite Z.mod_small; lia. Qed.

Lemma u64_range z : in_uint64 (u64 z).
Proof. unfold u64, in_uint64. pose proof (Z.mod_pos_bound z (2 ^ 64)). lia. Qed.

Lemma i64_range z : in_int64 (i64 z).
Proof.
  unfold i64, in_int64. pose proof (Z.mod_pos_bound (z + 2 ^ 63) (2 ^ 64)). lia.
Qed.

Lemma i32_range z : in_int32 (i32 z).
Proof.
  unfold i32, in_int32. pose proof (Z.mod_pos_bound (z + 2 ^ 31) (2 ^ 32)). lia.
Qed.
End machine_integers.

(** ** Outcomes of Go calls

    A call returns, panics, or never comes back (a goroutine blocked for ever
    or a loop that does not end). Go's error results are ordinary values inside
    [Ret]. *)

Inductive panic :=
| IndexOutOfRange
| SliceOutOfRange
| DivideByZero
| NilDereference
| NilMapWrite
| NilFuncCall
| MakeNegative
| ClosedChannel
| UnlockOfUnlocked
| PanicMessage (msg : string).

Inductive outcome (A : Type) :=
| Ret (a : A)
| Panic (p : panic)
| Hang.
Arguments Ret {A} _.
Arguments Panic {A} _.
Arguments Hang {A}.

#[global] Instance panic_eq_dec : EqDecision panic.
Proof. solve_decision. Defined.
#[global] Instance outcome_eq_dec `{EqDecision A} : EqDecision (outcome A).
Proof. solve_decision. Defined.

#[global] Instance outcome_ret : MRet outcome := fun A a => Ret a.
#[global] Instance outcome_bind : MBind outcome :=
  fun A B f m => match m with Ret a => f a | Panic p => Panic p | Hang => Hang end.
#[global] Instance outcome_fmap : FMap outcome :=
  fun A B f m => match m with Ret a => Ret (f a) | Panic p => Panic p | Hang => Hang end.

(** The value of an outcome that returned. *)
Definition returned {A} (m : outcome A) : option A :=
  match m with Ret a => Some a | _ => None end.

(** Indexing, slicing and writing a Go slice or string: Go panics when the
    position is outside of it. *)
Definition index {A} (l : list A) (i : nat) : outcome A :=
  match l !! i with Some a => Ret a | None => Panic IndexOutOfRange end.

Definition index_z {A} (l : list A) (i : Z) : outcome A :=
  if decide (0 <= i)%Z then index l (Z.to_nat i) else Panic IndexOutOfRange.

Definition slice {A} (l : list A) (lo hi : nat) : outcome (list A) :=
  if decide (lo <= hi <= length l) then Ret (take (hi - lo) (drop lo l))
  else Panic SliceOutOfRange.

Definition store {A} (l : list A) (i : nat) (a : A) : outcome (list A) :=
  if decide (i < length l) then Ret (<[i := a]> l) else Panic IndexOutOfRange.

Section slices.
Context {A : Type}.
Implicit Types l : list A.

Lemma index_lookup l i a : l !! i = Some a -> index l i = Ret a.
Proof. unfold index. by intros ->. Qed.

Lemma index_Ret l i a : index l i = Ret a <-> l !! i = Some a.
Proof. unfold index. destruct (l !! i); split; intros; simplify_eq; done. Qed.

Lemma index_lt l i : i < length l -> exists a, index l i = Ret a /\ l !! i = Some a.
Proof. intros [a Ha]%lookup_lt_is_Some. exists a. by rewrite (index_lookup _ _ _ Ha). Qed.

Lemma slice_in l lo hi :
  lo <= hi <= length l -> slice l lo hi = Ret (take (hi - lo) (drop lo l)).
Proof. intros. unfold slice. by rewrite decide_True. Qed.

Lemma store_in l i a : i < length l -> store l i a = Ret (<[i := a]> l).
Proof. intros. unfold store. by rewrite decide_True. Qed.
End slices.

(** ** Counting

    How many elements of a list satisfy a test; threads are counted this way. *)

Definition count_if {A} (f : A -> bool) (l : list A) : nat := length (List.filter f l).

Section count_if.
Context {A : Type} (f : A -> bool).
Implicit Types l : list A.

Lemma count_if_cons x l : count_if f (x :: l) = Nat.b2n (f x) + count_if f l.
Proof. unfold count_if. cbn. by destruct (f x). Qed.

Lemma count_if_app l1 l2 : count_if f (l1 ++ l2) = count_if f l1 + count_if f l2.
Proof. unfold count_if. by rewrite List.filter_app, length_app. Qed.

Lemma count_if_le l : count_if f l <= length l.
Proof. apply List.filter_length_le. Qed.

Lemma count_if_insert l i x y :
  l !! i = Some x -> count_if f (<[i := y]> l) + Nat.b2n (f x) = count_if f l + Nat.b2n (f y).
Proof.
  revert i. induction l as [|z l IH]; intros [|i]; [done|done| |].
  - intros [= ->]. cbn [insert list_insert]. rewrite !count_if_cons. lia.
  - intros Hi. change (<[S i := y]> (z :: l)) with (z :: <[i := y]> l). rewrite !count_if_cons.
    specialize (IH i Hi). lia.
Qed.

Lemma count_if_pos l i x : l !! i = Some x -> f x = true -> 0 < count_if f l.
Proof.
  intros Hi Hx. revert i Hi. induction l as [|z l IH]; intros [|i]; [done|done| |]; rewrite count_if_cons.
  - intros [= ->]. rewrite Hx. cbn [Nat.b2n]. lia.
  - intros Hi. specialize (IH i Hi). lia.
Qed.

Lemma count_if_replicate n x : f x = false -> count_if f (replicate n x) = 0.
Proof. intros Hx. induction n as [|n IH]; [done|]. cbn [replicate]. by rewrite count_if_cons, IH, Hx. Qed.
End count_if.

Lemma count_if_impl {A} (f g : A -> bool) l :
  (forall x, f x = true -> g x = true) -> count_if f l <= count_if g l.
Proof.
  intros Hfg. induction l as [|x l IH]; [done|]. rewrite !count_if_cons.
  specialize (Hfg x). destruct (f x); [rewrite Hfg by done|]; cbn [Nat.b2n]; lia.
Qed.

(** *** Sums of a list that is updated *)

Lemma sum_insert (l : list nat) i a b :
  l !! i = Some a -> sum_list (<[i := b]> l) + a = sum_list l + b.
Proof.
  revert i. induction l as [|x l IH]; intros [|i]; cbn; [done|done|intros [= ->]; lia|].
  intros Hi. specialize (IH i Hi). change (x + sum_list (<[i:=b]> l) + a = x + sum_list l + b). lia.
Qed.

Lemma sum_snoc (l : list nat) b : sum_list (l ++ [b]) = sum_list l + b.
Proof. induction l as [|x l IH]; cbn; [lia|]. rewrite IH. lia. Qed.

Lemma sum_le (l : list nat) : Forall (fun b => b <= 1) l -> sum_list l <= length l.
Proof. induction 1; cbn; lia. Qed.

(** ** Iteration over Go maps

    Go leaves the order in which [range] (and [sync.Map.Range]) visits a map
    unspecified. Every definition that ranges over a map takes the order from
    this class; its law is all the theorems may use. *)

Class RangeOrder := {
  range : forall {K} `{Countable K} {V}, gmap K V -> list (K * V);
  range_perm : forall {K} `{Countable K} {V} (m : gmap K V), range m ≡ₚ map_to_list m
}.

(** Two concrete orders, for the witnesses. *)
Definition ascending_order : RangeOrder.
Proof. exists (fun _ _ _ _ m => map_to_list m). done. Defined.
Definition descending_order : RangeOrder.
Proof.
  exists (fun _ _ _ _ m => reverse (map_to_list m)). intros. apply reverse_Permutation.
Defined.

Section range_order.
Context {RO : RangeOrder} {K : Type} `{Countable K} {V : Type}.
Implicit Types m : gmap K V.

Lemma elem_of_range m k v : (k, v) ∈ range m <-> m !! k = Some v.
Proof. rewrite range_perm. apply elem_of_map_to_list. Qed.

Lemma range_fst_NoDup m : NoDup (range m).*1.
Proof. rewrite range_perm. apply NoDup_fst_map_to_list. Qed.

Lemma range_list_to_map m : list_to_map (range m) = m.
Proof.
  rewrite <- (list_to_map_to_list m) at 2. apply list_to_map_proper; [apply range_fst_NoDup|apply range_perm].
Qed.

(** Copying a map entry by entry, through a function of the values. *)
Lemma range_copy {W} (f : V -> W) m :
  foldl (fun acc (kv : K * V) => <[kv.1 := f kv.2]> acc) ∅ (range m) = (f <$> m : gmap K W).
Proof.
  assert (forall l acc, NoDup l.*1 -> foldl (fun acc (kv : K * V) => <[kv.1 := f kv.2]> acc) acc l =
    (f <$> (list_to_map l : gmap K V)) ∪ acc) as Hf.
  { induction l as [|[k v] l IH]; intros acc Hnd; cbn [foldl].
    { cbn. by rewrite fmap_empty, (left_id_L ∅ (∪)). }
    rewrite fmap_cons in Hnd. apply NoDup_cons in Hnd as [Hk Hnd]. rewrite IH by done. cbn [fst snd] in *.
    rewrite list_to_map_cons, fmap_insert, <- insert_union_l. symmetry. apply insert_union_r.
    by rewrite lookup_fmap, (not_elem_of_list_to_map_1 (M:=gmap K) l k Hk). }
  rewrite Hf by apply range_fst_NoDup. by rewrite (right_id_L ∅ (∪)), range_list_to_map.
Qed.

Lemma range_empty : range (∅ : gmap K V) = [].
Proof. apply Permutation_nil_r. rewrite range_perm. by rewrite map_to_list_empty. Qed.
End range_order.

(** ** Automation *)

Create HintDb j7f.
#[export] Hint Resolve index_lookup slice_in store_in u64_id i64_id i32_id : j7f.
#[export] Hint Resolve u64_range i64_range i32_range : j7f.

(** Run the binds of an outcome computation whose steps are known. *)
Ltac run := cbn [mbind outcome_bind mret outcome_ret fmap outcome_fmap] in *.

(** Split a hypothesis [bind m f = Ret x] into the run of [m] and of [f]. *)
Lemma bind_Ret {A B} (m : outcome A) (f : A -> outcome B) b :
  m ≫= f = Ret b <-> exists a, m = Ret a /\ f a = Ret b.
Proof.
  split.
  - destruct m; cbn; [eauto | discriminate | discriminate].
  - by intros (a & -> & Hf).
Qed.

Ltac inv_bind H :=
  let a := fresh "a" in let Ha := fresh "Ha" in
  apply bind_Ret in H as (a & Ha & H).
