(* ===== verification/GoStrings.v ===== *)
(** * Go strings: bytes, runes and decimal numbers

    A Go [string] is a sequence of bytes, here a Rocq [string] (each [ascii] is
    one byte). This file models the parts of the language and of its standard
    library that the components use on strings: the conversions [[]rune(s)] and
    [string(runes)] (UTF-8), [strconv.Itoa], [ParseUint], [ParseInt] and [Atoi],
    [strings.Index] and [strings.LastIndex]. *)

From S2P Require Import Prelude.
From Stdlib Require Import Ascii.
Local Open Scope Z_scope.

(** ** Bytes *)

Definition byte_of (c : ascii) : Z := Z.of_N (N_of_ascii c).
Definition of_byte (b : Z) : ascii := ascii_of_N (Z.to_N (b mod 256)).

Fixpoint bytes (s : string) : list Z :=
  match s with
  | EmptyString => []
  | String c s => byte_of c :: bytes s
  end.

Fixpoint of_bytes (l : list Z) : string :=
  match l with
  | [] => EmptyString
  | b :: l => String (of_byte b) (of_bytes l)
  end.

Definition is_byte (b : Z) : Prop := 0 <= b < 256.

Lemma byte_of_range c : is_byte (byte_of c).
Proof. unfold is_byte, byte_of. pose proof (N_ascii_bounded c). lia. Qed.

Lemma of_byte_of c : of_byte (byte_of c) = c.
Proof.
  unfold of_byte. rewrite Z.mod_small by apply byte_of_range.
  unfold byte_of. by rewrite N2Z.id, ascii_N_embedding.
Qed.

Lemma byte_of_byte b : is_byte b -> byte_of (of_byte b) = b.
Proof.
  intros Hb. unfold byte_of, of_byte. rewrite Z.mod_small by done.
  unfold is_byte in Hb. rewrite N_ascii_embedding; lia.
Qed.

Lemma of_bytes_bytes s : of_bytes (bytes s) = s.
Proof. induction s as [|c s IH]; cbn; [done|]. by rewrite of_byte_of, IH. Qed.

Lemma bytes_of_bytes l : Forall is_byte l -> bytes (of_bytes l) = l.
Proof. induction 1; cbn; [done|]. by rewrite byte_of_byte, IHForall. Qed.

Lemma bytes_range s : Forall is_byte (bytes s).
Proof. induction s; cbn; constructor; [apply byte_of_range|done]. Qed.

(** stdpp seals [String.append]; this is its equation on a character. *)
Lemma append_cons c s1 s2 : String c s1 +:+ s2 = String c (s1 +:+ s2).
Proof. reflexivity. Qed.

Lemma bytes_app s1 s2 : bytes (s1 +:+ s2) = (bytes s1 ++ bytes s2)%list.
Proof. induction s1 as [|c s1 IH]; [done|]. rewrite !append_cons. cbn. f_equal. exact IH. Qed.

Lemma of_bytes_app l1 l2 : of_bytes (l1 ++ l2)%list = of_bytes l1 +:+ of_bytes l2.
Proof. induction l1 as [|b l1 IH]; [done|]. cbn. rewrite append_cons. f_equal. exact IH. Qed.

Lemma bytes_inj s1 s2 : bytes s1 = bytes s2 -> s1 = s2.
Proof. intros E. by rewrite <- (of_bytes_bytes s1), E, of_bytes_bytes. Qed.

Lemma of_bytes_inj l1 l2 :
  Forall is_byte l1 -> Forall is_byte l2 -> of_bytes l1 = of_bytes l2 -> l1 = l2.
Proof. intros H1 H2 E. by rewrite <- (bytes_of_bytes l1), E, bytes_of_bytes. Qed.

Lemma string_app_nil_r s : s +:+ EmptyString = s.
Proof. induction s as [|c s IH]; [done|]. rewrite append_cons. f_equal. exact IH. Qed.

Lemma string_app_assoc s1 s2 s3 : (s1 +:+ s2) +:+ s3 = s1 +:+ (s2 +:+ s3).
Proof. induction s1 as [|c s1 IH]; [done|]. rewrite !append_cons. cbn. f_equal. exact IH. Qed.

(** ** UTF-8 *)

Abbreviation rune := Z (only parsing).

Definition rune_error : rune := 0xFFFD.

(** The Unicode scalar values: what UTF-8 can carry. *)
Definition valid_rune (r : rune) : bool :=
  ((0 <=? r) && (r <? 0xD800)) || ((0xDFFF <? r) && (r <=? 0x10FFFF)).

(** [string(r)] for one rune: a value that is not a scalar becomes U+FFFD. *)
Definition encode_rune (r : rune) : list Z :=
  let r := if valid_rune r then r else rune_error in
  if r <? 0x80 then [r]
  else if r <? 0x800 then [0xC0 + r / 64; 0x80 + r mod 64]
  else if r <? 0x10000 then [0xE0 + r / 4096; 0x80 + (r / 64) mod 64; 0x80 + r mod 64]
  else [0xF0 + r / 262144; 0x80 + (r / 4096) mod 64; 0x80 + (r / 64) mod 64; 0x80 + r mod 64].

Definition between (lo hi b : Z) : bool := (lo <=? b) && (b <=? hi).

(** The range a second byte must be in, by the first one: this excludes
    overlong forms, surrogates and values over 0x10FFFF. *)
Definition second_range (b0 : Z) : Z * Z :=
  if b0 =? 0xE0 then (0xA0, 0xBF)
  else if b0 =? 0xED then (0x80, 0x9F)
  else if b0 =? 0xF0 then (0x90, 0xBF)
  else if b0 =? 0xF4 then (0x80, 0x8F)
  else (0x80, 0xBF).

Definition second_ok (b0 b1 : Z) : bool :=
  let '(lo, hi) := second_range b0 in between lo hi b1.

(** One step of decoding: the rune and the number of bytes it took. An invalid
    sequence gives U+FFFD and takes one byte. *)
Definition decode_rune (b0 : Z) (rest : list Z) : rune * nat :=
  if b0 <? 0x80 then (b0, 1%nat)
  else if between 0xC2 0xDF b0 then
    match rest with
    | b1 :: _ => if second_ok b0 b1 then ((b0 mod 32) * 64 + b1 mod 64, 2%nat)
                 else (rune_error, 1%nat)
    | _ => (rune_error, 1%nat)
    end
  else if between 0xE0 0xEF b0 then
    match rest with
    | b1 :: b2 :: _ =>
        if second_ok b0 b1 && between 0x80 0xBF b2
        then ((b0 mod 16) * 4096 + (b1 mod 64) * 64 + b2 mod 64, 3%nat)
        else (rune_error, 1%nat)
    | _ => (rune_error, 1%nat)
    end
  else if between 0xF0 0xF4 b0 then
    match rest with
    | b1 :: b2 :: b3 :: _ =>
        if second_ok b0 b1 && between 0x80 0xBF b2 && between 0x80 0xBF b3
        then ((b0 mod 8) * 262144 + (b1 mod 64) * 4096 + (b2 mod 64) * 64 + b3 mod 64, 4%nat)
        else (rune_error, 1%nat)
    | _ => (rune_error, 1%nat)
    end
  else (rune_error, 1%nat).

(** Decoding a byte sequence; [skip] counts the bytes of the last rune that are
    still to be dropped. *)
Fixpoint decode (skip : nat) (l : list Z) : list rune :=
  match l with
  | [] => []
  | b :: l =>
      match skip with
      | S k => decode k l
      | O => let '(r, n) := decode_rune b l in r :: decode (pred n) l
      end
  end.

(** [[]rune(s)] and [string(rs)]. *)
Definition runes (s : string) : list rune := decode 0 (bytes s).
Definition string_of_runes (rs : list rune) : string := of_bytes (rs ≫= encode_rune).
Definition string_of_rune (r : rune) : string := of_bytes (encode_rune r).

(** Go's source text is UTF-8; the alphabet of these theorems are the scalar
    values. *)
Abbreviation valid_runes rs := (Forall (fun r => valid_rune r = true) rs) (only parsing).

Section utf8_round_trip.
#[local] Ltac Zify.zify_post_hook ::= Z.div_mod_to_equations.

Lemma valid_rune_iff r :
  valid_rune r = true <-> 0 <= r < 0xD800 \/ 0xDFFF < r <= 0x10FFFF.
Proof. unfold valid_rune. lia. Qed.

Lemma valid_rune_error : valid_rune rune_error = true.
Proof. done. Qed.

Lemma encode_rune_bytes r : Forall is_byte (encode_rune r).
Proof.
  unfold encode_rune.
  set (r' := if valid_rune r then r else rune_error).
  assert (valid_rune r' = true) as Hv%valid_rune_iff.
  { subst r'. by destruct (valid_rune r) eqn:E. }
  clearbody r'. unfold is_byte.
  repeat case_match; repeat constructor; lia.
Qed.

Lemma encode_bytes rs : Forall is_byte (rs ≫= encode_rune).
Proof.
  induction rs as [|r rs IH]; cbn; [constructor|].
  apply Forall_app; split; [apply encode_rune_bytes|exact IH].
Qed.

Lemma second_ok_2 b0 b1 : 0xC2 <= b0 <= 0xDF -> 0x80 <= b1 <= 0xBF -> second_ok b0 b1 = true.
Proof. unfold second_ok, second_range, between. intros. repeat case_match; simplify_eq; lia. Qed.

Lemma second_ok_3 q m :
  0 <= q < 16 -> 0 <= m < 64 ->
  (q = 0 -> 32 <= m) -> (q = 13 -> m < 32) ->
  second_ok (0xE0 + q) (0x80 + m) = true.
Proof. unfold second_ok, second_range, between. intros. repeat case_match; simplify_eq; lia. Qed.

Lemma second_ok_4 q m :
  0 <= q < 5 -> 0 <= m < 64 ->
  (q = 0 -> 16 <= m) -> (q = 4 -> m < 16) ->
  second_ok (0xF0 + q) (0x80 + m) = true.
Proof. unfold second_ok, second_range, between. intros. repeat case_match; simplify_eq; lia. Qed.

#[local] Ltac decide_ifs :=
  repeat match goal with
  | |- context [if ?b then _ else _] =>
      first [replace b with true by lia | replace b with false by lia]; cbn [andb]
  end.

(** Decoding consumes exactly the encoding of a scalar value. *)
Lemma decode_rune_2 q m rest :
  2 <= q < 32 -> 0 <= m < 64 ->
  decode_rune (0xC0 + q) (0x80 + m :: rest) = (q * 64 + m, 2%nat).
Proof.
  intros. unfold decode_rune, between. rewrite second_ok_2 by lia. decide_ifs.
  f_equal. lia.
Qed.

Lemma decode_rune_3 q m1 m2 rest :
  0 <= q < 16 -> 0 <= m1 < 64 -> 0 <= m2 < 64 ->
  (q = 0 -> 32 <= m1) -> (q = 13 -> m1 < 32) ->
  decode_rune (0xE0 + q) (0x80 + m1 :: 0x80 + m2 :: rest)
  = (q * 4096 + m1 * 64 + m2, 3%nat).
Proof.
  intros. unfold decode_rune, between. rewrite second_ok_3 by lia. decide_ifs.
  f_equal. lia.
Qed.

Lemma decode_rune_4 q m1 m2 m3 rest :
  0 <= q < 5 -> 0 <= m1 < 64 -> 0 <= m2 < 64 -> 0 <= m3 < 64 ->
  (q = 0 -> 16 <= m1) -> (q = 4 -> m1 < 16) ->
  decode_rune (0xF0 + q) (0x80 + m1 :: 0x80 + m2 :: 0x80 + m3 :: rest)
  = (q * 262144 + m1 * 4096 + m2 * 64 + m3, 4%nat).
Proof.
  intros. unfold decode_rune, between. rewrite second_ok_4 by lia. decide_ifs.
  f_equal. lia.
Qed.

Lemma decode_encode_rune r rest :
  valid_rune r = true ->
  decode 0 (encode_rune r ++ rest)%list = r :: decode 0 rest.
Proof.
  intros Hv. unfold encode_rune. rewrite Hv. apply valid_rune_iff in Hv.
  destruct (r <? 0x80) eqn:E1; [|destruct (r <? 0x800) eqn:E2;
    [|destruct (r <? 0x10000) eqn:E3]]; cbn [app decode].
  - unfold decode_rune. rewrite E1. done.
  - rewrite decode_rune_2 by lia. cbn [pred decode]. f_equal. lia.
  - rewrite decode_rune_3 by lia. cbn [pred decode]. f_equal. lia.
  - rewrite decode_rune_4 by lia. cbn [pred decode]. f_equal. lia.
Qed.

Lemma decode_encode rs : valid_runes rs -> decode 0 (rs ≫= encode_rune) = rs.
Proof.
  induction 1 as [|r rs Hr _ IH]; [done|].
  cbn [mbind list_bind]. rewrite decode_encode_rune by done. f_equal. exact IH.
Qed.

Lemma second_ok_bounds b0 b1 :
  second_ok b0 b1 = true ->
  0x80 <= b1 <= 0xBF /\ (b0 = 0xE0 -> 0xA0 <= b1) /\ (b0 = 0xED -> b1 <= 0x9F) /\
  (b0 = 0xF0 -> 0x90 <= b1) /\ (b0 = 0xF4 -> b1 <= 0x8F).
Proof. unfold second_ok, second_range, between. repeat case_match; simplify_eq; lia. Qed.

(** What decoding produces is always a scalar value. *)
Lemma decode_rune_valid b rest : is_byte b -> valid_rune (decode_rune b rest).1 = true.
Proof.
  intros Hb. unfold is_byte in Hb. apply valid_rune_iff. unfold decode_rune, between.
  repeat case_match; cbn; unfold rune_error; try lia;
    repeat match goal with H : _ && _ = true |- _ => apply andb_true_iff in H as [H ?] end;
    match goal with H : second_ok _ _ = true |- _ => apply second_ok_bounds in H end; lia.
Qed.

Lemma decode_valid skip l : Forall is_byte l -> valid_runes (decode skip l).
Proof.
  intros Hl. revert skip. induction Hl as [|b l Hb _ IH]; intros [|k]; cbn; try done.
  pose proof (decode_rune_valid b l Hb) as Hv.
  destruct (decode_rune b l) as [r n]. constructor; [done|apply IH].
Qed.
End utf8_round_trip.

Lemma runes_valid s : valid_runes (runes s).
Proof. apply decode_valid, bytes_range. Qed.

(** [[]rune(string(rs)) = rs] for scalar values. *)
Lemma runes_string_of_runes rs : valid_runes rs -> runes (string_of_runes rs) = rs.
Proof.
  intros Hv. unfold runes, string_of_runes. rewrite bytes_of_bytes by apply encode_bytes.
  by apply decode_encode.
Qed.

Lemma string_of_runes_inj rs1 rs2 :
  valid_runes rs1 -> valid_runes rs2 -> string_of_runes rs1 = string_of_runes rs2 -> rs1 = rs2.
Proof. intros H1 H2 E. by rewrite <- (runes_string_of_runes rs1), E, runes_string_of_runes. Qed.

Lemma string_of_runes_app rs1 rs2 :
  string_of_runes (rs1 ++ rs2)%list = string_of_runes rs1 +:+ string_of_runes rs2.
Proof. unfold string_of_runes. by rewrite bind_app, of_bytes_app. Qed.

Lemma string_of_runes_snoc rs r :
  string_of_runes (rs ++ [r])%list = string_of_runes rs +:+ string_of_rune r.
Proof.
  rewrite string_of_runes_app. f_equal. unfold string_of_runes, string_of_rune. cbn.
  by rewrite app_nil_r.
Qed.

#[export] Hint Resolve runes_valid runes_string_of_runes string_of_runes_inj : j7f.

Example decode_chinese : runes "敏a" = [0x654F; 0x61].
Proof. reflexivity. Qed.
Example decode_invalid : runes (of_bytes [0xE6; 0x41; 0xC0]) = [rune_error; 0x41; rune_error].
Proof. reflexivity. Qed.

(** ** Decimal numbers: [strconv] *)

(** The ASCII digits of [n], most significant first, in front of [acc]; 20
    digits are enough for any 64-bit value. *)
Fixpoint digits (fuel : nat) (n : Z) (acc : list Z) : list Z :=
  match fuel with
  | O => acc
  | S f => let acc := (48 + n mod 10) :: acc in
           if n / 10 =? 0 then acc else digits f (n / 10) acc
  end.

Definition Itoa (n : Z) : string :=
  of_bytes (if n <? 0 then 45 :: digits 20 (- n) [] else digits 20 n []).

Inductive num_error := ErrSyntax | ErrRange.
#[global] Instance num_error_eq_dec : EqDecision num_error.
Proof. solve_decision. Defined.

Definition max_uint64 : Z := 2 ^ 64 - 1.

Fixpoint parse_uint_loop (n : Z) (l : list Z) : Z * option num_error :=
  match l with
  | [] => (n, None)
  | c :: l =>
      if between 48 57 c then
        if max_uint64 / 10 + 1 <=? n then (max_uint64, Some ErrRange)
        else if max_uint64 <? n * 10 + (c - 48) then (max_uint64, Some ErrRange)
        else parse_uint_loop (n * 10 + (c - 48)) l
      else (0, Some ErrSyntax)
  end.

(** [strconv.ParseUint(s, 10, 64)] on bytes, and on a string. *)
Definition parse_uint (l : list Z) : Z * option num_error :=
  match l with [] => (0, Some ErrSyntax) | _ => parse_uint_loop 0 l end.
Definition ParseUint (s : string) : Z * option num_error := parse_uint (bytes s).

(** [strconv.ParseInt(s, 10, 64)]; [strconv.Atoi] gives the same results. *)
Definition parse_int (l : list Z) : Z * option num_error :=
  match l with
  | [] => (0, Some ErrSyntax)
  | c :: rest =>
      let neg := c =? 45 in
      let '(un, err) := parse_uint (if (c =? 43) || neg then rest else c :: rest) in
      if decide (err = Some ErrSyntax) then (0, Some ErrSyntax)
      else if negb neg && (2 ^ 63 <=? un) then (2 ^ 63 - 1, Some ErrRange)
      else if neg && (2 ^ 63 <? un) then (- 2 ^ 63, Some ErrRange)
      else (if neg then - un else un, None)
  end.
Definition ParseInt (s : string) : Z * option num_error := parse_int (bytes s).
Definition Atoi : string -> Z * option num_error := ParseInt.

Section decimal_round_trip.
#[local] Ltac Zify.zify_post_hook ::= Z.div_mod_to_equations.

Lemma digits_acc f n acc : digits f n acc = (digits f n [] ++ acc)%list.
Proof.
  revert n acc. induction f as [|f IH]; intros n acc; cbn [digits]; [done|].
  case_match; [done|]. by rewrite IH, (IH _ [_]), <- (assoc app).
Qed.

Lemma digits_range f n acc :
  0 <= n -> Forall (fun c => 48 <= c <= 57) acc -> Forall (fun c => 48 <= c <= 57) (digits f n acc).
Proof.
  revert n acc. induction f as [|f IH]; intros n acc Hn Hacc; cbn [digits]; [done|].
  assert (Forall (fun c => 48 <= c <= 57) (48 + n mod 10 :: acc)) by (constructor; [lia|done]).
  case_match; [done|]. apply IH; [lia|done].
Qed.

Lemma digits_bytes f n : 0 <= n -> Forall is_byte (digits f n []).
Proof.
  intros. eapply Forall_impl; [by apply digits_range|]. unfold is_byte. cbn. lia.
Qed.

Lemma digits_nonempty f n acc : digits (S f) n acc <> [].
Proof. cbn [digits]. case_match; [done|]. rewrite digits_acc. by destruct (digits f _ []). Qed.

Lemma parse_uint_loop_digits f n rest :
  0 <= n < 10 ^ Z.of_nat f -> n < 2 ^ 64 ->
  parse_uint_loop 0 (digits f n [] ++ rest)%list = parse_uint_loop n rest.
Proof.
  revert n rest. induction f as [|f IH]; intros n rest Hn Hmax.
  { cbn. by replace n with 0 by lia. }
  assert (forall m, m = n / 10 ->
    parse_uint_loop m (48 + n mod 10 :: rest) = parse_uint_loop n rest) as step.
  { intros m ->. cbn [parse_uint_loop]. unfold between, max_uint64.
    destruct (_ && _) eqn:E1; [|lia].
    destruct (_ <=? n / 10) eqn:E2; [lia|].
    destruct (_ <? n / 10 * 10 + _) eqn:E3; [lia|].
    f_equal. lia. }
  cbn [digits]. destruct (n / 10 =? 0) eqn:E.
  - cbn [app]. apply step. lia.
  - rewrite digits_acc, <- (assoc app). cbn [app].
    rewrite IH; [by apply step| |lia].
    rewrite Nat2Z.inj_succ, Z.pow_succ_r in Hn by lia. lia.
Qed.

Lemma parse_uint_digits n : in_uint64 n -> parse_uint (digits 20 n []) = (n, None).
Proof.
  intros Hn. unfold in_uint64 in Hn.
  pose proof (parse_uint_loop_digits 20 n []) as H. rewrite app_nil_r in H.
  pose proof (digits_nonempty 19 n []).
  unfold parse_uint. destruct (digits 20 n []) eqn:E; [done|].
  rewrite H; [done| |lia]. change (10 ^ Z.of_nat 20) with 100000000000000000000. lia.
Qed.

Lemma Itoa_bytes n :
  bytes (Itoa n) = if n <? 0 then 45 :: digits 20 (- n) [] else digits 20 n [].
Proof.
  unfold Itoa. apply bytes_of_bytes.
  case_match; [constructor; [unfold is_byte; lia|]|]; apply digits_bytes; lia.
Qed.

(** Printing then parsing gives the number back. *)
Lemma ParseUint_Itoa n : in_uint64 n -> ParseUint (Itoa n) = (n, None).
Proof.
  intros Hn. unfold ParseUint. rewrite Itoa_bytes.
  rewrite (proj2 (Z.ltb_ge n 0)) by (unfold in_uint64 in Hn; lia).
  by apply parse_uint_digits.
Qed.

Lemma ParseInt_Itoa n : in_int64 n -> ParseInt (Itoa n) = (n, None).
Proof.
  intros Hn. unfold in_int64 in Hn. unfold ParseInt, parse_int. rewrite Itoa_bytes.
  destruct (n <? 0) eqn:En.
  - cbn [Z.eqb Pos.eqb orb]. rewrite parse_uint_digits by (unfold in_uint64; lia).
    rewrite decide_False by done. cbn [negb andb].
    destruct (_ <? - n) eqn:E; [lia|]. f_equal. lia.
  - pose proof (digits_range 20 n [] ltac:(lia) ltac:(constructor)) as Hr.
    pose proof (digits_nonempty 19 n []).
    pose proof (parse_uint_digits n) as Hp.
    destruct (digits 20 n []) as [|c l]; [done|]. inversion Hr; subst.
    replace (c =? 45) with false by lia. replace (c =? 43) with false by lia. cbn [orb].
    rewrite Hp by (unfold in_uint64; lia). rewrite decide_False by done. cbn [negb andb].
    destruct (_ <=? n) eqn:E; [lia|]. done.
Qed.
End decimal_round_trip.

Example Itoa_ex : (Itoa 0, Itoa (-120), Itoa 20240131) = ("0", "-120", "20240131")%string.
Proof. reflexivity. Qed.
Example ParseUint_ex :
  (ParseUint "18446744073709551615", ParseUint "18446744073709551616", ParseUint "-1", ParseUint "")%string
  = ((2 ^ 64 - 1, None), (2 ^ 64 - 1, Some ErrRange), (0, Some ErrSyntax), (0, Some ErrSyntax)).
Proof. reflexivity. Qed.

(** ** Searching: [strings.Index], [strings.LastIndex], [strings.Contains] *)

Fixpoint starts_with (p l : list Z) : bool :=
  match p, l with
  | [], _ => true
  | a :: p, b :: l => (a =? b) && starts_with p l
  | _ :: _, [] => false
  end.

Fixpoint index_from (i : Z) (p l : list Z) : Z :=
  if starts_with p l then i
  else match l with [] => -1 | _ :: l => index_from (i + 1) p l end.

Fixpoint last_index_from (i acc : Z) (p l : list Z) : Z :=
  let acc := if starts_with p l then i else acc in
  match l with [] => acc | _ :: l => last_index_from (i + 1) acc p l end.

Definition Index (s sub : string) : Z := index_from 0 (bytes sub) (bytes s).
Definition LastIndex (s sub : string) : Z := last_index_from 0 (-1) (bytes sub) (bytes s).
Definition Contains_sub (s sub : string) : bool := 0 <=? Index s sub.

(** [s[lo:hi]]. *)
Definition slice_string (s : string) (lo hi : nat) : outcome string :=
  of_bytes <$> slice (bytes s) lo hi.


(** *** One byte *)

Lemma starts_with_one c l : starts_with [c] l = match l with [] => false | b :: _ => c =? b end.
Proof. destruct l as [|b l]; [done|]. cbn. apply andb_true_r. Qed.

Lemma index_from_one i c l1 l2 :
  c ∉ l1 -> index_from i [c] (l1 ++ c :: l2)%list = i + Z.of_nat (length l1).
Proof.
  revert i. induction l1 as [|b l1 IH]; intros i Hc.
  - cbn. rewrite Z.eqb_refl. cbn. lia.
  - apply not_elem_of_cons in Hc as [Hb Hc]. cbn [app index_from]. rewrite starts_with_one.
    rewrite (proj2 (Z.eqb_neq c b)) by done. rewrite IH by done. cbn. lia.
Qed.

Lemma index_from_none i c l : c ∉ l -> index_from i [c] l = -1.
Proof.
  revert i. induction l as [|b l IH]; intros i Hc; [done|].
  apply not_elem_of_cons in Hc as [Hb Hc]. cbn [index_from]. rewrite starts_with_one.
  rewrite (proj2 (Z.eqb_neq c b)) by done. by apply IH.
Qed.

Lemma last_index_from_none i acc c l : c ∉ l -> last_index_from i acc [c] l = acc.
Proof.
  revert i. induction l as [|b l IH]; intros i Hc; [done|].
  apply not_elem_of_cons in Hc as [Hb Hc]. cbn [last_index_from]. rewrite starts_with_one.
  rewrite (proj2 (Z.eqb_neq c b)) by done. by apply IH.
Qed.

Lemma last_index_from_one i acc c l1 l2 :
  c ∉ l2 -> last_index_from i acc [c] (l1 ++ c :: l2)%list = i + Z.of_nat (length l1).
Proof.
  intros Hc. revert i acc. induction l1 as [|b l1 IH]; intros i acc.
  - cbn. rewrite Z.eqb_refl. cbn. rewrite last_index_from_none by done. lia.
  - cbn [app last_index_from length]. rewrite IH. lia.
Qed.
