(* ===== verification/Trie.v ===== *)
(** * The sensitive-word trie ([src/components/trie/trie.go])

    [Module Node] models a trie node and the walks [Add], [cycleDel] and
    [cycleRead] make over it; [Module Trie] models the whole structure with its
    two white lists and [Query]. A [*sync.Map] from runes to nodes is a [gmap];
    nodes are reached through one path only (every node is made by
    [NewTrieNode] inside [LoadOrStore]), so a tree of values stands for the
    pointers. One goroutine at a time uses the trie here; the file
    TrieConcurrent has several. *)

From S2P Require Import Prelude GoStrings.
#[local] Set Warnings "-register-all".

(** ** Nodes *)

Module Node.

(** [type Node struct { Node *sync.Map; End bool }] *)
Inductive Node := mkNode { children : gmap rune Node; End_ : bool }.

Definition NewTrieNode : Node := mkNode ∅ false.

(** The loop of [Trie.Add]: load or create the child for each rune, then mark
    the last node. *)
Fixpoint AddChars (node : Node) (chars : list rune) : Node :=
  match chars with
  | [] => mkNode (children node) true
  | char :: chars =>
      let nodeChar := default NewTrieNode (children node !! char) in
      mkNode (<[char := AddChars nodeChar chars]> (children node)) (End_ node)
  end.

(** [cycleDel(node, chars, index)], with [chars] the runes from [index] on, so
    that [index + 1 < l] reads [chars <> []]; it returns the node with its
    deletions and [shouldDel]. *)
Fixpoint cycleDel (node : Node) (chars : list rune) : Node * bool :=
  match chars with
  | [] => (node, false)
  | char :: chars =>
      match children node !! char with
      | None => (node, false)
      | Some nodeChar =>
          if negb (bool_decide (chars = [])) && negb (End_ nodeChar) then
            let '(nodeChar, shouldDel) := cycleDel nodeChar chars in
            if shouldDel then (mkNode (delete char (children node)) (End_ node), true)
            else (mkNode (<[char := nodeChar]> (children node)) (End_ node), false)
          else if End_ nodeChar then (mkNode (delete char (children node)) (End_ node), true)
          else (node, false)
      end
  end.

(** [cycleRead(node, words, parentWord)]: the callback of [Range] appends the
    word of an end node, then the words below it. *)
Fixpoint cycleRead {RO : RangeOrder} (node : Node) (words : list string)
    (parentWord : string) {struct node} : list string :=
  foldl (fun words '(char, (isEnd, readChild)) =>
           let word := parentWord +:+ string_of_rune char in
           readChild (if (isEnd : bool) then words ++ [word] else words) word)
    words
    (range ((fun nodeChar => (End_ nodeChar, cycleRead nodeChar)) <$> children node)).

(** Abstract view of a node: the runes read from it along a path. *)
Fixpoint walk (node : Node) (w : list rune) : option Node :=
  match w with
  | [] => Some node
  | c :: w => match children node !! c with Some n => walk n w | None => None end
  end.

(** Does the path [w] lead to an end node? *)
Definition end_at (node : Node) (w : list rune) : bool :=
  match walk node w with Some n => End_ n | None => false end.

Definition is_keyword (node : Node) (w : list rune) : bool :=
  negb (bool_decide (w = [])) && end_at node w.

(** Is some non-empty prefix of [w] a keyword? *)
Definition has_keyword_prefix (node : Node) (w : list rune) : bool :=
  existsb (fun k => is_keyword node (take k w)) (seq 1 (length w)).

(** The lengths, at least 2, of the keywords that [cs] starts with. *)
Definition keyword_lengths (node : Node) (cs : list rune) : list nat :=
  List.filter (fun m => is_keyword node (take m cs)) (seq 2 (length cs - 1)).

(** What [Query] is expected to mask at the start of [cs]: the longest keyword
    of two runes or more; where the whole of [cs] is a path of the trie, only
    [cs] itself is considered. *)
Definition best_match (node : Node) (cs : list rune) : option nat :=
  match walk node cs with
  | Some _ => if is_keyword node cs && (2 <=? length cs) then Some (length cs) else None
  | None => last (keyword_lengths node cs)
  end.

(** The reference for [Query] without white lists: scan from the left, mask the
    best match at each position, go on after it. [skip] counts the runes of the
    last match that are still to be masked. *)
Fixpoint censor (node : Node) (skip : nat) (cs : list rune) : list (list rune) * list rune :=
  match cs with
  | [] => ([], [])
  | c :: cs' =>
      match skip with
      | S k => let '(found, out) := censor node k cs' in (found, 42%Z :: out)
      | O =>
          match best_match node cs with
          | Some m => let '(found, out) := censor node (m - 1) cs' in
                      (take m cs :: found, 42%Z :: out)
          | None => let '(found, out) := censor node 0 cs' in (found, c :: out)
          end
      end
  end.

End Node.

(** ** The trie *)

Module Trie.
Import Node.

(** [type Trie struct]; the white lists are tries or nil. *)
Inductive Trie := mkTrie {
  Root : Node;
  CheckWhiteList : bool;
  WhitePrefix : option Trie;
  WhiteSuffix : option Trie
}.

Definition NewTrie : Trie := mkTrie NewTrieNode false None None.

Definition with_root (t : Trie) (root : Node) : Trie :=
  mkTrie root (CheckWhiteList t) (WhitePrefix t) (WhiteSuffix t).

Definition Add (t : Trie) (keyword : string) : Trie :=
  let chars := runes keyword in
  if length chars =? 0 then t else with_root t (AddChars (Root t) chars).

Definition Del (t : Trie) (keyword : string) : Trie :=
  let chars := runes keyword in
  if length chars =? 0 then t else with_root t (cycleDel (Root t) chars).1.

Definition ReadAll {RO : RangeOrder} (t : Trie) : list string :=
  cycleRead (Root t) [] "".

(** The result of [Query]: is there a word, the words, the masked text. *)
Abbreviation answer := (bool * list string * string)%type.

(** [for k := i; k <= j; k++ { chars[k] = 42 }], for [n] values of [k]. *)
Fixpoint fill_asterisks (n k : nat) (chars : list rune) : outcome (list rune) :=
  match n with
  | O => Ret chars
  | S n => chars ← store chars k 42%Z; fill_asterisks n (S k) chars
  end.

Definition replaceToAsterisk (found : list string) (chars : list rune) (i j : nat)
    : outcome (list string * list rune) :=
  tmpFound ← slice chars i (j + 1);
  let found := found ++ [string_of_runes tmpFound] in
  chars ← fill_asterisks (j + 1 - i) i chars;
  Ret (found, chars).

(** The white-list checks; [query] is [WhitePrefix.Query] or
    [WhiteSuffix.Query]. *)
Definition isInWhitePreffixList (query : string -> outcome answer) (found : list string)
    (chars : list rune) (i j len : nat) : outcome bool :=
  if i =? 0 then Ret false
  else
    let prefixPos := if i <? 4 then 0 else i - 4 in
    prefixWords ← slice chars prefixPos (i + 1);
    '(existed, _, respChars) ← query (string_of_runes prefixWords);
    if (existed : bool) then
      let tmp := runes respChars in
      c ← index_z tmp (Z.of_nat (length tmp) - 1);
      Ret (bool_decide (c = 42%Z))
    else Ret false.

Definition isInWhiteSuffixList (query : string -> outcome answer) (found : list string)
    (chars : list rune) (i j len : nat) : outcome bool :=
  if j + 1 =? len then Ret false
  else
    let suffixPos := if len <? j + 5 then len else j + 5 in
    suffixWords ← slice chars j suffixPos;
    '(existed, _, respChars) ← query (string_of_runes suffixWords);
    if (existed : bool) then
      let tmp := runes respChars in
      c ← index tmp 0;
      Ret (bool_decide (c = 42%Z))
    else Ret false.

Definition isInWhiteList (queryPrefix querySuffix : string -> outcome answer)
    (found : list string) (chars : list rune) (i j len : nat) : outcome bool :=
  inWhiteList ← isInWhitePreffixList queryPrefix found chars i j len;
  if (inWhiteList : bool) then Ret true
  else isInWhiteSuffixList querySuffix found chars i j len.

Section query_loops.
(** The type of [t.isInWhiteList]; [l] is [len(chars)]. *)
Context (root : Node) (check : bool)
        (white : list string -> list rune -> nat -> nat -> nat -> outcome bool) (l : nat).

(** The two places that mask [chars[i..e]] unless it is white-listed, and
    then set [i = e]. *)
Definition mask (found : list string) (chars : list rune) (i e : nat)
    : outcome (nat * list string * list rune) :=
  w ← (if check then white found chars i e l else Ret false);
  if (w : bool) then Ret (e, found, chars)
  else '(found, chars) ← replaceToAsterisk found chars i e; Ret (e, found, chars).

(** [for j = i + 1; j < l; j++], with [k = l - j] rounds left; returns [i],
    [found] and [chars]. *)
Fixpoint inner_loop (k : nat) (node : Node) (found : list string) (chars : list rune)
    (i j jj : nat) : outcome (nat * list string * list rune) :=
  match k with
  | O => Ret (i, found, chars)
  | S k =>
      c ← index chars j;
      match children node !! c with
      | None => if 0 <? jj then mask found chars i jj else Ret (i, found, chars)
      | Some node =>
          if End_ node then
            if j + 1 =? l then mask found chars i j
            else inner_loop k node found chars i (j + 1) j
          else inner_loop k node found chars i (j + 1) jj
      end
  end.

(** [for i = 0; i < l; i++]; the node is the root again at each round. *)
Fixpoint outer_loop (fuel : nat) (found : list string) (chars : list rune) (i : nat)
    : outcome (list string * list rune) :=
  if i <? l then
    match fuel with
    | O => Hang
    | S fuel =>
        c ← index chars i;
        match children root !! c with
        | None => outer_loop fuel found chars (i + 1)
        | Some node =>
            '(i, found, chars) ← inner_loop (l - (i + 1)) node found chars i (i + 1) 0;
            outer_loop fuel found chars (i + 1)
        end
    end
  else Ret (found, chars).
End query_loops.

(** [Query] on a nil [*Trie]: only an empty text is answered before [t.Root] is
    read. *)
Definition nil_Query (text : string) : outcome answer :=
  if length (runes text) =? 0 then Ret (false, [], text) else Panic NilDereference.

Fixpoint Query (t : Trie) (text : string) : outcome answer :=
  let chars := runes text in
  let l := length chars in
  if l =? 0 then Ret (false, [], text)
  else
    let white := isInWhiteList
      (match WhitePrefix t with Some p => Query p | None => nil_Query end)
      (match WhiteSuffix t with Some s => Query s | None => nil_Query end) in
    '(found, chars) ← outer_loop (Root t) (CheckWhiteList t) white l l [] chars 0;
    Ret (0 <? length found, found, string_of_runes chars).

End Trie.

(** ** Facts on nodes *)

Module NodeFacts.
Import Node.

Lemma end_at_nil n : end_at n [] = End_ n.
Proof. done. Qed.

Lemma end_at_cons n c w :
  end_at n (c :: w) = match children n !! c with Some m => end_at m w | None => false end.
Proof. unfold end_at. cbn. by destruct (children n !! c). Qed.

Lemma walk_app n w v : walk n (w ++ v) = walk n w ≫= fun m => walk m v.
Proof.
  revert n. induction w as [|c w IH]; intros n; [done|]. cbn. by destruct (children n !! c).
Qed.

Lemma end_at_app n m w v : walk n w = Some m -> end_at n (w ++ v) = end_at m v.
Proof. intros Hw. unfold end_at. by rewrite walk_app, Hw. Qed.

Lemma is_keyword_spec n w : is_keyword n w = true <-> w <> [] /\ end_at n w = true.
Proof.
  unfold is_keyword. rewrite andb_true_iff, negb_true_iff, bool_decide_eq_false. done.
Qed.

Lemma is_keyword_walk n w : is_keyword n w = true -> is_Some (walk n w).
Proof. rewrite is_keyword_spec. unfold end_at. destruct (walk n w); naive_solver. Qed.

Lemma end_at_NewTrieNode w : end_at NewTrieNode w = false.
Proof. destruct w; done. Qed.

(** Adding a word makes that word, and no other, a keyword. *)
Lemma end_at_AddChars n cs w : end_at (AddChars n cs) w = bool_decide (w = cs) || end_at n w.
Proof.
  revert n w. induction cs as [|c cs IH]; intros n w.
  - destruct w as [|d w]; [done|]. rewrite bool_decide_eq_false_2 by done. done.
  - cbn [AddChars]. destruct w as [|d w]; [rewrite bool_decide_eq_false_2; done|].
    rewrite !end_at_cons. cbn [children]. destruct (decide (c = d)) as [<-|Hne].
    + rewrite lookup_insert_eq, IH. destruct (children n !! c) as [m|]; cbn [default].
      * f_equal. by apply bool_decide_ext; naive_solver.
      * rewrite end_at_NewTrieNode. f_equal. apply bool_decide_ext; naive_solver.
    + rewrite lookup_insert_ne by done. rewrite bool_decide_eq_false_2 by naive_solver. done.
Qed.

Lemma walk_AddChars n cs w :
  is_Some (walk (AddChars n cs) w) <-> w `prefix_of` cs \/ is_Some (walk n w).
Proof.
  revert n w. induction cs as [|c cs IH]; intros n w.
  - destruct w as [|d w]; [cbn; split; eauto|]. cbn. split; [by right|].
    intros [H%prefix_nil_inv|H]; done.
  - destruct w as [|d w]; [cbn; split; intros; [left; apply prefix_nil|done]|].
    cbn [AddChars walk children]. destruct (decide (c = d)) as [<-|Hne].
    + rewrite lookup_insert_eq, IH.
      destruct (children n !! c) as [m|]; cbn [default].
      * split; (intros [Hp|Hp]; [left|by right]); [by apply prefix_cons|by eapply prefix_cons_inv_2].
      * split.
        -- intros [H|H]; [left; by apply prefix_cons|]. destruct w; [left|]; cbn in H.
           ++ apply prefix_cons, prefix_nil.
           ++ rewrite lookup_empty in H. by destruct H.
        -- intros [H|[? H]]; [left; by eapply prefix_cons_inv_2|done].
    + rewrite lookup_insert_ne by done. split; [by right|].
      intros [H|H]; [|done]. apply prefix_cons_inv_1 in H. by subst.
Qed.

Lemma has_keyword_prefix_spec n w :
  has_keyword_prefix n w = true <-> exists p, p `prefix_of` w /\ is_keyword n p = true.
Proof.
  unfold has_keyword_prefix. rewrite existsb_exists. split.
  - intros (k & _ & Hk). exists (take k w). split; [apply prefix_take|done].
  - intros (p & [q ->] & Hp). exists (length p). rewrite take_app_length. split; [|done].
    apply in_seq. rewrite length_app. destruct p; [done|cbn; lia].
Qed.

Lemma has_keyword_prefix_cons n c w :
  has_keyword_prefix n (c :: w) = true <->
  exists m, children n !! c = Some m /\ (End_ m = true \/ has_keyword_prefix m w = true).
Proof.
  rewrite has_keyword_prefix_spec. split.
  - intros (p & Hp & [Hne He]%is_keyword_spec). destruct p as [|d p]; [done|].
    pose proof (prefix_cons_inv_1 _ _ _ _ Hp) as ->. apply prefix_cons_inv_2 in Hp.
    rewrite end_at_cons in He. destruct (children n !! c) as [m|]; [|done].
    exists m. split; [done|]. destruct p as [|d p]; [by left|right].
    apply has_keyword_prefix_spec. exists (d :: p). split; [done|]. by apply is_keyword_spec.
  - intros (m & Hm & [He|(p & Hp & [Hne He]%is_keyword_spec)%has_keyword_prefix_spec]).
    + exists [c]. split; [by apply prefix_cons, prefix_nil|].
      apply is_keyword_spec. by rewrite end_at_cons, Hm.
    + exists (c :: p). split; [by apply prefix_cons|].
      apply is_keyword_spec. by rewrite end_at_cons, Hm.
Qed.

Lemma cycleDel_cons n c w :
  cycleDel n (c :: w) =
  match children n !! c with
  | None => (n, false)
  | Some m =>
      if negb (bool_decide (w = [])) && negb (End_ m) then
        (if (cycleDel m w).2 then (mkNode (delete c (children n)) (End_ n), true)
         else (mkNode (<[c := (cycleDel m w).1]> (children n)) (End_ n), false))
      else if End_ m then (mkNode (delete c (children n)) (End_ n), true)
      else (n, false)
  end.
Proof. cbn. repeat case_match; simplify_eq; done. Qed.

(** The recursive deletion, in one equation: when some prefix of the word is a
    keyword, the whole branch of its first rune goes; otherwise nothing. *)
Lemma cycleDel_eq n c w :
  cycleDel n (c :: w) =
  if has_keyword_prefix n (c :: w)
  then (mkNode (delete c (children n)) (End_ n), true) else (n, false).
Proof.
  revert n c. induction w as [|d w IH]; intros n c; rewrite cycleDel_cons.
  - destruct (has_keyword_prefix n [c]) eqn:E.
    + apply has_keyword_prefix_cons in E as (m & -> & [->|E]); done.
    + destruct (children n !! c) as [m|] eqn:Hm; [|done]. cbn.
      destruct (End_ m) eqn:He; [|done].
      assert (has_keyword_prefix n [c] = true); [|congruence].
      apply has_keyword_prefix_cons. eauto.
  - destruct (children n !! c) as [m|] eqn:Hm.
    2:{ destruct (has_keyword_prefix n (c :: d :: w)) eqn:E; [|done].
        apply has_keyword_prefix_cons in E as (? & ? & _). congruence. }
    rewrite bool_decide_eq_false_2 by done. cbn [negb andb].
    destruct (End_ m) eqn:He; cbn [negb].
    + replace (has_keyword_prefix n (c :: d :: w)) with true; [done|].
      symmetry. apply has_keyword_prefix_cons. eauto.
    + rewrite (IH m d).
      destruct (has_keyword_prefix m (d :: w)) eqn:E.
      * replace (has_keyword_prefix n (c :: d :: w)) with true; [done|].
        symmetry. apply has_keyword_prefix_cons. eauto.
      * replace (has_keyword_prefix n (c :: d :: w)) with false.
        -- rewrite insert_id by done. by destruct n.
        -- symmetry. apply not_true_iff_false. intros (? & ? & ?)%has_keyword_prefix_cons.
           naive_solver congruence.
Qed.

Lemma end_at_delete n c w :
  end_at (mkNode (delete c (children n)) (End_ n)) w = end_at n w && negb (bool_decide (head w = Some c)).
Proof.
  destruct w as [|d w]; [by rewrite !end_at_nil, andb_true_r|].
  rewrite !end_at_cons. cbn [children head]. destruct (decide (d = c)) as [->|Hne].
  - rewrite lookup_delete_eq, bool_decide_eq_true_2 by done. by rewrite andb_false_r.
  - rewrite lookup_delete_ne, bool_decide_eq_false_2 by congruence. by rewrite andb_true_r.
Qed.

(** *** Well-formed nodes

    Below the root every node lies on the path of a keyword, and the runes of
    the paths are scalar values. [Add] and [Del] keep this. *)
Definition wf (n : Node) : Prop :=
  forall w, w <> [] -> is_Some (walk n w) ->
  valid_runes w /\ exists v, end_at n (w ++ v) = true.

Lemma wf_NewTrieNode : wf NewTrieNode.
Proof. intros [|c w] Hw [m Hm]; [done|]. cbn in Hm. by rewrite lookup_empty in Hm. Qed.

Lemma wf_AddChars n cs : wf n -> valid_runes cs -> wf (AddChars n cs).
Proof.
  intros Hn Hcs w Hw [[q ->]|Hs]%walk_AddChars.
  - split; [by apply Forall_app in Hcs as [? _]|]. exists q.
    by rewrite end_at_AddChars, bool_decide_eq_true_2.
  - destruct (Hn w Hw Hs) as [Hv [v Hend]]. split; [done|]. exists v.
    by rewrite end_at_AddChars, Hend, orb_true_r.
Qed.

Lemma wf_cycleDel n cs : wf n -> wf (cycleDel n cs).1.
Proof.
  intros Hn. destruct cs as [|c cs]; [done|]. rewrite cycleDel_eq.
  destruct (has_keyword_prefix n (c :: cs)); [|done]. cbn [fst].
  intros [|d w] Hw [m Hm]; [done|]. cbn [walk children] in Hm.
  destruct (decide (d = c)) as [->|Hne]; [by rewrite lookup_delete_eq in Hm|].
  rewrite lookup_delete_ne in Hm by done.
  destruct (Hn (d :: w) Hw) as [Hv [v Hend]]; [by eexists|]. split; [done|]. exists v.
  rewrite end_at_delete, Hend. cbn. by rewrite bool_decide_eq_false_2 by congruence.
Qed.
End NodeFacts.

(** ** Reading all words *)

Module ReadFacts.
Import Node NodeFacts.

Fixpoint node_size (n : Node) : nat :=
  S (map_fold (fun _ child acc => node_size child + acc) 0 (children n)).

Lemma map_fold_sum_le {V} (f : V -> nat) (m : gmap rune V) c v :
  m !! c = Some v -> f v <= map_fold (fun _ v acc => f v + acc) 0 m.
Proof.
  revert c v. apply (map_fold_weak_ind (fun r m => forall c v, m !! c = Some v -> f v <= r)).
  - intros c v. by rewrite lookup_empty.
  - intros i x m' r Hi IH c v. rewrite lookup_insert. case_decide; intros.
    + simplify_eq. lia.
    + specialize (IH c v ltac:(done)). lia.
Qed.

(** Induction on nodes: the children come with the hypothesis. *)
Lemma Node_child_ind (P : Node -> Prop) :
  (forall n, (forall c m, children n !! c = Some m -> P m) -> P n) -> forall n, P n.
Proof.
  intros step n. remember (node_size n) as k eqn:Hk. revert n Hk.
  induction k as [k IH] using lt_wf_ind. intros n ->. apply step. intros c m Hm.
  eapply IH; [|done]. apply (map_fold_sum_le node_size) in Hm.
  assert (node_size n = S (map_fold (fun _ child acc => node_size child + acc) 0 (children n))) as E
    by (by destruct n).
  lia.
Qed.

Section with_order.
Context {RO : RangeOrder}.

(** The words read below the child at [char]. *)
Definition child_words (parentWord : string)
    (entry : rune * (bool * (list string -> string -> list string))) : list string :=
  let '(char, (isEnd, readChild)) := entry in
  let word := parentWord +:+ string_of_rune char in
  (if isEnd then [word] else []) ++ readChild [] word.

Lemma foldl_appends {A} (g : list string -> A -> list string) (h : A -> list string) l words :
  (forall x ws, x ∈ l -> g ws x = ws ++ h x) -> foldl g words l = words ++ (l ≫= h).
Proof.
  revert words. induction l as [|x l IH]; intros words Hg; cbn; [by rewrite app_nil_r|].
  rewrite Hg by left. rewrite IH by (intros; apply Hg; by right). by rewrite (assoc app).
Qed.

Lemma cycleRead_eq n words parentWord :
  cycleRead n words parentWord =
  words ++ (range ((fun m => (End_ m, cycleRead m)) <$> children n) ≫= child_words parentWord).
Proof.
  revert words parentWord. induction n as [n IH] using Node_child_ind. intros words parentWord.
  destruct n as [cs e]. cbn [cycleRead children] in *. apply foldl_appends.
  intros [c [isEnd readChild]] ws (m & Hm & Hc)%elem_of_range%lookup_fmap_Some. simplify_eq.
  cbn [child_words]. rewrite (IH c m Hc (if End_ m then _ else ws)), (IH c m Hc []).
  destruct (End_ m); cbn; by rewrite <- ?(assoc app).
Qed.

Lemma elem_of_cycleRead n p s :
  s ∈ cycleRead n [] (string_of_runes p) <->
  exists w, is_keyword n w = true /\ s = string_of_runes (p ++ w).
Proof.
  revert p. induction n as [n IH] using Node_child_ind. intros p.
  rewrite cycleRead_eq. cbn [app]. rewrite list_elem_of_bind. split.
  - intros ([c [isEnd readChild]] & Hs & (m & Hm & Hc)%elem_of_range%lookup_fmap_Some).
    simplify_eq. cbn [child_words] in Hs. rewrite <- string_of_runes_snoc in Hs.
    apply elem_of_app in Hs as [Hs|Hs].
    + destruct (End_ m) eqn:He; [|by apply elem_of_nil in Hs].
      apply list_elem_of_singleton in Hs as ->. exists [c].
      split; [|done]. apply is_keyword_spec. by rewrite end_at_cons, Hc.
    + apply (IH c m Hc) in Hs as (w & [_ Hw]%is_keyword_spec & ->).
      exists (c :: w). rewrite <- (assoc app). split; [|done].
      apply is_keyword_spec. by rewrite end_at_cons, Hc.
  - intros (w & [Hne Hw]%is_keyword_spec & ->). destruct w as [|c w]; [done|].
    rewrite end_at_cons in Hw. destruct (children n !! c) as [m|] eqn:Hc; [|done].
    exists (c, (End_ m, cycleRead m)). split.
    + cbn [child_words]. rewrite <- string_of_runes_snoc. apply elem_of_app.
      destruct w as [|d w].
      * left. rewrite end_at_nil in Hw. rewrite Hw. by apply list_elem_of_singleton.
      * right. apply (IH c m Hc). exists (d :: w). rewrite <- (assoc app).
        split; [|done]. by apply is_keyword_spec.
    + apply elem_of_range. by rewrite lookup_fmap, Hc.
Qed.

Lemma cycleRead_NoDup n p :
  valid_runes p -> (forall w, is_Some (walk n w) -> valid_runes w) ->
  NoDup (cycleRead n [] (string_of_runes p)).
Proof.
  revert p. induction n as [n IH] using Node_child_ind. intros p Hp Hn.
  rewrite cycleRead_eq. cbn [app].
  assert (forall c m, children n !! c = Some m ->
    valid_runes (p ++ [c]) /\ forall w, is_Some (walk m w) -> valid_runes w) as Hchild.
  { intros c m Hc. split.
    - apply Forall_app. split; [done|]. apply Hn. cbn. by rewrite Hc.
    - intros w Hw. specialize (Hn (c :: w)). cbn in Hn. rewrite Hc in Hn.
      by apply Hn in Hw as [_ ?]%Forall_cons. }
  assert (forall c m s, children n !! c = Some m ->
    s ∈ child_words (string_of_runes p) (c, (End_ m, cycleRead m)) ->
    exists w, s = string_of_runes (p ++ c :: w) /\ valid_runes (p ++ c :: w)) as Hform.
  { intros c m s Hc Hs. destruct (Hchild c m Hc) as [Hv Hm]. cbn [child_words] in Hs.
    rewrite <- string_of_runes_snoc in Hs. apply elem_of_app in Hs as [Hs|Hs].
    - destruct (End_ m); [|by apply elem_of_nil in Hs].
      apply list_elem_of_singleton in Hs as ->. by exists [].
    - apply elem_of_cycleRead in Hs as (w & Hw & ->). exists w.
      rewrite <- (assoc app). split; [done|]. rewrite (assoc app _ [c] w).
      apply Forall_app. split; [done|]. by apply Hm, is_keyword_walk. }
  apply NoDup_bind.
  - intros [c1 x1] [c2 x2] s (m1 & Hm1 & Hc1)%elem_of_range%lookup_fmap_Some
      (m2 & Hm2 & Hc2)%elem_of_range%lookup_fmap_Some H1 H2. simplify_eq.
    apply (Hform c1 m1 _ Hc1) in H1 as (w1 & -> & Hv1).
    apply (Hform c2 m2 _ Hc2) in H2 as (w2 & E & Hv2).
    apply string_of_runes_inj in E; [|done|done]. by simplify_list_eq.
  - intros [c [e f]] (m & Hm & Hc)%elem_of_range%lookup_fmap_Some. simplify_eq.
    destruct (Hchild c m Hc) as [Hv Hval]. cbn [child_words].
    rewrite <- string_of_runes_snoc. apply NoDup_app. split; [|split].
    + destruct (End_ m); [apply NoDup_singleton|constructor].
    + intros s Hs Hs'. destruct (End_ m); [|by apply elem_of_nil in Hs].
      apply list_elem_of_singleton in Hs as ->.
      apply elem_of_cycleRead in Hs' as (w & Hw & E).
      apply string_of_runes_inj in E; [|done|].
      * apply is_keyword_spec in Hw as [Hne _]. apply (f_equal length) in E.
        rewrite !length_app in E. destruct w; [done|cbn in E; lia].
      * apply Forall_app. split; [done|]. by apply Hval, is_keyword_walk.
    + by apply (IH c m Hc).
  - eapply NoDup_fmap_1. apply range_fst_NoDup.
Qed.
End with_order.
End ReadFacts.
