(* ===== verification/TrieQuery.v ===== *)
(** * What [Query] does ([src/components/trie/trie.go], lines 86-214)

    [ScanFacts] reduces the inner loop to a scan of the text from the current
    rune, and the scan to [best_match]; [QueryFacts] runs the outer loop. *)

From S2P Require Import Prelude GoStrings Trie.
Import Node NodeFacts.

Module ScanFacts.

(** The inner loop without its bookkeeping: [n] runes were read to reach
    [node], [best] (0 for none) is the longest keyword among them; the result is
    the number of runes to mask. *)
Fixpoint scan (node : Node) (rest : list rune) (n best : nat) : option nat :=
  match rest with
  | [] => None
  | c :: rest =>
      match children node !! c with
      | None => if 0 <? best then Some best else None
      | Some node =>
          if End_ node then
            if bool_decide (rest = []) then Some (S n) else scan node rest (S n) (S n)
          else scan node rest (S n) best
      end
  end.

(** [jj] and [best] say the same: no keyword yet, or one that ends at [jj]. *)
Definition same_best (i j jj best : nat) : Prop :=
  (jj = 0 /\ best = 0) \/ (i < jj < j /\ best = jj - i + 1).

Lemma inner_loop_scan check white l k node found chars i j jj best :
  length chars = l -> i < j -> k = l - j -> j <= l -> same_best i j jj best ->
  Trie.inner_loop check white l k node found chars i j jj =
  match scan node (drop j chars) (j - i) best with
  | Some m => Trie.mask check white l found chars i (i + m - 1)
  | None => Ret (i, found, chars)
  end.
Proof.
  intros Hl. revert node j jj best. induction k as [|k IH]; intros node j jj best Hij Hk Hjl Hb.
  { rewrite drop_ge by lia. done. }
  destruct (lookup_lt_is_Some_2 chars j) as [c Hc]; [lia|].
  cbn [Trie.inner_loop]. rewrite (index_lookup _ _ _ Hc). run.
  rewrite (drop_S _ _ _ Hc). cbn [scan].
  destruct (children node !! c) as [node'|].
  - destruct (End_ node').
    + rewrite (bool_decide_ext _ (j + 1 = l)).
      2:{ rewrite <- length_zero_iff_nil, length_drop. lia. }
      destruct (Nat.eqb_spec (j + 1) l); [rewrite bool_decide_eq_true_2 by done|
        rewrite bool_decide_eq_false_2 by done].
      * f_equal; lia.
      * rewrite (IH node' (j + 1) j (S (j - i))) by (unfold same_best; lia).
        by replace (j + 1 - i) with (S (j - i)) by lia; replace (j + 1) with (S j) by lia.
    + rewrite (IH node' (j + 1) jj best) by (unfold same_best in *; lia).
      by replace (j + 1 - i) with (S (j - i)) by lia; replace (j + 1) with (S j) by lia.
  - destruct Hb as [[-> ->]|[Hjj ->]]; [done|].
    destruct (Nat.ltb_spec 0 jj); [|lia]. destruct (Nat.ltb_spec 0 (jj - i + 1)); [|lia].
    f_equal; lia.
Qed.

(** The last keyword length up to [k], as the loop remembers it. *)
Definition best_upto (root : Node) (cs : list rune) (k : nat) : nat :=
  default 0 (last (List.filter (fun m => is_keyword root (take m cs)) (seq 2 (k - 1)))).

Lemma best_upto_S root cs k :
  1 <= k ->
  best_upto root cs (S k) = if is_keyword root (take (S k) cs) then S k else best_upto root cs k.
Proof.
  intros Hk. unfold best_upto. replace (S k - 1) with (k - 1 + 1) by lia.
  rewrite seq_app, List.filter_app. replace (2 + (k - 1)) with (S k) by lia. cbn.
  destruct (is_keyword root (take (S k) cs)); [by rewrite last_snoc|by rewrite app_nil_r].
Qed.

Lemma filter_keyword_dead root cs k n :
  walk root (take (S k) cs) = None ->
  List.filter (fun m => is_keyword root (take m cs)) (seq (S k) n) = [].
Proof.
  intros Hdead. assert (forall m, S k <= m -> is_keyword root (take m cs) = false) as Hno.
  { intros m Hm. apply not_true_iff_false. intros [x Hx]%is_keyword_walk.
    replace m with (S k + (m - S k)) in Hx by lia. rewrite <- take_take_drop in Hx.
    by rewrite walk_app, Hdead in Hx. }
  revert k Hdead Hno. induction n as [|n IH]; intros k Hdead Hno; [done|]. cbn [seq List.filter].
  rewrite Hno by lia. apply IH; [|intros; apply Hno; lia].
  destruct (walk root (take (S (S k)) cs)) eqn:E; [|done].
  replace (S (S k)) with (S k + 1) in E by lia. rewrite <- take_take_drop, walk_app, Hdead in E.
  done.
Qed.

(** The scan finds what the specification of a match says, whatever part of the
    text was already read. *)
Lemma scan_spec root cs k node :
  1 <= k <= length cs -> walk root (take k cs) = Some node ->
  (k = length cs -> k = 1 \/ End_ node = false) ->
  scan node (drop k cs) k (best_upto root cs k) = best_match root cs.
Proof.
  remember (length cs - k) as n eqn:Hn. revert k node Hn.
  induction n as [|n IH]; intros k node Hn Hk Hw Hlast.
  - rewrite drop_ge by lia. cbn. rewrite take_ge in Hw by lia. unfold best_match. rewrite Hw.
    unfold is_keyword, end_at. rewrite Hw. destruct Hlast as [->| ->]; [lia| |].
    + destruct (Nat.leb_spec 2 (length cs)); [lia|]. by rewrite andb_false_r.
    + by rewrite andb_false_r.
  - destruct (lookup_lt_is_Some_2 cs k) as [c Hc]; [lia|].
    rewrite (drop_S _ _ _ Hc). cbn [scan].
    assert (forall o, children node !! c = o -> walk root (take (S k) cs) = o) as Hstep.
    { intros o <-. rewrite (take_S_r _ _ _ Hc), walk_app, Hw. cbn. by destruct (children node !! c). }
    pose proof (best_upto_S root cs k ltac:(lia)) as Hbest.
    destruct (children node !! c) as [node'|] eqn:Hch; specialize (Hstep _ eq_refl).
    + assert (is_keyword root (take (S k) cs) = End_ node') as Hkw.
      { unfold is_keyword, end_at. rewrite Hstep. rewrite bool_decide_eq_false_2; [done|].
        by destruct cs. }
      rewrite Hkw in Hbest. destruct (decide (drop (S k) cs = [])) as [Hnil|Hnnil].
      * assert (length cs = S k) as HSk.
        { apply (f_equal length) in Hnil. rewrite length_drop in Hnil. cbn in Hnil. lia. }
        rewrite Hnil, bool_decide_eq_true_2 by done. rewrite take_ge in Hstep, Hkw by lia.
        unfold best_match. rewrite Hstep, Hkw, HSk.
        destruct (End_ node'); [|done]. destruct (Nat.leb_spec 2 (S k)); [done|lia].
      * rewrite bool_decide_eq_false_2 by done.
        assert (S k <> length cs) by (intros E; apply Hnnil, drop_ge; lia).
        specialize (IH (S k) node' ltac:(lia) ltac:(lia) Hstep ltac:(lia)).
        rewrite Hbest in IH. by destruct (End_ node').
    + unfold best_match, keyword_lengths.
      destruct (walk root cs) eqn:Hcs.
      { replace cs with (take (S k) cs ++ drop (S k) cs) in Hcs by apply take_drop.
        by rewrite walk_app, Hstep in Hcs. }
      replace (length cs - 1) with ((k - 1) + (length cs - k)) by lia.
      rewrite seq_app, List.filter_app. replace (2 + (k - 1)) with (S k) by lia.
      rewrite (filter_keyword_dead _ _ _ _ Hstep), app_nil_r. unfold best_upto.
      destruct (last _) as [b|] eqn:Hb; [|done]. change (default 0 (Some b)) with b.
      destruct (Nat.ltb_spec 0 b); [done|].
      apply last_Some_elem_of, list_elem_of_In, filter_In in Hb as [Hb _].
      apply in_seq in Hb. lia.
Qed.

(** From the first rune of [cs] on. *)
Corollary scan_best_match root c cs node :
  children root !! c = Some node -> scan node cs 1 0 = best_match root (c :: cs).
Proof.
  intros Hc. apply (scan_spec root (c :: cs) 1 node).
  - cbn. lia.
  - cbn. by rewrite Hc.
  - by left.
Qed.

(** A rune that starts no path starts no match. *)
Lemma best_match_no_child root c cs : children root !! c = None -> best_match root (c :: cs) = None.
Proof.
  intros Hc. unfold best_match. cbn [walk]. rewrite Hc. unfold keyword_lengths.
  cbn [length]. rewrite Nat.sub_succ, Nat.sub_0_r.
  rewrite filter_keyword_dead; [done|]. cbn. by rewrite Hc.
Qed.

(** A match is a keyword of at least two runes, no longer than the text. *)
Lemma best_match_keyword root cs m :
  best_match root cs = Some m -> 2 <= m <= length cs /\ is_keyword root (take m cs) = true.
Proof.
  unfold best_match. destruct (walk root cs).
  - destruct (is_keyword root cs) eqn:E; [|done]. destruct (Nat.leb_spec 2 (length cs)); [|done].
    cbn. intros. simplify_eq. by rewrite take_ge.
  - intros Hm%last_Some_elem_of%list_elem_of_In%filter_In. destruct Hm as [Hm%in_seq Hk].
    split; [lia|done].
Qed.

Lemma last_filter_seq_max (f : nat -> bool) s n x b :
  last (List.filter f (seq s n)) = Some b -> x ∈ List.filter f (seq s n) -> x <= b.
Proof.
  induction n as [|n IH]; [done|]. rewrite seq_S, List.filter_app. cbn.
  destruct (f (s + n)) eqn:Hf.
  - rewrite last_snoc. intros [= <-] [Hx|Hx%list_elem_of_singleton]%elem_of_app; [|lia].
    apply list_elem_of_In, filter_In in Hx as [Hx%in_seq _]. lia.
  - rewrite app_nil_r. exact IH.
Qed.

(** No keyword at the same place is longer. *)
Lemma best_match_longest root cs m m' :
  best_match root cs = Some m -> is_keyword root (take m' cs) = true -> m' <= length cs -> m' <= m.
Proof.
  unfold best_match, keyword_lengths. destruct (walk root cs).
  - repeat case_match; intros; simplify_eq; lia.
  - intros Hm Hk Hlen. destruct (decide (m' < 2)).
    { apply last_Some_elem_of, list_elem_of_In, filter_In in Hm as [Hm%in_seq _]. lia. }
    eapply last_filter_seq_max; [done|]. apply list_elem_of_In, filter_In.
    split; [apply in_seq; lia|done].
Qed.
End ScanFacts.

Module QueryFacts.
Import ScanFacts Trie.

(** [chars] with [m] runes masked from [i] on. *)
Definition mask_text (chars : list rune) (i m : nat) : list rune :=
  take i chars ++ replicate m 42%Z ++ drop (i + m) chars.

Lemma fill_asterisks_eq n k chars :
  k + n <= length chars -> fill_asterisks n k chars = Ret (mask_text chars k n).
Proof.
  unfold mask_text. revert k chars. induction n as [|n IH]; intros k chars Hk.
  { cbn. by rewrite Nat.add_0_r, take_drop. }
  cbn [fill_asterisks]. rewrite store_in by lia. run. rewrite IH by (rewrite length_insert; lia).
  rewrite (take_S_r _ k 42%Z) by (by apply list_lookup_insert_eq; lia).
  rewrite take_insert_ge, drop_insert_lt by lia.
  replace (k + S n) with (S k + n) by lia. by rewrite <- (assoc app).
Qed.

Lemma replaceToAsterisk_eq found chars i m :
  1 <= m -> i + m <= length chars ->
  replaceToAsterisk found chars i (i + m - 1) =
  Ret (found ++ [string_of_runes (take m (drop i chars))], mask_text chars i m).
Proof.
  intros Hm Hi. unfold replaceToAsterisk. rewrite slice_in by lia. run.
  replace (i + m - 1 + 1 - i) with m by lia. by rewrite fill_asterisks_eq by lia.
Qed.

Section mask_text.
Implicit Types chars : list rune.

Lemma mask_text_length chars i m : i + m <= length chars -> length (mask_text chars i m) = length chars.
Proof.
  intros. unfold mask_text. rewrite !length_app, length_take, length_replicate, length_drop. lia.
Qed.

Lemma mask_text_drop chars i m :
  i + m <= length chars -> drop (i + m) (mask_text chars i m) = drop (i + m) chars.
Proof.
  intros. unfold mask_text. rewrite (assoc app). apply drop_app_length'.
  rewrite length_app, length_take, length_replicate. lia.
Qed.

Lemma mask_text_take chars i m :
  i + m <= length chars -> take (i + m) (mask_text chars i m) = take i chars ++ replicate m 42%Z.
Proof.
  intros. unfold mask_text. rewrite (assoc app). apply take_app_length'.
  rewrite length_app, length_take, length_replicate. lia.
Qed.

Lemma mask_text_lookup chars i m p :
  i + m <= length chars ->
  mask_text chars i m !! p = if decide (i <= p < i + m) then Some 42%Z else chars !! p.
Proof.
  intros Hm. unfold mask_text. case_decide.
  - rewrite lookup_app_r; rewrite length_take; [|lia].
    rewrite lookup_app_l by (rewrite length_replicate; lia).
    apply lookup_replicate. split; [done|lia].
  - destruct (decide (p < i)).
    + rewrite lookup_app_l by (rewrite length_take; lia). by apply lookup_take_lt.
    + rewrite (assoc app), lookup_app_r; rewrite length_app, length_take, length_replicate; [|lia].
      rewrite lookup_drop. f_equal. lia.
Qed.
End mask_text.

(** *** One round of the outer loop *)

Lemma round_match root check white l found chars i c m :
  length chars = l -> chars !! i = Some c ->
  best_match root (drop i chars) = Some m ->
  exists node, children root !! c = Some node /\
  inner_loop check white l (l - (i + 1)) node found chars i (i + 1) 0 =
  mask check white l found chars i (i + m - 1).
Proof.
  intros Hl Hc Hm. rewrite (drop_S _ _ _ Hc) in Hm.
  destruct (children root !! c) as [node|] eqn:Hn.
  2:{ by rewrite best_match_no_child in Hm. }
  pose proof (lookup_lt_Some _ _ _ Hc). exists node. split; [done|].
  rewrite (inner_loop_scan check white l _ node found chars i (i + 1) 0 0)
    by (unfold same_best; lia).
  replace (i + 1) with (S i) by lia. replace (S i - i) with 1 by lia.
  by rewrite (scan_best_match root c), Hm.
Qed.

Lemma round_no_match root check white l found chars i c :
  length chars = l -> chars !! i = Some c ->
  best_match root (drop i chars) = None ->
  match children root !! c with
  | None => True
  | Some node =>
      inner_loop check white l (l - (i + 1)) node found chars i (i + 1) 0 = Ret (i, found, chars)
  end.
Proof.
  intros Hl Hc Hm. destruct (children root !! c) as [node|] eqn:Hn; [|done].
  pose proof (lookup_lt_Some _ _ _ Hc). rewrite (drop_S _ _ _ Hc) in Hm.
  rewrite (inner_loop_scan check white l _ node found chars i (i + 1) 0 0)
    by (unfold same_best; lia).
  replace (i + 1) with (S i) by lia. replace (S i - i) with 1 by lia.
  by rewrite (scan_best_match root c), Hm.
Qed.

Lemma match_in_text root chars i m :
  best_match root (drop i chars) = Some m -> 2 <= m /\ i + m <= length chars.
Proof. intros [Hm _]%best_match_keyword. rewrite length_drop in Hm. lia. Qed.

(** *** Without white lists: [censor] *)

Lemma censor_skip root k cs :
  k <= length cs ->
  censor root k cs =
  ((censor root 0 (drop k cs)).1, replicate k 42%Z ++ (censor root 0 (drop k cs)).2).
Proof.
  revert cs. induction k as [|k IH]; intros cs Hk.
  { rewrite drop_0. cbn. by destruct (censor root 0 cs). }
  destruct cs as [|c cs]; [cbn in Hk; lia|]. cbn [censor drop replicate app]. cbn in Hk.
  rewrite IH by lia. done.
Qed.

Lemma outer_loop_censor root white l fuel found chars i :
  length chars = l -> l - i <= fuel ->
  outer_loop root false white l fuel found chars i =
  Ret (found ++ map string_of_runes (censor root 0 (drop i chars)).1,
       take i chars ++ (censor root 0 (drop i chars)).2).
Proof.
  intros Hl. revert found chars i Hl.
  induction fuel as [|fuel IH]; intros found chars i Hl Hf; cbn [outer_loop].
  { destruct (Nat.ltb_spec i l); [lia|]. rewrite drop_ge, take_ge by lia. cbn.
    by rewrite !app_nil_r. }
  destruct (Nat.ltb_spec i l) as [Hi|Hi].
  2:{ rewrite drop_ge, take_ge by lia. cbn. by rewrite !app_nil_r. }
  destruct (lookup_lt_is_Some_2 chars i) as [c Hc]; [lia|].
  rewrite (index_lookup _ _ _ Hc). run.
  destruct (best_match root (drop i chars)) as [m|] eqn:Hm.
  - destruct (match_in_text _ _ _ _ Hm) as [Hm2 Him].
    destruct (round_match root false white l found chars i c m Hl Hc Hm) as (node & -> & ->).
    unfold mask. run. rewrite replaceToAsterisk_eq by lia. run.
    replace (i + m - 1 + 1) with (i + m) by lia.
    rewrite IH by (rewrite ?mask_text_length by done; lia).
    rewrite mask_text_drop, mask_text_take by done.
    rewrite (drop_S _ _ _ Hc) in Hm |- *. cbn [censor]. rewrite Hm.
    rewrite (censor_skip root (m - 1)) by (rewrite length_drop; lia). rewrite drop_drop.
    replace (S i + (m - 1)) with (i + m) by lia. cbn [fst snd map].
    rewrite <- !(assoc app). do 3 f_equal. by destruct m as [|m']; [lia|rewrite Nat.sub_succ, Nat.sub_0_r].
  - assert (outer_loop root false white l fuel found chars (i + 1) =
      Ret (found ++ map string_of_runes (censor root 0 (drop i chars)).1,
           take i chars ++ (censor root 0 (drop i chars)).2)) as Hnext.
    { rewrite IH by lia. rewrite (drop_S _ _ _ Hc) in Hm |- *. cbn [censor]. rewrite Hm.
      replace (i + 1) with (S i) by lia. destruct (censor root 0 (drop (S i) chars)); cbn.
      rewrite (take_S_r _ _ _ Hc). by rewrite <- (assoc app). }
    pose proof (round_no_match root false white l found chars i c Hl Hc Hm) as Hround.
    destruct (children root !! c); [|done]. rewrite Hround. run. exact Hnext.
Qed.

(** *** With white lists: what holds whatever they answer *)

(** A word [Query] may report: a keyword of two runes or more that stands in
    the text. *)
Definition reportable (root : Node) (text w : list rune) : Prop :=
  is_keyword root w = true /\ 2 <= length w /\ exists p, w `prefix_of` drop p text.

Lemma mask_cases check white l found chars i m i' found' chars' :
  length chars = l -> 1 <= m -> i + m <= l ->
  mask check white l found chars i (i + m - 1) = Ret (i', found', chars') ->
  i' = i + m - 1 /\
  ((found' = found /\ chars' = chars) \/
   (found' = found ++ [string_of_runes (take m (drop i chars))] /\ chars' = mask_text chars i m)).
Proof.
  intros Hl Hm Hi. unfold mask.
  destruct (if check then _ else _) as [[]| |]; run; try discriminate.
  - intros. simplify_eq. eauto.
  - rewrite replaceToAsterisk_eq by lia. run. intros. simplify_eq. eauto.
Qed.

Lemma outer_loop_safe root check white l text fuel found chars i found' chars' :
  length chars = l -> drop i chars = drop i text ->
  outer_loop root check white l fuel found chars i = Ret (found', chars') ->
  exists ws, found' = found ++ map string_of_runes ws /\ Forall (reportable root text) ws /\
    length chars' = l /\
    (forall p, chars' !! p = chars !! p \/ chars' !! p = Some 42%Z) /\ (ws = [] -> chars' = chars).
Proof.
  revert found chars i. induction fuel as [|fuel IH]; intros found chars i Hl Htext Hrun;
    cbn [outer_loop] in Hrun.
  { destruct (i <? l); [done|]. simplify_eq. exists []. rewrite app_nil_r. eauto 10. }
  destruct (Nat.ltb_spec i l) as [Hi|Hi].
  2:{ simplify_eq. exists []. rewrite app_nil_r. eauto 10. }
  destruct (lookup_lt_is_Some_2 chars i) as [c Hc]; [lia|].
  rewrite (index_lookup _ _ _ Hc) in Hrun. run.
  assert (forall k, drop (i + k) chars = drop (i + k) text) as Hdrop.
  { intros k. by rewrite <- !drop_drop, Htext. }
  destruct (best_match root (drop i chars)) as [m|] eqn:Hm.
  - destruct (match_in_text _ _ _ _ Hm) as [Hm2 Him].
    destruct (round_match root check white l found chars i c m Hl Hc Hm) as (node & Hn & Hr).
    rewrite Hn, Hr in Hrun.
    destruct (mask check white l found chars i (i + m - 1)) as [[[i' f1] c1]| |] eqn:Hmask;
      run; try discriminate.
    apply mask_cases in Hmask as (-> & [[-> ->]|[-> ->]]); [| |done|lia|lia];
      replace (i + m - 1 + 1) with (i + m) in Hrun by lia.
    + by apply IH in Hrun.
    + apply IH in Hrun as (ws & -> & Hws & Hlen & Hpos & Hsame).
      2:{ by rewrite mask_text_length by lia. }
      2:{ by rewrite mask_text_drop. }
      exists (take m (drop i chars) :: ws). split; [by rewrite <- (assoc app)|].
      split; [|split; [done|split; [|done]]].
      * constructor; [|done]. pose proof (best_match_keyword _ _ _ Hm) as [? ?].
        split; [done|]. split; [rewrite length_take; lia|].
        exists i. rewrite Htext. apply prefix_take.
      * intros p. destruct (Hpos p) as [-> |]; [|by right].
        rewrite mask_text_lookup by lia. case_decide; auto.
  - pose proof (round_no_match root check white l found chars i c Hl Hc Hm) as Hround.
    destruct (children root !! c); [rewrite Hround in Hrun; run|];
      (apply IH in Hrun; [done|done|apply Hdrop]).
Qed.

Lemma Query_eq t text :
  Query t text =
  if length (runes text) =? 0 then Ret (false, [], text)
  else
    '(found, chars) ← outer_loop (Root t) (CheckWhiteList t)
       (isInWhiteList
          (match WhitePrefix t with Some p => Query p | None => nil_Query end)
          (match WhiteSuffix t with Some s => Query s | None => nil_Query end))
       (length (runes text)) (length (runes text)) [] (runes text) 0;
    Ret (0 <? length found, found, string_of_runes chars).
Proof. by destruct t. Qed.

Lemma Query_censor t text :
  CheckWhiteList t = false ->
  Query t text =
  let '(found, out) := censor (Root t) 0 (runes text) in
  Ret (negb (bool_decide (found = [])), map string_of_runes found,
       if bool_decide (runes text = []) then text else string_of_runes out).
Proof.
  intros Hw. rewrite Query_eq, Hw. destruct (runes text) as [|c cs] eqn:Ht; [done|].
  rewrite (bool_decide_eq_false_2 (c :: cs = [])) by done.
  rewrite outer_loop_censor by (rewrite ?Ht; cbn; lia). rewrite drop_0, take_0.
  destruct (censor (Root t) 0 (c :: cs)) as [found out]. cbn [fst snd app]. run.
  rewrite length_map. by destruct found.
Qed.

Lemma Query_safe t text existed found out :
  Query t text = Ret (existed, found, out) ->
  exists ws, found = map string_of_runes ws /\ Forall (reportable (Root t) (runes text)) ws /\
    length (runes out) = length (runes text) /\
    (forall p, runes out !! p = runes text !! p \/ runes out !! p = Some 42%Z) /\
    existed = negb (bool_decide (ws = [])) /\ (ws = [] -> runes out = runes text).
Proof.
  rewrite Query_eq. destruct (Nat.eqb_spec (length (runes text)) 0) as [Hl|Hl].
  { intros. simplify_eq. exists []. eauto 10. }
  intros Hrun. inv_bind Hrun. destruct a as [found' chars']. simplify_eq/=.
  apply (outer_loop_safe _ _ _ _ (runes text)) in Ha as (ws & -> & Hws & Hlen & Hpos & Hsame);
    [|done|done].
  assert (valid_runes chars') as Hv.
  { apply Forall_lookup. intros p r Hr. destruct (Hpos p) as [E|E]; rewrite E in Hr.
    - by eapply Forall_lookup_1 in Hr; [|apply runes_valid].
    - by simplify_eq. }
  exists ws. rewrite runes_string_of_runes by done. cbn [app]. rewrite length_map.
  repeat split; [done|done|done|by destruct ws|done].
Qed.

(** Induction on tries, through the white lists. *)
Lemma Trie_white_ind (P : Trie -> Prop) :
  (forall root check wp ws,
     (forall p, wp = Some p -> P p) -> (forall s, ws = Some s -> P s) ->
     P (mkTrie root check wp ws)) -> forall t, P t.
Proof.
  intros step. fix rec 1. intros [root check wp ws].
  apply step; [destruct wp|destruct ws]; intros ? [= <-]; apply rec.
Qed.

(** A white list is there wherever it is read. *)
Fixpoint white_lists_set (t : Trie) : bool :=
  if CheckWhiteList t then
    match WhitePrefix t with Some p => white_lists_set p | None => false end &&
    match WhiteSuffix t with Some s => white_lists_set s | None => false end
  else true.

Definition returns {A} (m : outcome A) : Prop := exists a, m = Ret a.

Lemma existed_non_empty t text found out :
  Query t text = Ret (true, found, out) -> runes out <> [].
Proof.
  intros (ws & _ & Hws & Hlen & _ & He & _)%Query_safe.
  destruct ws as [|w ws]; [done|]. apply Forall_cons in Hws as [(_ & Hw & p & [q Hq]) _].
  apply (f_equal length) in Hq. rewrite length_app, length_drop in Hq.
  destruct (runes out); [cbn in *; lia|done].
Qed.

Lemma isInWhiteList_returns p s found chars i j :
  (forall text, returns (Query p text)) -> (forall text, returns (Query s text)) ->
  i <= j < length chars ->
  returns (isInWhiteList (Query p) (Query s) found chars i j (length chars)).
Proof.
  intros Hp Hs Hij.
  assert (returns (isInWhitePreffixList (Query p) found chars i j (length chars))) as [w1 E1].
  { unfold isInWhitePreffixList. destruct (i =? 0); [by eexists|].
    rewrite slice_in by (destruct (Nat.ltb_spec i 4); lia). run.
    edestruct Hp as [[[[] f] o] E]; rewrite E; run; [|by eexists].
    apply existed_non_empty in E. unfold index_z. rewrite decide_True by (destruct (runes o); cbn; [done|lia]).
    edestruct (index_lt (runes o)) as (r & -> & _); [|by eexists].
    destruct (runes o); [done|cbn; lia]. }
  assert (returns (isInWhiteSuffixList (Query s) found chars i j (length chars))) as [w2 E2].
  { unfold isInWhiteSuffixList. destruct (j + 1 =? length chars); [by eexists|].
    rewrite slice_in by (destruct (Nat.ltb_spec (length chars) (j + 5)); lia). run.
    edestruct Hs as [[[[] f] o] E]; rewrite E; run; [|by eexists].
    apply existed_non_empty in E.
    edestruct (index_lt (runes o) 0) as (r & -> & _); [|by eexists].
    destruct (runes o); [done|cbn; lia]. }
  unfold isInWhiteList. rewrite E1. run. destruct w1; [by eexists|]. rewrite E2. by eexists.
Qed.

Lemma outer_loop_returns root check white l fuel found chars i :
  (forall found chars i j, length chars = l -> check = true -> i <= j < l ->
     returns (white found chars i j l)) ->
  length chars = l -> l - i <= fuel ->
  returns (outer_loop root check white l fuel found chars i).
Proof.
  intros Hwhite. revert found chars i.
  induction fuel as [|fuel IH]; intros found chars i Hl Hf; cbn [outer_loop].
  { destruct (Nat.ltb_spec i l); [lia|by eexists]. }
  destruct (Nat.ltb_spec i l) as [Hi|Hi]; [|by eexists].
  destruct (lookup_lt_is_Some_2 chars i) as [c Hc]; [lia|].
  rewrite (index_lookup _ _ _ Hc). run.
  destruct (best_match root (drop i chars)) as [m|] eqn:Hm.
  - destruct (match_in_text _ _ _ _ Hm) as [Hm2 Him].
    destruct (round_match root check white l found chars i c m Hl Hc Hm) as (node & -> & ->).
    assert (returns (if check then white found chars i (i + m - 1) l else Ret false)) as [w Ew].
    { destruct check; [apply Hwhite; [done|done|lia]|by eexists]. }
    unfold mask. rewrite Ew. run. destruct w; run; [apply IH; lia|].
    rewrite replaceToAsterisk_eq by lia. run. apply IH; rewrite ?mask_text_length by lia; lia.
  - pose proof (round_no_match root check white l found chars i c Hl Hc Hm) as Hround.
    destruct (children root !! c); [rewrite Hround; run|]; apply IH; lia.
Qed.

Lemma Query_total t : white_lists_set t = true -> forall text, returns (Query t text).
Proof.
  induction t as [root check wp ws IHp IHs] using Trie_white_ind. intros Hset text.
  rewrite Query_eq. destruct (length (runes text) =? 0); [by eexists|].
  cbn [Root CheckWhiteList WhitePrefix WhiteSuffix].
  set (white := isInWhiteList _ _).
  destruct (outer_loop_returns root check white (length (runes text)) (length (runes text)) []
    (runes text) 0) as [[found chars] ->]; [| | |by eexists]; subst white.
  - intros found chars i j Hl -> Hij. cbn in Hset.
    destruct wp as [p|]; [|done]. destruct ws as [s|]; [|by rewrite andb_false_r in Hset].
    apply andb_true_iff in Hset as [Hp Hs]. rewrite <- Hl in Hij |- *.
    apply isInWhiteList_returns; eauto.
  - done.
  - lia.
Qed.
End QueryFacts.

(** ** Properties of the trie *)

Module TrieTheorems.
Import ScanFacts Trie QueryFacts ReadFacts.

(** The tries a program can make: a new one with any white lists, then words
    added and deleted. *)
Inductive built : Trie -> Prop :=
| built_new check wp ws : built (mkTrie NewTrieNode check wp ws)
| built_add t keyword : built t -> built (Add t keyword)
| built_del t keyword : built t -> built (Del t keyword).

Lemma built_wf t : built t -> wf (Root t).
Proof.
  induction 1 as [check wp ws|t keyword _ IH|t keyword _ IH].
  - apply wf_NewTrieNode.
  - unfold Add. destruct (length (runes keyword) =? 0); [done|].
    apply wf_AddChars; [done|apply runes_valid].
  - unfold Del. destruct (length (runes keyword) =? 0); [done|]. by apply wf_cycleDel.
Qed.

Lemma built_valid t w : built t -> is_Some (walk (Root t) w) -> valid_runes w.
Proof.
  intros Ht Hw. destruct (decide (w = [])) as [->|Hne]; [constructor|].
  by apply (built_wf t Ht w Hne) in Hw as [? _].
Qed.

Lemma censor_found root cs :
  (censor root 0 cs).1 <> [] <-> exists p, is_Some (best_match root (drop p cs)).
Proof.
  remember (length cs) as n eqn:Hn. revert cs Hn.
  induction n as [n IH] using lt_wf_ind. intros cs ->. destruct cs as [|c cs].
  { split; [done|]. intros [p [m Hm]]. rewrite drop_nil in Hm. done. }
  cbn [censor]. destruct (best_match root (c :: cs)) as [m|] eqn:Hm.
  - split; [|by destruct (censor _ _ _)]. intros _. exists 0. by eexists.
  - specialize (IH (length cs) ltac:(cbn; lia) cs eq_refl).
    destruct (censor root 0 cs) as [found out]; cbn [fst] in *. rewrite IH. split.
    + intros [p Hp]. by exists (S p).
    + intros [[|p] Hp]; [cbn in Hp; rewrite Hm in Hp; by destruct Hp|]. by exists p.
Qed.

Lemma best_match_prefix_free root cs w :
  wf root ->
  (forall u v, is_keyword root u = true -> is_keyword root (u ++ v) = true -> v = []) ->
  is_keyword root w = true -> 2 <= length w -> w `prefix_of` cs ->
  is_Some (best_match root cs).
Proof.
  intros Hwf Hfree Hw Hlen [q ->]. unfold best_match.
  destruct (walk root (w ++ q)) as [m|] eqn:Hm.
  - destruct (Hwf (w ++ q)) as [_ [v Hv]]; [by destruct w|by eexists|].
    rewrite <- (assoc app) in Hv.
    apply (Hfree w (q ++ v)) in Hw as E; [|apply is_keyword_spec; split; [by destruct w|done]].
    apply app_eq_nil in E as [-> _]. rewrite app_nil_r, Hw.
    destruct (Nat.leb_spec 2 (length w)); [by eexists|lia].
  - apply last_is_Some. intros E. assert (length w ∈ keyword_lengths root (w ++ q)) as Hin; [|rewrite E in Hin; by apply elem_of_nil in Hin].
    apply list_elem_of_In, filter_In. split; [apply in_seq; rewrite length_app; lia|].
    by rewrite take_app_length.
Qed.

(** C1: without a white list, [Query] computes the reference [censor]: from the
    left, the longest keyword of at least two runes is cut out and masked, with
    the one exception written in [best_match] at the end of the text. *)
Theorem query_is_censor t text :
  CheckWhiteList t = false ->
  Query t text =
  let '(found, out) := censor (Root t) 0 (runes text) in
  Ret (negb (bool_decide (found = [])), map string_of_runes found,
       if bool_decide (runes text = []) then text else string_of_runes out).
Proof. apply Query_censor. Qed.

(** C15: whatever the white lists answer, an answer of [Query] reports only
    keywords of two runes or more that stand in the text, its flag says whether
    there is one, and the masked text has as many runes as the text, each its
    own or an asterisk. *)
Theorem query_safe t text existed found out :
  Query t text = Ret (existed, found, out) ->
  exists ws, found = map string_of_runes ws /\ Forall (reportable (Root t) (runes text)) ws /\
    length (runes out) = length (runes text) /\
    (forall p, runes out !! p = runes text !! p \/ runes out !! p = Some 42%Z) /\
    existed = negb (bool_decide (ws = [])) /\ (ws = [] -> runes out = runes text).
Proof. apply Query_safe. Qed.

(** C17: [Query] terminates and does not panic on any text when each trie that
    checks its white lists has both. *)
Theorem query_returns t text :
  white_lists_set t = true -> exists answer, Query t text = Ret answer.
Proof. intros. by apply Query_total. Qed.

(** C16: when no keyword is the beginning of another one, [Query] reports a word
    exactly when a keyword of two runes or more stands in the text. *)
Theorem query_complete t text :
  built t -> CheckWhiteList t = false ->
  (forall u v, is_keyword (Root t) u = true -> is_keyword (Root t) (u ++ v) = true -> v = []) ->
  (exists w p, is_keyword (Root t) w = true /\ 2 <= length w /\ w `prefix_of` drop p (runes text)) <->
  exists found out, Query t text = Ret (true, found, out).
Proof.
  intros Ht Hc Hfree. split.
  - intros (w & p & Hw & Hlen & Hp). apply built_wf in Ht.
    pose proof (best_match_prefix_free _ _ _ Ht Hfree Hw Hlen Hp) as Hbest.
    assert ((censor (Root t) 0 (runes text)).1 <> []) as Hfound by (apply censor_found; eauto).
    rewrite Query_eq, Hc. destruct (Nat.eqb_spec (length (runes text)) 0) as [E|E].
    { apply length_zero_iff_nil in E. by rewrite E in Hfound. }
    rewrite outer_loop_censor by lia. rewrite drop_0. run. eexists _, _. do 3 f_equal.
    cbn [app]. rewrite length_map. by destruct (censor _ _ _).1.
  - intros (found & out & Hq). apply Query_safe in Hq as (ws & _ & Hws & _ & _ & He & _).
    destruct ws as [|w ws]; [done|]. apply Forall_cons in Hws as [(? & ? & p & ?) _]. eauto.
Qed.

(** After [Add], the keywords are the old ones and the added word. *)
Theorem add_exact t keyword w :
  is_keyword (Root (Add t keyword)) w =
  (negb (bool_decide (w = [])) && bool_decide (w = runes keyword)) || is_keyword (Root t) w.
Proof.
  unfold Add. destruct (Nat.eqb_spec (length (runes keyword)) 0) as [E|E].
  - apply length_zero_iff_nil in E as ->. by destruct (decide (w = [])) as [->|Hne];
      [|rewrite !(bool_decide_eq_false_2 (w = []))].
  - cbn [Root with_root]. unfold is_keyword. rewrite end_at_AddChars.
    by destruct (bool_decide (w = [])).
Qed.

(** [Del] of a word does nothing unless some beginning of that word is a
    keyword; then it removes every keyword that starts with the word's first
    rune. The word itself is never a keyword afterwards. *)
Theorem del_exact t keyword w :
  is_keyword (Root (Del t keyword)) w =
  is_keyword (Root t) w &&
  negb (has_keyword_prefix (Root t) (runes keyword) && bool_decide (head w = head (runes keyword))) /\
  is_keyword (Root (Del t keyword)) (runes keyword) = false.
Proof.
  assert (forall w, is_keyword (Root (Del t keyword)) w =
    is_keyword (Root t) w && negb (has_keyword_prefix (Root t) (runes keyword) &&
      bool_decide (head w = head (runes keyword)))) as Heq.
  { intros v. unfold Del. destruct (runes keyword) as [|c cs] eqn:Ek; cbn [length Nat.eqb].
    { unfold has_keyword_prefix. cbn. by rewrite andb_true_r. }
    cbn [Root with_root]. rewrite cycleDel_eq.
    destruct (has_keyword_prefix (Root t) (c :: cs)); cbn [fst andb negb]; [|by rewrite andb_true_r].
    unfold is_keyword. by rewrite end_at_delete, andb_assoc. }
  split; [apply Heq|]. rewrite Heq. destruct (is_keyword (Root t) (runes keyword)) eqn:E; [|done].
  rewrite bool_decide_eq_true_2 by done.
  replace (has_keyword_prefix (Root t) (runes keyword)) with true; [done|].
  symmetry. apply has_keyword_prefix_spec. eauto.
Qed.

(** In a trie made with [Add] and [Del], every node below the root lies on
    the path of a keyword, and the paths are runes UTF-8 can carry. *)
Theorem built_no_dead_branch t w :
  built t -> w <> [] -> is_Some (walk (Root t) w) ->
  valid_runes w /\ exists v, is_keyword (Root t) (w ++ v) = true.
Proof.
  intros Ht Hw Hs. destruct (built_wf t Ht w Hw Hs) as [Hv [v Hend]].
  split; [done|]. exists v. apply is_keyword_spec. split; [by destruct w|done].
Qed.

(** [ReadAll] lists every keyword once, whatever the iteration order of the
    maps. *)
Theorem read_all_exact (RO : RangeOrder) t :
  built t ->
  NoDup (ReadAll t) /\
  forall s, s ∈ ReadAll t <-> exists w, is_keyword (Root t) w = true /\ s = string_of_runes w.
Proof.
  intros Ht. unfold ReadAll. change ""%string with (string_of_runes []). split.
  - apply cycleRead_NoDup; [constructor|]. intros w. by apply built_valid.
  - intros s. apply (elem_of_cycleRead (Root t) [] s).
Qed.

(** *** The theorems at concrete tries *)

Definition words : Trie := Add (Add NewTrie "敏感") "abc".
Definition white_words : Trie :=
  mkTrie (Root words) true (Some (Add NewTrie "xa")) (Some (Add NewTrie "cd")).

Lemma words_built : built words.
Proof. repeat constructor. Defined.

Lemma query_is_censor_witness :
  CheckWhiteList words = false /\ Query words "x敏感abcab" = Ret (true, ["敏感"; "abc"], "x*****ab")%string.
Proof. split; [reflexivity|]. rewrite (query_is_censor words) by reflexivity. vm_compute. reflexivity. Defined.

Lemma query_safe_witness :
  exists ws, ["敏感"]%string = map string_of_runes ws /\
    Forall (reportable (Root white_words) (runes "敏感abcd")) ws.
Proof.
  destruct (query_safe white_words "敏感abcd" true ["敏感"]%string "**abcd"%string) as (ws & H1 & H2 & _).
  - vm_compute. reflexivity.
  - exists ws. split; assumption.
Defined.

Lemma query_returns_witness : exists answer, Query white_words "xabc" = Ret answer.
Proof. apply (query_returns white_words). reflexivity. Defined.

Lemma query_complete_witness : exists found out, Query (Add NewTrie "ab") "cab" = Ret (true, found, out).
Proof.
  apply (query_complete (Add NewTrie "ab") "cab").
  - repeat constructor.
  - reflexivity.
  - intros u v Hu Hv.
    assert (forall w, is_keyword (Root (Add NewTrie "ab")) w = true -> w = runes "ab") as Honly.
    { intros w Hw. apply is_keyword_spec in Hw as [_ Hw].
      change (Root (Add NewTrie "ab")) with (AddChars NewTrieNode (runes "ab")) in Hw.
      rewrite end_at_AddChars, end_at_NewTrieNode, orb_false_r in Hw.
      by apply bool_decide_eq_true in Hw. }
    apply Honly in Hv as Hv'. apply Honly in Hu. subst u. apply (f_equal length) in Hv'.
    rewrite length_app in Hv'. destruct v; [done|cbn [length] in Hv'; lia].
  - exists (runes "ab"), 1. split; [reflexivity|]. split; [by apply Nat.leb_le|]. exists []. reflexivity.
Defined.

Lemma built_no_dead_branch_witness :
  valid_runes (runes "ab") /\ exists v, is_keyword (Root words) (runes "ab" ++ v) = true.
Proof. apply (built_no_dead_branch words); [apply words_built|done|by vm_compute; eexists]. Defined.

Lemma read_all_exact_witness : NoDup (@ReadAll descending_order words).
Proof. apply (read_all_exact descending_order words), words_built. Defined.
End TrieTheorems.
