(* ===== verification/TrieSpec.v ===== *)
(** * The trie as a dictionary ([src/components/trie/trie.go])

    What a trie without white lists promises, said with the set of its words
    alone: [dictionary] is a set of keywords with what [Add], [Del], [ReadAll]
    and [Query] do to it or answer from it. The detailed trie refines it: any
    sequence of calls gives answers that the dictionary allows. *)

From S2P Require Import Prelude GoStrings Trie TrieQuery.
Import Node Trie.

(** ** The dictionary *)

Definition dictionary : Type := gset (list rune).

(** The calls, and what they answer. *)
Inductive call := CallAdd (keyword : string) | CallDel (keyword : string) | CallReadAll | CallQuery (text : string).
Inductive reply := Done | Words (ws : list string) | Answer (a : outcome answer).

Section dictionary.
Implicit Types d : dictionary.

Definition dict_add d (w : list rune) : dictionary := if decide (w = []) then d else {[w]} ∪ d.

(** A word goes with every other one that has its first rune, but only if it or
    a beginning of it is in the dictionary. *)
Definition begins d (w : list rune) : bool := existsb (fun k => bool_decide (take k w ∈ d)) (seq 1 (length w)).
Definition dict_del d (w : list rune) : dictionary :=
  if begins d w then filter (fun v => head v <> head w) d else d.

(** Is [cs] the beginning of a word? *)
Definition starts_word d (cs : list rune) : Prop := Exists (fun v => cs `prefix_of` v) (elements d).
#[global] Instance starts_word_dec d cs : Decision (starts_word d cs).
Proof. apply _. Defined.

(** The word to mask at the start of [cs]: the longest of at least two runes,
    or nothing but [cs] itself where [cs] begins a word. *)
Definition dict_match d (cs : list rune) : option nat :=
  if decide (starts_word d cs) then
    if bool_decide (cs ∈ d) && (2 <=? length cs) then Some (length cs) else None
  else last (List.filter (fun m => bool_decide (take m cs ∈ d)) (seq 2 (length cs - 1))).

Fixpoint dict_censor d (skip : nat) (cs : list rune) : list (list rune) * list rune :=
  match cs, skip with
  | [], _ => ([], [])
  | _ :: cs', S k => let '(found, out) := dict_censor d k cs' in (found, 42%Z :: out)
  | c :: cs', O =>
      match dict_match d cs with
      | Some m => let '(found, out) := dict_censor d (m - 1) cs' in (take m cs :: found, 42%Z :: out)
      | None => let '(found, out) := dict_censor d 0 cs' in (found, c :: out)
      end
  end.

Definition dict_query d (text : string) : answer :=
  let '(found, out) := dict_censor d 0 (runes text) in
  (negb (bool_decide (found = [])), map string_of_runes found,
   if bool_decide (runes text = []) then text else string_of_runes out).

(** A call on the dictionary; [ReadAll] may list the words in any order. *)
Inductive dict_call d : call -> dictionary -> reply -> Prop :=
| dict_call_add kw : dict_call d (CallAdd kw) (dict_add d (runes kw)) Done
| dict_call_del kw : dict_call d (CallDel kw) (dict_del d (runes kw)) Done
| dict_call_read ws : NoDup ws -> (forall s, s ∈ ws <-> exists w, w ∈ d /\ s = string_of_runes w) ->
    dict_call d CallReadAll d (Words ws)
| dict_call_query text : dict_call d (CallQuery text) d (Answer (Ret (dict_query d text))).

Inductive dict_run : dictionary -> list call -> dictionary -> list reply -> Prop :=
| dict_run_nil d : dict_run d [] d []
| dict_run_cons d c d1 r cs d2 rs : dict_call d c d1 r -> dict_run d1 cs d2 rs -> dict_run d (c :: cs) d2 (r :: rs).
End dictionary.

(** ** The calls on a trie *)

Definition trie_call {RO : RangeOrder} (t : Trie) (c : call) : Trie * reply :=
  match c with
  | CallAdd keyword => (Add t keyword, Done)
  | CallDel keyword => (Del t keyword, Done)
  | CallReadAll => (t, Words (ReadAll t))
  | CallQuery text => (t, Answer (Query t text))
  end.

Fixpoint trie_run {RO : RangeOrder} (t : Trie) (cs : list call) : Trie * list reply :=
  match cs with
  | [] => (t, [])
  | c :: cs =>
      let '(t, r) := trie_call t c in
      let '(t, rs) := trie_run t cs in (t, r :: rs)
  end.

(** ** Facts *)

Module TrieSpecFacts.
Import NodeFacts QueryFacts TrieTheorems.

(** The trie [t] stands for the words [d]. *)
Record stands (t : Trie) (d : dictionary) : Prop := {
  stands_built : built t;
  stands_plain : CheckWhiteList t = false;
  stands_words : forall w, is_keyword (Root t) w = bool_decide (w ∈ d)
}.

Lemma stands_new : stands NewTrie ∅.
Proof.
  constructor; [constructor|done|]. intros w. rewrite bool_decide_eq_false_2 by set_solver.
  unfold is_keyword. change (Root NewTrie) with NewTrieNode. by rewrite end_at_NewTrieNode, andb_false_r.
Qed.

Lemma stands_add t d kw : stands t d -> stands (Add t kw) (dict_add d (runes kw)).
Proof.
  intros [Hb Hp Hw]. constructor; [by constructor|unfold Add; by case_match|].
  intros w. rewrite add_exact, Hw. unfold dict_add.
  destruct (decide (runes kw = [])) as [->|Hne]; repeat case_bool_decide; cbn; set_solver.
Qed.

Lemma stands_begins t d w : stands t d -> has_keyword_prefix (Root t) w = begins d w.
Proof.
  intros Hs. unfold has_keyword_prefix, begins. induction (seq 1 (length w)) as [|k l IH]; [done|].
  cbn. by rewrite IH, (stands_words _ _ Hs).
Qed.

Lemma stands_del t d kw : stands t d -> stands (Del t kw) (dict_del d (runes kw)).
Proof.
  intros Hs. destruct Hs as [Hb Hp Hw] eqn:E. constructor; [by constructor|unfold Del; by case_match|].
  intros w. rewrite (proj1 (del_exact t kw w)), Hw, (stands_begins t d _ Hs). unfold dict_del.
  destruct (begins d (runes kw)); [|by rewrite andb_true_r].
  repeat case_bool_decide; cbn; set_solver.
Qed.

(** *** Matching *)

Lemma stands_starts t d cs :
  stands t d -> cs <> [] -> starts_word d cs <-> is_Some (walk (Root t) cs).
Proof.
  intros [Hb Hp Hw] Hne. unfold starts_word. rewrite Exists_exists. split.
  - intros (v & Hv%elem_of_elements & [q ->]).
    assert (is_keyword (Root t) (cs ++ q) = true) as Hk by by rewrite Hw, bool_decide_eq_true.
    apply is_keyword_walk in Hk. rewrite walk_app in Hk. destruct (walk (Root t) cs); [by eexists|by destruct Hk].
  - intros Hs. destruct (built_no_dead_branch t cs Hb Hne Hs) as [_ [v Hv]].
    rewrite Hw, bool_decide_eq_true in Hv. exists (cs ++ v)%list. split; [by apply elem_of_elements|by exists v].
Qed.

Lemma stands_match t d cs : stands t d -> cs <> [] -> best_match (Root t) cs = dict_match d cs.
Proof.
  intros Hs Hne. pose proof (stands_starts t d cs Hs Hne) as Hst. unfold best_match, dict_match.
  rewrite (stands_words _ _ Hs). destruct (walk (Root t) cs).
  - rewrite decide_True; [done|]. apply Hst. by eexists.
  - rewrite decide_False by (rewrite Hst; by intros []). f_equal. unfold keyword_lengths.
    apply List.filter_ext. intros m. apply (stands_words _ _ Hs).
Qed.

Lemma stands_censor t d skip cs : stands t d -> censor (Root t) skip cs = dict_censor d skip cs.
Proof.
  intros Hs. revert skip. induction cs as [|c cs IH]; intros skip; [done|]. cbn [censor dict_censor].
  rewrite (stands_match t d) by done. destruct skip; [|by rewrite IH].
  destruct (dict_match d (c :: cs)); by rewrite IH.
Qed.

(** Each call answers as the dictionary may, and keeps them together. *)
Lemma stands_call {RO : RangeOrder} t d c :
  stands t d -> exists d', dict_call d c d' (snd (trie_call t c)) /\ stands (fst (trie_call t c)) d'.
Proof.
  intros Hs. destruct c as [kw|kw| |text]; cbn [trie_call fst snd].
  - eexists. split; [constructor|by apply stands_add].
  - eexists. split; [constructor|by apply stands_del].
  - exists d. split; [|done]. destruct (read_all_exact RO t (stands_built _ _ Hs)) as [Hnd Hw].
    constructor; [done|]. intros s. rewrite Hw. split; intros (w & H & ->); exists w;
      (split; [|done]); revert H; by rewrite (stands_words _ _ Hs), bool_decide_eq_true.
  - exists d. split; [|done]. rewrite Query_censor by apply Hs. rewrite (stands_censor t d) by done.
    pose proof (dict_call_query d text) as Hq. unfold dict_query in Hq. by destruct (dict_censor d 0 (runes text)).
Qed.

Lemma stands_run {RO : RangeOrder} t d cs :
  stands t d -> exists d', dict_run d cs d' (snd (trie_run t cs)) /\ stands (fst (trie_run t cs)) d'.
Proof.
  revert t d. induction cs as [|c cs IH]; intros t d Hs; [exists d; split; [constructor|done]|].
  destruct (stands_call t d c Hs) as (d1 & Hc & Hs1). cbn [trie_run].
  destruct (trie_call t c) as [t1 r]. destruct (IH t1 d1 Hs1) as (d2 & Hr & Hs2).
  destruct (trie_run t1 cs) as [t2 rs]. exists d2. split; [by econstructor|done].
Qed.
End TrieSpecFacts.

(** ** Properties *)

Module TrieSpecTheorems.
Import TrieSpecFacts.

(** C2: a new trie refines the empty dictionary: whatever words are added,
    deleted, read and searched for, in whatever order the maps are visited, each
    answer is one that the set of words allows, and no call panics or hangs. *)
Theorem trie_refines (RO : RangeOrder) cs :
  exists d, dict_run ∅ cs d (snd (trie_run NewTrie cs)).
Proof. destruct (stands_run NewTrie ∅ cs stands_new) as (d & Hr & _). by exists d. Qed.

(** Adding, deleting a longer word, and looking. *)
Example trie_run_demo :
  snd (trie_run (RO:=ascending_order) NewTrie
         [CallAdd "ab"; CallAdd "cde"; CallQuery "xabcde"; CallDel "abz"; CallReadAll; CallQuery "xabcde"]) =
  [Done; Done; Answer (Ret (true, ["ab"; "cde"], "x*****")); Done; Words ["cde"];
   Answer (Ret (true, ["cde"], "xab***"))]%string.
Proof. vm_compute. reflexivity. Qed.
End TrieSpecTheorems.
