(* ===== verification/TrieConcurrent.v ===== *)
(** * The trie shared by goroutines ([src/components/trie/trie.go])

    The children of a node are a [sync.Map], so goroutines may add and delete
    words at once. Here nodes are cells of a heap, and one step of a goroutine
    is one operation on a [sync.Map] or on the flag of a node. Words that are
    only added are all there in the end, under any interleaving; two deletions
    can lose a word that was added after one of them. *)

From S2P Require Import Prelude GoStrings Trie TrieQuery.
Import Node Trie.

(** ** The heap *)

(** A node, with its children by their addresses; the root is at 0. *)
Record cell := mkCell { kids : gmap rune nat; hend : bool }.
Abbreviation heap := (list cell).

Definition kids_of (h : heap) (n : nat) : gmap rune nat := match h !! n with Some x => kids x | None => ∅ end.
Definition end_of (h : heap) (n : nat) : bool := match h !! n with Some x => hend x | None => false end.

(** [LoadOrStore(char, NewTrieNode())] on the children of [n]. *)
Definition LoadOrStore (n : nat) (char : rune) (h : heap) : heap * nat :=
  match kids_of h n !! char with
  | Some m => (h, m)
  | None => (<[n := mkCell (<[char := length h]> (kids_of h n)) (end_of h n)]> h ++ [mkCell ∅ false], length h)%list
  end.
(** [node.End = true], and [node.Node.Delete(char)]. *)
Definition SetEnd (n : nat) (h : heap) : heap := <[n := mkCell (kids_of h n) true]> h.
Definition Delete (n : nat) (char : rune) (h : heap) : heap :=
  <[n := mkCell (delete char (kids_of h n)) (end_of h n)]> h.

(** ** Goroutines *)

(** [Add] at a node with the runes to go; [cycleDel] on its way down with the
    nodes and runes above it, at the child it loaded, and on its way up. *)
Inductive phase :=
| AddAt (n : nat) (chars : list rune)
| DelAt (n : nat) (chars : list rune) (above : list (nat * rune))
| DelTest (m : nat) (chars : list rune) (above : list (nat * rune))
| DelUp (above : list (nat * rune))
| Finished.

Definition start_Add (keyword : string) : phase := match runes keyword with [] => Finished | cs => AddAt 0 cs end.
Definition start_Del (keyword : string) : phase := match runes keyword with [] => Finished | cs => DelAt 0 cs [] end.

(** One step of a goroutine; [None] when it is done. *)
Definition next (ph : phase) (h : heap) : option (phase * heap) :=
  match ph with
  | AddAt n [] => Some (Finished, SetEnd n h)
  | AddAt n (char :: chars) => let '(h, m) := LoadOrStore n char h in Some (AddAt m chars, h)
  | DelAt n [] above => None
  | DelAt n (char :: chars) above =>
      match kids_of h n !! char with
      | Some m => Some (DelTest m chars ((n, char) :: above), h)
      | None => Some (Finished, h)
      end
  | DelTest m chars above =>
      if negb (bool_decide (chars = [])) && negb (end_of h m) then Some (DelAt m chars above, h)
      else if end_of h m then Some (DelUp above, h)
      else Some (Finished, h)
  | DelUp [] => Some (Finished, h)
  | DelUp ((n, char) :: above) => Some (DelUp above, Delete n char h)
  | Finished => None
  end.

Record System := mkSystem { cells : heap; calls : list phase }.

Definition next_of (g : nat) (s : System) : option System :=
  match calls s !! g with
  | None => None
  | Some ph => '(ph', h) ← next ph (cells s); Some (mkSystem h (<[g := ph']> (calls s)))
  end.

Inductive step (s : System) : System -> Prop :=
| step_of g s' : next_of g s = Some s' -> step s s'.

Fixpoint run (sched : list nat) (s : System) : option System :=
  match sched with
  | [] => Some s
  | g :: sched => next_of g s ≫= run sched
  end.

(** A new trie, and the calls that goroutines make. *)
Definition start (calls : list phase) : System := mkSystem [mkCell ∅ false] calls.

(** ** The words of a heap *)

Fixpoint hwalk (h : heap) (n : nat) (w : list rune) : option nat :=
  match w with
  | [] => Some n
  | c :: w => match kids_of h n !! c with Some m => hwalk h m w | None => None end
  end.
Definition heap_keyword (h : heap) (w : list rune) : bool :=
  negb (bool_decide (w = [])) && match hwalk h 0 w with Some m => end_of h m | None => false end.

(** ** Facts *)

Module TrieConcurrentFacts.

(** Every node has one place in the tree, and the root has none. *)
Record tree (h : heap) : Prop := {
  tree_root : 0 < length h;
  tree_in : forall n c m, kids_of h n !! c = Some m -> 0 < m < length h;
  tree_one : forall n c n' c' m, kids_of h n !! c = Some m -> kids_of h n' !! c' = Some m -> n = n' /\ c = c'
}.

Lemma hwalk_app h n v w : hwalk h n (v ++ w) = hwalk h n v ≫= fun m => hwalk h m w.
Proof.
  revert n. induction v as [|c v IH]; intros n; [done|]. cbn [app hwalk]. destruct (kids_of h n !! c); [apply IH|done].
Qed.

Lemma hwalk_snoc h n v c m : hwalk h n (v ++ [c]) = Some m <-> exists x, hwalk h n v = Some x /\ kids_of h x !! c = Some m.
Proof.
  rewrite hwalk_app, bind_Some. split; intros (x & Hx & Hc); exists x; (split; [done|]); revert Hc; cbn;
    destruct (kids_of h x !! c); naive_solver.
Qed.

Lemma hwalk_inj h v w m : tree h -> hwalk h 0 v = Some m -> hwalk h 0 w = Some m -> v = w.
Proof.
  intros [_ Hin Hone]. revert w m. induction v as [|c v IH] using rev_ind; intros w m.
  - intros [= <-]. destruct w as [|c w _] using rev_ind; [done|].
    intros (x & _ & Hx)%hwalk_snoc. apply Hin in Hx. lia.
  - intros (x & Hv & Hx)%hwalk_snoc. destruct w as [|c' w _] using rev_ind.
    + intros [= <-]. apply Hin in Hx. lia.
    + intros (y & Hw & Hy)%hwalk_snoc. destruct (Hone _ _ _ _ _ Hx Hy) as [-> ->]. by rewrite (IH w y).
Qed.

Lemma hwalk_in h v m : tree h -> hwalk h 0 v = Some m -> m < length h.
Proof.
  intros Ht. destruct v as [|c v _] using rev_ind; [intros [= <-]; apply Ht|].
  intros (x & _ & Hx)%hwalk_snoc. apply Ht in Hx. lia.
Qed.

(** *** Adding an edge *)

Lemma kids_of_new h n c x :
  n < length h ->
  kids_of (<[n := mkCell (<[c := length h]> (kids_of h n)) (end_of h n)]> h ++ [mkCell ∅ false]) x =
  if decide (x = n) then <[c := length h]> (kids_of h n) else kids_of h x.
Proof.
  intros Hn. unfold kids_of at 1. destruct (decide (x < length h)) as [Hx|Hx].
  - rewrite lookup_app_l by by rewrite length_insert. case_decide as Hc.
    + subst x. by rewrite list_lookup_insert_eq.
    + by rewrite list_lookup_insert_ne.
  - rewrite decide_False by lia. rewrite lookup_app_r by (rewrite length_insert; lia). rewrite length_insert.
    unfold kids_of. rewrite (lookup_ge_None_2 h x) by lia.
    destruct (x - length h) as [|k]; [done|]. by rewrite lookup_ge_None_2 by (cbn; lia).
Qed.

Lemma end_of_new h n c x :
  n < length h ->
  end_of (<[n := mkCell (<[c := length h]> (kids_of h n)) (end_of h n)]> h ++ [mkCell ∅ false]) x = end_of h x.
Proof.
  intros Hn. unfold end_of at 1. destruct (decide (x < length h)) as [Hx|Hx].
  - rewrite lookup_app_l by by rewrite length_insert. destruct (decide (x = n)) as [->|Hne].
    + by rewrite list_lookup_insert_eq.
    + by rewrite list_lookup_insert_ne.
  - rewrite lookup_app_r by (rewrite length_insert; lia). rewrite length_insert.
    unfold end_of. rewrite (lookup_ge_None_2 h x) by lia.
    destruct (x - length h) as [|k]; [done|]. by rewrite lookup_ge_None_2 by (cbn; lia).
Qed.

(** What [LoadOrStore] gives, and keeps. *)
Lemma LoadOrStore_spec h n c h' m :
  tree h -> n < length h -> LoadOrStore n c h = (h', m) ->
  tree h' /\ kids_of h' n !! c = Some m /\ length h <= length h' /\
  (forall x, end_of h' x = end_of h x) /\
  (forall x c' y, kids_of h' x !! c' = Some y -> kids_of h x !! c' = Some y \/ y = length h) /\
  (forall x c' y, kids_of h x !! c' = Some y -> kids_of h' x !! c' = Some y).
Proof.
  intros Ht Hn. unfold LoadOrStore. destruct (kids_of h n !! c) as [k|] eqn:Hk.
  { intros [= <- <-]. split_and!; try done. naive_solver. }
  intros [= <- <-].
  assert (forall x c' y, (if decide (x = n) then <[c:=length h]> (kids_of h n) else kids_of h x) !! c' = Some y ->
    kids_of h x !! c' = Some y \/ (y = length h /\ x = n /\ c' = c)) as Hnew.
  { intros x c' y. case_decide as Hx; [subst x|by left]. intros [[<- <-]|[_ ?]]%lookup_insert_Some; [by right|by left]. }
  split_and!.
  - destruct Ht as [Hr Hin Hone]. constructor.
    + rewrite length_app, length_insert. cbn. lia.
    + intros x c' y. rewrite kids_of_new, length_app, length_insert by done. cbn.
      intros [Hy%Hin|(-> & _ & _)]%Hnew; lia.
    + intros x c1 y c2 z. rewrite !kids_of_new by done.
      intros [Hx|(-> & -> & ->)]%Hnew [Hy|(Hz & -> & ->)]%Hnew; [by eapply Hone|..|done].
      * apply Hin in Hx. lia.
      * apply Hin in Hy. lia.
  - rewrite kids_of_new, decide_True by done. apply lookup_insert_eq.
  - rewrite length_app, length_insert. lia.
  - intros x. by apply end_of_new.
  - intros x c' y. rewrite kids_of_new by done. intros [?|(? & _)]%Hnew; auto.
  - intros x c' y Hx. rewrite kids_of_new by done. case_decide as Hc; [subst x|done].
    rewrite lookup_insert_ne; [done|]. intros ->. congruence.
Qed.

Lemma LoadOrStore_walk h n c h' m w x :
  tree h -> n < length h -> LoadOrStore n c h = (h', m) -> hwalk h 0 w = Some x -> hwalk h' 0 w = Some x.
Proof.
  intros Ht Hn Hl. destruct (LoadOrStore_spec _ _ _ _ _ Ht Hn Hl) as (_ & _ & _ & _ & _ & Hmono).
  revert x. induction w as [|c' w IH] using rev_ind; intros x; [done|].
  intros (y & Hy & Hx)%hwalk_snoc. apply hwalk_snoc. exists y. auto.
Qed.

Lemma LoadOrStore_old h n c h' m w x :
  tree h -> n < length h -> LoadOrStore n c h = (h', m) -> hwalk h' 0 w = Some x -> x < length h ->
  hwalk h 0 w = Some x.
Proof.
  intros Ht Hn Hl. destruct (LoadOrStore_spec _ _ _ _ _ Ht Hn Hl) as (Ht' & _ & _ & _ & Hnew & Hmono).
  revert x. induction w as [|c' w IH] using rev_ind; intros x; [done|].
  intros (y & Hy & Hx)%hwalk_snoc Hlt. apply Hnew in Hx as [Hx|Hx]; [|lia].
  apply hwalk_snoc. exists y. split; [|done]. apply IH; [done|].
  destruct (decide (y < length h)); [done|]. unfold kids_of in Hx. by rewrite lookup_ge_None_2 in Hx by lia.
Qed.

Lemma end_of_out h n : length h <= n -> end_of h n = false.
Proof. intros Hn. unfold end_of. by rewrite lookup_ge_None_2. Qed.

(** A new node is no word. *)
Lemma LoadOrStore_keyword h n c h' m w :
  tree h -> n < length h -> LoadOrStore n c h = (h', m) -> heap_keyword h' w = heap_keyword h w.
Proof.
  intros Ht Hn Hl. unfold heap_keyword. f_equal.
  destruct (LoadOrStore_spec _ _ _ _ _ Ht Hn Hl) as (_ & _ & _ & He & _ & _).
  destruct (hwalk h' 0 w) as [x|] eqn:Hx.
  - rewrite He. destruct (decide (x < length h)) as [Hlt|Hge].
    + by rewrite (LoadOrStore_old _ _ _ _ _ _ _ Ht Hn Hl Hx Hlt).
    + rewrite end_of_out by lia. destruct (hwalk h 0 w) as [y|] eqn:Hy; [|done].
      pose proof (hwalk_in _ _ _ Ht Hy). apply (LoadOrStore_walk _ _ _ _ _ _ _ Ht Hn Hl) in Hy. simplify_eq. lia.
  - destruct (hwalk h 0 w) as [y|] eqn:Hy; [|done].
    apply (LoadOrStore_walk _ _ _ _ _ _ _ Ht Hn Hl) in Hy. congruence.
Qed.

(** *** Marking a node *)

Lemma SetEnd_kids n h x : n < length h -> kids_of (SetEnd n h) x = kids_of h x.
Proof.
  intros Hn. unfold kids_of at 1, SetEnd. destruct (decide (x = n)) as [->|Hne].
  - by rewrite list_lookup_insert_eq.
  - by rewrite list_lookup_insert_ne.
Qed.

Lemma SetEnd_end n h x : n < length h -> end_of (SetEnd n h) x = bool_decide (x = n) || end_of h x.
Proof.
  intros Hn. unfold end_of at 1, SetEnd. case_bool_decide as Hx.
  - subst x. by rewrite list_lookup_insert_eq.
  - by rewrite list_lookup_insert_ne.
Qed.

Lemma SetEnd_tree n h : n < length h -> tree h -> tree (SetEnd n h).
Proof.
  intros Hn [Hr Hin Hone]. assert (length (SetEnd n h) = length h) as Hl by apply length_insert.
  constructor; rewrite ?Hl; [done|..]; intros x c m; rewrite SetEnd_kids by done; [apply Hin|].
  intros x' c'. rewrite SetEnd_kids by done. apply Hone.
Qed.

Lemma SetEnd_walk n h x w : n < length h -> hwalk (SetEnd n h) x w = hwalk h x w.
Proof.
  intros Hn. revert x. induction w as [|c w IH]; intros x; [done|]. cbn [hwalk]. rewrite SetEnd_kids by done.
  destruct (kids_of h x !! c); [apply IH|done].
Qed.

Lemma SetEnd_keyword n h v w :
  tree h -> v <> [] -> hwalk h 0 v = Some n ->
  heap_keyword (SetEnd n h) w = bool_decide (w = v) || heap_keyword h w.
Proof.
  intros Ht Hv Hn. pose proof (hwalk_in _ _ _ Ht Hn) as Hlt. unfold heap_keyword. rewrite SetEnd_walk by done.
  destruct (hwalk h 0 w) as [m|] eqn:Hm.
  - rewrite SetEnd_end by done. rewrite (bool_decide_ext (m = n) (w = v)).
    + destruct (bool_decide_reflect (w = v)) as [->|]; [by rewrite bool_decide_eq_false_2 by done|done].
    + split; [intros ->; by eapply hwalk_inj|intros ->; congruence].
  - rewrite andb_false_r, bool_decide_eq_false_2; [done|]. intros ->. congruence.
Qed.

(** *** Goroutines that only add *)

(** A goroutine that adds [w] has gone down a beginning of it, or is done. *)
Definition adding (h : heap) (w : list rune) (ph : phase) : Prop :=
  match ph with
  | AddAt n cs => exists p, w = (p ++ cs)%list /\ w <> [] /\ hwalk h 0 p = Some n
  | Finished => w <> [] -> heap_keyword h w = true
  | _ => False
  end.

(** Every goroutine is on its way, and every word is one of theirs. *)
Record adds (ws : list (list rune)) (s : System) : Prop := {
  adds_tree : tree (cells s);
  adds_calls : Forall2 (adding (cells s)) ws (calls s);
  adds_words : forall w, heap_keyword (cells s) w = true -> w ∈ ws
}.

Lemma adding_keyword h h' w ph :
  (forall p n, hwalk h 0 p = Some n -> hwalk h' 0 p = Some n) ->
  (forall w, heap_keyword h w = true -> heap_keyword h' w = true) -> adding h w ph -> adding h' w ph.
Proof.
  intros Hw Hk. destruct ph as [n cs| | | |]; cbn; try done; [|auto].
  intros (p & ? & ? & ?). exists p. auto.
Qed.

Lemma adds_set ws s g w ph h :
  adds ws s -> ws !! g = Some w -> adding h w ph -> tree h ->
  (forall p n, hwalk (cells s) 0 p = Some n -> hwalk h 0 p = Some n) ->
  (forall v, heap_keyword h v = true <-> heap_keyword (cells s) v = true \/ v = w /\ ph = Finished) ->
  adds ws (mkSystem h (<[g := ph]> (calls s))).
Proof.
  intros [Ht Hc Hws] Hg Hph Ht' Hw Hk. constructor; cbn [cells calls]; [done|..].
  - rewrite <- (list_insert_id ws g w) by done. apply Forall2_insert; [|done].
    eapply Forall2_impl; [done|]. intros v ph' Ha. eapply adding_keyword; [done| |done].
    intros v' Hv'. apply Hk. by left.
  - intros v [Hv|[-> _]]%Hk; [by apply Hws|]. by eapply list_elem_of_lookup_2.
Qed.

Lemma next_of_adds ws g s s' : adds ws s -> next_of g s = Some s' -> adds ws s'.
Proof.
  intros Ha. pose proof Ha as [Ht Hc Hws]. unfold next_of. destruct (calls s !! g) as [ph|] eqn:Hg; [|done].
  destruct (Forall2_lookup_r _ _ _ _ _ Hc Hg) as (w & Hwg & Hadd).
  destruct ph as [n [|c cs]| | | |]; try done; destruct Hadd as (p & -> & Hne & Hp);
    pose proof (hwalk_in _ _ _ Ht Hp) as Hn; cbn [next].
  - rewrite app_nil_r in *. intros [= <-].
    assert (forall v, heap_keyword (SetEnd n (cells s)) v = bool_decide (v = p) || heap_keyword (cells s) v) as Hkey
      by (intros v; by apply SetEnd_keyword).
    eapply adds_set; [done..| | | |].
    + intros _. by rewrite Hkey, bool_decide_eq_true_2.
    + by apply SetEnd_tree.
    + intros. by rewrite SetEnd_walk.
    + intros v. rewrite Hkey, orb_true_iff, bool_decide_eq_true.
      split; [intros [?|?]; auto|intros [?|[? _]]; auto].
  - destruct (LoadOrStore n c (cells s)) as [h m] eqn:Hl. intros [= <-].
    destruct (LoadOrStore_spec _ _ _ _ _ Ht Hn Hl) as (Ht' & Hm & _).
    eapply adds_set; [done..| |done| |].
    + exists (p ++ [c])%list. rewrite <- app_assoc. split_and!; [done..|]. apply hwalk_snoc. exists n.
      split; [|done]. eapply LoadOrStore_walk; [exact Ht|exact Hn|exact Hl|exact Hp].
    + intros q x. eapply LoadOrStore_walk; [exact Ht|exact Hn|exact Hl].
    + intros v. rewrite (LoadOrStore_keyword _ _ _ _ _ v Ht Hn Hl).
      split; [by left|]. by intros [?|[_ ?]].
Qed.

(** The steps that a goroutine has to go, and those it takes in a schedule. *)
Definition work (ph : phase) : nat := match ph with AddAt _ cs => S (length cs) | _ => 0 end.
Definition steps_of (g : nat) (sched : list nat) : nat := count_if (Nat.eqb g) sched.

Lemma next_work w h ph ph' h' : adding h w ph -> next ph h = Some (ph', h') -> S (work ph') = work ph.
Proof.
  intros Hadd. destruct ph as [n [|c cs]| | | |]; try done; cbn [next]; [by intros [= <- <-]|].
  destruct (LoadOrStore n c h) as [h1 m]. by intros [= <- <-].
Qed.

Lemma next_of_work ws g s s' i ph :
  adds ws s -> next_of g s = Some s' -> calls s !! i = Some ph ->
  exists ph', calls s' !! i = Some ph' /\ Nat.b2n (i =? g) + work ph' = work ph.
Proof.
  intros [_ Hc _]. unfold next_of. destruct (calls s !! g) as [phg|] eqn:Hg; [|done].
  destruct (Forall2_lookup_r _ _ _ _ _ Hc Hg) as (w & _ & Hadd).
  intros ([ph' h] & Hn & [= <-])%bind_Some Hi. cbn [calls]. destruct (Nat.eqb_spec i g) as [->|Hne].
  - rewrite Hg in Hi. injection Hi as ->. exists ph'. rewrite list_lookup_insert_eq by by eapply lookup_lt_Some.
    split; [done|]. by apply (next_work _ _ _ _ _ Hadd Hn).
  - exists ph. by rewrite list_lookup_insert_ne.
Qed.

Lemma run_adds ws sched s s' : adds ws s -> run sched s = Some s' -> adds ws s'.
Proof.
  revert s. induction sched as [|g sched IH]; intros s Ha; cbn [run]; [by intros [= <-]|].
  intros (s1 & H1 & Hr)%bind_Some. by apply (IH s1), Hr; eapply next_of_adds.
Qed.

Lemma run_work ws sched s s' i ph :
  adds ws s -> run sched s = Some s' -> calls s !! i = Some ph ->
  exists ph', calls s' !! i = Some ph' /\ steps_of i sched + work ph' = work ph.
Proof.
  revert s ph. induction sched as [|g sched IH]; intros s ph Ha; cbn [run]; [intros [= <-] Hi; by exists ph|].
  intros (s1 & H1 & Hr)%bind_Some Hi. destruct (next_of_work _ _ _ _ _ _ Ha H1 Hi) as (ph1 & Hi1 & Hw1).
  destruct (IH s1 ph1 (next_of_adds _ _ _ _ Ha H1) Hr Hi1) as (ph' & Hi' & Hw'). exists ph'. split; [done|].
  unfold steps_of in *. rewrite count_if_cons. lia.
Qed.

Lemma start_adds kws : adds (map runes kws) (start (map start_Add kws)).
Proof.
  constructor; cbn [start cells calls].
  - assert (forall x, kids_of [mkCell ∅ false] x = ∅) as Hk by by intros [|[|x]].
    assert (forall c, (∅ : gmap rune nat) !! c = None) as He by (intros c; apply lookup_empty).
    constructor; [cbn; lia| |]; [intros x c m|intros x c x' c' m]; by rewrite Hk, He.
  - induction kws as [|kw kws IH]; [constructor|]. cbn [map]. constructor; [|done]. unfold start_Add.
    destruct (runes kw) as [|c cs]; [by intros ?|]. by exists [].
  - intros [|c w]; [done|]. cbn. by rewrite lookup_empty.
Qed.

Lemma start_work kw : work (start_Add kw) <= S (length (runes kw)).
Proof. unfold start_Add. destruct (runes kw); cbn; lia. Qed.

(** A goroutine that adds can go on until it is done. *)
Lemma adds_progress ws s g ph :
  adds ws s -> calls s !! g = Some ph -> ph = Finished \/ exists s', next_of g s = Some s'.
Proof.
  intros [_ Hc _] Hg. destruct (Forall2_lookup_r _ _ _ _ _ Hc Hg) as (w & _ & Hadd).
  unfold next_of. rewrite Hg. destruct ph as [n [|c cs]| | | |]; try done; cbn [next]; [right; by eexists| |by left].
  right. destruct (LoadOrStore n c (cells s)); by eexists.
Qed.

(** The words of a trie after [Add]s one after the other. *)
Lemma foldl_Add_keyword kws t w :
  is_keyword (Root (foldl Add t kws)) w = (negb (bool_decide (w = [])) && bool_decide (w ∈ map runes kws)) || is_keyword (Root t) w.
Proof.
  revert t. induction kws as [|kw kws IH]; intros t; cbn [foldl map]; [by rewrite (bool_decide_eq_false_2 (w ∈ [])), andb_false_r by apply not_elem_of_nil|].
  rewrite IH, TrieTheorems.add_exact. destruct (is_keyword (Root t) w); rewrite ?orb_true_r, ?orb_false_r; [done|].
  destruct (bool_decide (w = [])); [done|]. cbn [negb andb]. repeat case_bool_decide; set_solver.
Qed.
End TrieConcurrentFacts.

(** ** Properties *)

Module TrieConcurrentTheorems.
Import TrieConcurrentFacts.

(** C4: goroutines that add words to a new trie at once do not get into each
    other's way, whatever the interleaving. Each has taken at most a step more
    than its word is long; each that is not done can take its next step at once,
    and has its word, unless that is empty, in the trie as soon as it is done;
    the trie never holds another word; and when all are done the words are those
    of adding them one after the other. *)
Theorem concurrent_adds kws sched s :
  run sched (start (map start_Add kws)) = Some s ->
  (forall g kw, kws !! g = Some kw ->
   steps_of g sched <= S (length (runes kw)) /\
   exists ph, calls s !! g = Some ph /\
   (ph <> Finished -> exists s', next_of g s = Some s') /\
   (ph = Finished -> runes kw <> [] -> heap_keyword (cells s) (runes kw) = true)) /\
  (forall w, heap_keyword (cells s) w = true -> w ∈ map runes kws) /\
  (Forall (fun ph => ph = Finished) (calls s) ->
   forall w, heap_keyword (cells s) w = is_keyword (Root (foldl Add NewTrie kws)) w).
Proof.
  intros Hr. pose proof (run_adds _ _ _ _ (start_adds kws) Hr) as Ha.
  assert (forall g kw, kws !! g = Some kw -> exists ph, calls s !! g = Some ph /\ adding (cells s) (runes kw) ph /\
    steps_of g sched + work ph = work (start_Add kw)) as Hg.
  { intros g kw Hkw. destruct (run_work _ _ _ _ g (start_Add kw) (start_adds kws) Hr) as (ph & Hph & Hw).
    { cbn [start calls]. change (map start_Add kws) with (start_Add <$> kws). by rewrite list_lookup_fmap, Hkw. }
    exists ph. split; [done|]. split; [|done].
    assert (map runes kws !! g = Some (runes kw)) as Hkw' by (change (map runes kws) with (runes <$> kws); by rewrite list_lookup_fmap, Hkw).
    destruct (Forall2_lookup_l _ _ _ _ _ (adds_calls _ _ Ha) Hkw') as (ph1 & Hph1 & Hadd).
    rewrite Hph in Hph1. by injection Hph1 as <-. }
  split_and!.
  - intros g kw Hkw. destruct (Hg g kw Hkw) as (ph & Hph & Hadd & Hw). split; [pose proof (start_work kw); lia|].
    exists ph. split; [done|]. split; [|by intros ->]. intros Hne. by destruct (adds_progress _ _ _ _ Ha Hph).
  - apply Ha.
  - intros Hdone w. rewrite foldl_Add_keyword. change (Root NewTrie) with NewTrieNode. unfold is_keyword at 1.
    rewrite NodeFacts.end_at_NewTrieNode, andb_false_r, orb_false_r.
    apply eq_bool_prop_intro. rewrite !Is_true_true, andb_true_iff, negb_true_iff, bool_decide_eq_true, bool_decide_eq_false.
    split.
    + intros Hw. split; [|by apply (adds_words _ _ Ha)]. by intros ->.
    + intros [Hne (kw & -> & Hin)%list_elem_of_fmap]. apply list_elem_of_lookup_1 in Hin as [g Hkw].
      destruct (Hg g kw Hkw) as (ph & Hph & Hadd & _).
      rewrite (Forall_lookup_1 _ _ _ _ Hdone Hph) in Hadd. by apply Hadd.
Qed.

Lemma concurrent_adds_witness :
  exists s, run [0; 1; 1; 0; 1; 0] (start (map start_Add ["ab"; "ac"; ""]%string)) = Some s /\
  heap_keyword (cells s) (runes "ac") = true /\ heap_keyword (cells s) (runes "a") = false.
Proof.
  destruct (run [0; 1; 1; 0; 1; 0] (start (map start_Add ["ab"; "ac"; ""]%string))) as [s|] eqn:E; [|vm_compute in E; discriminate].
  exists s. split; [reflexivity|].
  destruct (concurrent_adds ["ab"; "ac"; ""]%string _ s E) as (_ & _ & H).
  rewrite !H; [split; reflexivity|..]; vm_compute in E; injection E as <-; repeat constructor.
Defined.

(** Two deletions of one word, and a word added after the second of them that
    shares its first rune: the first deletion, held up on its way back to the
    root, takes the new word with it. Neither of the two orders in which the
    calls could have run one at a time loses it. *)
Definition racing_calls : list phase := [start_Add "ab"; start_Del "ab"; start_Del "ab"; start_Add "ax"].
Definition racing_begin : list nat := [0; 0; 0; 1; 1; 1; 1; 2; 2; 2; 2; 2; 2; 2].
Definition racing_end : list nat := [3; 3; 3; 1; 1; 1].

Theorem dels_lose_a_word :
  (exists s, run racing_begin (start racing_calls) = Some s /\
   calls s !! 2 = Some Finished /\ calls s !! 3 = racing_calls !! 3) /\
  (exists s, run (racing_begin ++ racing_end) (start racing_calls) = Some s /\
   Forall (fun ph => ph = Finished) (calls s) /\ heap_keyword (cells s) (runes "ax") = false) /\
  let t := Del (Add NewTrie "ab") "ab" in
  is_keyword (Root (Add (Del t "ab") "ax")) (runes "ax") = true /\
  is_keyword (Root (Del (Add t "ax") "ab")) (runes "ax") = true.
Proof.
  split; [|split].
  - eexists. split; [vm_compute; reflexivity|]. by split.
  - eexists. split; [vm_compute; reflexivity|]. split; [|done]. repeat constructor.
  - split; vm_compute; reflexivity.
Qed.
End TrieConcurrentTheorems.
