(* ===== verification/GoTime.v ===== *)
(** * Calendar dates of [time.Time]

    The date keys of the shards come from [time.Unix(sec, 0)], its [Year] and its
    [Format("2006-01-02")]. This file models those three on the seconds since
    1970 and the offset of the local zone (seconds east of UTC), the way the Go
    library computes them: an unsigned count of seconds since the first of
    January of the year -292277022399, cut into cycles of 400, 100, 4 and 1
    years. *)

From S2P Require Import Prelude GoStrings.
Local Open Scope Z_scope.

Definition unix_to_absolute : Z := 9223372028715321600.
Definition absolute_zero_year : Z := -292277022399.

Definition is_leap (year : Z) : bool :=
  (year mod 4 =? 0) && (negb (year mod 100 =? 0) || (year mod 400 =? 0)).

(** [Time.abs]: the addition wraps around, as in Go. *)
Definition abs_days (offset sec : Z) : Z := u64 (sec + offset + unix_to_absolute) / 86400.

(** The year (from the absolute zero year) and the day in it. *)
Definition year_day (d : Z) : Z * Z :=
  let n := d / 146097 in let y := 400 * n in let d := d - 146097 * n in
  let n := d / 36524 in let n := n - n / 4 in let y := y + 100 * n in let d := d - 36524 * n in
  let n := d / 1461 in let y := y + 4 * n in let d := d - 1461 * n in
  let n := d / 365 in let n := n - n / 4 in let y := y + n in let d := d - 365 * n in
  (y, d).

(** [daysBefore] of the Go library. *)
Definition days_before_table : list Z :=
  [0; 31; 59; 90; 120; 151; 181; 212; 243; 273; 304; 334; 365].
Definition days_before (month : Z) : Z := default 0 (days_before_table !! Z.to_nat month).

Definition month_day (leap : bool) (yday : Z) : Z * Z :=
  if leap && (yday =? 59) then (2, 29)
  else
    let day := if leap && (59 <? yday) then yday - 1 else yday in
    let month := day / 31 in
    let e := days_before (month + 1) in
    if e <=? day then (month + 2, day - e + 1) else (month + 1, day - days_before month + 1).

(** [Time.Date] of [time.Unix(sec, 0)]: year, month, day. *)
Definition date_of_unix (offset sec : Z) : Z * Z * Z :=
  let '(y, yday) := year_day (abs_days offset sec) in
  let year := y + absolute_zero_year in
  let '(month, day) := month_day (is_leap year) yday in
  (year, month, day).

(** [appendInt]: decimal, with zeros in front up to [width] digits. *)
Definition append_int (x : Z) (width : nat) : list Z :=
  let ds := digits 20 (Z.abs x) [] in
  ((if x <? 0 then [45] else []) ++ replicate (width - length ds) 48 ++ ds)%list.

(** [Format("2006-01-02")] *)
Definition format_date (date : Z * Z * Z) : list Z :=
  let '(year, month, day) := date in
  (append_int year 4 ++ [45] ++ append_int month 2 ++ [45] ++ append_int day 2)%list.

(** ** The calendar, by counting days *)

(** The lengths of the months, and the days before a month of a year. *)
Definition month_length (leap : bool) (month : Z) : Z :=
  default 0 ([31; if leap then 29 else 28; 31; 30; 31; 30; 31; 31; 30; 31; 30; 31]
             !! Z.to_nat (month - 1)).
Definition days_in_months_before (leap : bool) (month : Z) : Z :=
  foldr Z.add 0 (map (fun k => month_length leap (Z.of_nat k)) (seq 1 (Z.to_nat (month - 1)))).

Definition valid_date (date : Z * Z * Z) : Prop :=
  let '(year, month, day) := date in
  0 <= year <= 9999 /\ 1 <= month <= 12 /\ 1 <= day <= month_length (is_leap year) month.

(** Days from 1970-01-01: 365 for each year, one more for each leap year. *)
Definition days_since_1970 (date : Z * Z * Z) : Z :=
  let '(year, month, day) := date in
  365 * (year - 1970) + ((year - 1) / 4 - (year - 1) / 100 + (year - 1) / 400 - 477)
  + (days_in_months_before (is_leap year) month + (day - 1)).

Section calendar.
#[local] Ltac Zify.zify_post_hook ::= Z.div_mod_to_equations.

Definition days_before_abs_year (a : Z) : Z := 365 * a + a / 4 - a / 100 + a / 400.

(** The cuts of [year_day] undo the count of days. *)
Lemma year_day_digits A B C D k :
  0 <= A -> 0 <= B <= 3 -> 0 <= C <= 24 -> 0 <= D <= 3 -> 0 <= k ->
  k < 365 \/ (k = 365 /\ D = 3 /\ (C <> 24 \/ B = 3)) ->
  year_day (146097 * A + 36524 * B + 1461 * C + 365 * D + k) = (400 * A + 100 * B + 4 * C + D, k).
Proof.
  intros HA HB HC HD Hk0 Hk. unfold year_day. cbv zeta.
  assert ((146097 * A + 36524 * B + 1461 * C + 365 * D + k) / 146097 = A) as -> by lia.
  replace (146097 * A + 36524 * B + 1461 * C + 365 * D + k - 146097 * A)
    with (36524 * B + 1461 * C + 365 * D + k) by lia.
  assert ((36524 * B + 1461 * C + 365 * D + k) / 36524
          - (36524 * B + 1461 * C + 365 * D + k) / 36524 / 4 = B) as -> by lia.
  replace (36524 * B + 1461 * C + 365 * D + k - 36524 * B) with (1461 * C + 365 * D + k) by lia.
  assert ((1461 * C + 365 * D + k) / 1461 = C) as -> by lia.
  replace (1461 * C + 365 * D + k - 1461 * C) with (365 * D + k) by lia.
  assert ((365 * D + k) / 365 - (365 * D + k) / 365 / 4 = D) as -> by lia.
  f_equal; lia.
Qed.

Lemma is_leap_abs a :
  is_leap (a + absolute_zero_year) = true -> a mod 4 = 3 /\ (a mod 100 <> 99 \/ a mod 400 = 399).
Proof. unfold is_leap, absolute_zero_year. lia. Qed.

Lemma days_before_abs_year_digits a :
  days_before_abs_year a =
  146097 * (a / 400) + 36524 * (a mod 400 / 100) + 1461 * (a mod 100 / 4) + 365 * (a mod 4).
Proof. unfold days_before_abs_year. lia. Qed.

Lemma year_day_count a k :
  0 <= a -> 0 <= k < 365 + (if is_leap (a + absolute_zero_year) then 1 else 0) ->
  year_day (days_before_abs_year a + k) = (a, k).
Proof.
  intros Ha Hk. rewrite days_before_abs_year_digits.
  assert (k < 365 \/ (k = 365 /\ a mod 4 = 3 /\ (a mod 100 <> 99 \/ a mod 400 = 399))) as Hk'.
  { pose proof (is_leap_abs a). destruct (is_leap _); [|lia].
    destruct (Z.eq_dec k 365); [right|lia]. tauto. }
  destruct Hk as [Hk _]. rewrite year_day_digits; [f_equal; lia|lia|lia|lia|lia|lia|].
  destruct Hk' as [?|(-> & H4 & H100)]; [lia|right]. split; [done|]. split; [done|].
  destruct H100 as [H100|H400]; [left|right]; lia.
Qed.

Lemma month_day_count leap month day :
  1 <= month <= 12 -> 1 <= day <= month_length leap month ->
  month_day leap (days_in_months_before leap month + (day - 1)) = (month, day) /\
  0 <= days_in_months_before leap month + (day - 1) < 365 + (if leap then 1 else 0).
Proof.
  intros Hm Hd.
  assert (forall leap, forallb (fun m => forallb (fun d =>
    bool_decide (month_day leap (days_in_months_before leap (Z.of_nat m) + (Z.of_nat d - 1))
                 = (Z.of_nat m, Z.of_nat d)) &&
    (0 <=? days_in_months_before leap (Z.of_nat m) + (Z.of_nat d - 1)) &&
    (days_in_months_before leap (Z.of_nat m) + (Z.of_nat d - 1) <? 365 + (if leap then 1 else 0)))
    (seq 1 (Z.to_nat (month_length leap (Z.of_nat m))))) (seq 1 12) = true) as Hall
    by (intros []; vm_compute; reflexivity).
  specialize (Hall leap). rewrite forallb_forall in Hall.
  specialize (Hall (Z.to_nat month) ltac:(apply in_seq; lia)).
  rewrite Z2Nat.id in Hall by lia. rewrite forallb_forall in Hall.
  specialize (Hall (Z.to_nat day) ltac:(apply in_seq; lia)).
  rewrite Z2Nat.id in Hall by lia.
  apply andb_true_iff in Hall as [[H1 H2]%andb_true_iff H3].
  apply bool_decide_eq_true in H1. split; [exact H1|]. lia.
Qed.

(** Every second of a calendar day is given that day by [date_of_unix]. *)
Lemma date_of_unix_correct offset sec year month day :
  valid_date (year, month, day) ->
  (sec + offset) / 86400 = days_since_1970 (year, month, day) ->
  date_of_unix offset sec = (year, month, day).
Proof.
  intros (Hy & Hm & Hd) Hday. unfold days_since_1970 in Hday.
  pose proof (month_day_count (is_leap year) month day Hm Hd) as [Hmd Hyd].
  set (yday := days_in_months_before (is_leap year) month + (day - 1)) in *.
  assert (abs_days offset sec = days_before_abs_year (year - absolute_zero_year) + yday) as Habs.
  { unfold abs_days. rewrite u64_id.
    - replace (sec + offset + unix_to_absolute) with
        (unix_to_absolute / 86400 * 86400 + (sec + offset)) by (unfold unix_to_absolute; lia).
      rewrite Z.div_add_l by lia. rewrite Hday.
      unfold days_before_abs_year, unix_to_absolute, absolute_zero_year. lia.
    - unfold in_uint64, unix_to_absolute.
      destruct (is_leap year); lia. }
  unfold date_of_unix. rewrite Habs, year_day_count.
  - replace (year - absolute_zero_year + absolute_zero_year) with year by lia.
    by rewrite Hmd.
  - unfold absolute_zero_year. lia.
  - replace (year - absolute_zero_year + absolute_zero_year) with year by lia. done.
Qed.
End calendar.

(** ** Printed dates *)

Section printed_dates.
#[local] Ltac Zify.zify_post_hook ::= Z.div_mod_to_equations.

Lemma append_int_2 x :
  0 <= x <= 99 -> append_int x 2 = [48 + x / 10; 48 + x mod 10].
Proof.
  intros Hx.
  assert (forallb (fun k => bool_decide (append_int (Z.of_nat k) 2 =
    [48 + Z.of_nat k / 10; 48 + Z.of_nat k mod 10])) (seq 0 100) = true) as Hall
    by (vm_compute; reflexivity).
  rewrite forallb_forall in Hall. specialize (Hall (Z.to_nat x) ltac:(apply in_seq; lia)).
  rewrite Z2Nat.id in Hall by lia. by apply bool_decide_eq_true in Hall.
Qed.

Definition four_digits (x : Z) : bool :=
  match append_int x 4 with
  | [a; b; c; d] => (a =? 48 + x / 1000) && (b =? 48 + x / 100 mod 10) &&
      (c =? 48 + x / 10 mod 10) && (d =? 48 + x mod 10)
  | _ => false
  end.

Lemma append_int_4 x :
  0 <= x <= 9999 ->
  append_int x 4 = [48 + x / 1000; 48 + x / 100 mod 10; 48 + x / 10 mod 10; 48 + x mod 10].
Proof.
  intros Hx.
  assert (forallb (fun a => forallb (fun b => four_digits (100 * Z.of_nat a + Z.of_nat b))
    (seq 0 100)) (seq 0 100) = true) as Hall by (vm_compute; reflexivity).
  rewrite forallb_forall in Hall. specialize (Hall (Z.to_nat (x / 100)) ltac:(apply in_seq; lia)).
  rewrite forallb_forall in Hall. specialize (Hall (Z.to_nat (x mod 100)) ltac:(apply in_seq; lia)).
  rewrite !Z2Nat.id in Hall by lia. replace (100 * (x / 100) + x mod 100) with x in Hall by lia.
  unfold four_digits in Hall. destruct (append_int x 4) as [|a [|b [|c [|d [|]]]]]; try done.
  apply andb_true_iff in Hall as [[[H1 H2]%andb_true_iff H3]%andb_true_iff H4].
  apply Z.eqb_eq in H1, H2, H3, H4. by subst.
Qed.

(** The ten bytes of a date of the years 0 to 9999. *)
Lemma format_date_bytes year month day :
  0 <= year <= 9999 -> 1 <= month <= 12 -> 1 <= day <= 31 ->
  format_date (year, month, day) =
  [48 + year / 1000; 48 + year / 100 mod 10; 48 + year / 10 mod 10; 48 + year mod 10; 45;
   48 + month / 10; 48 + month mod 10; 45; 48 + day / 10; 48 + day mod 10].
Proof.
  intros. unfold format_date. rewrite append_int_4, !append_int_2 by lia. done.
Qed.

Lemma month_length_bound leap month : month_length leap month <= 31.
Proof.
  unfold month_length. destruct (_ !! _) as [n|] eqn:E; cbn; [|lia].
  apply list_elem_of_lookup_2 in E. revert n E. apply Forall_forall.
  destruct leap; repeat constructor; lia.
Qed.

Lemma parse_uint_loop_value l n :
  Forall (fun c => 48 <= c <= 57) l -> 0 <= n -> (n + 1) * 10 ^ Z.of_nat (length l) <= 2 ^ 64 ->
  parse_uint_loop n l = (foldl (fun n c => n * 10 + (c - 48)) n l, None).
Proof.
  intros Hl. revert n. induction Hl as [|c l Hc _ IH]; intros n Hn Hmax; [done|].
  cbn [length] in Hmax. rewrite Nat2Z.inj_succ, Z.pow_succ_r in Hmax by lia.
  pose proof (Z.pow_pos_nonneg 10 (Z.of_nat (length l))).
  cbn [parse_uint_loop foldl]. unfold between, max_uint64.
  destruct ((48 <=? c) && (c <=? 57)) eqn:E1; [|lia].
  destruct (_ <=? n) eqn:E2; [nia|]. destruct (_ <? n * 10 + _) eqn:E3; [nia|].
  apply IH; [lia|nia].
Qed.

(** Up to eighteen digits parse to their value. *)
Lemma parse_int_value c l :
  Forall (fun c => 48 <= c <= 57) (c :: l) -> (length l < 18)%nat ->
  parse_int (c :: l) = (foldl (fun n c => n * 10 + (c - 48)) 0 (c :: l), None).
Proof.
  intros Hl Hlen. pose proof Hl as [Hc _]%Forall_cons. unfold parse_int.
  replace (c =? 45) with false by lia. replace (c =? 43) with false by lia. cbn [orb negb andb].
  assert (10 ^ Z.of_nat (S (length l)) <= 10 ^ 18) as Hpow by (apply Z.pow_le_mono_r; lia).
  unfold parse_uint. rewrite parse_uint_loop_value; [|done|lia|cbn [length]; lia].
  rewrite decide_False by done.
  assert (forall l n, Forall (fun c => 48 <= c <= 57) l -> 0 <= n ->
    foldl (fun n c => n * 10 + (c - 48)) n l < (n + 1) * 10 ^ Z.of_nat (length l)) as Hbound.
  { clear. intros l. induction l as [|c l IH]; intros n Hl Hn; cbn [foldl length]; [lia|].
    apply Forall_cons in Hl as [Hc Hl]. rewrite Nat2Z.inj_succ, Z.pow_succ_r by lia.
    pose proof (Z.pow_pos_nonneg 10 (Z.of_nat (length l))).
    specialize (IH (n * 10 + (c - 48)) Hl ltac:(lia)). nia. }
  specialize (Hbound (c :: l) 0 Hl ltac:(lia)). cbn [length] in Hbound.
  destruct (2 ^ 63 <=? _) eqn:E; [lia|done].
Qed.
End printed_dates.

Example date_ex : (date_of_unix 0 0, date_of_unix 28800 1709222400, of_bytes (format_date (987, 3, 4)))
                = (1970, 1, 1, (2024, 3, 1), "0987-03-04"%string).
Proof. reflexivity. Qed.
