(* ===== verification/DaoErrors.v ===== *)
(** * The error values of the data layer ([src/components/dao/errors/errors.go])

    Each package variable is one [errors.New] value, compared by identity: one
    constructor each. [Error] gives its text. *)

From S2P Require Import Prelude.

Inductive dao_error :=
| ErrNoMasterConn
| ErrNoSlaveConn
| ErrNoDefaultNode
| ErrNoMasterDB
| ErrNoSlaveDB
| ErrNoDatabase
| ErrMasterDown
| ErrSlaveDown
| ErrDatabaseClose
| ErrConnIsNil
| ErrBadConn
| ErrIgnoreSQL
| ErrAddressNull
| ErrInvalidArgument
| ErrInvalidCharset
| ErrCmdUnsupport
| ErrLocationsCount
| ErrNoCriteria
| ErrNoRouteNode
| ErrResultNil
| ErrSumColumnType
| ErrSelectInInsert
| ErrInsertInMulti
| ErrUpdateInMulti
| ErrDeleteInMulti
| ErrReplaceInMulti
| ErrExecInMulti
| ErrTransInMulti
| ErrNoPlan
| ErrNoPlanRule
| ErrUpdateKey
| ErrStmtConvert
| ErrExprConvert
| ErrConnNotEqual
| ErrKeyOutOfRange
| ErrKeyNotExist
| ErrMultiShard
| ErrIRNoColumns
| ErrIRNoShardingKey
| ErrColsLenNotMatch
| ErrDateIllegal
| ErrDateRangeIllegal
| ErrDateRangeCount
| ErrSlaveExist
| ErrSlaveNotExist
| ErrBlackSqlExist
| ErrBlackSqlNotExist
| ErrInsertTooComplex
| ErrSQLNULL
| ErrInternalServer.

#[global] Instance dao_error_eq_dec : EqDecision dao_error.
Proof. solve_decision. Defined.

Definition Error (e : dao_error) : string :=
  match e with
  | ErrNoMasterConn => "no master connection"
  | ErrNoSlaveConn => "no slave connection"
  | ErrNoDefaultNode => "no default node"
  | ErrNoMasterDB => "no master database"
  | ErrNoSlaveDB => "no slave database"
  | ErrNoDatabase => "no database"
  | ErrMasterDown => "master is down"
  | ErrSlaveDown => "slave is down"
  | ErrDatabaseClose => "database is close"
  | ErrConnIsNil => "connection is nil"
  | ErrBadConn => "connection was bad"
  | ErrIgnoreSQL => "ignore this sql"
  | ErrAddressNull => "address is nil"
  | ErrInvalidArgument => "argument is invalid"
  | ErrInvalidCharset => "charset is invalid"
  | ErrCmdUnsupport => "command unsupport"
  | ErrLocationsCount => "locations count is not equal"
  | ErrNoCriteria => "plan have no criteria"
  | ErrNoRouteNode => "no route node"
  | ErrResultNil => "result is nil"
  | ErrSumColumnType => "sum column type error"
  | ErrSelectInInsert => "select in insert not allowed"
  | ErrInsertInMulti => "insert in multi node"
  | ErrUpdateInMulti => "update in multi node"
  | ErrDeleteInMulti => "delete in multi node"
  | ErrReplaceInMulti => "replace in multi node"
  | ErrExecInMulti => "exec in multi node"
  | ErrTransInMulti => "transaction in multi node"
  | ErrNoPlan => "statement have no plan"
  | ErrNoPlanRule => "statement have no plan rule"
  | ErrUpdateKey => "routing key in update expression"
  | ErrStmtConvert => "statement fail to convert"
  | ErrExprConvert => "expr fail to convert"
  | ErrConnNotEqual => "the length of conns not equal sqls"
  | ErrKeyOutOfRange => "shard key not in key range"
  | ErrKeyNotExist => "shard key not exist"
  | ErrMultiShard => "insert or replace has multiple shard targets"
  | ErrIRNoColumns => "insert or replace must specify columns"
  | ErrIRNoShardingKey => "insert or replace not contain sharding key"
  | ErrColsLenNotMatch => "insert or replace cols and values length not match"
  | ErrDateIllegal => "date format illegal"
  | ErrDateRangeIllegal => "date range format illegal"
  | ErrDateRangeCount => "date range count is not equal"
  | ErrSlaveExist => "slave has exist"
  | ErrSlaveNotExist => "slave has not exist"
  | ErrBlackSqlExist => "black sql has exist"
  | ErrBlackSqlNotExist => "black sql has not exist"
  | ErrInsertTooComplex => "insert is too complex"
  | ErrSQLNULL => "sql is null"
  | ErrInternalServer => "internal server error"
  end.
