(* ===== verification/Shard.v ===== *)
(** * Sharding keys ([src/components/dao/shard/shard.go], [numkey.go])

    A shard maps a key to a table number: by remainder, by range, or by date.
    Definitions come first, then the properties of each kind of shard. *)

From S2P Require Import Prelude GoStrings GoTime DaoErrors.
#[local] Set Warnings "-register-all".
Local Open Scope Z_scope.

(** ** Keys and errors *)

(** The dynamic types of an [interface{}] key that the code tells apart. *)
Inductive key :=
| KInt (v : Z)
| KUint64 (v : Z)
| KInt64 (v : Z)
| KString (s : string)
| KBytes (b : list Z)
| KSlice (l : list key)
| KOther.

(** A value of its Go type. *)
Definition key_in_range (k : key) : Prop :=
  match k with
  | KInt v | KInt64 v => in_int64 v
  | KUint64 v => in_uint64 v
  | KBytes b => Forall is_byte b
  | _ => True
  end.

Inductive shard_error :=
| DaoErr (e : dao_error)
| InvalidDateFormat (val : string)
| AtoiError (e : num_error).

#[global] Instance shard_error_eq_dec : EqDecision shard_error.
Proof. solve_decision. Defined.

(** ** [crc32.ChecksumIEEE]: the reflected polynomial 0xEDB88320, bit by bit *)

Fixpoint crc_shift (n : nat) (c : Z) : Z :=
  match n with
  | O => c
  | S n => crc_shift n (if Z.odd c then Z.lxor (Z.shiftr c 1) 0xEDB88320 else Z.shiftr c 1)
  end.

Definition ChecksumIEEE (data : list Z) : Z :=
  Z.lxor (foldl (fun crc b => crc_shift 8 (Z.lxor crc b)) 0xFFFFFFFF data) 0xFFFFFFFF.

(** ** Reading a key as a number *)

Definition ModValue (value : key) : Z * option shard_error :=
  match value with
  | KInt val => (u64 val, None)
  | KUint64 val => (val, None)
  | KInt64 val => (u64 val, None)
  | KString val =>
      let '(v, err) := ParseUint val in
      match err with
      | Some _ => (ChecksumIEEE (bytes val), None)
      | None => (v, None)
      end
  | KBytes val => (ChecksumIEEE val, None)
  | KSlice [] => (0, Some (DaoErr ErrKeyNotExist))
  | KSlice _ => (0, Some (DaoErr ErrKeyNotExist))
  | KOther => (0, Some (DaoErr ErrKeyNotExist))
  end.

(** [panic(fmt.Errorf("invalid num format %v", v))] *)
Definition invalid_num {A} (v : Z) : outcome A :=
  Panic (PanicMessage ("invalid num format " +:+ Itoa v)).

Definition NumValue (value : key) : outcome (Z * option shard_error) :=
  match value with
  | KInt val => Ret (val, None)
  | KUint64 val => Ret (i64 val, None)
  | KInt64 val => Ret (val, None)
  | KString val =>
      let '(v, err) := ParseInt val in
      match err with Some _ => invalid_num v | None => Ret (v, None) end
  | KBytes val =>
      let '(v, err) := parse_int val in
      match err with Some _ => invalid_num v | None => Ret (v, None) end
  | KSlice [] => Ret (0, Some (DaoErr ErrKeyNotExist))
  | KSlice _ => Ret (0, Some (DaoErr ErrKeyNotExist))
  | KOther => Ret (0, Some (DaoErr ErrKeyNotExist))
  end.

(** ** Ranges ([numkey.go]) *)

Definition MinNumKey : Z := - 2 ^ 63.
Definition MaxNumKey : Z := 2 ^ 63 - 1.

(** [start, end) *)
Record NumKeyRange := mkRange { Start : Z; End_ : Z }.

Definition MapKey (kr : NumKeyRange) : string := Itoa (Start kr) +:+ "-" +:+ Itoa (End_ kr).
Definition RangeString (kr : NumKeyRange) : string :=
  "{Start: " +:+ Itoa (Start kr) +:+ ", End: " +:+ Itoa (End_ kr) +:+ "}".

Definition Contains (kr : NumKeyRange) (i : Z) : bool :=
  (Start kr <=? i) && ((End_ kr =? MaxNumKey) || (i <? End_ kr)).

(** [make] panics on a negative length; the bounds are products of [int]s, which
    wrap around. The error result is always nil. *)
Definition ParseNumSharding (Locations TableRowLimit : Z) : outcome (list NumKeyRange) :=
  if Locations <? 0 then Panic MakeNegative
  else Ret (map (fun i => mkRange (i64 (Z.of_nat i * TableRowLimit))
                                  (i64 (i64 (Z.of_nat i + 1) * TableRowLimit)))
                (seq 0 (Z.to_nat Locations))).

(** ** The shards *)

Inductive Shard :=
| ModShard (ShardNum : Z)
| NumRangeShard (Shards : list NumKeyRange)
| DateYearShard
| DateMonthShard
| DateDayShard.

(** [ModShard.FindForKey]: several keys are read one by one (skipping those in
    error), printed, and put together into one string key. *)
Definition mod_keys (key : list key) : string :=
  foldl (fun keys v =>
           let '(r, err) := ModValue v in
           match err with Some _ => keys | None => keys +:+ Itoa (i64 r) end) "" key.

Definition mod_find (ShardNum : Z) (key : list key) : outcome (Z * option shard_error) :=
  let '(m, err) := match key with
                   | [k] => ModValue k
                   | _ => ModValue (KString (mod_keys key))
                   end in
  if u64 ShardNum =? 0 then Panic DivideByZero
  else Ret (i64 (m mod u64 ShardNum), err).

(** [NumRangeShard.FindForKey] *)
Fixpoint num_keys (keys : string) (key : list key) : outcome string :=
  match key with
  | [] => Ret keys
  | v :: key =>
      '(r, err) ← NumValue v;
      num_keys (match (err : option shard_error) with Some _ => keys | None => keys +:+ Itoa r end) key
  end.

Fixpoint first_range (i : Z) (shards : list NumKeyRange) (v : Z) : Z * option shard_error :=
  match shards with
  | [] => (-1, Some (DaoErr ErrKeyOutOfRange))
  | r :: shards => if Contains r v then (i, None) else first_range (i + 1) shards v
  end.

Definition num_find (Shards : list NumKeyRange) (key : list key) : outcome (Z * option shard_error) :=
  match Shards with
  | [] => Ret (-1, Some (DaoErr ErrMultiShard))
  | _ =>
      '(v, err) ← match key with
                  | [k] => NumValue k
                  | _ => keys ← num_keys "" key; NumValue (KString keys)
                  end;
      match (err : option shard_error) with
      | Some e => Ret (0, Some e)
      | None => Ret (first_range 0 Shards v)
      end
  end.

Definition EqualStart (Shards : list NumKeyRange) (key : key) (index : Z)
    : outcome (bool * option shard_error) :=
  '(v, err) ← NumValue key;
  match (err : option shard_error) with
  | Some e => Ret (false, Some e)
  | None => r ← index_z Shards index; Ret (Start r =? v, None)
  end.

Definition EqualStop (Shards : list NumKeyRange) (key : key) (index : Z)
    : outcome (bool * option shard_error) :=
  '(v, err) ← NumValue key;
  match (err : option shard_error) with
  | Some _ => Ret (false, None)
  | None => r ← index_z Shards index; Ret (End_ r =? v, None)
  end.

Section date_shards.
(** The offset of the local time zone at an instant. *)
Context (local_offset : Z -> Z).

Definition unix_date (sec : Z) : Z * Z * Z := date_of_unix (local_offset sec) sec.

(** [keyT := key[0]]; unix seconds by the integer types. *)
Definition year_find (key : list key) : outcome (Z * option shard_error) :=
  keyT ← index key 0;
  match keyT with
  | KInt val | KInt64 val => Ret ((unix_date val).1.1, None)
  | KUint64 val => Ret ((unix_date (i64 val)).1.1, None)
  | KString val =>
      s ← slice (bytes val) 0 4;
      let '(v, err) := parse_int s in
      match err with Some _ => Ret (0, Some (DaoErr ErrKeyNotExist)) | None => Ret (v, None) end
  | _ => Ret (0, Some (DaoErr ErrKeyNotExist))
  end.

(** [dateStr[:4] + dateStr[5:7]], and [+ dateStr[8:10]] for days. *)
Definition cut_month (dateStr : list Z) : outcome (list Z) :=
  y ← slice dateStr 0 4; m ← slice dateStr 5 7; Ret (y ++ m)%list.
Definition cut_day (dateStr : list Z) : outcome (list Z) :=
  y ← slice dateStr 0 4; m ← slice dateStr 5 7; d ← slice dateStr 8 10; Ret (y ++ m ++ d)%list.

(** The two branches of the month and day shards: a timestamp, and a string of
    at least ten bytes. *)
Definition find_by_time (cut : list Z -> outcome (list Z)) (sec : Z)
    : outcome (Z * option shard_error) :=
  s ← cut (format_date (unix_date sec));
  let '(v, err) := parse_int s in
  match err with Some e => Ret (0, Some (AtoiError e)) | None => Ret (v, None) end.

Definition find_by_string (cut : list Z -> outcome (list Z)) (val : string)
    : outcome (Z * option shard_error) :=
  if Z.of_nat (length (bytes val)) <? 10 then Ret (0, Some (InvalidDateFormat val))
  else
    s ← cut (bytes val);
    let '(v, err) := parse_int s in
    match err with Some _ => Ret (0, Some (InvalidDateFormat val)) | None => Ret (v, None) end.

Definition date_find (cut : list Z -> outcome (list Z)) (key : list key)
    : outcome (Z * option shard_error) :=
  keyT ← index key 0;
  match keyT with
  | KInt val | KInt64 val => find_by_time cut val
  | KUint64 val => find_by_time cut (i64 val)
  | KString val => find_by_string cut val
  | _ => Ret (0, Some (DaoErr ErrKeyNotExist))
  end.

Definition month_find : list key -> outcome (Z * option shard_error) := date_find cut_month.
Definition day_find : list key -> outcome (Z * option shard_error) := date_find cut_day.

(** The method of the [Shard] interface. *)
Definition FindForKey (s : Shard) (key : list key) : outcome (Z * option shard_error) :=
  match s with
  | ModShard n => mod_find n key
  | NumRangeShard rs => num_find rs key
  | DateYearShard => year_find key
  | DateMonthShard => month_find key
  | DateDayShard => day_find key
  end.
End date_shards.

(** ** Configuration *)

Definition MODSHARDTYPE : string := "mod".
Definition RANGESHARDTYPE : string := "range".
Definition DateDayRuleType : string := "date_day".
Definition DateMonthRuleType : string := "date_month".
Definition DateYearRuleType : string := "date_year".

Record ShardConfig := mkShardConfig {
  DB : string;
  Table : string;
  ModNum : Z;
  Locations : Z;
  Type_ : string;
  TableRowLimit : Z
}.

(** [ParseShard] skips a configuration of an unknown type. *)
Fixpoint ParseShard (cfgs : list ShardConfig) : outcome (list Shard) :=
  match cfgs with
  | [] => Ret []
  | cfg :: cfgs =>
      shard ← (if String.eqb (Type_ cfg) MODSHARDTYPE then Ret [ModShard (ModNum cfg)]
               else if String.eqb (Type_ cfg) RANGESHARDTYPE then
                 rs ← ParseNumSharding (Locations cfg) (TableRowLimit cfg);
                 Ret [NumRangeShard rs]
               else if String.eqb (Type_ cfg) DateDayRuleType then Ret [DateDayShard]
               else if String.eqb (Type_ cfg) DateMonthRuleType then Ret [DateMonthShard]
               else if String.eqb (Type_ cfg) DateYearRuleType then Ret [DateYearShard]
               else Ret []);
      shards ← ParseShard cfgs;
      Ret (shard ++ shards)%list
  end.

Example crc_check : ChecksumIEEE (bytes "123456789") = 0xCBF43926.
Proof. reflexivity. Qed.

(** ** Facts *)

Module ShardFacts.

Lemma mod_find_eq n keys m err :
  0 < n < 2 ^ 63 ->
  match keys with [k] => ModValue k | _ => ModValue (KString (mod_keys keys)) end = (m, err) ->
  mod_find n keys = Ret (m mod n, err).
Proof.
  intros Hn Hm. unfold mod_find. rewrite Hm, u64_id by (unfold in_uint64; lia).
  destruct (n =? 0) eqn:E; [lia|]. rewrite i64_id; [done|].
  pose proof (Z.mod_pos_bound m n). unfold in_int64. lia.
Qed.

Lemma ModValue_Itoa v : in_uint64 v -> ModValue (KString (Itoa v)) = (v, None).
Proof. intros Hv. cbn. by rewrite ParseUint_Itoa. Qed.

Lemma NumValue_Itoa v : in_int64 v -> NumValue (KString (Itoa v)) = Ret (v, None).
Proof. intros Hv. cbn. by rewrite ParseInt_Itoa. Qed.

(** Contiguous ranges of [L] keys each: the first one that contains [v]. *)
Lemma first_range_contiguous L s k v :
  0 < L -> (Z.of_nat s + Z.of_nat k) * L < 2 ^ 63 - 1 ->
  first_range (Z.of_nat s)
    (map (fun i => mkRange (i64 (Z.of_nat i * L)) (i64 (i64 (Z.of_nat i + 1) * L))) (seq s k)) v =
  if (Z.of_nat s * L <=? v) && (v <? (Z.of_nat s + Z.of_nat k) * L)
  then (v / L, None) else (-1, Some (DaoErr ErrKeyOutOfRange)).
Proof.
  intros HL. revert s. induction k as [|k IH]; intros s Hmax.
  { rewrite Z.add_0_r.
    destruct (Z.leb_spec (Z.of_nat s * L) v), (Z.ltb_spec v (Z.of_nat s * L)); [lia|done|done|done]. }
  assert (0 <= Z.of_nat s * L) as Hlo by nia.
  assert (0 <= Z.of_nat k * L) as Hk by nia.
  assert (Z.of_nat s <= Z.of_nat s * L) as Hs by nia.
  replace ((Z.of_nat s + Z.of_nat (S k)) * L) with (Z.of_nat s * L + L + Z.of_nat k * L) in * by lia.
  cbn [seq map first_range].
  rewrite (i64_id (Z.of_nat s * L)) by (unfold in_int64; lia).
  rewrite (i64_id (Z.of_nat s + 1)) by (unfold in_int64; lia).
  rewrite Z.mul_add_distr_r, Z.mul_1_l.
  rewrite (i64_id (Z.of_nat s * L + L)) by (unfold in_int64; lia).
  unfold Contains, MaxNumKey. cbn [Start End_].
  replace (Z.of_nat s * L + L =? 2 ^ 63 - 1) with false by lia. cbn [orb].
  replace (Z.of_nat s + 1) with (Z.of_nat (S s)) by lia. rewrite IH by lia.
  replace ((Z.of_nat (S s) + Z.of_nat k) * L) with (Z.of_nat s * L + L + Z.of_nat k * L) by lia.
  replace (Z.of_nat (S s) * L) with (Z.of_nat s * L + L) by lia.
  destruct (Z.leb_spec (Z.of_nat s * L) v), (Z.ltb_spec v (Z.of_nat s * L + L)),
    (Z.leb_spec (Z.of_nat s * L + L) v), (Z.ltb_spec v (Z.of_nat s * L + L + Z.of_nat k * L));
    try lia; try done.
  cbn. f_equal. apply (Z.div_unique v L (Z.of_nat s) (v - Z.of_nat s * L)); lia.
Qed.

(** A range that was parsed, and the keys it covers. *)
Lemma parsed_range n L i r :
  0 < L -> n * L < 2 ^ 63 - 1 ->
  map (fun i => mkRange (i64 (Z.of_nat i * L)) (i64 (i64 (Z.of_nat i + 1) * L))) (seq 0 (Z.to_nat n)) !! i = Some r ->
  r = mkRange (Z.of_nat i * L) ((Z.of_nat i + 1) * L).
Proof.
  intros HL Hmax Hr. change (map ?f ?l) with (f <$> l) in Hr. rewrite list_lookup_fmap in Hr.
  apply fmap_Some in Hr as (j & [-> Hi]%lookup_seq & ->). cbn [Nat.add].
  assert (0 <= Z.of_nat i /\ Z.of_nat i + 1 <= n) as [H0 H1] by lia.
  assert ((Z.of_nat i + 1) * L <= n * L) by nia. assert (Z.of_nat i + 1 <= (Z.of_nat i + 1) * L) by nia.
  rewrite (i64_id (Z.of_nat i + 1)) by (unfold in_int64; lia).
  by rewrite !i64_id by (unfold in_int64; nia).
Qed.

Lemma Contains_div i L v :
  0 < L -> (i + 1) * L < MaxNumKey -> Contains (mkRange (i * L) ((i + 1) * L)) v = true <-> v / L = i.
Proof.
  intros HL Hmax. unfold Contains. cbn [Start End_]. rewrite (proj2 (Z.eqb_neq _ MaxNumKey)) by lia. cbn [orb].
  rewrite andb_true_iff, Z.leb_le, Z.ltb_lt. split.
  - intros [H1 H2]. symmetry. apply (Z.div_unique v L i (v - i * L)); lia.
  - intros <-. pose proof (Z.div_mod v L ltac:(lia)). pose proof (Z.mod_pos_bound v L HL). lia.
Qed.

(** The digits of a date, cut and parsed. *)
Section dates.
#[local] Ltac Zify.zify_post_hook ::= Z.div_mod_to_equations.
Context (year month day : Z) (rest : list Z).
Context (Hdate : valid_date (year, month, day)).

Lemma date_bounds : 0 <= year <= 9999 /\ 1 <= month <= 12 /\ 1 <= day <= 31.
Proof using Hdate.
  destruct Hdate as (? & ? & ?). pose proof (month_length_bound (is_leap year) month). lia.
Qed.

#[local] Ltac parse_date :=
  pose proof date_bounds;
  rewrite parse_int_value; [cbn [foldl]; f_equal; lia|repeat constructor; lia|cbn; lia].

Lemma cut_year_parse :
  exists s, slice (format_date (year, month, day) ++ rest)%list 0 4 = Ret s /\ parse_int s = (year, None).
Proof using Hdate.
  pose proof date_bounds. rewrite format_date_bytes by lia. cbn [app].
  rewrite slice_in by (cbn; lia). eexists. split; [reflexivity|]. cbn [Nat.sub take drop app]. rewrite ?take_0. cbn [app]. parse_date.
Qed.

Lemma cut_month_parse :
  exists s, cut_month (format_date (year, month, day) ++ rest)%list = Ret s /\
  parse_int s = (year * 100 + month, None).
Proof using Hdate.
  pose proof date_bounds. rewrite format_date_bytes by lia. cbn [app]. unfold cut_month.
  rewrite !slice_in by (cbn; lia). eexists. split; [reflexivity|]. cbn [Nat.sub take drop app]. rewrite ?take_0. cbn [app]. parse_date.
Qed.

Lemma cut_day_parse :
  exists s, cut_day (format_date (year, month, day) ++ rest)%list = Ret s /\
  parse_int s = (year * 10000 + month * 100 + day, None).
Proof using Hdate.
  pose proof date_bounds. rewrite format_date_bytes by lia. cbn [app]. unfold cut_day.
  rewrite !slice_in by (cbn; lia). eexists. split; [reflexivity|]. cbn [Nat.sub take drop app]. rewrite ?take_0. cbn [app]. parse_date.
Qed.

Lemma format_date_is_bytes : Forall is_byte (format_date (year, month, day)).
Proof using Hdate.
  pose proof date_bounds. rewrite format_date_bytes by lia. unfold is_byte.
  repeat constructor; lia.
Qed.

Lemma format_date_length : length (format_date (year, month, day)) = 10%nat.
Proof using Hdate. pose proof date_bounds. by rewrite format_date_bytes by lia. Qed.
End dates.

(** The key each date shard gives a date. *)
Definition date_key (s : Shard) (date : Z * Z * Z) : option Z :=
  let '(year, month, day) := date in
  match s with
  | DateYearShard => Some year
  | DateMonthShard => Some (year * 100 + month)
  | DateDayShard => Some (year * 10000 + month * 100 + day)
  | _ => None
  end.

Definition known_type (cfg : ShardConfig) : bool :=
  bool_decide (Type_ cfg ∈ [MODSHARDTYPE; RANGESHARDTYPE; DateDayRuleType; DateMonthRuleType; DateYearRuleType]).

Lemma ParseShard_single cfg shards :
  known_type cfg = true -> ParseShard [cfg] = Ret shards -> exists s, shards = [s].
Proof.
  unfold known_type. rewrite bool_decide_eq_true. intros Hk. cbn [ParseShard].
  destruct (String.eqb_spec (Type_ cfg) MODSHARDTYPE); [intros; simplify_eq/=; eauto|].
  destruct (String.eqb_spec (Type_ cfg) RANGESHARDTYPE).
  { destruct (ParseNumSharding _ _); intros; simplify_eq/=; eauto. }
  destruct (String.eqb_spec (Type_ cfg) DateDayRuleType); [intros; simplify_eq/=; eauto|].
  destruct (String.eqb_spec (Type_ cfg) DateMonthRuleType); [intros; simplify_eq/=; eauto|].
  destruct (String.eqb_spec (Type_ cfg) DateYearRuleType); [intros; simplify_eq/=; eauto|].
  exfalso. repeat (apply elem_of_cons in Hk as [Hk|Hk]; [done|]). by apply elem_of_nil in Hk.
Qed.

Lemma ParseShard_cons cfg cfgs :
  ParseShard (cfg :: cfgs) =
  s ← ParseShard [cfg]; shards ← ParseShard cfgs; Ret (s ++ shards)%list.
Proof.
  cbn [ParseShard]. set (head := if String.eqb _ _ then _ else _).
  destruct head; run; [|done|done]. by rewrite app_nil_r.
Qed.

Lemma ParseShard_Forall2 cfgs shards :
  Forall (fun cfg => known_type cfg = true) cfgs -> ParseShard cfgs = Ret shards ->
  Forall2 (fun cfg s => ParseShard [cfg] = Ret [s]) cfgs shards.
Proof.
  intros Hk. revert shards. induction Hk as [|cfg cfgs Hcfg _ IH]; intros shards Hs.
  { simplify_eq/=. constructor. }
  rewrite ParseShard_cons in Hs. inv_bind Hs. inv_bind Hs. simplify_eq.
  destruct (ParseShard_single _ _ Hcfg Ha) as [s ->]. constructor; [done|by apply IH].
Qed.
End ShardFacts.

(** ** Properties *)

Module ShardTheorems.
Import ShardFacts.

(** C29: a mod shard with a positive number of tables answers any keys, with a
    table number below it; integer keys give the remainder of their unsigned
    64-bit value. *)
Theorem mod_shard_in_range off n keys :
  0 < n < 2 ^ 63 ->
  exists k err, FindForKey off (ModShard n) keys = Ret (k, err) /\ 0 <= k < n /\
  (forall v, keys = [KInt v] \/ keys = [KInt64 v] \/ keys = [KUint64 v] -> key_in_range (hd KOther keys) ->
   k = u64 v mod n /\ err = None).
Proof.
  intros Hn. cbn [FindForKey].
  destruct (match keys with [k] => ModValue k | _ => ModValue (KString (mod_keys keys)) end)
    as [m err] eqn:Hm.
  exists (m mod n), err. split; [by apply mod_find_eq|]. split; [apply Z.mod_pos_bound; lia|].
  intros v [->|[->| ->]] Hr; cbn in *; simplify_eq; [done|done|]. by rewrite u64_id.
Qed.

(** C26: [ParseNumSharding] gives contiguous ranges of one size, the first at
    zero, of which at most one covers a key, and the range shard sends a key to
    that one, or says that no range covers it; this for a positive number and
    size of tables whose last bound stays below the largest key. *)
Theorem num_range_routes off n L v :
  0 < n -> 0 < L -> n * L < MaxNumKey -> in_int64 v ->
  exists rs, ParseNumSharding n L = Ret rs /\ length rs = Z.to_nat n /\
  (forall i r, rs !! i = Some r -> r = mkRange (Z.of_nat i * L) ((Z.of_nat i + 1) * L)) /\
  (forall i r, rs !! i = Some r -> (Contains r v = true <-> v / L = Z.of_nat i)) /\
  FindForKey off (NumRangeShard rs) [KInt64 v] =
  if (0 <=? v) && (v <? n * L) then Ret (v / L, None)
  else Ret (-1, Some (DaoErr ErrKeyOutOfRange)).
Proof.
  intros Hn HL Hmax Hv. unfold ParseNumSharding, MaxNumKey in *.
  destruct (n <? 0) eqn:E; [lia|]. eexists. split; [done|].
  split; [by rewrite length_map, length_seq|].
  pose proof (fun i r => parsed_range n L i r HL Hmax) as Hrange. split; [exact Hrange|]. split.
  { intros i r Hr. pose proof Hr as Hi%lookup_lt_Some. rewrite length_map, length_seq in Hi.
    rewrite (Hrange i r Hr). apply Contains_div; [done|].
    assert ((Z.of_nat i + 1) * L <= n * L) by (apply Z.mul_le_mono_nonneg_r; lia). unfold MaxNumKey. lia. }
  cbn [FindForKey]. unfold num_find.
  pose proof (first_range_contiguous L 0 (Z.to_nat n) v HL) as Hr. change (Z.of_nat 0) with 0 in Hr.
  rewrite Z.add_0_l, Z2Nat.id, Z.mul_0_l in Hr by lia.
  destruct (map _ _) as [|r rs] eqn:Hmap.
  { apply (f_equal length) in Hmap. rewrite length_map, length_seq in Hmap. cbn in Hmap. lia. }
  cbn [NumValue]. run. rewrite Hr by lia. by destruct (_ && _).
Qed.

(** A decimal string routes like the number it prints, in a mod shard and
    in a range shard. *)
Theorem numeric_string_key off n rs v :
  (in_uint64 v ->
   FindForKey off (ModShard n) [KString (Itoa v)] = FindForKey off (ModShard n) [KUint64 v]) /\
  (in_int64 v ->
   FindForKey off (NumRangeShard rs) [KString (Itoa v)] = FindForKey off (NumRangeShard rs) [KInt64 v]).
Proof.
  split; intros Hv; cbn [FindForKey].
  - unfold mod_find. by rewrite ModValue_Itoa.
  - unfold num_find. by rewrite NumValue_Itoa.
Qed.

(** C27: every second of a day of the years 0 to 9999, in the local zone, has
    that day's key: YYYY, YYYYMM or YYYYMMDD. *)
Theorem date_shard_of_second off s date sec k :
  valid_date date -> in_int64 sec -> (sec + off sec) / 86400 = days_since_1970 date ->
  date_key s date = Some k ->
  FindForKey off s [KInt64 sec] = Ret (k, None) /\ FindForKey off s [KInt sec] = Ret (k, None) /\
  FindForKey off s [KUint64 (u64 sec)] = Ret (k, None).
Proof.
  destruct date as [[year month] day]. intros Hd Hs Hday Hk.
  pose proof (date_of_unix_correct _ _ _ _ _ Hd Hday) as Hdate.
  assert (i64 (u64 sec) = sec) as Hu.
  { unfold i64, u64, in_int64 in *. rewrite Zplus_mod_idemp_l, Z.mod_small; lia. }
  assert (forall cut s0 v, cut (format_date (year, month, day) ++ [])%list = Ret s0 ->
    parse_int s0 = (v, None) -> find_by_time off cut sec = Ret (v, None)) as Hcut.
  { intros cut s0 v Hcut Hp. unfold find_by_time, unix_date. rewrite Hdate.
    rewrite app_nil_r in Hcut. rewrite Hcut. run. by rewrite Hp. }
  destruct s; cbn in Hk; simplify_eq; cbn [FindForKey].
  - unfold year_find, unix_date. cbn [index lookup list_lookup]. run. rewrite Hu, Hdate. done.
  - destruct (cut_month_parse year month day [] Hd) as (s0 & H1 & H2).
    unfold month_find, date_find. cbn [index lookup list_lookup]. run. rewrite Hu.
    by rewrite (Hcut _ _ _ H1 H2).
  - destruct (cut_day_parse year month day [] Hd) as (s0 & H1 & H2).
    unfold day_find, date_find. cbn [index lookup list_lookup]. run. rewrite Hu.
    by rewrite (Hcut _ _ _ H1 H2).
Qed.

(** C28: a text that begins with a date printed as YYYY-MM-DD has the key of
    that date, whatever follows. *)
Theorem date_shard_of_text off s date k rest :
  valid_date date -> date_key s date = Some k ->
  FindForKey off s [KString (of_bytes (format_date date) +:+ rest)] = Ret (k, None).
Proof.
  destruct date as [[year month] day]. intros Hd Hk.
  assert (bytes (of_bytes (format_date (year, month, day)) +:+ rest) =
    (format_date (year, month, day) ++ bytes rest)%list) as Hb.
  { rewrite bytes_app, bytes_of_bytes; [done|by apply format_date_is_bytes]. }
  assert (forall cut s0 v, cut (format_date (year, month, day) ++ bytes rest)%list = Ret s0 ->
    parse_int s0 = (v, None) ->
    find_by_string cut (of_bytes (format_date (year, month, day)) +:+ rest) = Ret (v, None)) as Hcut.
  { intros cut s0 v Hcut Hp. unfold find_by_string. rewrite Hb, length_app, format_date_length by done.
    rewrite (proj2 (Z.ltb_ge _ 10)) by lia. rewrite Hcut. run. by rewrite Hp. }
  destruct s; cbn in Hk; simplify_eq; cbn [FindForKey].
  - destruct (cut_year_parse _ _ _ (bytes rest) Hd) as (s0 & H1 & H2).
    unfold year_find. cbn [index lookup list_lookup]. run. rewrite Hb, H1. run. by rewrite H2.
  - destruct (cut_month_parse _ _ _ (bytes rest) Hd) as (s0 & H1 & H2).
    unfold month_find, date_find. cbn [index lookup list_lookup]. run. by apply (Hcut _ s0).
  - destruct (cut_day_parse _ _ _ (bytes rest) Hd) as (s0 & H1 & H2).
    unfold day_find, date_find. cbn [index lookup list_lookup]. run. by apply (Hcut _ s0).
Qed.

Lemma mod_shard_in_range_witness :
  exists k err, FindForKey (fun _ => 0) (ModShard 16) [KInt (-1)] = Ret (k, err) /\ 0 <= k < 16.
Proof.
  destruct (mod_shard_in_range (fun _ => 0) 16 [KInt (-1)]) as (k & err & H1 & H2 & _); [lia|].
  exists k, err. split; assumption.
Defined.

Lemma num_range_routes_witness :
  exists rs, ParseNumSharding 4 1000 = Ret rs /\
  FindForKey (fun _ => 0) (NumRangeShard rs) [KInt64 2500] = Ret (2, None).
Proof.
  destruct (num_range_routes (fun _ => 0) 4 1000 2500) as (rs & H1 & _ & _ & _ & H3);
    [lia|lia|unfold MaxNumKey; lia|unfold in_int64; lia|].
  exists rs. split; [exact H1|exact H3].
Defined.

Lemma numeric_string_key_witness :
  FindForKey (fun _ => 0) (ModShard 7) [KString (Itoa 100)] = Ret (2, None).
Proof.
  rewrite (proj1 (numeric_string_key (fun _ => 0) 7 [] 100)); [reflexivity|].
  unfold in_uint64. lia.
Defined.

Lemma date_shard_of_second_witness :
  FindForKey (fun _ => 28800) DateDayShard [KInt64 1709222400] = Ret (20240301, None).
Proof.
  apply (date_shard_of_second (fun _ => 28800) DateDayShard (2024, 3, 1) 1709222400 20240301).
  - vm_compute. repeat split; discriminate.
  - unfold in_int64. lia.
  - reflexivity.
  - reflexivity.
Defined.

Lemma date_shard_of_text_witness :
  FindForKey (fun _ => 0) DateMonthShard [KString "2024-03-01 10:00:00"] = Ret (202403, None).
Proof.
  apply (date_shard_of_text (fun _ => 0) DateMonthShard (2024, 3, 1) 202403 " 10:00:00").
  - vm_compute. repeat split; discriminate.
  - reflexivity.
Defined.
End ShardTheorems.
