(* ===== verification/Dao.v ===== *)
(** * Database nodes ([src/components/dao/balancer.go], [node.go])

    A node keeps one master, its slaves with a weighted round-robin queue, and
    the shards of its tables. The methods that touch the queue run under the
    node's lock, so each is one step here. What [database/sql] answers
    ([sql.Open], [Ping], [BeginTx], [Commit], [Rollback]) and the random numbers
    are parameters. *)

From S2P Require Import Prelude GoStrings DaoErrors Shard.
Local Open Scope Z_scope.

(** ** Data *)

Record NodeConfig := mkNodeConfig {
  Addr : string; User : string; Password : string; Timezone : string; Weight : Z
}.

Record DBConfig := mkDBConfig {
  Name : string;
  MaxConnNum : Z;
  MaxIdleConns : Z;
  MaxLifetime : Z;
  PingTickerTime : Z;
  CfgMaster : option NodeConfig;
  CfgSlave : list NodeConfig;
  CfgShard : list ShardConfig
}.

(** An open [*sql.DB] with the pool settings [openDB] gave it. *)
Record DB := mkDB {
  db_dsn : string; db_max_idle : Z; db_max_open : Z; db_max_lifetime : Z
}.

Inductive node_error :=
| NodeDao (e : dao_error)
| NodeShard (e : shard_error)
| NodeSql (msg : string)
| AssertTx.

(** [type Node struct], without its lock; a nil [*sql.DB] is [None]. *)
Record Node := mkNode {
  Cfg : DBConfig;
  Master : option DB;
  Slave : list (option DB);
  LastSlaveIndex : Z;
  RoundRobinQ : list Z;
  SlaveWeights : list Z;
  NodeShards : list Shard;
  shardDb : list string
}.

Definition with_balance (n : Node) (last : Z) (q : list Z) : Node :=
  mkNode (Cfg n) (Master n) (Slave n) last q (SlaveWeights n) (NodeShards n) (shardDb n).

(** ** The balancer ([balancer.go]) *)

(** Go's [a / b] and [a % b]. *)
Definition go_quot (a b : Z) : outcome Z :=
  if b =? 0 then Panic DivideByZero else Ret (i64 (Z.quot a b)).
Definition go_rem (a b : Z) : outcome Z :=
  if b =? 0 then Panic DivideByZero else Ret (Z.rem a b).

Fixpoint all_divisible (ary : list Z) (min : Z) : outcome bool :=
  match ary with
  | [] => Ret true
  | a :: ary =>
      r ← go_rem a min;
      if negb (r =? 0) then Ret false else all_divisible ary min
  end.

Fixpoint gcd_loop (fuel : nat) (ary : list Z) (min : Z) : outcome Z :=
  match fuel with
  | O => Hang
  | S fuel =>
      isCommon ← all_divisible ary min;
      if (isCommon : bool) then Ret min
      else
        let min := i64 (min - 1) in
        if min <? 1 then Ret min else gcd_loop fuel ary min
  end.

Definition min_of (ary : list Z) (min : Z) : Z :=
  foldl (fun min a => if a <? min then a else min) min ary.

Definition Gcd (ary : list Z) : outcome Z :=
  min ← index ary 0;
  let min := min_of ary min in
  gcd_loop (S (S (Z.to_nat (i64 (min - 1))))) ary min.

(** [sum += weight / gcd] *)
Fixpoint sum_weights (ws : list Z) (gcd sum : Z) : outcome Z :=
  match ws with
  | [] => Ret sum
  | w :: ws => q ← go_quot w gcd; sum_weights ws gcd (i64 (sum + q))
  end.

(** Each index, [weight / gcd] times. *)
Fixpoint fill_queue (i : nat) (ws : list Z) (gcd : Z) (q : list Z) : outcome (list Z) :=
  match ws with
  | [] => Ret q
  | w :: ws =>
      k ← go_quot w gcd;
      fill_queue (S i) ws gcd (q ++ replicate (Z.to_nat k) (Z.of_nat i))%list
  end.

Section balancer.
(** [intn i n] is the [i]-th value of [r.Intn(n)]. *)
Context (intn : nat -> nat -> nat).

(** One swap of the shuffle: positions [x] and [sum % (x + 1)]. *)
Definition swap_step (sum x : nat) (q : list Z) : outcome (list Z) :=
  temp ← index q x;
  let other := (sum mod (x + 1))%nat in
  v ← index q other;
  q ← store q x v;
  store q other temp.

Fixpoint shuffle (rounds i sum : nat) (q : list Z) : outcome (list Z) :=
  match rounds with
  | O => Ret q
  | S rounds => q ← swap_step sum (intn i sum) q; shuffle rounds (S i) sum q
  end.

Definition InitBalancer (n : Node) : outcome Node :=
  gcd ← Gcd (SlaveWeights n);
  sum ← sum_weights (SlaveWeights n) gcd 0;
  if sum <? 0 then Panic MakeNegative
  else
    q ← fill_queue 0 (SlaveWeights n) gcd [];
    q ← (if (1 <? length (SlaveWeights n))%nat
         then shuffle (Z.to_nat sum) 0 (Z.to_nat sum) q else Ret q);
    Ret (with_balance n 0 q).
End balancer.

Definition getNextSlave (n : Node) : outcome (Node * option DB * option node_error) :=
  let queueLen := Z.of_nat (length (RoundRobinQ n)) in
  if queueLen =? 0 then Ret (n, None, Some (NodeDao ErrNoDatabase))
  else if queueLen =? 1 then
    index ← index (RoundRobinQ n) 0;
    db ← index_z (Slave n) index;
    Ret (n, db, None)
  else
    let n := with_balance n (Z.rem (LastSlaveIndex n) queueLen) (RoundRobinQ n) in
    index ← index_z (RoundRobinQ n) (LastSlaveIndex n);
    if Z.of_nat (length (Slave n)) <=? index then Ret (n, None, Some (NodeDao ErrNoDatabase))
    else
      db ← index_z (Slave n) index;
      let n := with_balance n (Z.rem (i64 (LastSlaveIndex n + 1)) queueLen) (RoundRobinQ n) in
      Ret (n, db, None).

(** ** The node ([node.go]) *)

Definition GetMasterConn (n : Node) : option DB * option node_error :=
  match Master n with
  | None => (None, Some (NodeDao ErrNoMasterConn))
  | Some db => (Some db, None)
  end.

Definition GetSlaveConn (n : Node) : outcome (Node * option DB * option node_error) :=
  '(n, db, err) ← getNextSlave n;
  match (err : option node_error) with
  | Some e => Ret (n, None, Some e)
  | None =>
      match (db : option DB) with
      | None => Ret (n, None, Some (NodeDao ErrNoSlaveDB))
      | Some db => Ret (n, Some db, None)
      end
  end.

Section opening.
(** [sql.Open("mysql", dsn)] and [db.Ping()]: nil or an error text;
    [url.QueryEscape]. *)
Context (sql_Open : string -> option string) (Ping : DB -> option string)
        (QueryEscape : string -> string) (intn : nat -> nat -> nat).

Definition dsn_of (dsn : NodeConfig) : string :=
  User dsn +:+ ":" +:+ Password dsn +:+ "@tcp(" +:+ Addr dsn +:+ ")/?charset=utf8&loc="
  +:+ QueryEscape (Timezone dsn) +:+ "&parseTime=true".

(** After a failed [Ping] the handle is returned with the error. *)
Definition openDB (cfg : DBConfig) (dsn : NodeConfig) : option DB * option node_error :=
  match sql_Open (dsn_of dsn) with
  | Some e => (None, Some (NodeSql e))
  | None =>
      let db := mkDB (dsn_of dsn) (MaxIdleConns cfg) (MaxConnNum cfg)
                     (i64 (MaxLifetime cfg * 1000000000)) in
      (Some db, NodeSql <$> Ping db)
  end.

Definition parseMaster (n : Node) (master : NodeConfig) : Node * option node_error :=
  let '(db, err) := openDB (Cfg n) master in
  (mkNode (Cfg n) db (Slave n) (LastSlaveIndex n) (RoundRobinQ n) (SlaveWeights n)
          (NodeShards n) (shardDb n), err).

(** The loop over the slaves: the weight is kept before the slave is opened. *)
Fixpoint open_slaves (cfg : DBConfig) (slaves : list NodeConfig) (weights : list Z)
    (dbs : list (option DB)) : list Z * list (option DB) * option node_error :=
  match slaves with
  | [] => (weights, dbs, None)
  | slave :: slaves =>
      let weights := (weights ++ [Weight slave])%list in
      let '(db, err) := openDB cfg slave in
      match err with
      | Some e => (weights, dbs, Some e)
      | None => open_slaves cfg slaves weights (dbs ++ [db])%list
      end
  end.

Definition parseSlave (n : Node) : Node * option node_error :=
  if (length (CfgSlave (Cfg n)) =? 0)%nat then (n, None)
  else
    let '(weights, dbs, err) := open_slaves (Cfg n) (CfgSlave (Cfg n)) [] [] in
    (mkNode (Cfg n) (Master n) dbs (LastSlaveIndex n) (RoundRobinQ n) weights
            (NodeShards n) (shardDb n), err).

(** [NewNode]: the node, or an error; the health checks it starts are
    [checkMaster] and [checkSlave] below. *)
Definition NewNode (cfg : DBConfig) : outcome (option Node * option node_error) :=
  match CfgMaster cfg with
  | None => Panic NilDereference
  | Some master =>
      if Z.of_nat (length (bytes (Addr master))) =? 0 then Ret (None, Some (NodeDao ErrNoMasterDB))
      else
        shards ← ParseShard (CfgShard cfg);
        let n := mkNode cfg None [] 0 [] [] shards (map Shard.DB (CfgShard cfg)) in
        let '(n, err) := parseMaster n master in
        match err with
        | Some e => Ret (None, Some e)
        | None =>
            let '(n, err) := parseSlave n in
            match err with
            | Some e => Ret (None, Some e)
            | None => n ← InitBalancer intn n; Ret (Some n, None)
            end
        end
  end.

(** One tick of [CheckNode]: the errors given to the handler. *)
Definition checkMaster (n : Node) : list string :=
  match Master n with
  | None => ["Node checkMaster  Master is not online"]
  | Some db => match Ping db with
               | Some e => ["Node checkMaster  ping error " +:+ e]
               | None => []
               end
  end.

Fixpoint check_slaves (i : Z) (slaves : list (option DB)) : outcome (list string) :=
  match slaves with
  | [] => Ret []
  | None :: _ => Panic NilDereference
  | Some db :: slaves =>
      rest ← check_slaves (i + 1) slaves;
      match Ping db with
      | Some e => Ret (("Node checkSlave[" +:+ Itoa i +:+ "]  ping error " +:+ e) :: rest)
      | None => Ret rest
      end
  end.
Definition checkSlave (n : Node) : outcome (list string) := check_slaves 0 (Slave n).

(** [CheckNode], up to a number of ticks. *)
Fixpoint check_ticks (ticks : nat) (n : Node) : outcome (list string) :=
  match ticks with
  | O => Ret []
  | S ticks =>
      errs ← checkSlave n;
      rest ← check_ticks ticks n;
      Ret (checkMaster n ++ errs ++ rest)%list
  end.
Definition CheckNode (ticks : nat) (n : Node) : outcome (list string) :=
  if i64 (PingTickerTime (Cfg n) * 1000000000) <=? 0
  then Panic (PanicMessage "non-positive interval for NewTicker")
  else check_ticks ticks n.
End opening.

(** *** Tables *)

(** The first configuration of [db] and [table], with its position. *)
Fixpoint find_config (k : nat) (cfgs : list ShardConfig) (db table : string) : option nat :=
  match cfgs with
  | [] => None
  | v :: cfgs =>
      if String.eqb (Shard.DB v) db && String.eqb (Table v) table then Some k
      else find_config (S k) cfgs db table
  end.

Fixpoint check_shard_dbs (n : Node) (dbs : list string) (db table : string)
    : outcome (option Shard) :=
  match dbs with
  | [] => Ret None
  | shardDb :: dbs =>
      if String.eqb shardDb db then
        match find_config 0 (CfgShard (Cfg n)) db table with
        | Some k => s ← index (NodeShards n) k; Ret (Some s)
        | None => check_shard_dbs n dbs db table
        end
      else check_shard_dbs n dbs db table
  end.

Definition checkShard (n : Node) (db table : string) : outcome (option Shard) :=
  check_shard_dbs n (shardDb n) db table.

Definition GetTable (local_offset : Z -> Z) (n : Node) (db table : string) (key : list key)
    : outcome (string * option node_error) :=
  s ← checkShard n db table;
  match (s : option Shard) with
  | Some shardModel =>
      '(k, err) ← FindForKey local_offset shardModel key;
      match (err : option shard_error) with
      | Some e => Ret (""%string, Some (NodeShard e))
      | None => Ret (db +:+ "." +:+ table +:+ "_" +:+ Itoa k, None)
      end
  | None => Ret (db +:+ "." +:+ table, None)
  end.

(** *** Transactions *)

Definition TRANSACTION_MAX_RUNTIME : Z := 1000000000.

(** The values the code puts in a [context.Context], and its time-out. A
    transaction and a cancel function are named by numbers. *)
Record Ctx := mkCtx {
  ctx_timeout : option Z; ctx_tx : option nat; ctx_cancel : option nat
}.

(** What a method does to the outside, in order. *)
Inductive tx_effect :=
| DoBegin (tx : nat)
| DoCommit (tx : nat)
| DoRollback (tx : nat)
| DoCancel (cancel : nat).

(** [id] names the transaction and the cancel function made by the call;
    [begin_err] is the error of [c.BeginTx]. *)
Definition BeginTransaction (n : Node) (ctx : Ctx) (maxRuntime : Z) (id : nat)
    (begin_err : option string) : list tx_effect * (option Ctx * option node_error) :=
  match GetMasterConn n with
  | (_, Some e) => ([], (None, Some e))
  | (_, None) =>
      let maxRuntime := if (maxRuntime =? 0) || (TRANSACTION_MAX_RUNTIME <? maxRuntime)
                        then TRANSACTION_MAX_RUNTIME else maxRuntime in
      match begin_err with
      | Some e => ([], (None, Some (NodeSql e)))
      | None => ([DoBegin id], (Some (mkCtx (Some maxRuntime) (Some id) (Some id)), None))
      end
  end.

Definition GetConnFromCtx (ctx : Ctx) : option nat * option node_error :=
  match ctx_tx ctx with
  | Some tx => (Some tx, None)
  | None => (None, Some AssertTx)
  end.

(** [Commit] and [Rollback]: [defer cancel()] is set when the context holds no
    cancel function, so what it calls then is a nil function. [finish] is the
    driver's call and [err] its result. *)
Definition finish_tx (finish : nat -> tx_effect) (ctx : Ctx) (err : option string)
    : list tx_effect * outcome (option node_error) :=
  match GetConnFromCtx ctx with
  | (Some tx, None) =>
      match ctx_cancel ctx with
      | Some _ => ([finish tx], Ret (NodeSql <$> err))
      | None => ([finish tx], Panic NilFuncCall)
      end
  | (_, e) => ([], Ret e)
  end.
Definition Commit : Ctx -> option string -> list tx_effect * outcome (option node_error) :=
  finish_tx DoCommit.
Definition Rollback : Ctx -> option string -> list tx_effect * outcome (option node_error) :=
  finish_tx DoRollback.

(** ** Facts *)

Module DaoFacts.
Import ShardFacts.

Definition gcd_of (ary : list Z) : Z := foldr Z.gcd 0 ary.

Lemma gcd_of_divide ary d : (d | gcd_of ary) <-> Forall (fun a => (d | a)) ary.
Proof.
  induction ary as [|a ary IH]; cbn; [split; [constructor|intros; apply Z.divide_0_r]|].
  rewrite Forall_cons, <- IH. split.
  - intros Hd. split; (eapply Z.divide_trans; [exact Hd|]);
      [apply Z.gcd_divide_l|apply Z.gcd_divide_r].
  - intros [H1 H2]. by apply Z.gcd_greatest.
Qed.

Lemma gcd_of_divides ary a : a ∈ ary -> (gcd_of ary | a).
Proof.
  intros Ha. assert ((gcd_of ary | gcd_of ary)) as H%gcd_of_divide by reflexivity.
  by eapply Forall_forall in Ha.
Qed.

Lemma gcd_of_pos ary : ary <> [] -> Forall (fun a => 0 < a) ary -> 0 < gcd_of ary.
Proof.
  intros Hne Hpos. destruct ary as [|a ary]; [done|]. apply Forall_cons in Hpos as [Ha _].
  pose proof (Z.gcd_nonneg a (gcd_of ary)). cbn.
  destruct (Z.eq_dec (Z.gcd a (gcd_of ary)) 0) as [E|]; [|unfold gcd_of in *; lia].
  apply Z.gcd_eq_0_l in E. lia.
Qed.

Lemma all_divisible_spec ary m :
  0 < m -> exists b, all_divisible ary m = Ret b /\ (b = true <-> Forall (fun a => (m | a)) ary).
Proof.
  intros Hm. induction ary as [|a ary (b & IH & Hb)]; [by exists true|].
  cbn [all_divisible]. unfold go_rem. destruct (m =? 0) eqn:E; [lia|]. run.
  destruct (Z.rem a m =? 0) eqn:Er; cbn [negb].
  - exists b. split; [done|]. rewrite Forall_cons, Hb. apply Z.eqb_eq in Er. apply Z.rem_divide in Er; [tauto|lia].
  - exists false. split; [done|]. rewrite Forall_cons. split; [done|].
    intros [Hd _]. apply Z.rem_divide in Hd; lia.
Qed.

Lemma gcd_loop_spec ary fuel m :
  ary <> [] -> Forall (fun a => 0 < a) ary ->
  gcd_of ary <= m < 2 ^ 63 -> (Z.to_nat m <= fuel)%nat ->
  gcd_loop fuel ary m = Ret (gcd_of ary).
Proof.
  intros Hne Hpos. pose proof (gcd_of_pos _ Hne Hpos) as Hg.
  revert m. induction fuel as [|fuel IH]; intros m Hm Hf; [lia|]. cbn [gcd_loop].
  destruct (all_divisible_spec ary m) as (b & -> & Hb); [lia|]. run. destruct b.
  - assert ((m | gcd_of ary)) as Hd%Z.divide_pos_le by (apply gcd_of_divide; tauto); [|done].
    f_equal. lia.
  - assert (m <> gcd_of ary) as Hneq.
    { intros ->. discriminate (proj2 Hb). apply gcd_of_divide. reflexivity. }
    rewrite i64_id by (unfold in_int64; lia).
    destruct (m - 1 <? 1) eqn:E; [lia|]. apply IH; lia.
Qed.

Lemma min_of_elem ary m : min_of ary m = m \/ min_of ary m ∈ ary.
Proof.
  unfold min_of. revert m. induction ary as [|a ary IH]; intros m; [by left|]. cbn [foldl].
  destruct (IH (if a <? m then a else m)) as [-> |Hin]; [|right; by right].
  destruct (a <? m); [right; by left|by left].
Qed.

Lemma Gcd_spec ary :
  ary <> [] -> Forall (fun a => 0 < a < 2 ^ 63) ary -> Gcd ary = Ret (gcd_of ary).
Proof.
  intros Hne Hall. destruct ary as [|a ary]; [done|]. unfold Gcd. cbn [index lookup list_lookup]. run.
  cbv zeta.
  assert (min_of (a :: ary) a ∈ a :: ary) as Hm.
  { destruct (min_of_elem (a :: ary) a) as [E|E]; [|done]. rewrite E. by left. }
  generalize dependent (min_of (a :: ary) a). intros m Hm.
  assert (Forall (fun a => 0 < a) (a :: ary)) as Hpos by (eapply Forall_impl; [done|cbn; lia]).
  pose proof (proj1 (Forall_forall _ _) Hall m Hm) as Hmr. cbn in Hmr.
  pose proof (Z.divide_pos_le _ _ (proj1 Hmr) (gcd_of_divides _ _ Hm)).
  pose proof (gcd_of_pos _ Hne Hpos). rewrite i64_id by (unfold in_int64; lia).
  apply gcd_loop_spec; [done|done|lia|lia].
Qed.

(** *** The queue *)

(** [counts] copies of each index, from [i] on. *)
Fixpoint weighted (i : nat) (counts : list nat) : list Z :=
  match counts with
  | [] => []
  | c :: counts => (replicate c (Z.of_nat i) ++ weighted (S i) counts)%list
  end.

Definition counts_of (g : Z) (ws : list Z) : list nat := map (fun w => Z.to_nat (w / g)) ws.

Lemma go_quot_pos w g : 0 < g -> 0 <= w < 2 ^ 63 -> go_quot w g = Ret (w / g).
Proof.
  intros Hg Hw. unfold go_quot. destruct (g =? 0) eqn:E; [lia|].
  rewrite Z.quot_div_nonneg, i64_id; [done| |lia|lia]. unfold in_int64.
  pose proof (Z.div_pos w g). pose proof (Z.div_le_upper_bound w g w). nia.
Qed.

Lemma fill_queue_eq i ws g q :
  0 < g -> Forall (fun w => 0 < w < 2 ^ 63) ws ->
  fill_queue i ws g q = Ret (q ++ weighted i (counts_of g ws))%list.
Proof.
  intros Hg Hws. revert i q. induction Hws as [|w ws Hw _ IH]; intros i q; cbn.
  { by rewrite app_nil_r. }
  rewrite go_quot_pos by lia. run. rewrite IH. by rewrite <- (assoc app).
Qed.

Lemma length_weighted i counts : length (weighted i counts) = sum_list counts.
Proof.
  revert i. induction counts as [|c cs IH]; intros i; [done|]. cbn.
  by rewrite length_app, length_replicate, IH.
Qed.

Lemma weighted_range i counts q :
  q ∈ weighted i counts -> Z.of_nat i <= q < Z.of_nat (i + length counts).
Proof.
  revert i. induction counts as [|c cs IH]; intros i; cbn; [by intros ?%elem_of_nil|].
  intros [[-> _]%elem_of_replicate|Hq%IH]%elem_of_app; lia.
Qed.

Lemma sum_weights_eq ws g sum :
  0 < g -> Forall (fun w => 0 < w < 2 ^ 63) ws -> 0 <= sum ->
  sum + foldr Z.add 0 ws < 2 ^ 63 ->
  sum_weights ws g sum = Ret (sum + Z.of_nat (sum_list (counts_of g ws))).
Proof.
  intros Hg Hws. revert sum. induction Hws as [|w ws Hw Hws IH]; intros sum Hs Hmax; cbn.
  { f_equal. lia. }
  cbn in Hmax. rewrite go_quot_pos by lia. run.
  assert (0 <= foldr Z.add 0 ws) by (clear -Hws; induction Hws; cbn; lia).
  pose proof (Z.div_pos w g ltac:(lia) Hg).
  assert (w / g <= w) by (apply Z.div_le_upper_bound; nia).
  rewrite i64_id by (unfold in_int64; lia). rewrite IH by lia. f_equal.
  unfold counts_of. lia.
Qed.

Lemma swap_step_perm sum x q :
  (x < length q)%nat -> (x < sum)%nat ->
  exists q', swap_step sum x q = Ret q' /\ q' ≡ₚ q.
Proof.
  intros Hx Hs. unfold swap_step.
  destruct (index_lt q x Hx) as (temp & -> & Ht). run.
  assert ((sum mod (x + 1) < length q)%nat) as Ho.
  { pose proof (Nat.mod_upper_bound sum (x + 1)). lia. }
  destruct (index_lt q _ Ho) as (v & -> & Hv). run.
  rewrite store_in by done. run. rewrite store_in by (by rewrite length_insert).
  eexists. split; [done|]. by apply Permutation_insert_swap.
Qed.

Lemma shuffle_perm intn rounds i sum q :
  (forall i k, 0 < k -> intn i k < k)%nat -> length q = sum -> (rounds = 0 \/ 0 < sum)%nat ->
  exists q', shuffle intn rounds i sum q = Ret q' /\ q' ≡ₚ q.
Proof.
  intros Hrand. revert i q. induction rounds as [|rounds IH]; intros i q Hl Hs; [by exists q|].
  cbn [shuffle]. specialize (Hrand i sum ltac:(lia)) as Hx.
  destruct (swap_step_perm sum (intn i sum) q) as (q1 & -> & Hp); [lia|lia|]. run.
  destruct (IH (S i) q1) as (q2 & -> & Hp2); [by rewrite Hp|lia|].
  exists q2. split; [done|]. by rewrite Hp2.
Qed.

(** [InitBalancer] makes some order of the weighted queue. *)
Lemma InitBalancer_spec intn n :
  (forall i k, 0 < k -> intn i k < k)%nat ->
  SlaveWeights n <> [] -> Forall (fun w => 0 < w < 2 ^ 63) (SlaveWeights n) ->
  foldr Z.add 0 (SlaveWeights n) < 2 ^ 63 ->
  exists q, InitBalancer intn n = Ret (with_balance n 0 q) /\
  q ≡ₚ weighted 0 (counts_of (gcd_of (SlaveWeights n)) (SlaveWeights n)).
Proof.
  intros Hrand Hne Hall Hsum. unfold InitBalancer. rewrite Gcd_spec by done. run.
  assert (0 < gcd_of (SlaveWeights n)) as Hg.
  { apply gcd_of_pos; [done|]. eapply Forall_impl; [done|cbn; lia]. }
  rewrite sum_weights_eq by (done || lia). run. rewrite Z.add_0_l.
  rewrite (proj2 (Z.ltb_ge _ _)) by apply Nat2Z.is_nonneg. rewrite fill_queue_eq by done. run. cbn [app].
  set (q := weighted 0 (counts_of (gcd_of (SlaveWeights n)) (SlaveWeights n))).
  destruct (1 <? length (SlaveWeights n))%nat; [|by exists q].
  rewrite Nat2Z.id.
  edestruct (shuffle_perm intn (sum_list (counts_of (gcd_of (SlaveWeights n)) (SlaveWeights n))) 0
    (sum_list (counts_of (gcd_of (SlaveWeights n)) (SlaveWeights n))) q) as (q' & -> & Hp);
    [done|apply length_weighted|lia|].
  by exists q'.
Qed.

(** *** Round robin *)

(** The handles of [k] calls of [GetSlaveConn] in a row. *)
Fixpoint slave_conns (k : nat) (n : Node) : outcome (Node * list DB) :=
  match k with
  | O => Ret (n, [])
  | S k =>
      '(n, db, err) ← GetSlaveConn n;
      match (db : option DB) with
      | Some db => '(n, dbs) ← slave_conns k n; Ret (n, db :: dbs)
      | None => Ret (n, [])
      end
  end.

(** The queue points to open slaves, and the cursor into the queue. *)
Record balanced (n : Node) (dbs : list DB) : Prop := {
  bal_slaves : Slave n = map Some dbs;
  bal_queue : Forall (fun q => 0 <= q < Z.of_nat (length dbs)) (RoundRobinQ n);
  bal_cursor : 0 <= LastSlaveIndex n < Z.of_nat (length (RoundRobinQ n));
  bal_size : Z.of_nat (length (RoundRobinQ n)) < 2 ^ 63
}.

Lemma index_z_lookup {A} (l : list A) i a : 0 <= i -> l !! Z.to_nat i = Some a -> index_z l i = Ret a.
Proof. intros Hi Ha. unfold index_z. rewrite decide_True by done. by apply index_lookup. Qed.

Lemma GetSlaveConn_balanced n dbs :
  balanced n dbs ->
  exists q db, RoundRobinQ n !! Z.to_nat (LastSlaveIndex n) = Some q /\ dbs !! Z.to_nat q = Some db /\
  GetSlaveConn n =
  Ret (with_balance n ((LastSlaveIndex n + 1) mod Z.of_nat (length (RoundRobinQ n))) (RoundRobinQ n),
       Some db, None).
Proof.
  intros [Hs Hq Hc Hsz].
  destruct (lookup_lt_is_Some_2 (RoundRobinQ n) (Z.to_nat (LastSlaveIndex n))) as [q Hqi]; [lia|].
  pose proof (Forall_lookup_1 _ _ _ _ Hq Hqi) as Hqr. cbn in Hqr.
  destruct (lookup_lt_is_Some_2 dbs (Z.to_nat q)) as [db Hdb]; [lia|].
  exists q, db. split; [done|]. split; [done|].
  assert (index_z (Slave n) q = Ret (Some db)) as Hslave.
  { apply index_z_lookup; [lia|]. by rewrite Hs, list_lookup_fmap, Hdb. }
  unfold GetSlaveConn, getNextSlave.
  destruct (Z.of_nat (length (RoundRobinQ n)) =? 0) eqn:E0; [lia|].
  destruct (Z.of_nat (length (RoundRobinQ n)) =? 1) eqn:E1.
  - assert (LastSlaveIndex n = 0) as Hz by lia. rewrite Hz in Hqi |- *.
    rewrite (index_lookup _ 0%nat q Hqi). run. rewrite Hslave. run. do 3 f_equal.
    replace (Z.of_nat (length (RoundRobinQ n))) with 1 by lia. destruct n; cbn in *. by subst.
  - rewrite Z.rem_small by lia. cbn [with_balance LastSlaveIndex RoundRobinQ Slave].
    rewrite (index_z_lookup _ _ q) by (done || lia). run.
    rewrite Hs, length_map. destruct (Z.of_nat (length dbs) <=? q) eqn:E2; [lia|].
    rewrite <- Hs, Hslave. run. do 3 f_equal. unfold with_balance. cbn. f_equal.
    rewrite i64_id by (unfold in_int64; lia). apply Z.rem_mod_nonneg; lia.
Qed.

Lemma balanced_next n dbs k :
  balanced n dbs -> 0 <= k < Z.of_nat (length (RoundRobinQ n)) ->
  balanced (with_balance n k (RoundRobinQ n)) dbs.
Proof. intros [] ?. by constructor. Qed.

(** From the cursor to the end of the queue. *)
Lemma slave_conns_round n dbs k :
  balanced n dbs -> Z.of_nat k = Z.of_nat (length (RoundRobinQ n)) - LastSlaveIndex n ->
  slave_conns k n =
  Ret (with_balance n 0 (RoundRobinQ n),
       omap (fun q => dbs !! Z.to_nat q) (drop (Z.to_nat (LastSlaveIndex n)) (RoundRobinQ n))).
Proof.
  revert n. induction k as [|k IH]; intros n Hb Hk; [destruct Hb; lia|].
  destruct (GetSlaveConn_balanced n dbs Hb) as (q & db & Hq & Hdb & Hget).
  cbn [slave_conns]. rewrite Hget. run. rewrite (drop_S _ _ _ Hq). cbn [omap list_omap].
  rewrite Hdb. destruct k as [|k].
  - cbn [slave_conns]. run. rewrite drop_ge by lia.
    replace (LastSlaveIndex n + 1) with (Z.of_nat (length (RoundRobinQ n))) by lia.
    rewrite Z.mod_same by (destruct Hb; lia). done.
  - rewrite Z.mod_small by (destruct Hb; lia). rewrite (IH (with_balance n _ _)).
    + run. cbn [with_balance LastSlaveIndex RoundRobinQ].
      replace (Z.to_nat (LastSlaveIndex n + 1)) with (S (Z.to_nat (LastSlaveIndex n)))
        by (destruct Hb; lia). done.
    + apply balanced_next; [done|]. destruct Hb; lia.
    + cbn. lia.
Qed.

(** The handles of one round, slave by slave. *)
Fixpoint weighted_dbs (dbs : list DB) (counts : list nat) : list DB :=
  match dbs, counts with
  | db :: dbs, c :: counts => (replicate c db ++ weighted_dbs dbs counts)%list
  | _, _ => []
  end.

Lemma omap_replicate {A B} (f : A -> option B) c a b :
  f a = Some b -> omap f (replicate c a) = replicate c b.
Proof. intros Hf. induction c as [|c IH]; [done|]. cbn. by rewrite Hf, IH. Qed.

Lemma omap_weighted dbs pre counts :
  length dbs = length counts ->
  omap (fun q => (pre ++ dbs)%list !! Z.to_nat q) (weighted (length pre) counts) = weighted_dbs dbs counts.
Proof.
  revert pre counts. induction dbs as [|db dbs IH]; intros pre [|c counts] Hl; try done.
  cbn [weighted weighted_dbs]. rewrite omap_app. f_equal.
  - apply omap_replicate. rewrite Nat2Z.id. by apply list_lookup_middle.
  - specialize (IH (pre ++ [db])%list counts). rewrite length_app, Nat.add_comm in IH. cbn in IH, Hl.
    replace (pre ++ db :: dbs)%list with ((pre ++ [db]) ++ dbs)%list by (by rewrite <- app_assoc).
    apply IH. lia.
Qed.
Lemma counts_total g ws :
  0 < g -> Forall (fun w => 0 < w) ws -> Z.of_nat (sum_list (counts_of g ws)) <= foldr Z.add 0 ws.
Proof.
  intros Hg. unfold counts_of. induction 1 as [|w ws Hw _ IH]; cbn; [lia|].
  assert (w / g <= w) by (apply Z.div_le_upper_bound; nia). pose proof (Z.div_pos w g). lia.
Qed.

Lemma counts_pos g ws w : 0 < g -> 0 < w -> w ∈ ws -> (g | w) -> (0 < sum_list (counts_of g ws))%nat.
Proof.
  intros Hg Hw Hin Hd. unfold counts_of.
  assert (0 < w / g) by (apply Z.div_str_pos; apply Z.divide_pos_le in Hd; lia).
  apply list_elem_of_In in Hin. induction ws as [|w' ws IH]; [done|].
  destruct Hin as [->|Hin]; cbn; [lia|]. specialize (IH Hin). lia.
Qed.

Lemma balanced_init n dbs q :
  Slave n = map Some dbs -> length dbs = length (SlaveWeights n) -> SlaveWeights n <> [] ->
  Forall (fun w => 0 < w < 2 ^ 63) (SlaveWeights n) -> foldr Z.add 0 (SlaveWeights n) < 2 ^ 63 ->
  q ≡ₚ weighted 0 (counts_of (gcd_of (SlaveWeights n)) (SlaveWeights n)) ->
  balanced (with_balance n 0 q) dbs.
Proof.
  intros Hs Hl Hne Hws Hsum Hq.
  assert (Forall (fun w => 0 < w) (SlaveWeights n)) as Hpos by (eapply Forall_impl; [done|cbn; lia]).
  pose proof (gcd_of_pos _ Hne Hpos) as Hg.
  assert (length q = sum_list (counts_of (gcd_of (SlaveWeights n)) (SlaveWeights n))) as Hlen
    by (rewrite Hq; apply length_weighted).
  pose proof (counts_total _ _ Hg Hpos) as Htot.
  constructor; cbn; [done| | |lia].
  - rewrite Hq. apply Forall_forall. intros x Hx%weighted_range.
    unfold counts_of in Hx. rewrite length_map in Hx. lia.
  - destruct (SlaveWeights n) as [|w ws] eqn:E; [done|]. rewrite <- E in *.
    assert (w ∈ SlaveWeights n) as Hw by (rewrite E; by left).
    pose proof (proj1 (Forall_forall _ _) Hpos w Hw).
    pose proof (counts_pos _ _ w Hg ltac:(done) Hw (gcd_of_divides _ _ Hw)). lia.
Qed.
(** *** A node that opens *)

Definition handle (QueryEscape : string -> string) (cfg : DBConfig) (c : NodeConfig) : DB :=
  mkDB (dsn_of QueryEscape c) (MaxIdleConns cfg) (MaxConnNum cfg) (i64 (MaxLifetime cfg * 1000000000)).

(** Every server of the configuration answers. *)
Definition all_online (sql_Open : string -> option string) (Ping : DB -> option string)
    (QueryEscape : string -> string) (cfg : DBConfig) (cs : list NodeConfig) : Prop :=
  Forall (fun c => sql_Open (dsn_of QueryEscape c) = None /\
                   Ping (handle QueryEscape cfg c) = None) cs.

Lemma bytes_nonempty s : s <> ""%string -> (Z.of_nat (length (bytes s)) =? 0) = false.
Proof. intros Hs. apply Z.eqb_neq. destruct s; [done|]. unfold bytes. cbn -[Z.of_nat]. lia. Qed.

Lemma openDB_online sql_Open Ping QE cfg c :
  sql_Open (dsn_of QE c) = None -> Ping (handle QE cfg c) = None ->
  openDB sql_Open Ping QE cfg c = (Some (handle QE cfg c), None).
Proof. intros Ho Hp. unfold openDB. rewrite Ho. unfold handle in *. by rewrite Hp. Qed.

Lemma open_slaves_online sql_Open Ping QE cfg cs ws dbs :
  all_online sql_Open Ping QE cfg cs ->
  open_slaves sql_Open Ping QE cfg cs ws dbs =
  ((ws ++ map Weight cs)%list, (dbs ++ map (fun c => Some (handle QE cfg c)) cs)%list, None).
Proof.
  intros Hall. revert ws dbs. induction Hall as [|c cs [Ho Hp] _ IH]; intros ws dbs; cbn.
  { by rewrite !app_nil_r. }
  rewrite openDB_online by done. by rewrite IH, <- !(assoc app).
Qed.

Lemma InitBalancer_keeps intn n n' :
  InitBalancer intn n = Ret n' -> exists q, n' = with_balance n 0 q.
Proof.
  unfold InitBalancer. intros H. inv_bind H. inv_bind H. destruct (_ <? 0); [done|].
  inv_bind H. inv_bind H. simplify_eq. by eexists.
Qed.

(** A node returned by [NewNode] has the configuration's shards. *)
Lemma NewNode_shards sql_Open Ping QE intn cfg n err :
  NewNode sql_Open Ping QE intn cfg = Ret (Some n, err) ->
  Cfg n = cfg /\ shardDb n = map Shard.DB (CfgShard cfg) /\
  ParseShard (CfgShard cfg) = Ret (NodeShards n).
Proof.
  unfold NewNode. intros H. destruct (CfgMaster cfg); [|done]. destruct (_ =? 0); [done|].
  inv_bind H. unfold parseMaster, parseSlave in H.
  destruct (openDB _ _ _ _ _) as [db [e|]]; [done|]. cbn in H.
  destruct (length _ =? 0)%nat.
  - inv_bind H. apply InitBalancer_keeps in Ha0 as [q ->]. by simplify_eq/=.
  - destruct (open_slaves _ _ _ _ _ _ _) as [[ws dbs] [e|]]; [done|].
    inv_bind H. apply InitBalancer_keeps in Ha0 as [q ->]. by simplify_eq/=.
Qed.

(** The first configuration of a table. *)
Definition config_for (cfgs : list ShardConfig) (db table : string) : option ShardConfig :=
  head (List.filter (fun c => String.eqb (Shard.DB c) db && String.eqb (Table c) table) cfgs).

Lemma find_config_spec k cfgs db table :
  match find_config k cfgs db table with
  | Some i => (k <= i)%nat /\ cfgs !! (i - k)%nat = config_for cfgs db table /\
              is_Some (config_for cfgs db table)
  | None => config_for cfgs db table = None
  end.
Proof.
  unfold config_for. revert k. induction cfgs as [|c cfgs IH]; intros k; [done|]. cbn.
  destruct (String.eqb (Shard.DB c) db && String.eqb (Table c) table).
  - rewrite Nat.sub_diag. cbn. eauto.
  - specialize (IH (S k)). destruct (find_config (S k) cfgs db table) as [i|]; [|done].
    destruct IH as (Hi & Hl & Hs). split; [lia|].
    replace (i - k)%nat with (S (i - S k)) by lia. done.
Qed.

Lemma check_shard_dbs_spec n dbs db table :
  check_shard_dbs n dbs db table =
  if existsb (fun d => String.eqb d db) dbs then
    match find_config 0 (CfgShard (Cfg n)) db table with
    | Some k => s ← index (NodeShards n) k; Ret (Some s)
    | None => Ret None
    end
  else Ret None.
Proof.
  induction dbs as [|d dbs IH]; [done|]. cbn [check_shard_dbs existsb].
  destruct (String.eqb d db); [|done]. cbn [orb].
  destruct (find_config _ _ _ _); [done|]. rewrite IH. by destruct (existsb _ _).
Qed.

Lemma config_for_db cfgs db table :
  existsb (fun d => String.eqb d db) (map Shard.DB cfgs) = false -> config_for cfgs db table = None.
Proof.
  unfold config_for. induction cfgs as [|c cfgs IH]; [done|]. cbn.
  intros [H1 H2]%orb_false_iff. rewrite H1. by apply IH.
Qed.

(** With every type known, [checkShard] gives the shard of the table's first
    configuration. *)
Lemma checkShard_spec n db table :
  Forall (fun c => known_type c = true) (CfgShard (Cfg n)) ->
  ParseShard (CfgShard (Cfg n)) = Ret (NodeShards n) -> shardDb n = map Shard.DB (CfgShard (Cfg n)) ->
  match config_for (CfgShard (Cfg n)) db table with
  | Some c => exists s, ParseShard [c] = Ret [s] /\ checkShard n db table = Ret (Some s)
  | None => checkShard n db table = Ret None
  end.
Proof.
  intros Hk Hp Hdb. pose proof (ParseShard_Forall2 _ _ Hk Hp) as Hall.
  unfold checkShard. rewrite check_shard_dbs_spec, Hdb.
  pose proof (find_config_spec 0 (CfgShard (Cfg n)) db table) as Hf.
  destruct (existsb _ _) eqn:He; [|by rewrite config_for_db].
  destruct (find_config 0 _ _ _) as [k|]; [|by rewrite Hf].
  destruct Hf as (_ & Hl & [c Hc]). rewrite Hc in Hl |- *. rewrite Nat.sub_0_r in Hl.
  destruct (Forall2_lookup_l _ _ _ _ _ Hall Hl) as (s & Hs & Hone).
  exists s. split; [done|]. by rewrite (index_lookup _ _ _ Hs).
Qed.
End DaoFacts.


(** ** Properties *)

Module DaoTheorems.
Import ShardFacts DaoFacts.

(** C31: the loop of [Gcd] ends, and returns the greatest common divisor of
    positive weights. *)
Theorem gcd_correct ws :
  ws <> [] -> Forall (fun w => 0 < w < 2 ^ 63) ws ->
  exists g, Gcd ws = Ret g /\ 0 < g /\ Forall (fun w => (g | w)) ws /\
  forall d, Forall (fun w => (d | w)) ws -> (d | g).
Proof.
  intros Hne Hws. exists (gcd_of ws). split; [by apply Gcd_spec|]. split.
  { apply gcd_of_pos; [done|]. eapply Forall_impl; [done|cbn; lia]. }
  split; [apply gcd_of_divide; reflexivity|]. intros d. apply gcd_of_divide.
Qed.

(** C9: of a node with at least one slave, a handle for each weight, weights that
    are all positive and a sum of them below [2 ^ 63], [InitBalancer] returns,
    whatever the random numbers; after it, as many calls of [GetSlaveConn] as the
    queue is long return each slave's handle its weight over the greatest common
    divisor times, and bring the node back to where it was. *)
Theorem weighted_round intn n dbs :
  (forall i k, (0 < k)%nat -> (intn i k < k)%nat) ->
  Slave n = map Some dbs -> length dbs = length (SlaveWeights n) -> dbs <> [] ->
  Forall (fun w => 0 < w < 2 ^ 63) (SlaveWeights n) -> foldr Z.add 0 (SlaveWeights n) < 2 ^ 63 ->
  exists n' conns, InitBalancer intn n = Ret n' /\
  slave_conns (length (RoundRobinQ n')) n' = Ret (n', conns) /\
  conns ≡ₚ weighted_dbs dbs (counts_of (gcd_of (SlaveWeights n)) (SlaveWeights n)).
Proof.
  intros Hrand Hs Hl Hne Hws Hsum.
  assert (SlaveWeights n <> []) as Hwne by (intros E; rewrite E in Hl; by destruct dbs).
  destruct (InitBalancer_spec intn n) as (q & -> & Hq); [done..|].
  pose proof (balanced_init n dbs q Hs Hl Hwne Hws Hsum Hq) as Hb.
  eexists _, _. split; [done|]. split.
  - apply (slave_conns_round (with_balance n 0 q) dbs); [done|cbn; lia].
  - cbn. rewrite Hq. rewrite <- (omap_weighted dbs []); [done|].
    unfold counts_of. by rewrite length_map.
Qed.
(** [NewNode] with a master and weighted slaves that are all online opens
    them all, and gives a node whose queue points to the slaves. *)
Theorem new_node_opens sql_Open Ping QE intn cfg m shards :
  (forall i k, (0 < k)%nat -> (intn i k < k)%nat) ->
  CfgMaster cfg = Some m -> Addr m <> ""%string -> CfgSlave cfg <> [] ->
  all_online sql_Open Ping QE cfg (m :: CfgSlave cfg) -> ParseShard (CfgShard cfg) = Ret shards ->
  Forall (fun w => 0 < w < 2 ^ 63) (map Weight (CfgSlave cfg)) ->
  foldr Z.add 0 (map Weight (CfgSlave cfg)) < 2 ^ 63 ->
  exists n, NewNode sql_Open Ping QE intn cfg = Ret (Some n, None) /\
  GetMasterConn n = (Some (handle QE cfg m), None) /\ SlaveWeights n = map Weight (CfgSlave cfg) /\
  balanced n (map (handle QE cfg) (CfgSlave cfg)).
Proof.
  intros Hrand Hm Haddr Hne [[Ho Hp] Hall]%Forall_cons Hsh Hws Hsum.
  unfold NewNode. rewrite Hm, Hsh, bytes_nonempty by done. run.
  unfold parseMaster, parseSlave. cbn [Cfg]. rewrite openDB_online by done. cbn [Cfg].
  destruct (length (CfgSlave cfg) =? 0)%nat eqn:E0.
  { apply Nat.eqb_eq in E0. by destruct (CfgSlave cfg). }
  rewrite open_slaves_online by done. cbn [app].
  match goal with |- context [InitBalancer intn ?n] => set (n0 := n) end.
  assert (SlaveWeights n0 <> []) as Hw0 by (cbn; intros E1%map_eq_nil; done).
  destruct (InitBalancer_spec intn n0 Hrand Hw0 Hws Hsum) as (q & -> & Hq). run.
  exists (with_balance n0 0 q). do 3 (split; [done|]).
  apply balanced_init; try done; cbn; [by rewrite map_map|by rewrite !length_map].
Qed.

(** A database without slaves cannot be opened: once the master answers,
    [NewNode] panics in [Gcd], which reads the first weight. *)
Theorem new_node_without_slaves sql_Open Ping QE intn cfg m shards :
  CfgMaster cfg = Some m -> Addr m <> ""%string -> CfgSlave cfg = [] ->
  all_online sql_Open Ping QE cfg [m] -> ParseShard (CfgShard cfg) = Ret shards ->
  NewNode sql_Open Ping QE intn cfg = Panic IndexOutOfRange.
Proof.
  intros Hm Haddr Hs [[Ho Hp] _]%Forall_cons Hsh. unfold NewNode. rewrite Hm, Hsh, bytes_nonempty by done. run.
  unfold parseMaster, parseSlave. cbn [Cfg]. rewrite openDB_online by done. cbn [Cfg]. by rewrite Hs.
Qed.

(** C30: a node opened from a configuration whose shard types are all known
    names a table by the shard of the table's first configuration, passes that
    shard's error on, and names a table without a configuration plainly. *)
Theorem get_table sql_Open Ping QE intn cfg n err off db table keys :
  NewNode sql_Open Ping QE intn cfg = Ret (Some n, err) ->
  Forall (fun c => known_type c = true) (CfgShard cfg) ->
  match config_for (CfgShard cfg) db table with
  | None => GetTable off n db table keys = Ret (db +:+ "." +:+ table, None)
  | Some c =>
      exists s, ParseShard [c] = Ret [s] /\
      forall k e, FindForKey off s keys = Ret (k, e) ->
      GetTable off n db table keys =
      Ret match e with
          | None => (db +:+ "." +:+ table +:+ "_" +:+ Itoa k, None)
          | Some e => (""%string, Some (NodeShard e))
          end
  end.
Proof.
  intros (Hc & Hdb & Hp)%NewNode_shards Hk. subst cfg.
  pose proof (checkShard_spec n db table Hk Hp Hdb) as Hs. unfold GetTable.
  destruct (config_for _ _ _); [|by rewrite Hs].
  destruct Hs as (sh & Hone & ->). exists sh. split; [done|].
  intros k e Hf. run. rewrite Hf. run. by destruct e.
Qed.

(** A transaction started on a node with a master runs for at most one
    second, its context carries it to [Commit] or [Rollback], which pass on the
    driver's result, and neither releases the context. *)
Theorem transaction_lifecycle n db ctx maxRuntime id :
  Master n = Some db ->
  (forall e, BeginTransaction n ctx maxRuntime id (Some e) = ([], (None, Some (NodeSql e)))) /\
  exists ctx' t, BeginTransaction n ctx maxRuntime id None = ([DoBegin id], (Some ctx', None)) /\
  ctx_timeout ctx' = Some t /\ t <= 1000000000 /\ (0 < maxRuntime -> 0 < t <= maxRuntime) /\
  GetConnFromCtx ctx' = (Some id, None) /\
  forall err, Commit ctx' err = ([DoCommit id], Ret (NodeSql <$> err)) /\
              Rollback ctx' err = ([DoRollback id], Ret (NodeSql <$> err)).
Proof.
  intros Hm. unfold BeginTransaction, GetMasterConn. rewrite Hm. split; [done|].
  eexists _, _. do 2 (split; [done|]). unfold TRANSACTION_MAX_RUNTIME.
  destruct ((maxRuntime =? 0) || (1000000000 <? maxRuntime)) eqn:E; split_and!; done || lia.
Qed.

Definition demo_shard : ShardConfig := mkShardConfig "app" "order" 8 0 MODSHARDTYPE 0.
Definition demo_slave (addr : string) (w : Z) : NodeConfig := mkNodeConfig addr "u" "p" "UTC" w.
Definition demo_cfg (slaves : list NodeConfig) : DBConfig :=
  mkDBConfig "app" 10 5 60 1 (Some (demo_slave "m:3306" 1)) slaves [demo_shard].
Definition online (A : Type) (_ : A) : option string := None.

Lemma gcd_correct_witness : exists g, Gcd [6; 4] = Ret g /\ 0 < g.
Proof.
  destruct (gcd_correct [6; 4]) as (g & H1 & H2 & _); [discriminate| |exists g; split; assumption].
  repeat constructor.
Defined.

Definition demo_node : Node :=
  mkNode (demo_cfg []) None (map Some [mkDB "a" 0 0 0; mkDB "b" 0 0 0]) 0 [] [2; 4] [] [].

Lemma weighted_round_witness :
  exists n' conns, InitBalancer (fun _ _ => 0%nat) demo_node = Ret n' /\
  slave_conns (length (RoundRobinQ n')) n' = Ret (n', conns) /\
  conns ≡ₚ [mkDB "a" 0 0 0; mkDB "b" 0 0 0; mkDB "b" 0 0 0].
Proof.
  apply (weighted_round (fun _ _ => 0%nat) demo_node [mkDB "a" 0 0 0; mkDB "b" 0 0 0]).
  - intros. assumption.
  - reflexivity.
  - reflexivity.
  - discriminate.
  - repeat constructor.
  - reflexivity.
Defined.

Lemma new_node_opens_witness :
  exists n, NewNode (online _) (online _) id (fun _ _ => 0%nat)
    (demo_cfg [demo_slave "s:3306" 3]) = Ret (Some n, None).
Proof.
  destruct (new_node_opens (online _) (online _) id (fun _ _ => 0%nat)
    (demo_cfg [demo_slave "s:3306" 3]) (demo_slave "m:3306" 1) [ModShard 8]) as (n & H & _);
    [|reflexivity|discriminate|discriminate| |reflexivity| |reflexivity|exists n; exact H].
  - intros. assumption.
  - repeat constructor.
  - repeat constructor.
Defined.

Lemma new_node_without_slaves_witness :
  NewNode (online _) (online _) id (fun _ _ => 0%nat) (demo_cfg []) = Panic IndexOutOfRange.
Proof.
  apply (new_node_without_slaves (online _) (online _) id (fun _ _ => 0%nat) (demo_cfg [])
    (demo_slave "m:3306" 1) [ModShard 8]);
    [reflexivity|discriminate|reflexivity|repeat constructor|reflexivity].
Defined.

Lemma get_table_witness :
  exists n, NewNode (online _) (online _) id (fun _ _ => 0%nat)
    (demo_cfg [demo_slave "s:3306" 3]) = Ret (Some n, None) /\
  GetTable (fun _ => 0) n "app" "order" [KInt 13] = Ret ("app.order_5"%string, None).
Proof.
  eexists. split; [reflexivity|].
  destruct (get_table (online _) (online _) id (fun _ _ => 0%nat) (demo_cfg [demo_slave "s:3306" 3])
    _ None (fun _ => 0) "app" "order" [KInt 13] eq_refl) as (s & H1 & H2);
    [repeat constructor|].
  injection H1 as <-. apply (H2 5 None). reflexivity.
Defined.

Lemma transaction_lifecycle_witness :
  exists ctx' t, BeginTransaction (mkNode (demo_cfg []) (Some (mkDB "a" 0 0 0)) [] 0 [] [] [] [])
    (mkCtx None None None) 5000000000 7 None = ([DoBegin 7], (Some ctx', None)) /\
  ctx_timeout ctx' = Some t /\ t <= 1000000000.
Proof.
  destruct (transaction_lifecycle (mkNode (demo_cfg []) (Some (mkDB "a" 0 0 0)) [] 0 [] [] [] [])
    (mkDB "a" 0 0 0) (mkCtx None None None) 5000000000 7) as (_ & ctx' & t & H1 & H2 & H3 & _);
    [reflexivity|]. exists ctx', t. split; [exact H1|]. split; [exact H2|exact H3].
Defined.
End DaoTheorems.
