(* ===== verification/DaoSafety.v ===== *)
(** * Nodes stay well formed ([src/components/dao/node.go], [balancer.go])

    What a node that [NewNode] returned looks like for ever: its handles are
    open, its queue points to them and its cursor is inside the queue, so none
    of the reading methods panics. Nothing is asked of the weights: whatever
    queue [InitBalancer] made of them is safe. *)

From S2P Require Import Prelude GoStrings DaoErrors Shard Dao.
Local Open Scope Z_scope.

(** ** Facts *)

Module DaoSafetyFacts.
Import ShardFacts DaoFacts.

(** The type of a node: its slaves are the open handles [dbs]. *)
Record node_ok (n : Node) (dbs : list DB) : Prop := {
  ok_master : is_Some (Master n);
  ok_slaves : Slave n = map Some dbs;
  ok_queue : Forall (fun q => 0 <= q < Z.of_nat (length dbs)) (RoundRobinQ n);
  ok_cursor : 0 <= LastSlaveIndex n < Z.max 1 (Z.of_nat (length (RoundRobinQ n)))
}.

(** *** The queue, for any weights *)

Lemma fill_queue_range i ws g q q' hi :
  fill_queue i ws g q = Ret q' -> (i + length ws <= hi)%nat ->
  Forall (fun k => 0 <= k < Z.of_nat hi) q -> Forall (fun k => 0 <= k < Z.of_nat hi) q'.
Proof.
  revert i q. induction ws as [|w ws IH]; intros i q; cbn [fill_queue length]; [by intros [= <-]|].
  intros H Hi Hq. inv_bind H. apply (IH _ _ H); [lia|]. apply Forall_app_2; [done|]. apply Forall_replicate. lia.
Qed.

Lemma store_Forall {A} (P : A -> Prop) l i a l' : store l i a = Ret l' -> Forall P l -> P a -> Forall P l'.
Proof. unfold store. case_decide; [|done]. intros [= <-] ? ?. by apply Forall_insert. Qed.

Lemma index_Forall {A} (P : A -> Prop) l i a : index l i = Ret a -> Forall P l -> P a.
Proof. unfold index. destruct (l !! i) eqn:E; [|done]. intros [= <-] Hl. by eapply Forall_lookup_1. Qed.

Lemma swap_step_Forall (P : Z -> Prop) sum x q q' : swap_step sum x q = Ret q' -> Forall P q -> Forall P q'.
Proof.
  unfold swap_step. intros H Hq. inv_bind H. inv_bind H. inv_bind H.
  repeat match goal with
  | E : index q _ = Ret _ |- _ => apply index_Forall with (P := P) in E; [|done]
  | E : store q _ _ = Ret ?q2 |- _ => apply store_Forall with (P := P) in E; [|done|done]
  end.
  by eapply store_Forall.
Qed.

Lemma shuffle_Forall (P : Z -> Prop) intn rounds i sum q q' :
  shuffle intn rounds i sum q = Ret q' -> Forall P q -> Forall P q'.
Proof.
  revert i q. induction rounds as [|r IH]; intros i q; cbn [shuffle]; [by intros [= <-]|].
  intros H Hq. inv_bind H. eapply IH; [done|]. by eapply swap_step_Forall.
Qed.

Lemma InitBalancer_range intn n n' :
  InitBalancer intn n = Ret n' ->
  exists q, n' = with_balance n 0 q /\ Forall (fun k => 0 <= k < Z.of_nat (length (SlaveWeights n))) q.
Proof.
  unfold InitBalancer. intros H. inv_bind H. inv_bind H. destruct (_ <? 0); [done|].
  inv_bind H. inv_bind H. simplify_eq. eexists. split; [done|].
  assert (Forall (fun k => 0 <= k < Z.of_nat (length (SlaveWeights n))) a1) as Hq by (by eapply fill_queue_range).
  destruct (1 <? _)%nat; [by eapply shuffle_Forall|by simplify_eq].
Qed.

(** *** Opening *)

Section opening.
Context (sql_Open : string -> option string) (Ping : DB -> option string)
        (QueryEscape : string -> string) (intn : nat -> nat -> nat).

Lemma openDB_open cfg c db : openDB sql_Open Ping QueryEscape cfg c = (db, None) -> is_Some db.
Proof. unfold openDB. destruct (sql_Open _); [done|]. intros [= <- _]. by eexists. Qed.

Lemma open_slaves_open cfg cs ws dbs ws' dbs' :
  open_slaves sql_Open Ping QueryEscape cfg cs ws (map Some dbs) = (ws', dbs', None) ->
  length dbs = length ws -> exists dbs2, dbs' = map Some dbs2 /\ length dbs2 = length ws'.
Proof.
  revert ws dbs. induction cs as [|c cs IH]; intros ws dbs; cbn [open_slaves]; [intros [= <- <-]; by eexists|].
  destruct (openDB _ _ _ _ _) as [db [e|]] eqn:E; [done|]. apply openDB_open in E as [d ->].
  change (map Some dbs ++ [Some d])%list with (map Some dbs ++ map Some [d])%list. rewrite <- map_app.
  intros H Hl. apply (IH _ _ H). rewrite !length_app. cbn. lia.
Qed.

Lemma NewNode_ok cfg n err :
  NewNode sql_Open Ping QueryEscape intn cfg = Ret (Some n, err) -> exists dbs, node_ok n dbs.
Proof.
  unfold NewNode. intros H. destruct (CfgMaster cfg) as [m|]; [|done]. destruct (_ =? 0); [done|].
  inv_bind H. unfold parseMaster, parseSlave in H.
  destruct (openDB _ _ _ _ m) as [db [e|]] eqn:Em; [done|]. apply openDB_open in Em. cbn in H.
  assert (forall dbs ws n0, Master n0 = db -> Slave n0 = map Some dbs -> SlaveWeights n0 = ws -> length dbs = length ws ->
    forall n1, InitBalancer intn n0 = Ret n1 -> node_ok n1 dbs) as Hok.
  { intros dbs ws n0 <- Hs <- Hl n1 (q & -> & Hq)%InitBalancer_range. constructor; cbn; [done|done|by rewrite Hl|lia]. }
  destruct (length _ =? 0)%nat.
  - inv_bind H. injection H as <- _. exists []. eapply Hok; [..|exact Ha0]; done.
  - destruct (open_slaves _ _ _ _ _ [] []) as [[ws dbs] [e|]] eqn:Es; [done|].
    destruct (open_slaves_open _ _ _ [] _ _ Es eq_refl) as (dbs2 & -> & Hl).
    inv_bind H. injection H as <- _. exists dbs2. eapply Hok; [..|exact Ha0]; done.
Qed.

(** *** Reading *)

Lemma check_slaves_ok i dbs : exists errs, check_slaves Ping i (map Some dbs) = Ret errs.
Proof.
  revert i. induction dbs as [|db dbs IH]; intros i; [by eexists|]. cbn [map check_slaves].
  destruct (IH (i + 1)) as [errs ->]. run. destruct (Ping db); by eexists.
Qed.

Lemma check_ticks_ok ticks n dbs : node_ok n dbs -> exists errs, check_ticks Ping ticks n = Ret errs.
Proof.
  intros Hok. induction ticks as [|ticks [rest IH]]; [by eexists|]. cbn [check_ticks].
  unfold checkSlave. rewrite (ok_slaves _ _ Hok). destruct (check_slaves_ok 0 dbs) as [errs ->]. run.
  rewrite IH. run. by eexists.
Qed.
End opening.

(** One call of [GetSlaveConn], whatever it answers. *)
Definition served (n n' : Node) : Prop := exists db err, GetSlaveConn n = Ret (n', db, err).

(** What [GetSlaveConn] may answer: a handle of the node, or that there is none
    because the queue is empty. *)
Definition answer_ok (n : Node) (db : option DB) (err : option node_error) : Prop :=
  match db with
  | Some d => Some d ∈ Slave n /\ err = None
  | None => RoundRobinQ n = [] /\ err = Some (NodeDao ErrNoDatabase)
  end.

Lemma GetSlaveConn_ok n dbs :
  node_ok n dbs -> Z.of_nat (length (RoundRobinQ n)) < 2 ^ 63 ->
  exists k db err, GetSlaveConn n = Ret (with_balance n k (RoundRobinQ n), db, err) /\
  node_ok (with_balance n k (RoundRobinQ n)) dbs /\ answer_ok n db err.
Proof.
  intros [Hm Hs Hq Hc] Hsz. destruct (RoundRobinQ n) as [|q0 q] eqn:Eq.
  { exists (LastSlaveIndex n), None, (Some (NodeDao ErrNoDatabase)). unfold GetSlaveConn, getNextSlave. rewrite Eq. run.
    replace (with_balance n (LastSlaveIndex n) []) with n by (rewrite <- Eq; by destruct n).
    split; [done|]. split; [|done]. constructor; [done..| |]; by rewrite Eq. }
  rewrite <- Eq in *. assert (balanced n dbs) as Hb.
  { constructor; try done. rewrite Eq in Hc |- *. cbn [length] in *. lia. }
  destruct (GetSlaveConn_balanced n dbs Hb) as (k & db & Hk & Hdb & ->).
  eexists _, _, _. split; [done|]. split.
  - constructor; cbn; [done..|]. assert (0 < Z.of_nat (length (RoundRobinQ n))) by (rewrite Eq; cbn; lia).
    pose proof (Z.mod_pos_bound (LastSlaveIndex n + 1) (Z.of_nat (length (RoundRobinQ n)))). lia.
  - split; [|done]. rewrite Hs. apply list_elem_of_fmap. exists db. split; [done|]. by eapply list_elem_of_lookup_2.
Qed.

Lemma served_ok n n' dbs :
  node_ok n dbs -> Z.of_nat (length (RoundRobinQ n)) < 2 ^ 63 -> rtc served n n' ->
  node_ok n' dbs /\ exists k, n' = with_balance n k (RoundRobinQ n).
Proof.
  intros Hok Hsz Hs. induction Hs as [n|n1 n2 n3 (db & err & H) _ IH].
  { split; [done|]. exists (LastSlaveIndex n). by destruct n. }
  destruct (GetSlaveConn_ok n1 dbs Hok Hsz) as (k & db' & err' & H' & Hok' & _).
  rewrite H in H'. injection H' as -> _ _. destruct (IH Hok' Hsz) as (Hok3 & k3 & ->). split; [done|]. by exists k3.
Qed.
End DaoSafetyFacts.

(** ** Properties *)

Module DaoSafetyTheorems.
Import ShardFacts DaoFacts DaoSafetyFacts.

(** C13: a node that [NewNode] returned, whatever the weights of its slaves, with
    a queue shorter than 2^63, is well formed and stays so however often it is
    asked for a connection; each answer is an open handle of its slaves, or the
    error that there is none because its queue is empty. Its health checks panic
    only if the time between them is not positive in nanoseconds, then at once,
    and the search for a table's shard does not panic if the types of all
    configured shards are known. *)
Theorem node_type_safe sql_Open Ping QE intn cfg n err :
  NewNode sql_Open Ping QE intn cfg = Ret (Some n, err) ->
  Z.of_nat (length (RoundRobinQ n)) < 2 ^ 63 ->
  exists dbs, forall n1, rtc served n n1 ->
  node_ok n1 dbs /\ is_Some (fst (GetMasterConn n1)) /\
  (exists n2 db e, GetSlaveConn n1 = Ret (n2, db, e) /\ node_ok n2 dbs /\ answer_ok n1 db e) /\
  (forall ticks,
   if i64 (PingTickerTime cfg * 1000000000) <=? 0
   then CheckNode Ping ticks n1 = Panic (PanicMessage "non-positive interval for NewTicker")
   else exists errs, CheckNode Ping ticks n1 = Ret errs) /\
  (Forall (fun c => known_type c = true) (CfgShard cfg) -> forall db table, exists s, checkShard n1 db table = Ret s).
Proof.
  intros Hn Hsz. destruct (NewNode_ok _ _ _ _ _ _ _ Hn) as [dbs Hok]. exists dbs. intros n1 Hs.
  destruct (served_ok n n1 dbs Hok Hsz Hs) as [Hok1 [k ->]]. split; [done|].
  apply NewNode_shards in Hn as (<- & Hdb & Hp). split_and!.
  - unfold GetMasterConn. by destruct (ok_master _ _ Hok1) as [d ->].
  - destruct (GetSlaveConn_ok _ dbs Hok1 Hsz) as (k2 & db & e & H & Hok2 & Ha). by eexists _, db, e.
  - intros ticks. unfold CheckNode. cbn [Cfg with_balance]. destruct (_ <=? 0); [done|]. by eapply check_ticks_ok.
  - intros Hk db table. pose proof (checkShard_spec (with_balance n k (RoundRobinQ n)) db table Hk Hp Hdb) as Hc.
    destruct (config_for _ _ _) as [c|]; [destruct Hc as (sh & _ & Hc)|]; by eexists.
Qed.

(** Two slaves of which one has a weight below zero: the queue is empty. *)
Lemma node_type_safe_witness :
  exists n, NewNode (DaoTheorems.online _) (DaoTheorems.online _) id (fun _ _ => 0%nat)
    (DaoTheorems.demo_cfg [DaoTheorems.demo_slave "s:3306" (-4); DaoTheorems.demo_slave "t:3306" 2]) = Ret (Some n, None) /\
  RoundRobinQ n = [] /\ exists errs, CheckNode (DaoTheorems.online _) 1 n = Ret errs.
Proof.
  destruct (NewNode (DaoTheorems.online _) (DaoTheorems.online _) id (fun _ _ => 0%nat)
    (DaoTheorems.demo_cfg [DaoTheorems.demo_slave "s:3306" (-4); DaoTheorems.demo_slave "t:3306" 2]))
    as [[[n|] err]| |] eqn:E; try (vm_compute in E; discriminate).
  exists n.
  destruct (node_type_safe (DaoTheorems.online _) (DaoTheorems.online _) id (fun _ _ => 0%nat) _ n err E) as (dbs & H).
  - vm_compute in E. injection E as <- <-. reflexivity.
  - destruct (H n (rtc_refl _ _)) as (_ & _ & _ & Hc & _). split; [|split; [|exact (Hc 1%nat)]];
      vm_compute in E; injection E as <- <-; reflexivity.
Defined.
End DaoSafetyTheorems.
