(* ===== verification/Errors.v ===== *)
(** * Errors with codes and stack traces ([src/components/errors])

    [Error] carries a business code, a text and the caller's stack; [withStack]
    and [withMessage] wrap any error. Errors of other packages are kept with
    what the code can ask of them: their text, what [%+v] prints, and their
    [Cause] method if they have one. [runtime.FuncForPC], [fmt.Sprintf] and
    [strconv.Quote] are parameters. *)

From S2P Require Import Prelude GoStrings.
Local Open Scope Z_scope.

(** ** Data *)

(** [type stack []uintptr] and [type Frame uintptr] *)
Definition stack : Type := list Z.
Definition Frame : Type := Z.

#[warnings="-register-all"]
Inductive error :=
| mkError (code : Z) (err : string) (st : stack)
| withStack (e : error) (st : stack)
| withMessage (cause : error) (msg : string)
| foreignError (text verbose : string) (cause : option (option error)).

(** [common.BusinessStatus]; the setter of the code is its only variant. *)
Record BusinessStatus := mkStatus { Code : Z; Msg : string; TraceId : string }.

(** [status.Status] of the gRPC reply. *)
Record GrpcStatus := mkGrpcStatus { grpc_code : Z; grpc_message : string }.

Definition OK : Z := 0.
Definition SUCCESS : string := "success".
(** [codes.Unknown] of gRPC. *)
Definition codes_Unknown : Z := 2.

(** A value given to [NewFromCode]: a signed integer or not, and what its
    [String] method returns if it has one. *)
Record code_value := mkCode { code_int : option Z; code_string : option string }.

(** [CommonError] is an [int32] type that declares no method. *)
Definition CommonError (v : Z) : code_value := mkCode (Some (i32 v)) None.
Definition CommonError_INIT : code_value := CommonError 0.
Definition CommonError_PROCESSING_TIMEOUT : code_value := CommonError 10001.

(** ** Making errors *)

(** [callers]: at most 32 frames, from the caller of the function that called
    it; [trace] begins with [runtime.Callers] itself. *)
Definition callers (trace : stack) : stack := take 32 (drop 3 trace).

(** The trace inside [runtime.Callers], when an exported function of the
    package is called from [client]. *)
Definition trace_in (pcs : Z * Z * Z) (client : stack) : stack :=
  let '(a, b, c) := pcs in a :: b :: c :: client.

Section making.
Context (pcs : Z * Z * Z) (client : stack).

Definition NewFromCode (code : code_value) : outcome error :=
  match code_int code with
  | None => Panic (PanicMessage "reflect: call of reflect.Value.Int on non-integer Value")
  | Some v =>
      match code_string code with
      | None => Panic (PanicMessage "interface conversion: missing method String")
      | Some s => Ret (mkError v s (callers (trace_in pcs client)))
      end
  end.

Definition New (s : string) : error := mkError codes_Unknown s (callers (trace_in pcs client)).

(** [text] is what [fmt.Sprintf(format, args...)] gives. *)
Definition Errorf (text : string) : error := mkError 0 text (callers (trace_in pcs client)).

Definition WithStack (e : option error) : option error :=
  match e with
  | None => None
  | Some e => Some (withStack e (callers (trace_in pcs client)))
  end.

Definition Wrap (e : option error) (message : string) : option error :=
  match e with
  | None => None
  | Some e => Some (withStack (withMessage e message) (callers (trace_in pcs client)))
  end.
End making.

Definition WithMessage (e : option error) (message : string) : option error :=
  match e with
  | None => None
  | Some e => Some (withMessage e message)
  end.

Section formatted.
Context {arg : Type} (Sprintf : string -> list arg -> string).

Definition Wrapf pcs client (e : option error) (format : string) (args : list arg) : option error :=
  match e with
  | None => None
  | Some e => Some (withStack (withMessage e (Sprintf format args)) (callers (trace_in pcs client)))
  end.

Definition WithMessagef (e : option error) (format : string) (args : list arg) : option error :=
  match e with
  | None => None
  | Some e => Some (withMessage e (Sprintf format args))
  end.
End formatted.

(** ** Reading errors *)

(** The [Error] method. *)
Fixpoint text_of (e : error) : string :=
  match e with
  | mkError _ err _ => err
  | withStack e _ => text_of e
  | withMessage cause msg => msg +:+ ": " +:+ text_of cause
  | foreignError text _ _ => text
  end.

Definition NewFromError pcs client (e : error) : error :=
  mkError codes_Unknown (text_of e) (callers (trace_in pcs client)).

(** One call of [Cause] on the error: [None] when it has no such method. *)
Definition cause_method (e : error) : option (option error) :=
  match e with
  | mkError _ _ _ => None
  | withStack e _ => Some (Some e)
  | withMessage cause _ => Some (Some cause)
  | foreignError _ _ cause => cause
  end.

(** The loop of [Cause], on an error that is not nil. *)
Fixpoint cause_loop (e : error) : option error :=
  match e with
  | withStack e _ => cause_loop e
  | withMessage cause _ => cause_loop cause
  | foreignError _ _ (Some (Some cause)) => cause_loop cause
  | foreignError _ _ (Some None) => None
  | e => Some e
  end.

Definition Cause (e : option error) : option error :=
  match e with None => None | Some e => cause_loop e end.

(** [(e *Error) ResHeader] *)
Definition ResHeader (code : Z) (err : string) : BusinessStatus := mkStatus (i32 code) err "".

Definition GetResHeader (e : option error) : BusinessStatus :=
  match e with
  | None => mkStatus OK SUCCESS ""
  | Some (mkError code err _) => ResHeader code err
  | Some e => mkStatus codes_Unknown (text_of e) ""
  end.

(** [(e *Error) GRPCStatus] *)
Definition GRPCStatus (code : Z) (err : string) : GrpcStatus := mkGrpcStatus (i32 code) err.

(** ** Printing *)

Definition newline : string := of_bytes [10].
Definition tab : string := of_bytes [9].

(** [path.Base] *)
Fixpoint strip_slashes (rev : list Z) : list Z :=
  match rev with
  | 47 :: rev => strip_slashes rev
  | _ => rev
  end.
Fixpoint until_slash (rev : list Z) : list Z :=
  match rev with
  | [] => []
  | b :: rev => if b =? 47 then [] else b :: until_slash rev
  end.
Definition path_Base (path : string) : string :=
  match bytes path with
  | [] => "."
  | l => match strip_slashes (reverse l) with
         | [] => "/"
         | rev => of_bytes (reverse (until_slash rev))
         end
  end.

(** [name[i+1:]], for an [i] that [strings.Index] returned. *)
Definition after (name : string) (i : Z) : string := of_bytes (drop (Z.to_nat (i + 1)) (bytes name)).

Definition funcname (name : string) : string :=
  let i := LastIndex name "/" in
  let name := after name i in
  let i := Index name "." in
  after name i.

Record Func := mkFunc { func_name : string; FileLine : Z -> string * Z }.

Inductive verb := Verb_s | Verb_d | Verb_n | Verb_v | Verb_q | Verb_other.

(** The flag that matters of [fmt.State]. *)
Inductive flag := NoFlag | Plus | Sharp.

Section printing.
Context (FuncForPC : Z -> option Func) (Quote : string -> string).

Definition pc (f : Frame) : Z := u64 (f - 1).

Definition file (f : Frame) : string :=
  match FuncForPC (pc f) with
  | None => "unknown"
  | Some fn => fst (FileLine fn (pc f))
  end.

Definition line (f : Frame) : Z :=
  match FuncForPC (pc f) with
  | None => 0
  | Some fn => snd (FileLine fn (pc f))
  end.

(** [(f Frame) Format] on ['s'], and the rest of it; [Name] of a nil function
    is empty. *)
Definition Frame_Format_s (fl : flag) (f : Frame) : string :=
  match fl with
  | Plus => match FuncForPC (pc f) with
            | None => "unknown"
            | Some fn => func_name fn +:+ newline +:+ tab +:+ fst (FileLine fn (pc f))
            end
  | _ => path_Base (file f)
  end.

Definition Frame_Format (fl : flag) (v : verb) (f : Frame) : string :=
  match v with
  | Verb_s => Frame_Format_s fl f
  | Verb_d => Itoa (line f)
  | Verb_n => funcname (match FuncForPC (pc f) with Some fn => func_name fn | None => "" end)
  | Verb_v => Frame_Format_s fl f +:+ ":" +:+ Itoa (line f)
  | _ => ""
  end.

(** "\n%+v" for each frame *)
Fixpoint frames_plus (st : stack) : string :=
  match st with
  | [] => ""
  | f :: st => newline +:+ Frame_Format Plus Verb_v f +:+ frames_plus st
  end.

(** [(s *stack) Format] *)
Definition stack_Format (fl : flag) (v : verb) (st : stack) : string :=
  match v, fl with
  | Verb_v, Plus => frames_plus st
  | _, _ => ""
  end.

(** The elements of a slice as [fmt] prints them. *)
Definition print_slice (open_ sep : string) (l : list string) : string :=
  open_ +:+ String.concat sep l.

(** [(st StackTrace) Format]; [StackTrace] itself copies the frames. *)
Definition StackTrace (st : stack) : list Frame := map (fun f => f) st.
Definition StackTrace_Format (fl : flag) (v : verb) (st : list Frame) : string :=
  match v with
  | Verb_v =>
      match fl with
      | Plus => frames_plus st
      | Sharp => print_slice "[]errors.Frame{" ", " (map (Frame_Format Sharp Verb_v) st) +:+ "}"
      | NoFlag => print_slice "[" " " (map (Frame_Format NoFlag Verb_v) st) +:+ "]"
      end
  | Verb_s => print_slice "[" " " (map (Frame_Format NoFlag Verb_s) st) +:+ "]"
  | _ => ""
  end.

(** What "%+v" prints of an error. *)
Fixpoint plus_v (e : error) : string :=
  match e with
  | mkError _ err st => err +:+ stack_Format Plus Verb_v st
  | withStack e st => plus_v e +:+ stack_Format Plus Verb_v st
  | withMessage cause msg => plus_v cause +:+ newline +:+ msg
  | foreignError _ verbose _ => verbose
  end.

(** The [Format] methods of the three types of this package. *)
Definition withMessage_Format (fl : flag) (v : verb) (cause : error) (msg : string) : string :=
  match fl, v with
  | Plus, Verb_v => plus_v cause +:+ newline +:+ msg
  | _, (Verb_v | Verb_s | Verb_q) => text_of (withMessage cause msg)
  | _, _ => ""
  end.
Definition withStack_Format (fl : flag) (v : verb) (e : error) (st : stack) : string :=
  match fl, v with
  | Plus, Verb_v => plus_v e +:+ stack_Format Plus Verb_v st
  | _, (Verb_v | Verb_s) => text_of (withStack e st)
  | _, Verb_q => Quote (text_of (withStack e st))
  | _, _ => ""
  end.
Definition Error_Format (fl : flag) (v : verb) (e : error) : string :=
  match e with
  | withMessage cause msg => withMessage_Format fl v cause msg
  | withStack e st => withStack_Format fl v e st
  | _ =>
      match fl, v with
      | Plus, Verb_v => plus_v e
      | _, (Verb_v | Verb_s) => text_of e
      | _, Verb_q => Quote (text_of e)
      | _, _ => ""
      end
  end.
End printing.

(** ** Facts *)

Module ErrorsFacts.

Section nested_induction.
Context (P : error -> Prop).
Context (Hown : forall code err st, P (mkError code err st)).
Context (Hstack : forall e st, P e -> P (withStack e st)).
Context (Hmessage : forall e msg, P e -> P (withMessage e msg)).
Context (Hforeign : forall text verbose cause,
  (forall e, cause = Some (Some e) -> P e) -> P (foreignError text verbose cause)).

(** Induction that goes into the cause of a foreign error. *)
Fixpoint error_nested_ind (e : error) : P e.
Proof.
  destruct e as [code err st|e st|e msg|text verbose [[e|]|]].
  - apply Hown.
  - apply Hstack, error_nested_ind.
  - apply Hmessage, error_nested_ind.
  - apply Hforeign. intros e' [= <-]. apply error_nested_ind.
  - apply Hforeign. discriminate.
  - apply Hforeign. discriminate.
Defined.
End nested_induction.

(** [b] is what [a.Cause()] returns. *)
Definition causes (a b : error) : Prop := cause_method a = Some (Some b).

(** [r] is where the chain of causes of [e] ends. *)
Definition root_of (e : error) (r : option error) : Prop :=
  match r with
  | Some root => cause_method root = None /\ rtc causes e root
  | None => exists last, cause_method last = Some None /\ rtc causes e last
  end.

Lemma root_of_step a b r : causes a b -> root_of b r -> root_of a r.
Proof.
  intros Hab. destruct r as [root|]; cbn.
  - intros [H1 H2]. split; [done|]. by eapply rtc_l.
  - intros (l & H1 & H2). exists l. split; [done|]. by eapply rtc_l.
Qed.

(** What the wrapping functions do, with the calls as data. *)
Inductive wrapper :=
| ByStack
| ByWrap (message : string)
| ByMessage (message : string).

Definition wrap pcs client (w : wrapper) (e : option error) : option error :=
  match w with
  | ByStack => WithStack pcs client e
  | ByWrap message => Wrap pcs client e message
  | ByMessage message => WithMessage e message
  end.

Definition wrapper_text (w : wrapper) (text : string) : string :=
  match w with ByStack => text | ByWrap m | ByMessage m => m +:+ ": " +:+ text end.

Lemma after_bytes name i l1 c l2 :
  bytes name = (l1 ++ c :: l2)%list -> i = Z.of_nat (length l1) -> after name i = of_bytes l2.
Proof.
  intros Hn ->. unfold after. rewrite Hn.
  replace (Z.to_nat (Z.of_nat (length l1) + 1)) with (length l1 + 1)%nat by lia.
  rewrite drop_app_add. done.
Qed.

End ErrorsFacts.

(** ** Properties *)

Module ErrorsTheorems.
Import ErrorsFacts.

(** C32: any chain of [WithStack], [Wrap] and [WithMessage] keeps the root
    cause, puts its messages in front of the text, and gives the response header
    the code Unknown in place of the error's own; on nil every one gives nil. *)
Theorem wrapping pcs client ws e :
  foldr (wrap pcs client) None ws = None /\
  exists e', foldr (wrap pcs client) (Some e) ws = Some e' /\
  Cause (Some e') = Cause (Some e) /\
  text_of e' = foldr wrapper_text (text_of e) ws /\
  (ws <> [] -> GetResHeader (Some e') = mkStatus codes_Unknown (text_of e') "").
Proof.
  induction ws as [|w ws (Hnil & e' & He & Hc & Ht & _)]; cbn [foldr].
  { split; [done|]. by exists e. }
  rewrite Hnil, He. split; [by destruct w|].
  destruct w; (eexists; split; [reflexivity|]); cbn in *; by rewrite ?Hc, Ht.
Qed.

(** [Cause] ends, at an error without a [Cause] method that the chain of
    causes reaches, or at nil when some cause in the chain is nil. *)
Theorem cause_is_root e :
  match Cause (Some e) with
  | Some root => cause_method root = None /\ rtc causes e root
  | None => exists last, cause_method last = Some None /\ rtc causes e last
  end.
Proof.
  change (root_of e (cause_loop e)).
  induction e as [code err st|e st IH|e msg IH|text verbose cause IH] using error_nested_ind.
  - split; [done|apply rtc_refl].
  - by apply (root_of_step _ e).
  - by apply (root_of_step _ e).
  - destruct cause as [[e|]|].
    + apply (root_of_step _ e); [done|]. exact (IH e eq_refl).
    + eexists. split; [|apply rtc_refl]. done.
    + split; [done|apply rtc_refl].
Qed.

(** The header of a nil error is OK with "success", of an error made here
    its code cut to 32 bits and its text; [New] and [NewFromError] give the code
    Unknown, and [Errorf] the code of success. *)
Theorem res_header pcs client s e code st :
  GetResHeader None = mkStatus OK SUCCESS "" /\
  GetResHeader (Some (mkError code s st)) = mkStatus (i32 code) s "" /\
  (in_int32 code -> i32 code = code) /\
  GetResHeader (Some (New pcs client s)) = mkStatus codes_Unknown s "" /\
  GetResHeader (Some (NewFromError pcs client e)) = mkStatus codes_Unknown (text_of e) "" /\
  Code (GetResHeader (Some (Errorf pcs client s))) = Code (GetResHeader None).
Proof. split_and!; try done. apply i32_id. Qed.

(** [NewFromCode] makes an error from a value that is an integer and has a
    [String] method, with both in its header, and panics on any other value:
    on every [CommonError], which has no such method. *)
Theorem new_from_code pcs client code :
  (forall v s, code_int code = Some v -> code_string code = Some s ->
   exists e, NewFromCode pcs client code = Ret e /\ GetResHeader (Some e) = mkStatus (i32 v) s "" /\
   text_of e = s) /\
  (code_int code = None \/ code_string code = None ->
   exists msg, NewFromCode pcs client code = Panic (PanicMessage msg)) /\
  forall v, exists msg, NewFromCode pcs client (CommonError v) = Panic (PanicMessage msg).
Proof.
  unfold NewFromCode. split_and!.
  - intros v s -> ->. eexists. split_and!; done.
  - intros H. destruct (code_int code); [|eauto]. destruct (code_string code); [|eauto].
    by destruct H.
  - intros v. cbn. eauto.
Qed.

(** "%+v" of a new error prints its text and then each of the caller's
    first 32 frames on lines of their own; wrapped with a message, the message
    comes after the frames, and a wrapped stack after that. *)
Theorem plus_v_of_wrapped FuncForPC pcs client s m :
  exists e w, New pcs client s = e /\ Wrap pcs client (Some e) m = Some w /\
  plus_v FuncForPC e = s +:+ frames_plus FuncForPC (take 32 client) /\
  plus_v FuncForPC w =
  plus_v FuncForPC e +:+ newline +:+ m +:+ frames_plus FuncForPC (take 32 client).
Proof.
  destruct pcs as [[a b] c]. eexists _, _. split_and!; try done.
  cbn [plus_v stack_Format]. by rewrite !string_app_assoc.
Qed.

(** [funcname] takes the directory and the package off a function's name. *)
Theorem funcname_spec dir pkg fn :
  46 ∉ bytes pkg -> 47 ∉ bytes pkg -> 47 ∉ bytes fn ->
  funcname (dir +:+ "/" +:+ pkg +:+ "." +:+ fn) = fn /\ funcname (pkg +:+ "." +:+ fn) = fn.
Proof.
  intros Hp1 Hp2 Hf.
  assert (bytes (pkg +:+ "." +:+ fn) = (bytes pkg ++ 46 :: bytes fn)%list) as Htail
    by by rewrite !bytes_app.
  assert (47 ∉ (bytes pkg ++ 46 :: bytes fn)%list) as Hno
    by (rewrite not_elem_of_app, not_elem_of_cons; done).
  assert (forall n, bytes n = (bytes pkg ++ 46 :: bytes fn)%list -> after n (Index n ".") = fn) as Hdot.
  { intros n Hn. rewrite (after_bytes n _ (bytes pkg) 46 (bytes fn)); [apply of_bytes_bytes|done|].
    unfold Index. rewrite Hn. by apply index_from_one. }
  unfold funcname. split; apply Hdot.
  - rewrite (after_bytes _ _ (bytes dir) 47 (bytes pkg ++ 46 :: bytes fn)).
    + rewrite <- Htail, of_bytes_bytes. done.
    + by rewrite !bytes_app.
    + unfold LastIndex. rewrite !bytes_app. apply (last_index_from_one 0). done.
  - unfold LastIndex. rewrite Htail. change (bytes "/") with [47]. rewrite last_index_from_none by done.
    unfold after. change (Z.to_nat (-1 + 1)) with 0%nat. by rewrite drop_0, of_bytes_bytes.
Qed.

Lemma new_from_code_witness :
  exists e, NewFromCode (0, 0, 0) [] (mkCode (Some 7) (Some "seven"%string)) = Ret e /\
  GetResHeader (Some e) = mkStatus 7 "seven" "".
Proof.
  destruct (proj1 (new_from_code (0, 0, 0) [] (mkCode (Some 7) (Some "seven"%string))) 7 "seven")
    as (e & H1 & H2 & _); [reflexivity|reflexivity|]. exists e. split; [exact H1|exact H2].
Defined.

Lemma wrapping_witness :
  exists e', foldr (wrap (0, 0, 0) []) (Some (mkError 7 "seven" [])) [ByWrap "a"; ByMessage "b"] = Some e' /\
  GetResHeader (Some e') = mkStatus codes_Unknown "a: b: seven" "".
Proof.
  destruct (wrapping (0, 0, 0) [] [ByWrap "a"; ByMessage "b"] (mkError 7 "seven" []))
    as (_ & e' & H1 & _ & H2 & H3). exists e'. split; [exact H1|].
  rewrite H3; [|discriminate]. rewrite H2. reflexivity.
Defined.

Lemma res_header_witness : i32 10001 = 10001.
Proof.
  apply (res_header (0, 0, 0) [] "" (mkError 0 "" []) 10001 []). unfold in_int32. lia.
Defined.

Lemma funcname_spec_witness : funcname "github.com/a/b/pkg.(*T).Method" = "(*T).Method"%string.
Proof.
  apply (funcname_spec "github.com/a/b" "pkg" "(*T).Method");
    apply (bool_decide_unpack _); vm_compute; exact I.
Defined.
End ErrorsTheorems.
