(* ===== verification/Redsync.v ===== *)
(** * The distributed mutex ([src/lib/gopkg.in/redsync.v1])

    A [Mutex] writes a random value under its name on several Redis servers and
    holds the lock when a quorum of them took it. The servers are behind the
    interface [Redis], with the commands the code sends and the documented
    behaviour of each; the two Lua scripts are written out on top of it.
    Between any two commands other clients and expiry may change every server
    ([env]), and a command or its reply may be lost ([fate]). The clock, the
    random bytes and float arithmetic on the drift are parameters. *)

From S2P Require Import Prelude GoStrings.
Local Open Scope Z_scope.

(** ** Redis servers *)

Inductive reply := RStr (s : string) | RNil | RInt (z : Z) | RErr.

#[global] Instance reply_eq_dec : EqDecision reply.
Proof. solve_decision. Defined.

Class Redis (S : Type) := {
  GET : string -> S -> option string;
  PTTL : string -> S -> option Z;
  SET_NX_PX : string -> string -> Z -> S -> S * reply;
  SET_XX_PX : string -> string -> Z -> S -> S * reply;
  DEL : string -> S -> S * reply
}.

(** The documented behaviour of the commands. *)
Class RedisLaws (S : Type) `{Redis S} := {
  set_nx_free k v ms s : 0 < ms -> GET k s = None ->
    exists s', SET_NX_PX k v ms s = (s', RStr "OK") /\ GET k s' = Some v /\ PTTL k s' = Some ms /\
    forall k', k' <> k -> GET k' s' = GET k' s;
  set_nx_taken k v ms s u : 0 < ms -> GET k s = Some u -> SET_NX_PX k v ms s = (s, RNil);
  set_nx_invalid k v ms s : ms <= 0 -> SET_NX_PX k v ms s = (s, RErr);
  set_xx_present k v ms s u : 0 < ms -> GET k s = Some u ->
    exists s', SET_XX_PX k v ms s = (s', RStr "OK") /\ GET k s' = Some v /\ PTTL k s' = Some ms /\
    forall k', k' <> k -> GET k' s' = GET k' s;
  set_xx_invalid k v ms s : ms <= 0 -> SET_XX_PX k v ms s = (s, RErr);
  del_present k s u : GET k s = Some u ->
    exists s', DEL k s = (s', RInt 1) /\ GET k s' = None /\
    forall k', k' <> k -> GET k' s' = GET k' s
}.

(** A server in memory. *)
Definition mem : Type := gmap string (string * Z).
#[global] Instance mem_redis : Redis mem := {
  GET k s := fst <$> s !! k;
  PTTL k s := snd <$> s !! k;
  SET_NX_PX k v ms s :=
    if ms <=? 0 then (s, RErr)
    else match s !! k with None => (<[k := (v, ms)]> s, RStr "OK") | Some _ => (s, RNil) end;
  SET_XX_PX k v ms s :=
    if ms <=? 0 then (s, RErr)
    else match s !! k with Some _ => (<[k := (v, ms)]> s, RStr "OK") | None => (s, RNil) end;
  DEL k s := (delete k s, RInt (match s !! k with Some _ => 1 | None => 0 end))
}.
#[global] Instance mem_redis_laws : RedisLaws mem.
Proof.
  constructor; cbn; unfold mem.
  - intros k v ms s Hms Hk%fmap_None. rewrite (proj2 (Z.leb_gt _ _)), Hk by done.
    eexists. split; [done|]. rewrite lookup_insert_eq. split_and!; [done..|].
    intros k' Hne. by rewrite lookup_insert_ne.
  - intros k v ms s u Hms Hk. rewrite (proj2 (Z.leb_gt _ _)) by done.
    by apply fmap_Some in Hk as (? & -> & _).
  - intros k v ms s Hms. by rewrite (proj2 (Z.leb_le _ _)).
  - intros k v ms s u Hms (? & Hk & _)%fmap_Some. rewrite (proj2 (Z.leb_gt _ _)), Hk by done.
    eexists. split; [done|]. rewrite lookup_insert_eq. split_and!; [done..|].
    intros k' Hne. by rewrite lookup_insert_ne.
  - intros k v ms s Hms. by rewrite (proj2 (Z.leb_le _ _)).
  - intros k s u (? & Hk & _)%fmap_Some. rewrite Hk. eexists. split; [done|].
    rewrite lookup_delete_eq. split; [done|]. intros k' Hne. by rewrite lookup_delete_ne.
Qed.

(** ** Base64 ([base64.StdEncoding.EncodeToString]) *)

Definition base64_char (n : Z) : Z :=
  if n <? 26 then 65 + n
  else if n <? 52 then 71 + n
  else if n <? 62 then n - 4
  else if n =? 62 then 43 else 47.

Fixpoint base64 (l : list Z) : list Z :=
  match l with
  | a :: b :: c :: l =>
      base64_char (a / 4) :: base64_char (a mod 4 * 16 + b / 16) ::
      base64_char (b mod 16 * 4 + c / 64) :: base64_char (c mod 64) :: base64 l
  | [a; b] =>
      [base64_char (a / 4); base64_char (a mod 4 * 16 + b / 16); base64_char (b mod 16 * 4); 61]
  | [a] => [base64_char (a / 4); base64_char (a mod 4 * 16); 61; 61]
  | [] => []
  end.

Definition EncodeToString (src : list Z) : string := of_bytes (base64 src).

(** ** The mutex *)

(** [pools] names the servers. *)
Record Mutex {F : Type} := mkMutex {
  name : string;
  expiry : Z;
  tries : Z;
  delay : Z;
  factor : F;
  quorum : nat;
  value : string;
  until : Z;
  pools : list nat
}.
Arguments Mutex : clear implicits.

Inductive lock_error := ErrFailed | ErrRand (msg : string).

(** What happened to a command: answered, executed but the reply lost, or
    never executed. *)
Inductive fate := Answered | ReplyLost | NotExecuted.

#[global] Instance fate_eq_dec : EqDecision fate.
Proof. solve_decision. Defined.

(** The servers, with the number of commands sent and of clock readings made,
    and the time slept. *)
Record World (S : Type) := mkWorld { nodes : list S; cmds : nat; reads : nat; slept : Z }.
Arguments mkWorld {S}.
Arguments nodes {S}.
Arguments cmds {S}.
Arguments reads {S}.
Arguments slept {S}.

Section mutex.
Context {S F : Type} `{Redis S}.
Context (fates : nat -> fate) (env : nat -> nat -> S -> S) (now : nat -> Z).
(** [int64(float64(expiry) * factor)] *)
Context (drift : Z -> F -> Z).
Implicit Types (m : Mutex F) (w : World S).

(** Others move, then server [p] runs [f]. *)
Definition command (p : nat) (f : S -> S * reply) (w : World S) : World S * reply :=
  let ns := imap (env (cmds w)) (nodes w) in
  let keep ns := mkWorld ns (1 + cmds w)%nat (reads w) (slept w) in
  match ns !! p with
  | None => (keep ns, RErr)
  | Some s =>
      let '(s', r) := f s in
      match fates (cmds w) with
      | Answered => (keep (<[p := s']> ns), r)
      | ReplyLost => (keep (<[p := s']> ns), RErr)
      | NotExecuted => (keep ns, RErr)
      end
  end.

Definition read_clock (w : World S) : World S * Z :=
  (mkWorld (nodes w) (cmds w) (1 + reads w)%nat (slept w), now (reads w)).

(** [redis.String] *)
Definition redis_String (r : reply) : option string :=
  match r with RStr s => Some s | _ => None end.

Definition millis (d : Z) : Z := Z.quot d 1000000.

Definition acquire m (p : nat) (v : string) (w : World S) : World S * bool :=
  let '(w, r) := command p (SET_NX_PX (name m) v (millis (expiry m))) w in
  (w, bool_decide (redis_String r = Some "OK"%string)).

(** [deleteScript]; the code compares the reply, an [int64] in an interface,
    with the [int] 0, so any reply passes. *)
Definition deleteScript (k v : string) (s : S) : S * reply :=
  if bool_decide (GET k s = Some v) then DEL k s else (s, RInt 0).
Definition release m (p : nat) (v : string) (w : World S) : World S * bool :=
  let '(w, r) := command p (deleteScript (name m) v) w in
  (w, negb (bool_decide (r = RErr))).

Definition touchScript (k v : string) (ms : Z) (s : S) : S * reply :=
  if bool_decide (GET k s = Some v) then SET_XX_PX k v ms s else (s, RStr "ERR").
Definition touch m (p : nat) (v : string) (ms : Z) (w : World S) : World S * bool :=
  let '(w, r) := command p (touchScript (name m) v ms) w in
  (w, match redis_String r with Some s => negb (String.eqb s "ERR") | None => false end).

(** The loops over the pools, counting the calls that returned true. *)
Fixpoint each_pool (f : nat -> World S -> World S * bool) (ps : list nat) (n : nat) (w : World S)
    : World S * nat :=
  match ps with
  | [] => (w, n)
  | p :: ps =>
      let '(w, ok) := f p w in
      each_pool f ps (if (ok : bool) then n + 1 else n)%nat w
  end.

(** [genValue]: the random bytes, or the error of [rand.Read]. *)
Definition genValue (rand : list Z + string) : string + lock_error :=
  match rand with
  | inl b => inl (EncodeToString b)
  | inr e => inr (ErrRand e)
  end.

(** [t.Sub(u)] saturates. *)
Definition Sub (t u : Z) : Z := Z.max (- 2 ^ 63) (Z.min (2 ^ 63 - 1) (t - u)).

Definition until_of m (t1 t2 start : Z) : Z :=
  t1 + i64 (i64 (i64 (expiry m - Sub t2 start) - drift (expiry m) (factor m)) + 2000000).

Definition with_lock m (v : string) (u : Z) : Mutex F :=
  mkMutex _ (name m) (expiry m) (tries m) (delay m) (factor m) (quorum m) v u (pools m).

(** [n >= m.quorum && time.Now().Before(until)] *)
Definition in_time m (n : nat) (u : Z) (w : World S) : World S * bool :=
  if (quorum m <=? n)%nat then let '(w, t) := read_clock w in (w, t <? u) else (w, false).

(** One attempt: the mutex when it holds the lock. *)
Definition attempt m (v : string) (w : World S) : World S * option (Mutex F) :=
  let '(w, start) := read_clock w in
  let '(w, n) := each_pool (fun p => acquire m p v) (pools m) 0 w in
  let '(w, t1) := read_clock w in
  let '(w, t2) := read_clock w in
  let u := until_of m t1 t2 start in
  let '(w, ok) := in_time m n u w in
  if (ok : bool) then (w, Some (with_lock m v u))
  else (fst (each_pool (fun p => release m p v) (pools m) 0 w), None).

Fixpoint lock_loop m (v : string) (remaining : nat) (first : bool) (w : World S)
    : World S * option (Mutex F) :=
  match remaining with
  | O => (w, None)
  | Datatypes.S remaining =>
      let w := if first then w
               else mkWorld (nodes w) (cmds w) (reads w) (slept w + Z.max 0 (delay m)) in
      match attempt m v w with
      | (w, Some m) => (w, Some m)
      | (w, None) => lock_loop m v remaining false w
      end
  end.

Definition Lock m (rand : list Z + string) (w : World S) : World S * Mutex F * option lock_error :=
  match genValue rand with
  | inr e => (w, m, Some e)
  | inl v =>
      match lock_loop m v (Z.to_nat (tries m)) true w with
      | (w, Some m) => (w, m, None)
      | (w, None) => (w, m, Some ErrFailed)
      end
  end.

Definition Unlock m (w : World S) : World S * bool :=
  let '(w, n) := each_pool (fun p => release m p (value m)) (pools m) 0 w in
  (w, (quorum m <=? n)%nat).

Definition Extend m (w : World S) : World S * bool :=
  let '(w, n) := each_pool (fun p => touch m p (value m) (millis (expiry m))) (pools m) 0 w in
  (w, (quorum m <=? n)%nat).
End mutex.

(** ** Making a mutex ([redsync.go]) *)

Inductive Option_ (F : Type) :=
| SetExpiry (expiry : Z)
| SetTries (tries : Z)
| SetRetryDelay (delay : Z)
| SetDriftFactor (factor : F).
Arguments SetExpiry {F}.
Arguments SetTries {F}.
Arguments SetRetryDelay {F}.
Arguments SetDriftFactor {F}.

Definition Apply {F} (o : Option_ F) (m : Mutex F) : Mutex F :=
  let '(mkMutex _ nm e t d f q v u ps) := m in
  match o with
  | SetExpiry e => mkMutex _ nm e t d f q v u ps
  | SetTries t => mkMutex _ nm e t d f q v u ps
  | SetRetryDelay d => mkMutex _ nm e t d f q v u ps
  | SetDriftFactor f => mkMutex _ nm e t d f q v u ps
  end.

(** [default_factor] is the float 0.01; a new [time.Time] is the year 1. *)
Definition NewMutex {F} (default_factor : F) (pools : list nat) (nm : string)
    (options : list (Option_ F)) : Mutex F :=
  foldl (fun m o => Apply o m)
    (mkMutex _ nm 8000000000 32 500000000 default_factor (length pools / 2 + 1)%nat "" 0 pools)
    options.

(** ** Facts *)

Module RedsyncFacts.

(** *** Values *)

Lemma base64_char_inj a b :
  0 <= a < 64 -> 0 <= b < 64 -> base64_char a = base64_char b -> a = b.
Proof.
  unfold base64_char. intros.
  repeat match goal with H : context [if ?c then _ else _] |- _ => destruct c eqn:? end; lia.
Qed.

Lemma base64_length l : exists k, length (base64 l) = (4 * k)%nat.
Proof.
  induction l as [l IH] using (induction_ltof1 _ (@length Z)). unfold ltof in IH.
  destruct l as [|a [|b [|c l]]]; [by exists 0%nat|by exists 1%nat|by exists 1%nat|].
  destruct (IH l) as [k Hk]; [cbn; lia|]. exists (1 + k)%nat. cbn [base64 length]. lia.
Qed.

Lemma base64_inj l1 l2 :
  Forall is_byte l1 -> Forall is_byte l2 -> length l1 = length l2 -> base64 l1 = base64 l2 -> l1 = l2.
Proof.
  revert l2. induction l1 as [l1 IH] using (induction_ltof1 _ (@length Z)). unfold ltof in IH.
  intros l2 H1 H2 Hl Heq.
  destruct l1 as [|a1 [|b1 [|c1 l1]]], l2 as [|a2 [|b2 [|c2 l2]]]; try done;
    repeat match goal with H : Forall _ (_ :: _) |- _ => apply Forall_cons in H as [? H] end;
    unfold is_byte in *; cbn [base64] in Heq; injection Heq; intros;
    repeat match goal with H : base64_char _ = base64_char _ |- _ => apply base64_char_inj in H; [|Z.div_mod_to_equations; lia..] end.
  - f_equal. Z.div_mod_to_equations. lia.
  - f_equal; [|f_equal]; Z.div_mod_to_equations; lia.
  - do 3 (f_equal; [Z.div_mod_to_equations; lia|]). cbn in Hl.
    apply IH; [cbn; lia|done|done|lia|done].
Qed.

Lemma length_of_bytes l : String.length (of_bytes l) = length l.
Proof. induction l as [|b l IH]; [done|]. cbn. by rewrite IH. Qed.

Lemma base64_bytes l : Forall is_byte l -> Forall is_byte (base64 l).
Proof.
  assert (forall n, 0 <= n < 64 -> is_byte (base64_char n)) as Hc.
  { intros n Hn. unfold base64_char, is_byte.
    repeat match goal with |- context [if ?c then _ else _] => destruct c eqn:? end; lia. }
  induction l as [l IH] using (induction_ltof1 _ (@length Z)). unfold ltof in IH. intros Hl.
  destruct l as [|a [|b [|c l]]];
    repeat match goal with H : Forall _ (_ :: _) |- _ => apply Forall_cons in H as [? H] end;
    cbn [base64];
    repeat (apply Forall_cons; split); try (apply Hc; unfold is_byte in *; Z.div_mod_to_equations; lia);
    try (unfold is_byte; lia); try apply Forall_nil_2.
  apply IH; [cbn; lia|done].
Qed.

(** Different random bytes are different values. *)
Lemma EncodeToString_inj l1 l2 :
  Forall is_byte l1 -> Forall is_byte l2 -> length l1 = length l2 ->
  EncodeToString l1 = EncodeToString l2 -> l1 = l2.
Proof.
  intros H1 H2 Hl Heq. apply base64_inj; [done..|].
  apply of_bytes_inj; [by apply base64_bytes|by apply base64_bytes|done].
Qed.

Lemma not_ERR l : EncodeToString l <> "ERR"%string.
Proof.
  intros Heq%(f_equal String.length). unfold EncodeToString in Heq.
  rewrite length_of_bytes in Heq. destruct (base64_length l) as [k Hk]. cbn in Heq. lia.
Qed.

Section facts.
Context {S F : Type} {R : Redis S} {RL : RedisLaws S}.
Context (fates : nat -> fate) (env : nat -> nat -> S -> S) (now : nat -> Z) (drift : Z -> F -> Z).
Implicit Types (m : Mutex F) (w : World S) (ns : list S) (k v : string).

(** *** Single commands *)

(** [f] leaves the key [k] alone on servers where it has the value [v]. *)
Definition keeps k v (f : S -> S) : Prop := forall s, GET k s = Some v -> GET k (f s) = Some v.

Lemma set_nx_keeps k v k' v' ms : keeps k v (fun s => fst (SET_NX_PX k' v' ms s)).
Proof.
  intros s Hs. destruct (Z.le_gt_cases ms 0). { by rewrite set_nx_invalid. }
  destruct (GET k' s) as [u|] eqn:Hk'; [by erewrite set_nx_taken|].
  destruct (set_nx_free k' v' ms s) as (s' & -> & _ & _ & Hframe); [done..|].
  cbn. rewrite Hframe; [done|]. congruence.
Qed.

Lemma delete_keeps k v k' v' : k' <> k \/ v' <> v -> keeps k v (fun s => fst (deleteScript k' v' s)).
Proof.
  intros Hne s Hs. unfold deleteScript. case_bool_decide as Hk'; [|done].
  destruct (del_present k' s v' Hk') as (s' & -> & _ & Hframe). cbn. rewrite Hframe; [done|].
  intros ->. destruct Hne; congruence.
Qed.

Lemma touch_keeps k v k' v' ms :
  k' <> k \/ v' <> v -> keeps k v (fun s => fst (touchScript k' v' ms s)).
Proof.
  intros Hne s Hs. unfold touchScript. case_bool_decide as Hk'; [|done].
  destruct (Z.le_gt_cases ms 0). { by rewrite set_xx_invalid. }
  destruct (set_xx_present k' v' ms s v') as (s' & -> & _ & _ & Hframe); [done..|].
  cbn. rewrite Hframe; [done|]. intros ->. destruct Hne; congruence.
Qed.

(** *** Commands through the network *)

(** Server [p] satisfies [Q]. *)
Definition at_node (Q : S -> bool) ns (p : nat) : bool :=
  match ns !! p with Some s => Q s | None => false end.

Definition has k v (s : S) : bool := bool_decide (GET k s = Some v).
Definition free k (s : S) : bool := bool_decide (GET k s = None).

(** A server property that neither the others nor [f] end. *)
Definition stable (Q : S -> bool) (f : S -> S) : Prop :=
  (forall i p s, Q s = true -> Q (env i p s) = true) /\ (forall s, Q s = true -> Q (f s) = true).

Lemma command_stable Q (f : S -> S * reply) p p' w :
  stable Q (fun s => fst (f s)) -> at_node Q (nodes w) p' = true ->
  at_node Q (nodes (fst (command fates env p f w))) p' = true.
Proof.
  intros [Henv Hf] Hq. unfold at_node in *.
  destruct (nodes w !! p') as [s|] eqn:Hs; [|done].
  assert (imap (env (cmds w)) (nodes w) !! p' = Some (env (cmds w) p' s)) as Hi
    by by rewrite list_lookup_imap, Hs.
  unfold command. destruct (imap _ _ !! p) as [s0|] eqn:Hp; cbn [fst nodes].
  2: { rewrite Hi. by apply Henv. }
  specialize (Hf s0). destruct (f s0) as [s1 r]. cbn in Hf.
  assert (match <[p:=s1]> (imap (env (cmds w)) (nodes w)) !! p' with
          | Some s => Q s | None => false end = true) as Hins.
  { destruct (decide (p = p')) as [<-|Hne].
    - rewrite list_lookup_insert_eq by (by eapply lookup_lt_Some). apply Hf. simplify_eq. by apply Henv.
    - rewrite list_lookup_insert_ne, Hi by done. by apply Henv. }
  destruct (fates (cmds w)); cbn; [done|done|]. rewrite Hi. by apply Henv.
Qed.

Lemma command_length p (f : S -> S * reply) w :
  length (nodes (fst (command fates env p f w))) = length (nodes w).
Proof.
  unfold command. destruct (_ !! p); [|apply length_imap]. destruct (f s).
  destruct (fates _); cbn; by rewrite ?length_insert, length_imap.
Qed.

(** A reply that is not an error is that of the server. *)
Lemma command_reply p (f : S -> S * reply) w w' r :
  command fates env p f w = (w', r) -> r <> RErr ->
  exists s s', f s = (s', r) /\ nodes w' !! p = Some s'.
Proof.
  unfold command. destruct (_ !! p) as [s|] eqn:Hp; [|intros; simplify_eq].
  destruct (f s) as [s' r'] eqn:Hf. destruct (fates _); intros; simplify_eq.
  exists s, s'. split; [done|]. cbn. rewrite list_lookup_insert_eq; [done|].
  by eapply lookup_lt_Some.
Qed.

(** *** Loops over the pools *)

Definition count (Q : nat -> bool) (ps : list nat) : nat := length (List.filter Q ps).

Lemma count_cons Q p ps : count Q (p :: ps) = ((if Q p then 1 else 0) + count Q ps)%nat.
Proof. unfold count. cbn. by destruct (Q p). Qed.

Lemma count_ext Q Q' ps : (forall p, p ∈ ps -> Q p = Q' p) -> count Q ps = count Q' ps.
Proof.
  intros Heq. unfold count. f_equal. apply filter_ext_in. intros p Hp. apply Heq.
  by apply list_elem_of_In.
Qed.

Lemma count_disjoint Q Q' ps :
  (forall p, Q p = true -> Q' p = false) -> (count Q ps + count Q' ps <= length ps)%nat.
Proof.
  intros Hd. induction ps as [|p ps IH]; [done|]. rewrite !count_cons. specialize (Hd p).
  destruct (Q p); [rewrite Hd by done|]; destruct (Q' p); cbn; lia.
Qed.

(** If a true answer makes [Q] true of the pool, and [Q] lasts, the count is at
    most that of the pools with [Q] at the end. *)
Lemma each_pool_count (f : nat -> World S -> World S * bool) Q ps n w w' n' :
  (forall p w w', f p w = (w', true) -> at_node Q (nodes w') p = true) ->
  (forall p p' w, at_node Q (nodes w) p' = true -> at_node Q (nodes (fst (f p w))) p' = true) ->
  each_pool f ps n w = (w', n') ->
  (n' <= n + count (at_node Q (nodes w')) ps)%nat /\
  forall p, at_node Q (nodes w) p = true -> at_node Q (nodes w') p = true.
Proof.
  intros Hset Hkeep. revert n w. induction ps as [|p ps IH]; intros n w Heq; cbn in Heq.
  { simplify_eq. cbn. split; [lia|done]. }
  destruct (f p w) as [w1 ok] eqn:Hf. destruct (IH _ _ Heq) as [Hc Hlast].
  rewrite count_cons. specialize (Hkeep p). split.
  - destruct ok; [|destruct (at_node _ _ _); lia]. rewrite Hlast by (by eapply Hset). lia.
  - intros p' Hp'. apply Hlast. specialize (Hkeep p' w Hp'). by rewrite Hf in Hkeep.
Qed.

(** A property that lasts lasts through the loop. *)
Lemma each_pool_stable (f : nat -> World S -> World S * bool) (I : World S -> Prop) ps n w :
  (forall p w, I w -> I (fst (f p w))) -> I w -> I (fst (each_pool f ps n w)).
Proof.
  intros Hf. revert n w. induction ps as [|p ps IH]; intros n w Hw; [done|]. cbn.
  specialize (Hf p w Hw). destruct (f p w). by apply IH.
Qed.
(** *** Acquiring *)

Lemma set_nx_ok k v ms s s' : SET_NX_PX k v ms s = (s', RStr "OK") -> GET k s' = Some v.
Proof.
  intros Heq. destruct (Z.le_gt_cases ms 0). { by rewrite set_nx_invalid in Heq. }
  destruct (GET k s) as [u|] eqn:Hk; [by erewrite set_nx_taken in Heq|].
  destruct (set_nx_free k v ms s) as (s1 & H1 & ? & _); [done..|]. congruence.
Qed.

Lemma acquire_true m p v w w' :
  acquire fates env m p v w = (w', true) -> at_node (has (name m) v) (nodes w') p = true.
Proof.
  unfold acquire. destruct (command _ _ _ _ _) as [w1 r] eqn:Hc. intros [= <- Hr%bool_decide_eq_true].
  destruct r as [t| | |]; try discriminate. cbn in Hr. injection Hr as ->.
  destruct (command_reply _ _ _ _ _ Hc) as (s & s' & Hs & Hn); [done|].
  unfold at_node. rewrite Hn. apply bool_decide_eq_true. by eapply set_nx_ok.
Qed.

Lemma fst_acquire m p v w :
  fst (acquire fates env m p v w) =
  fst (command fates env p (SET_NX_PX (name m) v (millis (expiry m))) w).
Proof. unfold acquire. by destruct (command _ _ _ _ _). Qed.

Lemma fst_release m p v w :
  fst (release fates env m p v w) = fst (command fates env p (deleteScript (name m) v) w).
Proof. unfold release. by destruct (command _ _ _ _ _). Qed.

Lemma fst_touch m p v ms w :
  fst (touch fates env m p v ms w) = fst (command fates env p (touchScript (name m) v ms) w).
Proof. unfold touch. by destruct (command _ _ _ _ _). Qed.

(** The others never touch a key with value [v]. *)
Definition env_keeps k v : Prop := forall i p, keeps k v (env i p).

Lemma keeps_stable k v (f : S -> S) :
  env_keeps k v -> keeps k v f -> stable (has k v) f.
Proof.
  intros He Hf. unfold has. split; [intros i p s|intros s];
    rewrite !bool_decide_eq_true; [apply He|apply Hf].
Qed.

Lemma attempt_quorum m v w w' m' :
  env_keeps (name m) v -> attempt fates env now drift m v w = (w', Some m') ->
  (exists u, m' = with_lock m v u) /\
  (quorum m <= count (at_node (has (name m) v) (nodes w')) (pools m))%nat.
Proof.
  intros He. unfold attempt. cbn [read_clock].
  destruct (each_pool _ (pools m) 0 _) as [w1 n] eqn:Hloop. unfold read_clock. cbn [nodes cmds reads slept].
  set (u := until_of _ _ _ _ _). unfold in_time.
  destruct (quorum m <=? n)%nat eqn:Hq; [|by destruct (each_pool _ _ _ _)].
  cbn [read_clock nodes]. destruct (_ <? u); [|by destruct (each_pool _ _ _ _)].
  intros [= <- <-]. split; [by exists u|]. apply Nat.leb_le in Hq. cbn [nodes].
  apply (each_pool_count _ (has (name m) v)) in Hloop as [Hn _]; [lia| |].
  - intros p w0 w0'. apply acquire_true.
  - intros p p' w0. rewrite fst_acquire. apply command_stable, keeps_stable; [done|].
    apply set_nx_keeps.
Qed.

Lemma lock_loop_quorum m v r b w w' m' :
  env_keeps (name m) v -> lock_loop fates env now drift m v r b w = (w', Some m') ->
  (exists u, m' = with_lock m v u) /\
  (quorum m <= count (at_node (has (name m) v) (nodes w')) (pools m))%nat.
Proof.
  intros He. revert b w. induction r as [|r IH]; intros b w; cbn [lock_loop]; [done|].
  destruct (attempt _ _ _ _ _ _ _) as [w1 [m1|]] eqn:Ha; [|apply IH].
  intros [= <- <-]. by eapply attempt_quorum.
Qed.

(** *** Releasing *)

(** Every command is answered. *)
Definition answered : Prop := forall i, fates i = Answered.

(** The others never write the value [v]. *)
Definition env_lacks k v : Prop :=
  forall i p s, GET k s <> Some v -> GET k (env i p s) <> Some v.

Lemma delete_clears k v s : GET k (fst (deleteScript k v s)) <> Some v.
Proof.
  unfold deleteScript. case_bool_decide as Hk; [|done].
  destruct (del_present k s v Hk) as (s' & -> & Hn & _). cbn. congruence.
Qed.

Lemma release_clears m p v w :
  fates (cmds w) <> NotExecuted ->
  at_node (has (name m) v) (nodes (fst (release fates env m p v w))) p = false.
Proof.
  intros Hx. rewrite fst_release. unfold command, at_node.
  destruct (imap _ _ !! p) as [s|] eqn:Hp; [|cbn; by rewrite Hp].
  pose proof (delete_clears (name m) v s) as Hd. destruct (deleteScript _ _ s) as [s' r]. cbn in Hd.
  assert (<[p:=s']> (imap (env (cmds w)) (nodes w)) !! p = Some s') as Hi.
  { apply list_lookup_insert_eq. by eapply lookup_lt_Some. }
  destruct (fates (cmds w)); [| |done]; cbn; rewrite Hi; by apply bool_decide_eq_false.
Qed.

Lemma release_keeps_clear m p p' v w :
  env_lacks (name m) v -> at_node (has (name m) v) (nodes w) p' = false ->
  at_node (has (name m) v) (nodes (fst (release fates env m p v w))) p' = false.
Proof.
  intros He Hc. rewrite fst_release. destruct (nodes w !! p') as [s|] eqn:Hs.
  - assert (at_node (fun s => negb (has (name m) v s))
      (nodes (fst (command fates env p (deleteScript (name m) v) w))) p' = true) as Hl.
    { apply command_stable.
      - unfold has. split; [intros i q t|intros t];
          rewrite !negb_true_iff, !bool_decide_eq_false; [apply He|intros _; apply delete_clears].
      - unfold at_node in *. rewrite Hs in *. by rewrite Hc. }
    unfold at_node in *. destruct (nodes (fst _) !! p'); [|done]. by apply negb_true_iff.
  - unfold at_node. rewrite (proj2 (lookup_ge_None _ _)); [done|].
    rewrite command_length. by apply lookup_ge_None.
Qed.

Lemma command_cmds p (f : S -> S * reply) w : cmds (fst (command fates env p f w)) = (1 + cmds w)%nat.
Proof. unfold command. destruct (_ !! p); [|done]. destruct (f s). by destruct (fates _). Qed.

(** Every pool is asked once, in order. *)
Lemma release_all_cmds m v ps n w :
  cmds (fst (each_pool (fun p => release fates env m p v) ps n w)) = (length ps + cmds w)%nat.
Proof.
  revert n w. induction ps as [|p ps IH]; intros n w; [done|]. cbn [each_pool length].
  pose proof (fst_release m p v w) as Hf. destruct (release _ _ _ _ _ _) as [w1 ok]. cbn [fst] in Hf.
  rewrite IH, Hf, command_cmds. lia.
Qed.

Lemma release_all_clears m v ps n w j p :
  env_lacks (name m) v -> ps !! j = Some p -> fates (cmds w + j) <> NotExecuted ->
  at_node (has (name m) v)
    (nodes (fst (each_pool (fun p => release fates env m p v) ps n w))) p = false.
Proof.
  intros He. revert n w j. induction ps as [|q ps IH]; intros n w j Hp Hx; [done|].
  cbn [each_pool]. pose proof (fst_release m q v w) as Hf.
  destruct (release _ _ _ _ _ _) as [w1 ok] eqn:Hr. cbn [fst] in Hf. destruct j as [|j].
  - injection Hp as ->. rewrite Nat.add_0_r in Hx.
    apply (each_pool_stable _ (fun w => at_node (has (name m) v) (nodes w) p = false)).
    + intros p' w2. by apply release_keeps_clear.
    + pose proof (release_clears m p v w Hx) as Hc. by rewrite Hr in Hc.
  - apply (IH _ _ j Hp). rewrite Hf, command_cmds. by replace (1 + cmds w + j)%nat with (cmds w + Datatypes.S j)%nat by lia.
Qed.

Lemma attempt_none m v w w' :
  attempt fates env now drift m v w = (w', None) ->
  exists w1, w' = fst (each_pool (fun p => release fates env m p v) (pools m) 0 w1).
Proof.
  unfold attempt. destruct (read_clock _ w) as [w1 start]. destruct (each_pool _ _ _ w1) as [w2 n].
  destruct (read_clock _ w2) as [w3 t1]. destruct (read_clock _ w3) as [w4 t2].
  destruct (in_time _ _ _ _ _) as [w5 [|]]; [done|]. intros [= <-]. by exists w5.
Qed.

Lemma lock_loop_clean m v r b w w' :
  env_lacks (name m) v -> (0 < r)%nat ->
  lock_loop fates env now drift m v r b w = (w', None) ->
  (length (pools m) <= cmds w')%nat /\
  forall j p, pools m !! j = Some p -> fates (cmds w' - length (pools m) + j)%nat <> NotExecuted ->
  at_node (has (name m) v) (nodes w') p = false.
Proof.
  intros He Hr. revert b w. induction r as [|r IH]; intros b w; [lia|]. cbn [lock_loop].
  destruct (attempt _ _ _ _ _ _ _) as [w1 [m1|]] eqn:Ha; [done|].
  destruct r as [|r]; [|apply IH; lia]. cbn. intros [= <-].
  apply attempt_none in Ha as [w2 ->]. rewrite release_all_cmds. split; [lia|].
  intros j p Hp Hx. apply (release_all_clears _ _ _ _ _ j); [done..|].
  by replace (cmds w2 + j)%nat with (length (pools m) + cmds w2 - length (pools m) + j)%nat by lia.
Qed.

(** *** Without interference *)

(** The others leave the key [k] as it is. *)
Definition env_still k : Prop := forall i p s, GET k (env i p s) = GET k s.

Definition value_at k ns p : option (option string) := GET k <$> ns !! p.

Lemma command_answered p (f : S -> S * reply) k w s :
  answered -> env_still k -> nodes w !! p = Some s ->
  exists s0 w', GET k s0 = GET k s /\ command fates env p f w = (w', snd (f s0)) /\
  reads w' = reads w /\ value_at k (nodes w') p = Some (GET k (fst (f s0))) /\
  forall p', p' <> p -> value_at k (nodes w') p' = value_at k (nodes w) p'.
Proof.
  intros Ha He Hs. exists (env (cmds w) p s).
  assert (imap (env (cmds w)) (nodes w) !! p = Some (env (cmds w) p s)) as Hi
    by by rewrite list_lookup_imap, Hs.
  unfold command. rewrite Hi, Ha. destruct (f (env (cmds w) p s)) as [s' r] eqn:Hf.
  eexists. split; [apply He|]. split; [done|]. cbn. unfold value_at. split; [done|].
  rewrite list_lookup_insert_eq by (by eapply lookup_lt_Some). split; [done|].
  intros p' Hne. rewrite list_lookup_insert_ne by done. rewrite list_lookup_imap.
  destruct (nodes w !! p') as [s1|]; [|done]. cbn. f_equal. apply He.
Qed.

Lemma at_node_value Q (q : option string -> bool) k ns p :
  (forall s, Q s = q (GET k s)) ->
  at_node Q ns p = match value_at k ns p with Some x => q x | None => false end.
Proof. intros Hq. unfold at_node, value_at. by destruct (ns !! p); cbn. Qed.

Lemma free_value k ns p :
  at_node (free k) ns p =
  match value_at k ns p with Some x => bool_decide (x = None) | None => false end.
Proof. by apply at_node_value. Qed.

Lemma has_value k v ns p :
  at_node (has k v) ns p =
  match value_at k ns p with Some x => bool_decide (x = Some v) | None => false end.
Proof. by apply at_node_value. Qed.

(** A loop whose calls answer by [q] of the server's value, and leave the other
    servers alone, counts the servers with [q]. *)
Lemma each_pool_exact (f : nat -> World S -> World S * bool) (q : option string -> bool) k ps n w :
  (forall p w x, value_at k (nodes w) p = Some x ->
   exists w', f p w = (w', q x) /\ reads w' = reads w /\
   (forall p', p' <> p -> value_at k (nodes w') p' = value_at k (nodes w) p')) ->
  NoDup ps -> Forall (fun p => is_Some (value_at k (nodes w) p)) ps ->
  exists w', each_pool f ps n w =
  (w', n + count (fun p => match value_at k (nodes w) p with Some x => q x | None => false end) ps)%nat /\
  reads w' = reads w.
Proof.
  intros Hf Hnd. revert n w. induction Hnd as [|p ps Hp _ IH]; intros n w Hin.
  { exists w. cbn. rewrite Nat.add_0_r. done. }
  apply Forall_cons in Hin as [[x Hx] Hin]. destruct (Hf p w x Hx) as (w1 & H1 & Hr & Hother).
  assert (forall p', p' ∈ ps -> value_at k (nodes w1) p' = value_at k (nodes w) p') as Hsame.
  { intros p' Hp'. apply Hother. by intros ->. }
  cbn [each_pool]. rewrite H1, count_cons, Hx.
  edestruct (IH (if q x then n + 1 else n)%nat w1) as (w' & Heq & Hr').
  { apply Forall_forall. intros p' Hp'. rewrite Hsame by done. by apply (proj1 (Forall_forall _ _) Hin). }
  exists w'. rewrite Heq, Hr', Hr. split; [|done]. f_equal.
  erewrite count_ext; [|intros p' Hp'; by rewrite Hsame]. destruct (q x); lia.
Qed.

Lemma acquire_answered m v p w x :
  answered -> env_still (name m) -> 0 < millis (expiry m) ->
  value_at (name m) (nodes w) p = Some x ->
  exists w', acquire fates env m p v w = (w', bool_decide (x = None)) /\ reads w' = reads w /\
  forall p', p' <> p -> value_at (name m) (nodes w') p' = value_at (name m) (nodes w) p'.
Proof.
  intros Ha He Hms (s & Hs & ->)%fmap_Some.
  destruct (command_answered p (SET_NX_PX (name m) v (millis (expiry m))) (name m) w s)
    as (s0 & w' & Hk & Hc & Hr & _ & Ho); [done..|].
  exists w'. unfold acquire. rewrite Hc. split; [|done]. f_equal. rewrite <- Hk.
  destruct (GET (name m) s0) as [u|] eqn:Hu; [by erewrite set_nx_taken|].
  destruct (set_nx_free (name m) v _ s0 Hms Hu) as (s1 & -> & _). done.
Qed.

(** The scripts of [Extend] on one server: counted when it has the value and its
    answer arrives. *)
Lemma touch_exact m v ms p w :
  env_still (name m) -> 0 < ms -> v <> "ERR"%string ->
  exists w', touch fates env m p v ms w =
    (w', bool_decide (fates (cmds w) = Answered) && at_node (has (name m) v) (nodes w) p) /\
  cmds w' = (1 + cmds w)%nat /\
  forall p', p' <> p -> at_node (has (name m) v) (nodes w') p' = at_node (has (name m) v) (nodes w) p'.
Proof.
  intros He Hms Hv. unfold touch, command, at_node, has. rewrite list_lookup_imap.
  assert (forall p', match imap (env (cmds w)) (nodes w) !! p' with
    | Some s => bool_decide (GET (name m) s = Some v) | None => false end =
    match nodes w !! p' with Some s => bool_decide (GET (name m) s = Some v) | None => false end) as Hsame.
  { intros p'. rewrite list_lookup_imap. destruct (nodes w !! p') as [s|]; [|done]. cbn. by rewrite He. }
  destruct (nodes w !! p) as [s|] eqn:Hs; cbn [fmap option_fmap option_map].
  2: { eexists. split; [by rewrite andb_false_r|]. split; [done|]. intros p' _. apply Hsame. }
  rewrite <- (He (cmds w) p s). set (s0 := env (cmds w) p s).
  assert (exists s', touchScript (name m) v ms s0 = (s', if bool_decide (GET (name m) s0 = Some v)
    then RStr "OK" else RStr "ERR")) as [s' ->].
  { unfold touchScript. case_bool_decide as Hu; [|by eexists].
    destruct (set_xx_present (name m) v ms s0 v Hms Hu) as (s1 & -> & _). by eexists. }
  assert (forall p', p' <> p -> <[p:=s']> (imap (env (cmds w)) (nodes w)) !! p' = imap (env (cmds w)) (nodes w) !! p') as Hne
    by (intros; by rewrite list_lookup_insert_ne).
  case_bool_decide; destruct (fates (cmds w)); (eexists; split; [reflexivity|]); (split; [reflexivity|]);
    cbn [nodes]; intros p' Hp'; rewrite ?(Hne p' Hp'); apply Hsame.
Qed.

(** The servers that hold the value and whose answer to the commands from the
    [i]-th on arrives. *)
Fixpoint counted k v (i : nat) (ps : list nat) ns : nat :=
  match ps with
  | [] => 0
  | p :: ps => (if bool_decide (fates i = Answered) && at_node (has k v) ns p then 1 else 0) + counted k v (1 + i) ps ns
  end.

Lemma counted_ext k v i ps ns ns' :
  (forall p, p ∈ ps -> at_node (has k v) ns p = at_node (has k v) ns' p) -> counted k v i ps ns = counted k v i ps ns'.
Proof.
  revert i. induction ps as [|p ps IH]; intros i Heq; [done|]. cbn [counted].
  rewrite Heq by by left. f_equal. apply IH. intros q Hq. apply Heq. by right.
Qed.

Lemma counted_answered k v i ps ns : answered -> counted k v i ps ns = count (at_node (has k v) ns) ps.
Proof.
  intros Ha. revert i. induction ps as [|p ps IH]; intros i; [done|]. cbn [counted].
  rewrite count_cons, IH, bool_decide_eq_true_2 by apply Ha. done.
Qed.

Lemma touch_all_exact m v ms ps n w :
  env_still (name m) -> 0 < ms -> v <> "ERR"%string -> NoDup ps ->
  snd (each_pool (fun p => touch fates env m p v ms) ps n w) = (n + counted (name m) v (cmds w) ps (nodes w))%nat.
Proof.
  intros He Hms Hv Hnd. revert n w. induction Hnd as [|p ps Hp _ IH]; intros n w; cbn [each_pool counted]; [cbn; lia|].
  destruct (touch_exact m v ms p w He Hms Hv) as (w1 & -> & Hc & Hother). rewrite IH, Hc.
  rewrite (counted_ext _ _ _ ps (nodes w1) (nodes w)) by (intros q Hq; apply Hother; by intros ->).
  destruct (_ && _); lia.
Qed.

Lemma deleteScript_reply k v s : snd (deleteScript k v s) <> RErr.
Proof.
  unfold deleteScript. case_bool_decide as Hk; [|done].
  by destruct (del_present k s v Hk) as (s1 & -> & _).
Qed.

Lemma release_answered m v p w x :
  answered -> env_still (name m) -> value_at (name m) (nodes w) p = Some x ->
  exists w', release fates env m p v w = (w', true) /\ reads w' = reads w /\
  forall p', p' <> p -> value_at (name m) (nodes w') p' = value_at (name m) (nodes w) p'.
Proof.
  intros Ha He (s & Hs & ->)%fmap_Some.
  destruct (command_answered p (deleteScript (name m) v) (name m) w s)
    as (s0 & w' & Hk & Hc & Hr & _ & Ho); [done..|].
  exists w'. unfold release. rewrite Hc. split; [|done]. f_equal.
  by rewrite bool_decide_eq_false_2 by apply deleteScript_reply.
Qed.

Lemma count_true ps : count (fun _ => true) ps = length ps.
Proof. induction ps as [|p ps IH]; [done|]. rewrite count_cons, IH. done. Qed.

Lemma in_range_value k ps ns :
  Forall (fun p => p < length ns)%nat ps -> Forall (fun p => is_Some (value_at k ns p)) ps.
Proof.
  intros Hin. eapply Forall_impl; [exact Hin|]. intros p Hlt. apply fmap_is_Some.
  by apply lookup_lt_is_Some.
Qed.

(** *** Options *)

Lemma NewMutex_fixed df ps nm opts :
  name (NewMutex (F:=F) df ps nm opts) = nm /\ pools (NewMutex df ps nm opts) = ps /\
  quorum (NewMutex df ps nm opts) = (length ps / 2 + 1)%nat.
Proof.
  unfold NewMutex. set (P := fun m : Mutex F => name m = nm /\ pools m = ps /\ quorum m = (length ps / 2 + 1)%nat).
  change (P (foldl (fun m o => Apply o m) (mkMutex F nm 8000000000 32 500000000 df (length ps / 2 + 1)%nat "" 0 ps) opts)).
  assert (forall m, P m -> P (foldl (fun m o => Apply o m) m opts)) as Hf; [|by apply Hf].
  induction opts as [|o opts IH]; intros m Hm; [done|]. apply IH. by destruct m, o.
Qed.
End facts.
End RedsyncFacts.


(** ** Properties *)

Module RedsyncTheorems.
Import RedsyncFacts.

(** Keep of a new mutex what its options cannot change. *)
#[local] Ltac new_mutex m Hn Hp Hq :=
  cbv zeta;
  match goal with |- context [NewMutex ?df ?ps ?nm ?opts] =>
    destruct (NewMutex_fixed df ps nm opts) as (Hn & Hp & Hq);
    generalize dependent (NewMutex df ps nm opts); intros m Hn Hp Hq
  end.

Section theorems.
Context {S F : Type} {R : Redis S} {RL : RedisLaws S}.
Context (fates : nat -> fate) (env : nat -> nat -> S -> S) (now : nat -> Z) (drift : Z -> F -> Z).
Context (default_factor : F) (ps : list nat) (nm : string) (opts : list (Option_ F)).
Implicit Types (w : World S).

(** The pools whose server has the value [v] under the mutex's name. *)
Definition holders (v : string) w : nat := count (at_node (has nm v) (nodes w)) ps.

(** C3: whatever is lost on the way, when [Lock] reports success a majority of
    the servers holds the value of this mutex, and so no other value has a
    majority, provided nobody else removed that value meanwhile. *)
Theorem lock_excludes bytes w w' m' :
  let m := NewMutex default_factor ps nm opts in
  env_keeps env nm (EncodeToString bytes) ->
  Lock fates env now drift m (inl bytes) w = (w', m', None) ->
  value m' = EncodeToString bytes /\ (length ps < 2 * holders (EncodeToString bytes) w')%nat /\
  forall v, v <> value m' -> (2 * holders v w' < length ps)%nat.
Proof.
  new_mutex m Hn Hp Hq. intros He.
  unfold Lock. cbn [genValue]. set (v := EncodeToString bytes) in *.
  destruct (lock_loop _ _ _ _ _ _ _ _ _) as [w1 [m1|]] eqn:Hl; [|done]. intros [= <- <-].
  apply lock_loop_quorum in Hl as [[u ->] Hc]; [|by rewrite Hn].
  rewrite Hn, Hp, Hq in Hc. change (holders v w1) with (count (at_node (has nm v) (nodes w1)) ps).
  pose proof (Nat.div_mod_eq (length ps) 2). pose proof (Nat.mod_upper_bound (length ps) 2).
  split; [done|]. split; [lia|]. intros v' Hv'. cbn in Hv'.
  assert (holders v' w1 + count (at_node (has nm v) (nodes w1)) ps <= length ps)%nat; [|lia].
  apply count_disjoint. intros p. unfold at_node, has. destruct (nodes w1 !! p) as [s|]; [|done].
  rewrite bool_decide_eq_true, bool_decide_eq_false. congruence.
Qed.

(** C18: no command of a mutex removes or changes the value of another mutex:
    one with another name, or one
    with the same name whose random bytes were others. *)
Theorem others_are_kept (m : Mutex F) p bytes k bytes' w p' :
  let v := EncodeToString bytes in
  let v' := EncodeToString bytes' in
  Forall is_byte bytes -> Forall is_byte bytes' -> length bytes = length bytes' ->
  env_keeps env k v' -> name m <> k \/ bytes <> bytes' ->
  at_node (has k v') (nodes w) p' = true ->
  at_node (has k v') (nodes (fst (acquire fates env m p v w))) p' = true /\
  at_node (has k v') (nodes (fst (release fates env m p v w))) p' = true /\
  forall ms, at_node (has k v') (nodes (fst (touch fates env m p v ms w))) p' = true.
Proof.
  intros v v' Hb Hb' Hl He Hneq Hp.
  assert (name m <> k \/ v <> v') as Hne.
  { destruct Hneq as [|Hneq]; [by left|]. right. intros Hv. by apply Hneq, EncodeToString_inj. }
   rewrite fst_acquire, fst_release. split_and!; [..|intros ms; rewrite fst_touch];
    (apply command_stable; [apply keeps_stable; [done|]|done]).
  - apply set_nx_keeps.
  - by apply delete_keeps.
  - by apply touch_keeps.
Qed.

(** C19: when a majority of the servers, distinct, is free, every command is
    answered, nobody interferes, the commands took less time than the lock is
    valid, the mutex expires after a millisecond at least and may try once,
    [Lock] succeeds at the first attempt. *)
Theorem lock_free_succeeds bytes w :
  let m := NewMutex default_factor ps nm opts in
  answered fates -> env_still env nm -> NoDup ps ->
  Forall (fun p => p < length (nodes w))%nat ps -> 0 < millis (expiry m) -> 0 < tries m ->
  (length ps < 2 * count (at_node (free nm) (nodes w)) ps)%nat ->
  now (3 + reads w)%nat < until_of drift m (now (1 + reads w)%nat) (now (2 + reads w)%nat) (now (reads w)) ->
  exists w' m', Lock fates env now drift m (inl bytes) w = (w', m', None) /\
  reads w' = (4 + reads w)%nat /\ value m' = EncodeToString bytes.
Proof.
  new_mutex m Hn Hp Hq. intros Ha He Hnd Hin Hms Ht Hmaj Htime.
  unfold Lock. cbn [genValue]. destruct (Z.to_nat (tries m)) as [|r] eqn:Hr; [lia|].
  cbn [lock_loop]. unfold attempt. unfold read_clock at 1.
  edestruct (each_pool_exact (fun p => acquire fates env m p (EncodeToString bytes))
    (fun x => bool_decide (x = None)) nm ps 0
    (mkWorld (nodes w) (cmds w) (1 + reads w)%nat (slept w))) as (w1 & Hloop & Hreads).
  { intros p w0 x. rewrite <- Hn. apply acquire_answered; [done|by rewrite Hn|done]. }
  { done. }
  { by apply in_range_value. }
  rewrite Hp, Hloop. cbn [read_clock nodes cmds reads slept Nat.add] in *.
  rewrite (count_ext _ (at_node (free nm) (nodes w))) by (intros; by rewrite free_value).
  rewrite Hreads. unfold in_time. rewrite Hq, (proj2 (Nat.leb_le _ _)).
  - unfold read_clock. cbn [reads]. rewrite (proj2 (Z.ltb_lt _ _)) by done.
    eexists _, _. split; [done|]. done.
  - pose proof (Nat.div_mod_eq (length ps) 2). lia.
Qed.

(** C20: when [Lock] gives up after at least one attempt, every server was sent
    the release of its value, as its last command; and wherever that command was
    executed, though the reply may have been lost and other servers may have
    been out of reach, the value is gone, provided nobody else writes it. *)
Theorem lock_failed_clean bytes w w' m' :
  let m := NewMutex default_factor ps nm opts in
  env_lacks env nm (EncodeToString bytes) -> 0 < tries m ->
  Lock fates env now drift m (inl bytes) w = (w', m', Some ErrFailed) ->
  m' = m /\ (length ps <= cmds w')%nat /\
  forall j p, ps !! j = Some p -> fates (cmds w' - length ps + j)%nat <> NotExecuted ->
  at_node (has nm (EncodeToString bytes)) (nodes w') p = false.
Proof.
  new_mutex m Hn Hp Hq. intros He Ht. unfold Lock. cbn [genValue].
  destruct (lock_loop _ _ _ _ _ _ _ _ _) as [w1 [m1|]] eqn:Hl; [done|]. intros [= <- <-].
  split; [done|]. rewrite <- Hn, <- Hp. eapply lock_loop_clean; [by rewrite Hn| |done]. lia.
Qed.

(** C22: once every server has answered, [Unlock] has removed the value from
    all of them, and reports success even if none of them had it. *)
Theorem unlock_always_succeeds (m : Mutex F) w :
  answered fates -> env_still env (name m) -> NoDup (pools m) ->
  Forall (fun p => p < length (nodes w))%nat (pools m) -> (quorum m <= length (pools m))%nat ->
  exists w', Unlock fates env m w = (w', true) /\
  forall p, p ∈ pools m -> at_node (has (name m) (value m)) (nodes w') p = false.
Proof.
  intros Ha He Hnd Hin Hq. unfold Unlock.
  edestruct (each_pool_exact (fun p => release fates env m p (value m)) (fun _ => true) (name m)
    (pools m) 0 w) as (w' & Hloop & _).
  { intros p w0 x. by apply release_answered. }
  { done. }
  { by apply in_range_value. }
  rewrite Hloop. exists w'. rewrite Nat.add_0_l. split.
  - f_equal. apply Nat.leb_le. rewrite (count_ext _ (fun _ => true)), count_true; [done|].
    intros p Hp. apply (in_range_value (name m)) in Hin.
    by destruct (proj1 (Forall_forall _ _) Hin p Hp) as [x ->].
  - intros p [j Hj]%list_elem_of_lookup_1. pose proof (release_all_clears fates env m (value m) (pools m) 0 w j p) as Hc.
    rewrite Hloop in Hc. apply Hc; [intros i q s; by rewrite He|done|by rewrite Ha].
Qed.

(** C21: [Extend] asks every server once and succeeds just when a majority of
    them holds the value and answers, so just when a majority holds it if every
    answer arrives; this for distinct servers, an expiry of a millisecond at
    least, and nobody who changes the value meanwhile. *)
Theorem extend_exact bytes w :
  let m := NewMutex default_factor ps nm opts in
  let m' := with_lock m (EncodeToString bytes) 0 in
  env_still env nm -> NoDup ps -> 0 < millis (expiry m) ->
  snd (Extend fates env m' w) =
  bool_decide (length ps < 2 * counted fates nm (EncodeToString bytes) (cmds w) ps (nodes w))%nat /\
  (answered fates -> snd (Extend fates env m' w) =
   bool_decide (length ps < 2 * holders (EncodeToString bytes) w)%nat).
Proof.
  new_mutex m Hn Hp Hq. intros He Hnd Hms.
  assert (snd (Extend fates env (with_lock m (EncodeToString bytes) 0) w) =
    bool_decide (length ps < 2 * counted fates nm (EncodeToString bytes) (cmds w) ps (nodes w))%nat) as Hext.
  { unfold Extend. cbn [pools quorum expiry with_lock value].
    pose proof (touch_all_exact fates env (with_lock m (EncodeToString bytes) 0) (EncodeToString bytes)
      (millis (expiry m)) ps 0 w) as Hc. cbn [name with_lock] in Hc. rewrite Hn in Hc. specialize (Hc He Hms (not_ERR _) Hnd).
    rewrite Hp. destruct (each_pool _ ps 0 w) as [w' n]. cbn [snd] in Hc |- *. subst n. rewrite Hq, Nat.add_0_l.
    pose proof (Nat.div_mod_eq (length ps) 2). pose proof (Nat.mod_upper_bound (length ps) 2).
    case_bool_decide; [apply Nat.leb_le|apply Nat.leb_gt]; lia. }
  split; [done|]. intros Ha. by rewrite Hext, counted_answered.
Qed.
End theorems.

(** Three servers in memory, a clock that ticks in nanoseconds. *)
Definition demo_env : nat -> nat -> mem -> mem := fun _ _ s => s.
Definition demo_drift (e : Z) (_ : unit) : Z := e / 100.
Definition demo_world : World mem := mkWorld [∅; ∅; ∅] 0 0 0.
Definition demo_pools : list nat := [0; 1; 2]%nat.
Definition demo_bytes : list Z := repeat 7 32.
Definition demo_mutex : Mutex unit := NewMutex tt demo_pools "k" [SetTries 2].
Definition demo_lock : World mem * Mutex unit * option lock_error :=
  Lock (fun _ => Answered) demo_env Z.of_nat demo_drift demo_mutex (inl demo_bytes) demo_world.
(** Two of the servers are taken by another mutex. *)
Definition demo_taken : World mem :=
  mkWorld [<["k" := ("other"%string, 1000)]> ∅; <["k" := ("other"%string, 1000)]> ∅; ∅] 0 0 0.
Lemma lock_excludes_witness :
  snd demo_lock = None /\ (3 < 2 * holders demo_pools "k" (EncodeToString demo_bytes) (fst (fst demo_lock)))%nat.
Proof.
  split; [vm_compute; reflexivity|].
  apply (lock_excludes (fun _ => Answered) demo_env Z.of_nat demo_drift tt demo_pools "k" [SetTries 2]
    demo_bytes demo_world (fst (fst demo_lock)) (snd (fst demo_lock))).
  - intros i p s Hs. exact Hs.
  - vm_compute. reflexivity.
Defined.

Lemma others_are_kept_witness :
  at_node (has "k" (EncodeToString [1])) (nodes (fst (release (fun _ => Answered) demo_env demo_mutex 0
    (EncodeToString [2]) (mkWorld [<["k" := (EncodeToString [1], 1000)]> (∅ : mem)] 0 0 0)))) 0 = true.
Proof.
  apply (others_are_kept (fun _ => Answered) demo_env demo_mutex 0 [2] "k" [1]
    (mkWorld [<["k" := (EncodeToString [1], 1000)]> (∅ : mem)] 0 0 0) 0%nat).
  - repeat constructor; discriminate.
  - repeat constructor; discriminate.
  - reflexivity.
  - intros i p s Hs. exact Hs.
  - right. discriminate.
  - vm_compute. reflexivity.
Defined.

Lemma lock_free_succeeds_witness :
  exists w' m', Lock (fun _ => Answered) demo_env Z.of_nat demo_drift demo_mutex (inl demo_bytes)
    demo_world = (w', m', None).
Proof.
  destruct (lock_free_succeeds (fun _ => Answered) demo_env Z.of_nat demo_drift tt demo_pools "k"
    [SetTries 2] demo_bytes demo_world) as (w' & m' & H & _).
  - intros i. reflexivity.
  - intros i p s. reflexivity.
  - apply (bool_decide_unpack _). vm_compute. exact I.
  - repeat constructor.
  - vm_compute. reflexivity.
  - vm_compute. reflexivity.
  - vm_compute. lia.
  - vm_compute. reflexivity.
  - exists w', m'. exact H.
Defined.

(** The first server is out of reach: an attempt is three commands to take the
    lock and three to release it. *)
Definition demo_fates (i : nat) : fate := if (i mod 3 =? 0)%nat then NotExecuted else Answered.
Definition demo_refused : World mem * Mutex unit * option lock_error :=
  Lock demo_fates demo_env Z.of_nat demo_drift demo_mutex (inl demo_bytes) demo_taken.

Lemma lock_failed_clean_witness :
  snd demo_refused = Some ErrFailed /\
  at_node (has "k" (EncodeToString demo_bytes)) (nodes (fst (fst demo_refused))) 2 = false.
Proof.
  split; [vm_compute; reflexivity|].
  apply (lock_failed_clean demo_fates demo_env Z.of_nat demo_drift tt demo_pools "k" [SetTries 2]
    demo_bytes demo_taken (fst (fst demo_refused)) (snd (fst demo_refused))) with (j := 2%nat).
  - intros i p s Hs. exact Hs.
  - vm_compute. reflexivity.
  - vm_compute. reflexivity.
  - reflexivity.
  - vm_compute. discriminate.
Defined.

Lemma unlock_always_succeeds_witness :
  exists w', Unlock (fun _ => Answered) demo_env demo_mutex demo_world = (w', true).
Proof.
  destruct (unlock_always_succeeds (fun _ => Answered) demo_env demo_mutex demo_world)
    as (w' & H & _).
  - intros i. reflexivity.
  - intros i p s. reflexivity.
  - apply (bool_decide_unpack _). vm_compute. exact I.
  - repeat constructor.
  - vm_compute. lia.
  - exists w'. exact H.
Defined.

(** All three hold the value; one answer is lost. *)
Lemma extend_exact_witness :
  snd (Extend demo_fates demo_env (with_lock demo_mutex (EncodeToString demo_bytes) 0) (fst (fst demo_lock))) = true.
Proof.
  etransitivity; [exact (proj1 (extend_exact demo_fates demo_env tt demo_pools "k" [SetTries 2] demo_bytes
    (fst (fst demo_lock)) ltac:(intros i p s; reflexivity) ltac:(apply (bool_decide_unpack _); vm_compute; exact I)
    ltac:(vm_compute; reflexivity)))|].
  vm_compute. reflexivity.
Defined.
End RedsyncTheorems.
