(* ===== verification/RedisLock.v ===== *)
(** * The local and distributed lock ([src/components/lock/redis.go])

    [RedisLock] puts a local mutex [sl] and a flag [isLock] in front of the
    distributed mutex. Goroutines call [Lock] and [Unlock] concurrently, so
    both are a step relation here: one step per statement that touches shared
    state. What the distributed mutex answers is a choice of the step; its own
    behaviour is in the file Redsync. *)

From S2P Require Import Prelude Redsync.
From stdpp Require Import functions.
Local Open Scope Z_scope.

(** ** Configuration *)

Definition MAX_REDIS_LOCK_EXPIRY : Z := 1.
Definition MAX_TRIES : Z := 3.
Definition MAX_RETRY_DELAY : Z := 50.
Definition MAX_TRY_GET_LOCK : Z := 200.
Definition LOCK_STAT : Z := 1.
Definition UNLOCK_STAT : Z := 0.

Record RedisLockConfig (F : Type) := mkLockConfig {
  Pools : list nat;
  LockName : string;
  Expiry : Z;
  Tries : Z;
  RetryDelay : Z;
  DriftFactor : F;
  MaxTryLock : Z
}.
Arguments mkLockConfig {F}.
Arguments Pools {F}.
Arguments LockName {F}.
Arguments Expiry {F}.
Arguments Tries {F}.
Arguments RetryDelay {F}.
Arguments DriftFactor {F}.
Arguments MaxTryLock {F}.

(** The fields of a [RedisLock] that do not change: [ttl] and [rl]. *)
Record RedisLock (F : Type) := mkRedisLock { ttl : Z; rl : Mutex F }.
Arguments mkRedisLock {F}.
Arguments ttl {F}.
Arguments rl {F}.

Definition limited (v max default : Z) : Z := if (max <? v) || (v =? 0) then default else v.

(** [zero] decides whether the drift factor is the float 0. *)
Definition NewRedsync {F} (zero : F -> bool) (default_factor : F) (c : RedisLockConfig F) : RedisLock F :=
  let expiry := limited (Expiry c) MAX_REDIS_LOCK_EXPIRY MAX_REDIS_LOCK_EXPIRY in
  let tries := limited (Tries c) MAX_TRIES MAX_TRIES in
  let delay := limited (RetryDelay c) MAX_RETRY_DELAY MAX_RETRY_DELAY in
  let opts := [SetExpiry (i64 (expiry * 1000000000)); SetTries tries;
               SetRetryDelay (i64 (delay * 1000000))] in
  let opts := if zero (DriftFactor c) then opts else (opts ++ [SetDriftFactor (DriftFactor c)])%list in
  let ttl := limited (MaxTryLock c) MAX_TRY_GET_LOCK MAX_RETRY_DELAY in
  mkRedisLock ttl (NewMutex default_factor (Pools c) (LockName c) opts).

(** ** Goroutines *)

(** Where a goroutine stands: at the statement it runs next. *)
Inductive phase :=
| Idle              (* outside of both methods, without the lock *)
| AtLocal           (* Lock: r.sl.Lock(), inside f *)
| AtStoreFlag       (* atomic.StoreInt32(&r.isLock, LOCK_STAT) *)
| AtStoreStat       (* atomic.StoreInt32(&lockStat, LOCK_STAT); t <- 1 *)
| AtSelect          (* the select, with a value in the channel *)
| AtRedis           (* r.rl.Lock() *)
| AtFailUnlock      (* the error branch: r.sl.Unlock() *)
| AtFailClear       (* atomic.StoreInt32(&r.isLock, UNLOCK_STAT) *)
| AtLateUnlock      (* the time-out branch: r.sl.Unlock() *)
| AtLateClear       (* atomic.StoreInt32(&r.isLock, UNLOCK_STAT) *)
| Holding           (* Lock returned nil *)
| AtTestFlag        (* Unlock: if r.isLock == LOCK_STAT *)
| AtUnlock          (* r.sl.Unlock() *)
| AtClearFlag       (* atomic.StoreInt32(&r.isLock, UNLOCK_STAT) *)
| AtRedisUnlock     (* r.rl.Unlock() *)
| Crashed.          (* the process has died: sync: unlock of unlocked mutex *)

#[global] Instance phase_eq_dec : EqDecision phase.
Proof. solve_decision. Defined.

Record State := mkState { sl : bool; isLock : Z; at_ : nat -> phase }.

Definition start : State := mkState false UNLOCK_STAT (fun _ => Idle).

(** What a step depends on besides the state: the calls goroutines make, which
    ready case [select] takes, and what [rl.Lock] returns. *)
Inductive choice := CallLock | CallUnlock | Run | TimedOut | RedisFails.

Definition move (g : nat) (p : phase) (s : State) : State := mkState (sl s) (isLock s) (<[g := p]> (at_ s)).
Definition store_flag (v : Z) (s : State) : State := mkState (sl s) v (at_ s).

(** [r.sl.Unlock()], then on to [p]. To unlock a mutex that is not locked is a
    fatal error: it ends the process, and with it every goroutine. *)
Definition unlock_local (g : nat) (p : phase) (s : State) : State :=
  if sl s then mkState false (isLock s) (<[g := p]> (at_ s)) else mkState false (isLock s) (fun _ => Crashed).

(** One step of goroutine [g]; [None] when it cannot move. *)
Definition next (g : nat) (c : choice) (s : State) : option State :=
  match at_ s g, c with
  | Idle, CallLock => Some (move g AtLocal s)
  | Idle, CallUnlock | Holding, CallUnlock => Some (move g AtTestFlag s)
  | AtLocal, Run =>
      if sl s then None else Some (mkState true (isLock s) (<[g := AtStoreFlag]> (at_ s)))
  | AtStoreFlag, Run => Some (move g AtStoreStat (store_flag LOCK_STAT s))
  | AtStoreStat, Run => Some (move g AtSelect s)
  | AtSelect, Run => Some (move g AtRedis s)
  | AtSelect, TimedOut => Some (move g AtLateUnlock s)
  | AtRedis, Run => Some (move g Holding s)
  | AtRedis, RedisFails => Some (move g AtFailUnlock s)
  | AtFailUnlock, Run => Some (unlock_local g AtFailClear s)
  | AtFailClear, Run => Some (move g Idle (store_flag UNLOCK_STAT s))
  | AtLateUnlock, Run => Some (unlock_local g AtLateClear s)
  | AtLateClear, Run => Some (move g Idle (store_flag UNLOCK_STAT s))
  | AtTestFlag, Run =>
      if isLock s =? LOCK_STAT then Some (move g AtUnlock s) else Some (move g Idle s)
  | AtUnlock, Run => Some (unlock_local g AtClearFlag s)
  | AtClearFlag, Run => Some (move g AtRedisUnlock (store_flag UNLOCK_STAT s))
  | AtRedisUnlock, Run => Some (move g Idle s)
  | _, _ => None
  end.

(** A schedule. *)
Fixpoint run_schedule (sched : list (nat * choice)) (s : State) : option State :=
  match sched with
  | [] => Some s
  | (g, c) :: sched => s ← next g c s; run_schedule sched s
  end.

(** Steps in which only a goroutine that holds the lock calls [Unlock]. *)
Inductive step (s : State) : State -> Prop :=
| step_next g c s' :
    (c = CallUnlock -> at_ s g = Holding) -> next g c s = Some s' -> step s s'.

(** ** Facts *)

Module RedisLockFacts.

(** The goroutine has the local mutex. *)
Definition owner (p : phase) : bool :=
  match p with
  | AtStoreFlag | AtStoreStat | AtSelect | AtRedis | AtFailUnlock | AtLateUnlock
  | Holding | AtTestFlag | AtUnlock => true
  | _ => false
  end.

Record inv (s : State) : Prop := {
  inv_unique : forall g g', owner (at_ s g) = true -> owner (at_ s g') = true -> g = g';
  inv_locked : forall g, owner (at_ s g) = true -> sl s = true;
  inv_alive : forall g, at_ s g <> Crashed
}.

Lemma inv_start : inv start.
Proof. by constructor. Qed.

(** A goroutine that stays an owner, or stays none. *)
Lemma inv_move g p v s :
  inv s -> owner p = owner (at_ s g) -> p <> Crashed -> inv (mkState (sl s) v (<[g := p]> (at_ s))).
Proof.
  intros [Hu Hl Ha] Hp Hc.
  assert (forall g', owner (<[g:=p]> (at_ s) g') = owner (at_ s g')) as Ho.
  { intros g'. destruct (decide (g = g')) as [<-|]; [by rewrite fn_lookup_insert|].
    by rewrite fn_lookup_insert_ne. }
  constructor; cbn.
  - intros g1 g2. rewrite !Ho. apply Hu.
  - intros g1. rewrite Ho. apply Hl.
  - intros g1. destruct (decide (g = g1)) as [<-|]; [by rewrite fn_lookup_insert|].
    by rewrite fn_lookup_insert_ne.
Qed.

(** A goroutine that gives the local mutex up or leaks it. *)
Lemma inv_leave g p b v s :
  inv s -> owner (at_ s g) = true -> owner p = false -> p <> Crashed ->
  inv (mkState b v (<[g := p]> (at_ s))).
Proof.
  intros [Hu Hl Ha] Hg Hp Hc.
  assert (forall g', owner (<[g:=p]> (at_ s) g') = false) as Ho.
  { intros g'. destruct (decide (g = g')) as [<-|Hne]; [by rewrite fn_lookup_insert|].
    rewrite fn_lookup_insert_ne by done. destruct (owner (at_ s g')) eqn:E; [|done].
    exfalso. apply Hne. by apply Hu. }
  constructor; cbn.
  - intros g1 g2. by rewrite Ho.
  - intros g1. by rewrite Ho.
  - intros g1. destruct (decide (g = g1)) as [<-|]; [by rewrite fn_lookup_insert|].
    by rewrite fn_lookup_insert_ne.
Qed.

Lemma inv_enter g v s :
  inv s -> sl s = false -> inv (mkState true v (<[g := AtStoreFlag]> (at_ s))).
Proof.
  intros [Hu Hl Ha] Hs.
  assert (forall g', g <> g' -> owner (<[g:=AtStoreFlag]> (at_ s) g') = false) as Ho.
  { intros g' Hne. rewrite fn_lookup_insert_ne by done.
    destruct (owner (at_ s g')) eqn:E; [|done]. apply Hl in E. congruence. }
  constructor; cbn; [|done|].
  - intros g1 g2 H1 H2. destruct (decide (g = g1)) as [<-|Hn1]; [|by rewrite Ho in H1].
    destruct (decide (g = g2)) as [<-|Hn2]; [done|by rewrite Ho in H2].
  - intros g1. destruct (decide (g = g1)) as [<-|]; [by rewrite fn_lookup_insert|].
    by rewrite fn_lookup_insert_ne.
Qed.

Lemma inv_step s s' : inv s -> step s s' -> inv s'.
Proof.
  intros Hi [g c s1 Hcall Hn]. unfold next in Hn.
  destruct (at_ s g) eqn:Hg, c; try discriminate Hn;
    try (specialize (Hcall eq_refl); discriminate Hcall).
  all: try (injection Hn as <-; apply (inv_move g _ _ s); [done|by rewrite Hg|done]).
  all: try (injection Hn as <-; unfold unlock_local; rewrite (inv_locked _ Hi g) by (by rewrite Hg);
            apply (inv_leave g _ _ _ s); [done|by rewrite Hg|done|done]).
  - destruct (sl s) eqn:Hs; [done|]. injection Hn as <-. by apply inv_enter.
  - destruct (isLock s =? LOCK_STAT); injection Hn as <-.
    + apply (inv_move g _ _ s); [done|by rewrite Hg|done].
    + apply (inv_leave g _ _ _ s); [done|by rewrite Hg|done|done].
Qed.

Lemma inv_reachable s : rtc step start s -> inv s.
Proof.
  assert (forall s0 s1, rtc step s0 s1 -> inv s0 -> inv s1) as H.
  { induction 1; [done|]. intros. by eauto using inv_step. }
  intros Hr. eapply H; [done|apply inv_start].
Qed.

(** The local mutex is taken and nobody has it. *)
Definition leaked (s : State) : Prop := sl s = true /\ forall g, owner (at_ s g) = false.

Lemma leaked_step s s' : leaked s -> step s s' -> leaked s'.
Proof.
  intros [Hs Ho] [g c s1 Hcall Hn]. unfold next in Hn. specialize (Ho g) as Hg.
  destruct (at_ s g) eqn:Eg, c; try discriminate;
    try (specialize (Hcall eq_refl); discriminate Hcall).
  all: try (injection Hn as <-; split; [done|]; intros g'; cbn;
            destruct (decide (g = g')) as [<-|];
            [by rewrite fn_lookup_insert|rewrite fn_lookup_insert_ne by done; apply Ho]).
  by rewrite Hs in Hn.
Qed.

Lemma leaked_forever s s' : leaked s -> rtc step s s' -> leaked s'.
Proof. intros Hl Hr. revert Hl. induction Hr; [done|]. intros. by eauto using leaked_step. Qed.

(** A schedule whose goroutines call [Unlock] only while they hold the lock. *)
Fixpoint disciplined (sched : list (nat * choice)) (s : State) : bool :=
  match sched with
  | [] => true
  | (g, c) :: sched =>
      match c with CallUnlock => bool_decide (at_ s g = Holding) | _ => true end &&
      match next g c s with Some s => disciplined sched s | None => false end
  end.

Lemma run_schedule_steps sched s s' :
  run_schedule sched s = Some s' -> disciplined sched s = true -> rtc step s s'.
Proof.
  revert s. induction sched as [|[g c] sched IH]; intros s; cbn; [by intros [= <-]|].
  destruct (next g c s) as [s1|] eqn:Hn; cbn; [|done].
  intros Hr [Hc Hd]%andb_true_iff. eapply rtc_l; [|by apply IH].
  apply (step_next _ g c); [|done]. intros ->. by apply bool_decide_eq_true in Hc.
Qed.
End RedisLockFacts.

(** ** Properties *)

Module RedisLockTheorems.
Import RedisLockFacts.

(** The limits of the configuration: with fields that are not negative the
    mutex expires after one second, makes one to three attempts, at most 50 ms
    apart, and the wait is at most 200 ms, and exactly 50 ms when the
    configuration asks for more. *)
Theorem lock_config_limits {F} (zero : F -> bool) df (c : RedisLockConfig F) :
  0 <= Expiry c -> 0 <= Tries c -> 0 <= RetryDelay c -> 0 <= MaxTryLock c ->
  let l := NewRedsync zero df c in
  expiry (rl l) = 1000000000 /\ 1 <= tries (rl l) <= 3 /\ 1000000 <= delay (rl l) <= 50000000 /\
  1 <= ttl l <= 200 /\ (200 < MaxTryLock c -> ttl l = 50) /\
  factor (rl l) = (if zero (DriftFactor c) then df else DriftFactor c) /\
  quorum (rl l) = (length (Pools c) / 2 + 1)%nat.
Proof.
  intros He Ht Hd Hm. cbv zeta. unfold NewRedsync.
  assert (forall v max default, 0 <= v -> 1 <= default <= max ->
    1 <= limited v max default <= max /\ (max < v -> limited v max default = default)) as Hlim.
  { intros v max default Hv Hdef. unfold limited. destruct ((max <? v) || (v =? 0)) eqn:E; lia. }
  destruct (Hlim (Expiry c) MAX_REDIS_LOCK_EXPIRY MAX_REDIS_LOCK_EXPIRY) as [H1 _];
    [done|by unfold MAX_REDIS_LOCK_EXPIRY|].
  destruct (Hlim (Tries c) MAX_TRIES MAX_TRIES) as [H2 _]; [done|by unfold MAX_TRIES|].
  destruct (Hlim (RetryDelay c) MAX_RETRY_DELAY MAX_RETRY_DELAY) as [H3 _];
    [done|by unfold MAX_RETRY_DELAY|].
  destruct (Hlim (MaxTryLock c) MAX_TRY_GET_LOCK MAX_RETRY_DELAY) as [H4 H5]; [done| |].
  { by unfold MAX_RETRY_DELAY, MAX_TRY_GET_LOCK. }
  unfold MAX_REDIS_LOCK_EXPIRY, MAX_TRIES, MAX_RETRY_DELAY, MAX_TRY_GET_LOCK in *.
  rewrite !i64_id by (unfold in_int64; lia).
  destruct (zero (DriftFactor c)); cbn; split_and!; try done; lia.
Qed.

(** C10: while only the holder calls [Unlock], at most one goroutine holds the
    lock, and the process never dies of unlocking the local mutex when it is not
    locked. *)
Theorem one_holder s g g' :
  rtc step start s ->
  (at_ s g = Holding -> at_ s g' = Holding -> g = g') /\ at_ s g <> Crashed.
Proof.
  intros Hi%inv_reachable. split; [|apply (inv_alive _ Hi)].
  intros Hg Hg'. apply (inv_unique _ Hi); [by rewrite Hg|by rewrite Hg'].
Qed.

(** C33: an unlock can be lost. [Unlock] and the error path of [Lock] release
    the local mutex before they clear the flag, so they can clear the flag of
    the next owner, whose own [Unlock] then does nothing: such a state can be
    reached, and from it on no goroutine gets the lock again. *)
Theorem unlock_can_be_lost :
  exists s, rtc step start s /\ forall s', rtc step s s' -> forall g, at_ s' g <> Holding.
Proof.
  assert (exists s, run_schedule
    ([(0%nat, CallLock)] ++ repeat (0%nat, Run) 5 ++
     [(0%nat, CallUnlock); (0%nat, Run); (0%nat, Run);        (* 0 has released sl *)
      (1%nat, CallLock); (1%nat, Run); (1%nat, Run);          (* 1 has set the flag *)
      (0%nat, Run); (0%nat, Run)] ++                          (* 0 clears it *)
     repeat (1%nat, Run) 3 ++ [(1%nat, CallUnlock); (1%nat, Run)])%list start = Some s /\
    sl s = true /\ at_ s 0%nat = Idle /\ at_ s 1%nat = Idle /\
    forall g, (1 < g)%nat -> at_ s g = Idle) as (s & Hrun & Hs & H0 & H1 & Hrest).
  { eexists. split; [reflexivity|]. cbn. split_and!; try reflexivity.
    intros g Hg. rewrite !fn_lookup_insert_ne by lia. done. }
  exists s. split; [by eapply run_schedule_steps|].
  intros s' Hr g Hh. assert (leaked s) as Hl.
  { split; [done|]. intros [|[|g']]; [by rewrite H0|by rewrite H1|rewrite Hrest by lia; done]. }
  destruct (leaked_forever _ _ Hl Hr) as [_ Ho]. specialize (Ho g). by rewrite Hh in Ho.
Qed.

Lemma lock_config_limits_witness :
  ttl (NewRedsync (fun b : bool => b) true (mkLockConfig [0%nat] "k" 5 0 0 true 500)) = 50.
Proof.
  apply (lock_config_limits (fun b : bool => b) true (mkLockConfig [0%nat] "k" 5 0 0 true 500));
    discriminate || reflexivity.
Defined.

(** The first goroutine has the lock and the second waits for the local mutex:
    nobody else holds the lock. *)
Definition one_waits : list (nat * choice) :=
  ([(0, CallLock)] ++ repeat (0, Run) 5 ++ [(1, CallLock)])%list%nat.

Lemma one_holder_witness :
  exists s, run_schedule one_waits start = Some s /\ at_ s 0%nat = Holding /\ at_ s 1%nat = AtLocal /\
    forall g, g <> 0%nat -> at_ s g <> Holding.
Proof.
  destruct (run_schedule one_waits start) as [s|] eqn:Hrun; [|discriminate Hrun].
  exists s. split; [reflexivity|]. assert (rtc step start s) as Hr by (by apply (run_schedule_steps one_waits)).
  assert (at_ s 0%nat = Holding /\ at_ s 1%nat = AtLocal) as [H0 H1] by (injection Hrun as <-; split; reflexivity).
  split; [exact H0|split; [exact H1|]]. intros g Hg Hh. exact (Hg (proj1 (one_holder s g 0 Hr) Hh H0)).
Defined.
End RedisLockTheorems.
