(* ===== verification/EtcdListen.v ===== *)
(** * Watching services in etcd ([src/util/etcd_listen])

    Groups of services to watch are registered under an alias; changes that
    etcd reports are kept per watched prefix, and every change of a prefix
    exports the matching servers of each group that watches it. The package's
    global variables are the record [State]; each exported function and each
    callback is one step on it. Decoding JSON, the semver library and the etcd
    client are parameters; maps are visited in any order ([RangeOrder]). *)

From S2P Require Import Prelude GoStrings.

(** ** Data *)

Record WatchServerInfo := mkWatch { WatchName : string; WatchVersion : string }.
Record WriteServerInfo := mkWrite { Serverkey : string; WriteIp : string; WritePort : Z }.

(** [Handles] and [Metadata] hold any JSON, here as text. *)
Record nodeInfo := mkNodeInfo {
  NodeId : string; Handles : option string; Address : string; Port : Z;
  Metadata : option string; Ip : string; Version : string
}.

#[global] Instance WatchServerInfo_eq_dec : EqDecision WatchServerInfo.
Proof. solve_decision. Defined.
#[global] Instance WriteServerInfo_eq_dec : EqDecision WriteServerInfo.
Proof. solve_decision. Defined.
#[global] Instance nodeInfo_eq_dec : EqDecision nodeInfo.
Proof. solve_decision. Defined.

(** What a group exports: the servers of each service name. *)
Abbreviation Output := (gmap string (list WriteServerInfo)).

(** The package variables. [etcdw] is nil or the keys of its [closeHandler];
    [lsio] is nil or the calls of [Export] so far. *)
Record State := mkState {
  outputFileHasKeys : gmap string (gmap string WatchServerInfo);
  namesWithOutputFile : gmap string (gmap string (list string));
  outputFileMap : gmap string Output;
  etcdSettings : gmap string (gmap string nodeInfo);
  etcdw : option (gset string);
  lsio : option (list (string * Output))
}.

Definition with_keys (k : gmap string (gmap string WatchServerInfo)) (s : State) : State :=
  mkState k (namesWithOutputFile s) (outputFileMap s) (etcdSettings s) (etcdw s) (lsio s).
Definition with_names (n : gmap string (gmap string (list string))) (s : State) : State :=
  mkState (outputFileHasKeys s) n (outputFileMap s) (etcdSettings s) (etcdw s) (lsio s).
Definition with_output (o : gmap string Output) (s : State) : State :=
  mkState (outputFileHasKeys s) (namesWithOutputFile s) o (etcdSettings s) (etcdw s) (lsio s).
Definition with_settings (e : gmap string (gmap string nodeInfo)) (s : State) : State :=
  mkState (outputFileHasKeys s) (namesWithOutputFile s) (outputFileMap s) e (etcdw s) (lsio s).
Definition with_etcdw (w : option (gset string)) (s : State) : State :=
  mkState (outputFileHasKeys s) (namesWithOutputFile s) (outputFileMap s) (etcdSettings s) w (lsio s).
Definition with_lsio (l : option (list (string * Output))) (s : State) : State :=
  mkState (outputFileHasKeys s) (namesWithOutputFile s) (outputFileMap s) (etcdSettings s) (etcdw s) l.

Definition init : State := mkState ∅ ∅ ∅ ∅ None None.

(** Go's [m[k]] for a map of maps: a missing map reads as an empty one. *)
Definition inner {A} (m : gmap string (gmap string A)) (k : string) : gmap string A := default ∅ (m !! k).

(** [util.Contains] *)
Fixpoint contains_from (index : Z) (l : list string) (s : string) : Z :=
  match l with
  | [] => -1
  | value :: l => if String.eqb value s then index else contains_from (index + 1) l s
  end.
Definition util_Contains (l : list string) (s : string) : Z := contains_from 0 l s.

(** ** The watcher ([etcd_watcher.go]) *)

(** [AddWatch] and [RemoveWatch] on the keys of [closeHandler]. *)
Definition AddWatch (w : gset string) (key : string) : gset string * bool :=
  if decide (key ∈ w) then (w, false) else ({[key]} ∪ w, true).
Definition RemoveWatch (w : gset string) (key : string) : gset string * bool :=
  if decide (key ∈ w) then (w ∖ {[key]}, true) else (w, false).
Definition ClearWatch (w : gset string) : gset string := ∅.

(** ** Groups ([etcd_listen.go]) *)

Section listen.
Context {RO : RangeOrder} {version : Type}.
(** [json.Unmarshal] into a [nodeInfo]; [semver.Parse] and [ParseRange]. *)
Context (Unmarshal : string -> option nodeInfo)
        (Parse : string -> option version) (ParseRange : string -> option (version -> bool)).

(** The body of the loop of [AddGroupWatchs]. *)
Definition add_name (outputalias : string) (names : gmap string (gmap string (list string)))
    (entry : string * WatchServerInfo) : gmap string (gmap string (list string)) :=
  let '(sname, eachWatch) := entry in
  let files := inner names (WatchName eachWatch) in
  <[WatchName eachWatch := <[outputalias := (default [] (files !! outputalias) ++ [sname])%list]> files]>
    names.

Definition AddGroupWatchs (wsi : gmap string WatchServerInfo) (outputalias : string) (s : State)
    : State * option string :=
  match outputFileHasKeys s !! outputalias with
  | Some _ => (s, Some ("already watched group ：" +:+ outputalias))
  | None =>
      let s := with_keys (<[outputalias := wsi]> (outputFileHasKeys s)) s in
      let s := with_names (foldl (add_name outputalias) (namesWithOutputFile s) (range wsi)) s in
      match outputFileMap s !! outputalias with
      | Some _ => (s, None)
      | None => (with_output (<[outputalias := ∅]> (outputFileMap s)) s, None)
      end
  end.

(** [append(filekeyslist[:0], filekeyslist[snameindex+1:]...)] for the group's
    list, and the deletion of lists and maps that became empty. *)
Definition drop_name (outputalias : string) (entry : string * WatchServerInfo)
    (names : gmap string (gmap string (list string))) : gmap string (gmap string (list string)) :=
  let '(sname, keyandversion) := entry in
  let name := WatchName keyandversion in
  let names :=
    match names !! name ≫= (fun v => v !! outputalias) with
    | Some filekeyslist =>
        let snameindex := util_Contains filekeyslist sname in
        if decide (snameindex = -1)%Z then names
        else <[name := <[outputalias := drop (Z.to_nat (snameindex + 1)) filekeyslist]>
                         (inner names name)]> names
    | None => names
    end in
  match default [] (inner names name !! outputalias) with
  | [] => match names !! name with
          | Some files => <[name := delete outputalias files]> names
          | None => names
          end
  | _ => names
  end.

Fixpoint empty_loop (outputalias : string) (entries : list (string * WatchServerInfo)) (s : State)
    : outcome State :=
  match entries with
  | [] => Ret s
  | entry :: entries =>
      let name := WatchName (snd entry) in
      let s := with_names (drop_name outputalias entry (namesWithOutputFile s)) s in
      if decide (inner (namesWithOutputFile s) name = ∅) then
        match etcdw s with
        | None => Panic NilDereference
        | Some w =>
            let s := with_etcdw (Some (fst (RemoveWatch w name))) s in
            empty_loop outputalias entries (with_names (delete name (namesWithOutputFile s)) s)
        end
      else empty_loop outputalias entries s
  end.

Definition EmptyGroupWatchs (outputalias : string) (s : State) : outcome State :=
  let s := with_output (delete outputalias (outputFileMap s)) s in
  match outputFileHasKeys s !! outputalias with
  | None => Ret s
  | Some groupWatchs =>
      let s := with_keys (delete outputalias (outputFileHasKeys s)) s in
      empty_loop outputalias (range groupWatchs) s
  end.

(** [ReloadEtcdWatch], and [Start] up to it; [client] says whether
    [clientv3.New] gave a client. *)
Definition ReloadEtcdWatch (s : State) : State :=
  match etcdw s with
  | None => s
  | Some w => with_etcdw (Some (foldl (fun w e => fst (AddWatch w (fst e))) w
                                      (range (namesWithOutputFile s)))) s
  end.
Definition Start (client : bool) (s : State) : State :=
  let s := with_lsio (Some (default [] (lsio s))) s in
  if client then ReloadEtcdWatch (with_etcdw (Some ∅) s) else with_etcdw None s.

(** ** Changes *)

Definition tiggerChangeWatchKeyValue (watchkey key value : string) (s : State) : State :=
  let e := etcdSettings s in
  if String.eqb key "" then with_settings (delete watchkey e) s
  else if String.eqb value "" then
    match e !! watchkey with
    | None => s
    | Some nodes =>
        match nodes !! key with
        | None => s
        | Some _ =>
            let nodes := delete key nodes in
            if decide (nodes = ∅) then with_settings (delete watchkey e) s
            else with_settings (<[watchkey := nodes]> e) s
        end
    end
  else
    let e := match e !! watchkey with Some _ => e | None => <[watchkey := ∅]> e end in
    match Unmarshal value with
    | Some ni => with_settings (<[watchkey := <[key := ni]> (inner e watchkey)]> e) s
    | None => with_settings e s
    end.

(** The servers of [nodes] whose version is in the range, as visited. *)
Definition in_range (range_text : string) (ni : nodeInfo) : bool :=
  match Parse (Version ni) with
  | None => false
  | Some vA => match ParseRange range_text with None => false | Some expectedRange => expectedRange vA end
  end.
Definition to_write (entry : string * nodeInfo) : WriteServerInfo :=
  mkWrite (fst entry) (Ip (snd entry)) (Port (snd entry)).
Definition servers (range_text : string) (nodes : gmap string nodeInfo) : list WriteServerInfo :=
  map to_write (List.filter (fun e => in_range range_text (snd e)) (range nodes)).

(** The inner loop: the output of group [eachfile]. *)
Definition refresh_name (s : State) (eachfile : string) (out : Output) (namekey : string) : Output :=
  match outputFileHasKeys s !! eachfile with
  | None => out
  | Some watches =>
      match watches !! namekey with
      | None => out
      | Some fconfig =>
          let out := <[namekey := []]> (delete namekey out) in
          match etcdSettings s !! WatchName fconfig with
          | Some servernodes => <[namekey := servers (WatchVersion fconfig) servernodes]> out
          | None => out
          end
      end
  end.

Fixpoint export_loop (entries : list (string * list string)) (s : State) : outcome State :=
  match entries with
  | [] => Ret s
  | (eachfile, namekeys) :: entries =>
      let out := foldl (refresh_name s eachfile) (default ∅ (outputFileMap s !! eachfile)) namekeys in
      let s := with_output (<[eachfile := out]> (outputFileMap s)) s in
      match lsio s with
      | None => Panic NilDereference
      | Some calls => export_loop entries (with_lsio (Some (calls ++ [(eachfile, out)])%list) s)
      end
  end.

Definition tiggerChangesWatchKey (watchkey : string) (s : State) : outcome State :=
  match namesWithOutputFile s !! watchkey with
  | None => Ret s
  | Some files => export_loop (range files) s
  end.

Fixpoint reload_loop (keys : list string) (s : State) : outcome State :=
  match keys with
  | [] => Ret s
  | key :: keys => s ← tiggerChangesWatchKey key s; reload_loop keys s
  end.
Definition ReloadExport (s : State) : outcome State :=
  reload_loop (range (namesWithOutputFile s)).*1 s.

(** *** The callbacks ([ListenerSC]) and what [watch] calls them with *)

Inductive event :=
| Set_ (key value : string)
| SetOk
| Create (key value : string)
| Modify (key value : string)
| Delete (key : string)
| Empty.

Definition handle (watchkey : string) (ev : event) (s : State) : outcome State :=
  match ev with
  | Set_ key value => Ret (tiggerChangeWatchKeyValue watchkey key value s)
  | SetOk => tiggerChangesWatchKey watchkey s
  | Create key value | Modify key value =>
      tiggerChangesWatchKey watchkey (tiggerChangeWatchKeyValue watchkey key value s)
  | Delete key => tiggerChangesWatchKey watchkey (tiggerChangeWatchKeyValue watchkey key "" s)
  | Empty => tiggerChangesWatchKey watchkey (tiggerChangeWatchKeyValue watchkey "" "" s)
  end.

Fixpoint handle_all (watchkey : string) (evs : list event) (s : State) : outcome State :=
  match evs with
  | [] => Ret s
  | ev :: evs => s ← handle watchkey ev s; handle_all watchkey evs s
  end.

(** An event of etcd: [IsCreate], [IsModify] and deletion are told apart by the
    revisions. *)
Inductive etcd_event := Put (key value : string) (create_rev mod_rev : Z) | Del (key : string).
Definition to_event (e : etcd_event) : event :=
  match e with
  | Put key value c m => if (c =? m)%Z then Create key value else Modify key value
  | Del key => Delete key
  end.

(** [watch]: the key-values that [Get] returned, then the events. *)
Definition watch_events (kvs : list (string * string)) (evs : list etcd_event) : list event :=
  match kvs with
  | [] => [Empty]
  | _ => (map (fun kv => Set_ (fst kv) (snd kv)) kvs ++ [SetOk])%list
  end ++ map to_event evs.
End listen.

(** ** Facts *)

Module EtcdListenFacts.

(** The names of group [a] in the list of service [n]. *)
Definition listed (names : gmap string (gmap string (list string))) (n a : string) : list string :=
  default [] (inner names n !! a).

(** No map and no list of [namesWithOutputFile] is empty. *)
Definition compact (names : gmap string (gmap string (list string))) : Prop :=
  forall n files, names !! n = Some files ->
  files <> ∅ /\ forall a l, files !! a = Some l -> l <> [].

(** The two indexes of the groups agree. *)
Record linked (s : State) : Prop := {
  linked_compact : compact (namesWithOutputFile s);
  linked_nodup : forall n a, NoDup (listed (namesWithOutputFile s) n a);
  linked_iff : forall n a sname,
    sname ∈ listed (namesWithOutputFile s) n a <->
    exists w, inner (outputFileHasKeys s) a !! sname = Some w /\ WatchName w = n
}.

(** *** Maps of maps *)

Lemma inner_insert {A} (m : gmap string (gmap string A)) k v : inner (<[k := v]> m) k = v.
Proof. unfold inner. by rewrite lookup_insert_eq. Qed.

Lemma inner_insert_ne {A} (m : gmap string (gmap string A)) k k' v :
  k' <> k -> inner (<[k := v]> m) k' = inner m k'.
Proof. intros. unfold inner. by rewrite lookup_insert_ne. Qed.

Lemma inner_delete {A} (m : gmap string (gmap string A)) k : inner (delete k m) k = ∅.
Proof. unfold inner. by rewrite lookup_delete_eq. Qed.

Lemma inner_delete_ne {A} (m : gmap string (gmap string A)) k k' :
  k' <> k -> inner (delete k m) k' = inner m k'.
Proof. intros. unfold inner. by rewrite lookup_delete_ne. Qed.

Lemma compact_None names n : compact names -> names !! n = None <-> inner names n = ∅.
Proof.
  intros Hc. unfold inner. destruct (names !! n) as [files|] eqn:Hn; [|done]. cbn.
  split; [done|]. intros ->. by destruct (Hc n ∅ Hn).
Qed.

Lemma listed_inner names names' n a :
  inner names n !! a = inner names' n !! a -> listed names n a = listed names' n a.
Proof. unfold listed. by intros ->. Qed.

Lemma inner_None {A} (m : gmap string (gmap string A)) k x : m !! k = None -> inner m k !! x = None.
Proof. intros Hm. unfold inner. rewrite Hm. apply lookup_empty. Qed.

(** An alias that is not in use is in no list. *)
Lemma linked_unused s a n :
  linked s -> outputFileHasKeys s !! a = None -> listed (namesWithOutputFile s) n a = [].
Proof.
  intros Hl Ha. destruct (listed _ _ _) as [|x l] eqn:E; [done|].
  destruct (proj1 (linked_iff _ Hl n a x)) as (w & Hw & _); [rewrite E; by left|].
  by rewrite inner_None in Hw.
Qed.

(** The indexes agree again when only group [a] changed, in both of them. *)
Lemma linked_change s s' a :
  linked s -> compact (namesWithOutputFile s') ->
  (forall n a', a' <> a ->
   inner (namesWithOutputFile s') n !! a' = inner (namesWithOutputFile s) n !! a') ->
  (forall a', a' <> a -> inner (outputFileHasKeys s') a' = inner (outputFileHasKeys s) a') ->
  (forall n, NoDup (listed (namesWithOutputFile s') n a)) ->
  (forall n sname, sname ∈ listed (namesWithOutputFile s') n a <->
   exists w, inner (outputFileHasKeys s') a !! sname = Some w /\ WatchName w = n) ->
  linked s'.
Proof.
  intros [Hc Hnd Hiff] Hc' Hn Hk Hnd' Hin. constructor; [done| |].
  - intros n a'. destruct (decide (a' = a)) as [->|Ha]; [done|].
    rewrite (listed_inner _ (namesWithOutputFile s)) by by apply Hn. apply Hnd.
  - intros n a' sname. destruct (decide (a' = a)) as [->|Ha]; [done|].
    rewrite (listed_inner _ (namesWithOutputFile s)), Hk by (done || by apply Hn). apply Hiff.
Qed.

(** *** [AddGroupWatchs] *)

Section adding.
Context (a : string).

Lemma add_name_inner names sname w n a' :
  inner (add_name a names (sname, w)) n !! a' =
  if decide (n = WatchName w /\ a' = a) then Some (listed names n a ++ [sname])%list
  else inner names n !! a'.
Proof.
  unfold add_name. destruct (decide (n = WatchName w)) as [->|Hn].
  - rewrite inner_insert. destruct (decide (a' = a)) as [->|Ha].
    + rewrite lookup_insert_eq, decide_True by done. done.
    + rewrite lookup_insert_ne by done. rewrite decide_False by (by intros [_ ?]). done.
  - rewrite inner_insert_ne by done. rewrite decide_False by (by intros [? ?]). done.
Qed.

Lemma add_name_compact names entry : compact names -> compact (add_name a names entry).
Proof.
  intros Hc n files Hn. destruct entry as [sname w]. cbn in Hn.
  destruct (decide (n = WatchName w)) as [->|Hne].
  - rewrite lookup_insert_eq in Hn. injection Hn as <-. split; [apply insert_non_empty|].
    intros a' l Hl. destruct (decide (a' = a)) as [->|Ha].
    + rewrite lookup_insert_eq in Hl. injection Hl as <-. by destruct (default _ _).
    + rewrite lookup_insert_ne in Hl by done. unfold inner in Hl.
      destruct (names !! WatchName w) as [files|] eqn:Hw; [|by destruct (lookup_empty_Some (M:=gmap string) _ _ Hl)].
      by apply (Hc _ _ Hw) in Hl.
  - rewrite lookup_insert_ne in Hn by done. by apply Hc in Hn.
Qed.

(** The names of the entries whose service is [n]. *)
Definition names_of (n : string) (entries : list (string * WatchServerInfo)) : list string :=
  (List.filter (fun e => String.eqb (WatchName (snd e)) n) entries).*1.

Lemma add_names_inner entries names n a' :
  a' <> a -> inner (foldl (add_name a) names entries) n !! a' = inner names n !! a'.
Proof.
  intros Ha. revert names. induction entries as [|[sname w] entries IH]; intros names; [done|].
  cbn [foldl]. rewrite IH, add_name_inner. rewrite decide_False by (by intros [? ?]). done.
Qed.

Lemma add_names_listed entries names n :
  listed (foldl (add_name a) names entries) n a = (listed names n a ++ names_of n entries)%list.
Proof.
  revert names. induction entries as [|[sname w] entries IH]; intros names; cbn [foldl].
  { cbn. by rewrite app_nil_r. }
  rewrite IH. unfold listed at 1. rewrite add_name_inner. unfold names_of. cbn [List.filter snd].
  destruct (String.eqb_spec (WatchName w) n) as [->|Hne].
  - rewrite decide_True by done. cbn. by rewrite <- (assoc app).
  - rewrite decide_False by (by intros [? ?]). done.
Qed.

Lemma add_names_compact entries names : compact names -> compact (foldl (add_name a) names entries).
Proof.
  revert names. induction entries as [|e entries IH]; intros names Hc; [done|].
  by apply IH, add_name_compact.
Qed.

Lemma elem_of_names_of n entries sname :
  sname ∈ names_of n entries <-> exists w, (sname, w) ∈ entries /\ WatchName w = n.
Proof.
  unfold names_of. rewrite list_elem_of_fmap. setoid_rewrite list_elem_of_In.
  setoid_rewrite filter_In. setoid_rewrite String.eqb_eq. split.
  - intros ([sname' w] & -> & Hin & Hw). by exists w.
  - intros (w & Hin & Hw). by exists (sname, w).
Qed.

Lemma names_of_NoDup n entries : NoDup entries.*1 -> NoDup (names_of n entries).
Proof.
  unfold names_of. intros Hnd. induction entries as [|[sname w] entries IH]; [done|].
  cbn in *. apply NoDup_cons in Hnd as [Hs Hnd]. destruct (String.eqb _ _); [|by apply IH].
  cbn. apply NoDup_cons. split; [|by apply IH]. intros Hin. apply Hs.
  apply list_elem_of_fmap in Hin as ([s' w'] & -> & Hin%list_elem_of_In%filter_In).
  apply list_elem_of_fmap. exists (s', w'). split; [done|]. apply list_elem_of_In, Hin.
Qed.
End adding.

Lemma linked_init w l : linked (with_etcdw w (with_lsio l init)).
Proof.
  constructor; cbn.
  - intros n files Hn. by destruct (lookup_empty_Some (M:=gmap string) _ _ Hn).
  - intros n a. unfold listed, inner. rewrite lookup_empty. apply NoDup_nil_2.
  - intros n a sname. unfold listed, inner. rewrite !lookup_empty. cbn. rewrite lookup_empty.
    split; [by intros ?%elem_of_nil|by intros (? & ? & _)].
Qed.

(** A group that is added. *)
Lemma add_group_linked {RO : RangeOrder} wsi a s :
  linked s -> outputFileHasKeys s !! a = None ->
  exists s', AddGroupWatchs wsi a s = (s', None) /\ linked s' /\
  outputFileHasKeys s' = <[a := wsi]> (outputFileHasKeys s) /\ is_Some (outputFileMap s' !! a) /\
  (forall n sname, sname ∈ listed (namesWithOutputFile s') n a <->
     exists w, wsi !! sname = Some w /\ WatchName w = n) /\
  forall n a', a' <> a ->
    inner (namesWithOutputFile s') n !! a' = inner (namesWithOutputFile s) n !! a'.
Proof.
  intros Hl Hnone. unfold AddGroupWatchs. rewrite Hnone.
  cbn [outputFileMap with_names with_keys namesWithOutputFile].
  set (names := foldl (add_name a) (namesWithOutputFile s) (range wsi)).
  assert (forall n, listed names n a = names_of n (range wsi)) as Hown.
  { intros n. unfold names. by rewrite add_names_listed, linked_unused. }
  assert (forall n a', a' <> a -> inner names n !! a' = inner (namesWithOutputFile s) n !! a') as Hother.
  { intros n a' Ha. by apply add_names_inner. }
  assert (forall n sname, sname ∈ listed names n a <-> exists w, wsi !! sname = Some w /\ WatchName w = n)
    as Hin.
  { intros n sname. rewrite Hown, elem_of_names_of. by setoid_rewrite elem_of_range. }
  destruct (outputFileMap s !! a) as [out|] eqn:Ho; (eexists; split; [reflexivity|]); cbn;
    (split; [|split; [done|split; [|done]]]).
  all: try (rewrite ?Ho, ?lookup_insert_eq; by eexists).
  all: apply (linked_change s _ a Hl); cbn;
    [by apply add_names_compact, linked_compact|done|intros; by apply inner_insert_ne
    |intros n; rewrite Hown; apply names_of_NoDup, range_fst_NoDup|by setoid_rewrite inner_insert].
Qed.

(** *** [EmptyGroupWatchs] *)

Lemma contains_from_spec i l s :
  (contains_from i l s = -1 /\ s ∉ l \/
   exists l1 l2, l = l1 ++ s :: l2 /\ contains_from i l s = i + Z.of_nat (length l1))%Z.
Proof.
  revert i. induction l as [|v l IH]; intros i; cbn.
  { left. split; [done|]. by intros ?%elem_of_nil. }
  destruct (String.eqb_spec v s) as [->|Hne].
  { right. exists [], l. split; [done|]. cbn. lia. }
  destruct (IH (i + 1)%Z) as [[H1 H2]|(l1 & l2 & -> & H2)].
  - left. split; [done|]. by intros [->|]%elem_of_cons.
  - right. exists (v :: l1), l2. split; [done|]. rewrite H2. cbn. lia.
Qed.

(** The list after [s] and what was in front of it are dropped. *)
Definition cut (s : string) (l : list string) : list string :=
  if decide (util_Contains l s = -1)%Z then l else drop (Z.to_nat (util_Contains l s + 1)) l.

Lemma cut_spec s l :
  cut s l = l /\ s ∉ l \/ exists l1 l2, l = (l1 ++ s :: l2)%list /\ cut s l = l2.
Proof.
  unfold cut, util_Contains. destruct (contains_from_spec 0 l s) as [[-> Hs]|(l1 & l2 & Hl & ->)].
  - left. by rewrite decide_True.
  - right. exists l1, l2. split; [done|]. rewrite decide_False by lia. subst l.
    replace (Z.to_nat (0 + Z.of_nat (length l1) + 1)) with (length l1 + 1)%nat by lia.
    by rewrite drop_app_add.
Qed.

Lemma cut_NoDup s l : NoDup l -> NoDup (cut s l) /\ s ∉ cut s l.
Proof.
  intros Hnd. destruct (cut_spec s l) as [[-> Hs]|(l1 & l2 & -> & ->)]; [done|].
  apply NoDup_app in Hnd as (_ & _ & Hnd). by apply NoDup_cons in Hnd as [? ?].
Qed.

Lemma cut_elem s l x : x ∈ cut s l -> x ∈ l.
Proof.
  destruct (cut_spec s l) as [[-> Hs]|(l1 & l2 & -> & ->)]; [done|].
  rewrite elem_of_app, elem_of_cons. tauto.
Qed.

Section emptying.
Context (a : string).

(** One round of the loop, on the names alone. *)
Definition step_names (entry : string * WatchServerInfo) names : gmap string (gmap string (list string)) :=
  let names' := drop_name a entry names in
  if decide (inner names' (WatchName (snd entry)) = ∅)
  then delete (WatchName (snd entry)) names' else names'.

(** What is left of the maps of the service. *)
Definition left_over (sname : string) (files : gmap string (list string)) : gmap string (list string) :=
  match cut sname (default [] (files !! a)) with
  | [] => delete a files
  | l => <[a := l]> files
  end.

Lemma drop_name_other sname w names n :
  n <> WatchName w -> drop_name a (sname, w) names !! n = names !! n.
Proof.
  intros Hn. unfold drop_name.
  destruct (names !! WatchName w ≫= _) as [l|]; [destruct (decide _)|];
    (destruct (default [] _); [|by rewrite ?lookup_insert_ne by done]);
    repeat case_match; by rewrite ?lookup_insert_ne by done.
Qed.

Lemma drop_name_inner sname w names :
  compact names ->
  inner (drop_name a (sname, w) names) (WatchName w) = left_over sname (inner names (WatchName w)).
Proof.
  intros Hc. unfold drop_name, left_over. set (n := WatchName w).
  destruct (names !! n) as [files|] eqn:Hn; cbn [mbind option_bind].
  2: { assert (inner names n = ∅) as -> by (unfold inner; by rewrite Hn).
       rewrite lookup_empty. cbn [default from_option id]. rewrite Hn. unfold cut. cbn.
       rewrite delete_empty. unfold inner. by rewrite Hn. }
  assert (inner names n = files) as Hf by (unfold inner; by rewrite Hn). rewrite Hf.
  destruct (files !! a) as [l|] eqn:Ha; cbn [default from_option id].
  2: { rewrite Hf, Ha. cbn [default from_option id]. rewrite Hn, inner_insert. unfold cut. cbn. done. }
  unfold cut. destruct (decide (util_Contains l sname = -1)%Z) as [_|_].
  - rewrite Hf, Ha. cbn [default from_option id]. destruct l as [|x l].
    + rewrite Hn, inner_insert. done.
    + rewrite Hf. symmetry. by apply insert_id.
  - rewrite inner_insert, lookup_insert_eq. cbn [default from_option id].
    destruct (drop _ l) eqn:Hd.
    + rewrite lookup_insert_eq, inner_insert. by rewrite delete_insert_eq.
    + by rewrite inner_insert.
Qed.

Lemma left_over_other sname files a' : a' <> a -> left_over sname files !! a' = files !! a'.
Proof.
  intros Ha. unfold left_over. destruct (cut _ _);
    [by rewrite lookup_delete_ne by done|by rewrite lookup_insert_ne by done].
Qed.

Lemma left_over_own sname files :
  default [] (left_over sname files !! a) = cut sname (default [] (files !! a)).
Proof.
  unfold left_over. destruct (cut _ _); [by rewrite lookup_delete_eq|by rewrite lookup_insert_eq].
Qed.

Lemma left_over_lists sname files :
  (forall a' l, files !! a' = Some l -> l <> []) ->
  forall a' l, left_over sname files !! a' = Some l -> l <> [].
Proof.
  intros Hf a' l. destruct (decide (a' = a)) as [->|Ha].
  - unfold left_over. destruct (cut _ _) as [|x k].
    + by rewrite lookup_delete_eq.
    + rewrite lookup_insert_eq. by intros [= <-].
  - rewrite left_over_other by done. apply Hf.
Qed.

Lemma step_names_other sname w names n :
  n <> WatchName w -> step_names (sname, w) names !! n = names !! n.
Proof.
  intros Hn. unfold step_names. cbn [snd]. destruct (decide _);
    rewrite ?lookup_delete_ne by done; by apply drop_name_other.
Qed.

Lemma step_names_inner sname w names :
  compact names ->
  inner (step_names (sname, w) names) (WatchName w) = left_over sname (inner names (WatchName w)).
Proof.
  intros Hc. unfold step_names. cbn [snd]. destruct (decide _) as [He|_].
  - rewrite inner_delete. by rewrite drop_name_inner in He.
  - by apply drop_name_inner.
Qed.

Lemma step_names_compact entry names : compact names -> compact (step_names entry names).
Proof.
  intros Hc n files Hn. destruct entry as [sname w]. destruct (decide (n = WatchName w)) as [->|Hne].
  - pose proof (step_names_inner sname w names Hc) as Hi. unfold inner at 1 in Hi. rewrite Hn in Hi.
    cbn in Hi. split.
    + intros ->. unfold step_names in Hn. cbn [snd] in Hn. destruct (decide _) as [He|He].
      * by rewrite lookup_delete_eq in Hn.
      * apply He. unfold inner. by rewrite Hn.
    + intros a' l. rewrite Hi. apply left_over_lists. intros a1 l1 Hl. unfold inner in Hl.
      destruct (names !! WatchName w) as [f|] eqn:Hw; [|by destruct (lookup_empty_Some (M:=gmap string) _ _ Hl)].
      by apply (Hc _ _ Hw) in Hl.
  - rewrite step_names_other in Hn by done. by apply (Hc n).
Qed.

Definition fold_names (entries : list (string * WatchServerInfo)) names :=
  foldl (fun names entry => step_names entry names) names entries.

Lemma fold_names_cons entry entries names :
  fold_names (entry :: entries) names = fold_names entries (step_names entry names).
Proof. done. Qed.

Lemma fold_names_compact entries names : compact names -> compact (fold_names entries names).
Proof.
  revert names. induction entries as [|e entries IH]; intros names Hc; [done|].
  by apply IH, step_names_compact.
Qed.

Lemma fold_names_inner entries names n a' :
  compact names -> a' <> a -> inner (fold_names entries names) n !! a' = inner names n !! a'.
Proof.
  intros Hc Ha. revert names Hc. induction entries as [|[sname w] entries IH]; intros names Hc; [done|].
  rewrite fold_names_cons. rewrite IH by by apply step_names_compact.
  destruct (decide (n = WatchName w)) as [->|Hne].
  - rewrite step_names_inner by done. by apply left_over_other.
  - unfold inner. by rewrite step_names_other.
Qed.

Lemma step_names_listed sname w names n :
  compact names ->
  listed (step_names (sname, w) names) n a =
  if decide (n = WatchName w) then cut sname (listed names n a) else listed names n a.
Proof.
  intros Hc. unfold listed. destruct (decide (n = WatchName w)) as [->|Hne].
  - rewrite step_names_inner by done. apply left_over_own.
  - unfold inner. by rewrite step_names_other.
Qed.

(** Every name of the entries leaves its list, and none comes in. *)
Lemma fold_names_listed entries names :
  compact names -> (forall n, NoDup (listed names n a)) ->
  (forall n, NoDup (listed (fold_names entries names) n a)) /\
  forall n x, x ∈ listed (fold_names entries names) n a ->
  x ∈ listed names n a /\ forall w, (x, w) ∈ entries -> WatchName w <> n.
Proof.
  revert names. induction entries as [|[sname w] entries IH]; intros names Hc Hnd.
  { split; [done|]. intros n x Hx. split; [done|]. by intros w ?%elem_of_nil. }
  rewrite fold_names_cons. specialize (IH (step_names (sname, w) names)) as [IH1 IH2].
  { by apply step_names_compact. }
  { intros n. rewrite step_names_listed by done. case_decide; [by apply cut_NoDup|done]. }
  split; [done|]. intros n x [Hx Hrest]%IH2. rewrite step_names_listed in Hx by done.
  destruct (decide (n = WatchName w)) as [->|Hne].
  - split; [by eapply cut_elem|]. intros w' [[= -> ->]|Hin]%elem_of_cons; [|by apply Hrest].
    by apply cut_NoDup in Hx.
  - split; [done|]. intros w' [[= -> ->]|Hin]%elem_of_cons; [congruence|by apply Hrest].
Qed.

Lemma fold_names_None entries names n : names !! n = None -> compact names -> fold_names entries names !! n = None.
Proof.
  revert names. induction entries as [|[sname w] entries IH]; intros names Hn Hc; [done|].
  rewrite fold_names_cons. apply IH; [|by apply step_names_compact].
  destruct (decide (n = WatchName w)) as [->|Hne]; [|by rewrite step_names_other].
  apply compact_None; [by apply step_names_compact|]. rewrite step_names_inner by done.
  apply compact_None in Hn; [|done]. rewrite Hn. unfold left_over.
  rewrite lookup_empty. unfold cut. cbn. apply delete_empty.
Qed.

Lemma fold_names_untouched entries names n :
  n ∉ map (fun e => WatchName (snd e)) entries -> fold_names entries names !! n = names !! n.
Proof.
  revert names. induction entries as [|[sname w] entries IH]; intros names Hn; [done|].
  cbn in Hn. apply not_elem_of_cons in Hn as [Hn Hrest]. rewrite fold_names_cons.
  rewrite IH by done. by apply step_names_other.
Qed.

(** One round on a state with a watcher: a service without groups is no longer
    watched. *)
Definition step_watches (entry : string * WatchServerInfo) names (w : gset string) : gset string :=
  if decide (step_names entry names !! WatchName (snd entry) = None)
  then w ∖ {[WatchName (snd entry)]} else w.

Lemma empty_loop_cons entry entries s w :
  compact (namesWithOutputFile s) -> etcdw s = Some w ->
  empty_loop a (entry :: entries) s =
  empty_loop a entries
    (with_etcdw (Some (step_watches entry (namesWithOutputFile s) w))
      (with_names (step_names entry (namesWithOutputFile s)) s)).
Proof.
  intros Hc Hw. pose proof (compact_None _ (WatchName (snd entry)) (step_names_compact entry _ Hc)) as Hn.
  unfold step_watches. rewrite (decide_ext _ _ _ _ Hn). unfold step_names. clear Hn Hc.
  cbn [empty_loop]. destruct s as [k names o e w0 l]. cbn in Hw. subst w0.
  unfold with_names, with_etcdw. cbn [namesWithOutputFile etcdw].
  generalize (drop_name a entry names). intros names1.
  destruct (decide (inner names1 (WatchName (snd entry)) = ∅)) as [He|He].
  - rewrite inner_delete, decide_True by done. unfold RemoveWatch. destruct (decide _) as [|Hw]; [done|].
    cbn. by replace (w ∖ {[WatchName (snd entry)]}) with w by set_solver.
  - by rewrite decide_False.
Qed.

(** The loop: the names as above, and the watches of the services that nobody
    wants any more removed. *)
Lemma empty_loop_spec entries s w :
  compact (namesWithOutputFile s) -> etcdw s = Some w ->
  exists w', empty_loop a entries s =
  Ret (with_etcdw (Some w') (with_names (fold_names entries (namesWithOutputFile s)) s)) /\
  forall n, n ∈ w' <->
  n ∈ w /\ ~ (n ∈ map (fun e => WatchName (snd e)) entries /\
              fold_names entries (namesWithOutputFile s) !! n = None).
Proof.
  revert s w. induction entries as [|[sname wi] entries IH]; intros s w Hc Hw.
  { exists w. split; [|set_solver]. destruct s; cbn in *. by subst. }
  rewrite (empty_loop_cons _ _ _ w), fold_names_cons by done.
  pose proof (step_names_compact (sname, wi) _ Hc) as Hc1.
  set (names1 := step_names (sname, wi) (namesWithOutputFile s)) in *.
  edestruct (IH (with_etcdw (Some (step_watches (sname, wi) (namesWithOutputFile s) w)) (with_names names1 s)))
    as (w' & -> & Hin); [done|done|].
  exists w'. split; [done|]. intros n. rewrite Hin. cbn [namesWithOutputFile with_names with_etcdw map snd].
  rewrite elem_of_cons. unfold step_watches. cbn [snd]. fold names1.
  destruct (decide (names1 !! WatchName wi = None)) as [He|He].
  - assert (n = WatchName wi -> fold_names entries names1 !! n = None) as Hgone.
    { intros ->. by apply fold_names_None. }
    rewrite elem_of_difference, elem_of_singleton. tauto.
  - assert (n = WatchName wi -> n ∉ map (fun e => WatchName (snd e)) entries ->
      fold_names entries names1 !! n <> None) as Hstays.
    { intros -> Hn. by rewrite fold_names_untouched. }
    destruct (decide (n ∈ map (fun e => WatchName (snd e)) entries)); tauto.
Qed.
End emptying.

(** The names whose watches the loop stops are those that it leaves without a
    group. *)
Lemma stopped_names {RO : RangeOrder} a s group n :
  linked s -> outputFileHasKeys s !! a = Some group ->
  n ∈ map (fun e => WatchName (snd e)) (range group) /\ fold_names a (range group) (namesWithOutputFile s) !! n = None <->
  is_Some (namesWithOutputFile s !! n) /\ fold_names a (range group) (namesWithOutputFile s) !! n = None.
Proof.
  intros Hl Hk. split; intros [Hn Hnone]; (split; [|done]).
  - apply list_elem_of_fmap in Hn as ([sname w] & -> & Hin). apply elem_of_range in Hin. cbn [snd].
    assert (sname ∈ listed (namesWithOutputFile s) (WatchName w) a) as Hs.
    { apply (linked_iff _ Hl). exists w. unfold inner. by rewrite Hk. }
    unfold listed, inner in Hs. destruct (namesWithOutputFile s !! WatchName w); [done|].
    cbn in Hs. rewrite lookup_empty in Hs. by apply elem_of_nil in Hs.
  - destruct (decide (n ∈ map (fun e => WatchName (snd e)) (range group))) as [|Hno]; [done|].
    rewrite fold_names_untouched in Hnone by done. destruct Hn. congruence.
Qed.

(** The names once a group is emptied. *)
Lemma empty_group_names {RO : RangeOrder} a s group :
  linked s -> outputFileHasKeys s !! a = Some group ->
  let names := fold_names a (range group) (namesWithOutputFile s) in
  compact names /\ (forall n, NoDup (listed names n a)) /\ (forall n, listed names n a = []) /\
  forall n a', a' <> a -> inner names n !! a' = inner (namesWithOutputFile s) n !! a'.
Proof.
  intros [Hc Hnd Hiff] Hk names.
  destruct (fold_names_listed a (range group) (namesWithOutputFile s) Hc) as [Hnd' Hgone]; [done|].
  split; [by apply fold_names_compact|]. split; [done|].
  split; [|intros; by apply fold_names_inner].
  intros n. destruct (listed names n a) as [|x l] eqn:E; [done|].
  destruct (Hgone n x) as [Hx Hno]; [unfold names in E; rewrite E; by left|].
  apply Hiff in Hx as (w & Hw & Hname). unfold inner in Hw. rewrite Hk in Hw.
  exfalso. apply (Hno w); [|done]. by apply elem_of_range.
Qed.

(** *** Exports *)

Section exporting.
Context {RO : RangeOrder} {version : Type}.
Context (Parse : string -> option version) (ParseRange : string -> option (version -> bool)).

Lemma servers_empty r : servers Parse ParseRange r ∅ = [].
Proof. unfold servers. by rewrite range_empty. Qed.

Lemma refresh_name_eq s eachfile out namekey :
  refresh_name Parse ParseRange s eachfile out namekey =
  match inner (outputFileHasKeys s) eachfile !! namekey with
  | None => out
  | Some f => <[namekey := servers Parse ParseRange (WatchVersion f) (inner (etcdSettings s) (WatchName f))]> out
  end.
Proof.
  unfold refresh_name, inner at 1. destruct (outputFileHasKeys s !! eachfile) as [watches|]; cbn;
    [|by rewrite lookup_empty].
  destruct (watches !! namekey) as [f|]; [|done]. unfold inner.
  destruct (etcdSettings s !! WatchName f) as [nodes|]; cbn.
  - by rewrite insert_insert_eq, insert_delete_eq.
  - by rewrite servers_empty, insert_delete_eq.
Qed.

(** The output of a group once the names [namekeys] are refreshed. *)
Definition refreshed s (eachfile : string) (namekeys : list string) : Output :=
  foldl (refresh_name Parse ParseRange s eachfile) (default ∅ (outputFileMap s !! eachfile)) namekeys.

Lemma refreshed_lookup s eachfile namekeys x :
  refreshed s eachfile namekeys !! x =
  match inner (outputFileHasKeys s) eachfile !! x with
  | Some f =>
      if decide (x ∈ namekeys)
      then Some (servers Parse ParseRange (WatchVersion f) (inner (etcdSettings s) (WatchName f)))
      else inner (outputFileMap s) eachfile !! x
  | None => inner (outputFileMap s) eachfile !! x
  end.
Proof.
  unfold refreshed, inner at 3 4. generalize (default ∅ (outputFileMap s !! eachfile)).
  induction namekeys as [|k namekeys IH]; intros out.
  { cbn. destruct (inner _ _ !! x); [|done]. by rewrite decide_False by apply not_elem_of_nil. }
  cbn [foldl]. rewrite IH, refresh_name_eq. destruct (decide (x = k)) as [->|Hne].
  - destruct (inner _ _ !! k) as [f|]; [|done]. rewrite (decide_True _ _ (P := k ∈ k :: namekeys)) by by left.
    case_decide; [done|]. by rewrite lookup_insert_eq.
  - assert (x ∈ k :: namekeys <-> x ∈ namekeys) as Hin by (rewrite elem_of_cons; tauto).
    destruct (inner _ _ !! x); [rewrite (decide_ext _ _ _ _ Hin)|];
      (destruct (inner _ _ !! k); [by rewrite lookup_insert_ne by done|done]).
Qed.

Lemma export_loop_spec entries s calls :
  NoDup entries.*1 -> lsio s = Some calls ->
  exists o, export_loop Parse ParseRange entries s =
  Ret (with_lsio (Some (calls ++ map (fun e => (fst e, refreshed s (fst e) (snd e))) entries)%list)
        (with_output o s)) /\
  (forall f nks, (f, nks) ∈ entries -> o !! f = Some (refreshed s f nks)) /\
  forall f, f ∉ entries.*1 -> o !! f = outputFileMap s !! f.
Proof.
  revert s calls. induction entries as [|[f nks] entries IH]; intros s calls Hnd Hl.
  { exists (outputFileMap s). cbn. rewrite app_nil_r. split_and!; [|by intros ?? ?%elem_of_nil|done].
    destruct s; cbn in *. by subst. }
  cbn in Hnd. apply NoDup_cons in Hnd as [Hf Hnd]. cbn [export_loop]. fold (refreshed s f nks).
  unfold with_output at 1. cbn [lsio]. rewrite Hl.
  edestruct (IH (with_lsio (Some (calls ++ [(f, refreshed s f nks)])%list)
    (with_output (<[f := refreshed s f nks]> (outputFileMap s)) s))) as (o & -> & Hin & Hout);
    [done|done|].
  assert (forall f' nks', f' <> f ->
    refreshed (with_lsio (Some (calls ++ [(f, refreshed s f nks)])%list)
      (with_output (<[f:=refreshed s f nks]> (outputFileMap s)) s)) f' nks' = refreshed s f' nks') as Hsame.
  { intros f' nks' Hne. unfold refreshed at 1. cbn [outputFileMap with_output with_lsio].
    by rewrite lookup_insert_ne. }
  assert (forall f' nks', (f', nks') ∈ entries -> f' <> f) as Hneq.
  { intros f' nks' Hin' ->. apply Hf. apply list_elem_of_fmap. by exists (f, nks'). }
  exists o. split_and!.
  - rewrite (map_ext_in _ (fun e => (fst e, refreshed s (fst e) (snd e))) entries).
    + cbn. by rewrite <- (assoc app).
    + intros [f' nks'] Hin'%list_elem_of_In. cbn [fst snd]. by rewrite Hsame by eauto.
  - intros f' nks' [[= -> ->]|Hin']%elem_of_cons.
    + rewrite Hout by done. cbn. by rewrite lookup_insert_eq.
    + rewrite (Hin _ _ Hin'). by rewrite Hsame by eauto.
  - intros f' Hf'. cbn in Hf'. apply not_elem_of_cons in Hf' as [Hne Hf']. rewrite Hout by done.
    cbn. by rewrite lookup_insert_ne.
Qed.

Lemma tigger_changes_spec watchkey s calls :
  lsio s = Some calls ->
  exists o, tiggerChangesWatchKey Parse ParseRange watchkey s =
  Ret (with_lsio (Some (calls ++ map (fun e => (fst e, refreshed s (fst e) (snd e)))
                         (range (inner (namesWithOutputFile s) watchkey)))%list)
        (with_output o s)) /\
  (forall f nks, inner (namesWithOutputFile s) watchkey !! f = Some nks ->
   o !! f = Some (refreshed s f nks)) /\
  forall f, inner (namesWithOutputFile s) watchkey !! f = None -> o !! f = outputFileMap s !! f.
Proof.
  intros Hl. unfold tiggerChangesWatchKey, inner.
  destruct (namesWithOutputFile s !! watchkey) as [files|] eqn:Hn; cbn [default from_option id].
  - destruct (export_loop_spec (range files) s calls) as (o & -> & Hin & Hout);
      [apply range_fst_NoDup|done|]. exists o. split; [done|]. split.
    + intros f nks Hf. apply Hin. by apply elem_of_range.
    + intros f Hf. apply Hout. intros ([f' nks] & -> & Hin')%list_elem_of_fmap.
      apply elem_of_range in Hin'. cbn in *. congruence.
  - exists (outputFileMap s). rewrite range_empty. cbn. rewrite app_nil_r. split_and!; [|done|done].
    destruct s; cbn in *. by subst.
Qed.

Lemma elem_of_servers r nodes x :
  x ∈ servers Parse ParseRange r nodes <->
  exists k ni, nodes !! k = Some ni /\ in_range Parse ParseRange r ni = true /\ x = to_write (k, ni).
Proof.
  unfold servers. rewrite list_elem_of_In, in_map_iff. setoid_rewrite filter_In.
  setoid_rewrite <- list_elem_of_In. split.
  - intros ([k ni] & <- & Hin & Hr). apply elem_of_range in Hin. by exists k, ni.
  - intros (k & ni & Hk & Hr & ->). exists (k, ni). by rewrite elem_of_range.
Qed.
End exporting.

(** *** The settings *)

Section settings.
Context (Unmarshal : string -> option nodeInfo) (watchkey : string).

(** The settings of [watchkey] are [m]; an empty map is not stored. *)
Definition stored (m : gmap string nodeInfo) (s : State) : Prop :=
  etcdSettings s !! watchkey = if decide (m = ∅) then None else Some m.

Lemma stored_inner m s : stored m s -> inner (etcdSettings s) watchkey = m.
Proof. unfold stored, inner. intros ->. by case_decide. Qed.

Lemma stored_put m s key value ni :
  stored m s -> key <> ""%string -> value <> ""%string -> Unmarshal value = Some ni ->
  stored (<[key := ni]> m) (tiggerChangeWatchKeyValue Unmarshal watchkey key value s).
Proof.
  intros Hm Hk Hv Hu. pose proof (stored_inner _ _ Hm) as Hi. unfold tiggerChangeWatchKeyValue.
  rewrite (proj2 (String.eqb_neq _ _) Hk), (proj2 (String.eqb_neq _ _) Hv), Hu.
  unfold stored. cbn [etcdSettings with_settings]. rewrite lookup_insert_eq, decide_False by apply insert_non_empty.
  do 2 f_equal. unfold inner in *. destruct (etcdSettings s !! watchkey) eqn:E; [by rewrite E|].
  rewrite lookup_insert_eq. done.
Qed.

Lemma stored_delete m s key :
  stored m s -> key <> ""%string ->
  stored (delete key m) (tiggerChangeWatchKeyValue Unmarshal watchkey key "" s).
Proof.
  intros Hm Hk. unfold tiggerChangeWatchKeyValue. rewrite (proj2 (String.eqb_neq _ _) Hk).
  cbn [String.eqb]. unfold stored in *. rewrite Hm. destruct (decide (m = ∅)) as [->|Hne].
  - by rewrite delete_empty, decide_True.
  - destruct (m !! key) as [ni|] eqn:E.
    + destruct (decide (delete key m = ∅)); cbn; [by rewrite lookup_delete_eq|by rewrite lookup_insert_eq].
    + rewrite delete_id by done. by rewrite decide_False.
Qed.

Lemma stored_clear s : stored ∅ (tiggerChangeWatchKeyValue Unmarshal watchkey "" "" s).
Proof. unfold stored. cbn. by rewrite decide_True, lookup_delete_eq. Qed.

(** A change only touches the settings, and those of its own key. *)
Lemma tigger_change_others key value s :
  exists e, tiggerChangeWatchKeyValue Unmarshal watchkey key value s = with_settings e s /\
  forall k, k <> watchkey -> e !! k = etcdSettings s !! k.
Proof.
  unfold tiggerChangeWatchKeyValue. destruct (String.eqb key "").
  { eexists. split; [done|]. intros. by rewrite lookup_delete_ne. }
  assert (s = with_settings (etcdSettings s) s) as Hid by by destruct s.
  destruct (String.eqb value "").
  { destruct (etcdSettings s !! watchkey) as [nodes|]; [|by exists (etcdSettings s)].
    destruct (nodes !! key); [|by exists (etcdSettings s)].
    case_decide; eexists; (split; [done|]); intros;
      [by rewrite lookup_delete_ne|by rewrite lookup_insert_ne]. }
  destruct (Unmarshal value), (etcdSettings s !! watchkey); eexists; (split; [done|]); intros;
    by rewrite ?lookup_insert_ne.
Qed.
End settings.
End EtcdListenFacts.


(** ** Properties *)

Module EtcdListenTheorems.
Import EtcdListenFacts.

Section theorems.
Context {RO : RangeOrder} {version : Type}.
Context (Unmarshal : string -> option nodeInfo)
        (Parse : string -> option version) (ParseRange : string -> option (version -> bool)).

(** C25: [AddGroupWatchs] refuses an alias that is in use and changes nothing
    then; otherwise it enters the group in both indexes, which keep agreeing,
    and leaves the other groups alone. *)
Theorem add_group wsi a s :
  linked s ->
  (is_Some (outputFileHasKeys s !! a) -> exists msg, AddGroupWatchs wsi a s = (s, Some msg)) /\
  (outputFileHasKeys s !! a = None ->
   exists s', AddGroupWatchs wsi a s = (s', None) /\ linked s' /\
   outputFileHasKeys s' = <[a := wsi]> (outputFileHasKeys s) /\ is_Some (outputFileMap s' !! a) /\
   (forall n sname, sname ∈ listed (namesWithOutputFile s') n a <->
      exists w, wsi !! sname = Some w /\ WatchName w = n) /\
   forall n a', a' <> a ->
     inner (namesWithOutputFile s') n !! a' = inner (namesWithOutputFile s) n !! a').
Proof.
  intros Hl. split; [|by apply add_group_linked].
  unfold AddGroupWatchs. intros [w ->]. by eexists.
Qed.

(** C7: after [Start], when the indexes agree, [EmptyGroupWatchs] removes a
    group from every index and the output, leaves the other groups' entries as
    they are, keeps the indexes agreeing, and stops exactly the running etcd
    watches of names that this leaves without a group: groups that were added but
    not yet reloaded have no watches to stop. So if there was a watch for each
    indexed name and no other, there is afterwards. All this whatever the order
    in which Go visits the maps. *)
Theorem empty_group a s w :
  linked s -> etcdw s = Some w ->
  exists s' w', EmptyGroupWatchs a s = Ret s' /\ linked s' /\
  outputFileHasKeys s' = delete a (outputFileHasKeys s) /\
  outputFileMap s' = delete a (outputFileMap s) /\ etcdSettings s' = etcdSettings s /\
  (forall n, listed (namesWithOutputFile s') n a = []) /\
  (forall n a', a' <> a ->
     inner (namesWithOutputFile s') n !! a' = inner (namesWithOutputFile s) n !! a') /\
  etcdw s' = Some w' /\
  (forall n, n ∈ w' <->
     n ∈ w /\ ~ (is_Some (namesWithOutputFile s !! n) /\ namesWithOutputFile s' !! n = None)) /\
  (w = dom (namesWithOutputFile s) -> w' = dom (namesWithOutputFile s')).
Proof.
  clear version Unmarshal Parse ParseRange. intros Hl Hw. unfold EmptyGroupWatchs. cbn [outputFileHasKeys with_output].
  destruct (outputFileHasKeys s !! a) as [group|] eqn:Hk.
  2: { eexists _, w. split; [done|]. cbn. rewrite (delete_id _ _ Hk).
       split; [by destruct Hl|]. split_and!; try done; [intros n; by apply linked_unused|].
       intros n. split; [|tauto]. intros Hn. split; [done|]. intros [[? ?] ?]. congruence. }
  destruct (empty_group_names a s group Hl Hk) as (Hc & Hnd & Hgone & Hother).
  edestruct (empty_loop_spec a (range group)
    (with_keys (delete a (outputFileHasKeys s)) (with_output (delete a (outputFileMap s)) s)))
    as (w' & -> & Hin); [apply Hl|done|].
  cbn [namesWithOutputFile with_keys with_output] in *.
  pose proof (fun n => stopped_names a s group n Hl Hk) as Hstop.
  eexists _, w'. split; [done|]. split; [|split_and!; try done].
  - apply (linked_change s _ a Hl); cbn; [done|done|intros; by apply inner_delete_ne|done|].
    intros n sname. rewrite Hgone, inner_delete. setoid_rewrite lookup_empty. set_solver.
  - intros n. by rewrite Hin, Hstop.
  - cbn. intros ->. apply set_eq. intros n. rewrite Hin, Hstop, !elem_of_dom, <- !not_eq_None_Some.
    pose proof (fold_names_None a (range group) (namesWithOutputFile s) n) as Hnone.
    destruct (fold_names a (range group) (namesWithOutputFile s) !! n) as [x|].
    + split; [done|]. intros _. split; [|intros [_ ?]; done]. intros Hn. by specialize (Hnone Hn (linked_compact _ Hl)).
    + split; [|done]. intros [Hn Hnot]. exfalso. by apply Hnot.
Qed.

(** C8: a change of a watched prefix exports every group that watches it, once
    each: under each of the group's names for the prefix, exactly the servers
    whose version is in the range asked for, and the group's other names as they
    were. *)
Theorem exported_output watchkey s calls :
  linked s -> lsio s = Some calls ->
  exists s' new, tiggerChangesWatchKey Parse ParseRange watchkey s = Ret s' /\
  lsio s' = Some (calls ++ new)%list /\ NoDup new.*1 /\
  (forall a, a ∈ new.*1 <-> exists sname w, inner (outputFileHasKeys s) a !! sname = Some w /\ WatchName w = watchkey) /\
  (forall a out, (a, out) ∈ new -> outputFileMap s' !! a = Some out) /\
  (forall a out sname w, (a, out) ∈ new -> inner (outputFileHasKeys s) a !! sname = Some w ->
   (WatchName w = watchkey -> exists l, out !! sname = Some l /\ forall x, x ∈ l <->
      exists k ni, inner (etcdSettings s) watchkey !! k = Some ni /\
      in_range Parse ParseRange (WatchVersion w) ni = true /\ x = mkWrite k (Ip ni) (Port ni)) /\
   (WatchName w <> watchkey -> out !! sname = inner (outputFileMap s) a !! sname)).
Proof.
  intros Hl Hcalls. destruct (tigger_changes_spec Parse ParseRange watchkey s calls Hcalls)
    as (o & -> & Hin & Hout).
  eexists _, _. split; [done|]. split; [done|].
  set (files := inner (namesWithOutputFile s) watchkey) in *.
  set (f := fun e : string * list string => (fst e, refreshed Parse ParseRange s (fst e) (snd e))).
  assert ((map f (range files)).*1 = (range files).*1) as Hfst.
  { rewrite <- list_fmap_compose. done. }
  assert (forall a out, (a, out) ∈ map f (range files) -> exists nks, files !! a = Some nks /\
    out = refreshed Parse ParseRange s a nks) as Hnew.
  { intros a out Ha. apply list_elem_of_In, in_map_iff in Ha as ([a' nks] & [= -> <-] & Ha).
    exists nks. split; [|done]. apply elem_of_range. by apply list_elem_of_In. }
  assert (forall a nks, files !! a = Some nks -> nks = listed (namesWithOutputFile s) watchkey a) as Hlisted.
  { intros a nks Ha. unfold listed. fold files. by rewrite Ha. }
  split_and!.
  - rewrite Hfst. apply range_fst_NoDup.
  - intros a. rewrite Hfst. split.
    + intros ([a' nks] & -> & Ha%elem_of_range)%list_elem_of_fmap. cbn.
      destruct nks as [|x nks].
      { exfalso. unfold files, inner in Ha. destruct (namesWithOutputFile s !! watchkey) as [fs|] eqn:E.
        - by apply (proj2 (linked_compact _ Hl _ _ E)) in Ha.
        - by destruct (lookup_empty_Some (M:=gmap string) _ _ Ha). }
      exists x. apply (linked_iff _ Hl watchkey). rewrite <- (Hlisted _ _ Ha). by left.
    + intros (sname & w & Hw & Hname).
      assert (sname ∈ listed (namesWithOutputFile s) watchkey a) as Hs by (apply (linked_iff _ Hl); eauto).
      unfold listed in Hs. fold files in Hs. destruct (files !! a) as [nks|] eqn:E; [|by apply elem_of_nil in Hs].
      apply list_elem_of_fmap. exists (a, nks). split; [done|]. by apply elem_of_range.
  - intros a out (nks & Ha & ->)%Hnew. by apply Hin.
  - intros a out sname w (nks & Ha & ->)%Hnew Hw. rewrite refreshed_lookup, Hw.
    rewrite (Hlisted _ _ Ha). split.
    + intros Hname. rewrite decide_True by (apply (linked_iff _ Hl); eauto). rewrite Hname.
      eexists. split; [done|]. intros x. apply elem_of_servers.
    + intros Hname. rewrite decide_False; [done|].
      intros (w' & Hw' & Hname')%(linked_iff _ Hl). congruence.
Qed.

(** *** The store that etcd keeps *)

(** The keys and values under the watched prefix, and what an event does. *)
Definition kv_event (kv : gmap string string) (e : etcd_event) : gmap string string :=
  match e with
  | Put key value _ _ => <[key := value]> kv
  | Del key => delete key kv
  end.

(** A key and a value that describe a server. *)
Definition describes (key value : string) : Prop :=
  key <> ""%string /\ value <> ""%string /\ is_Some (Unmarshal value).
Definition event_describes (e : etcd_event) : Prop :=
  match e with Put key value _ _ => describes key value | Del key => key <> ""%string end.

Lemma handle_stored watchkey ev s calls e :
  lsio s = Some calls -> etcdSettings (tiggerChangeWatchKeyValue Unmarshal watchkey
    (match ev with Put k _ _ _ | Del k => k end) (match ev with Put _ v _ _ => v | Del _ => "" end) s) = e ->
  exists s', handle Unmarshal Parse ParseRange watchkey (to_event ev) s = Ret s' /\
  is_Some (lsio s') /\ etcdSettings s' = e.
Proof.
  intros Hl <-. set (k := match ev with Put k _ _ _ | Del k => k end).
  set (v := match ev with Put _ v _ _ => v | Del _ => "" end).
  destruct (tigger_change_others Unmarshal watchkey k v s) as (e & Ht & _).
  destruct (tigger_changes_spec Parse ParseRange watchkey
    (tiggerChangeWatchKeyValue Unmarshal watchkey k v s) calls) as (o & Heq & _); [by rewrite Ht|].
  assert (handle Unmarshal Parse ParseRange watchkey (to_event ev) s =
    tiggerChangesWatchKey Parse ParseRange watchkey
      (tiggerChangeWatchKeyValue Unmarshal watchkey k v s)) as Hev.
  { destruct ev as [k' v' c m|k']; cbn; [by destruct (c =? m)%Z|done]. }
  rewrite Hev, Heq. eexists. split; [done|]. split; [by eexists|done].
Qed.

Lemma events_stored watchkey evs kv s :
  is_Some (lsio s) -> Forall event_describes evs -> stored watchkey (omap Unmarshal kv) s ->
  exists s', handle_all Unmarshal Parse ParseRange watchkey (map to_event evs) s = Ret s' /\
  stored watchkey (omap Unmarshal (foldl kv_event kv evs)) s'.
Proof.
  intros Hl Hevs. revert kv s Hl. induction Hevs as [|ev evs Hev _ IH]; intros kv s [calls Hl] Hs.
  { by exists s. }
  destruct (handle_stored watchkey ev s calls _ Hl eq_refl) as (s1 & H1 & Hl1 & He1).
  cbn [map handle_all foldl]. rewrite H1. run. apply IH; [done|].
  destruct ev as [k v c m|k]; cbn [kv_event].
  - destruct Hev as (Hk & Hv & [ni Hni]). rewrite (omap_insert_Some _ _ _ _ ni) by done.
    unfold stored. rewrite He1. by apply stored_put.
  - rewrite omap_delete. unfold stored. rewrite He1. by apply stored_delete.
Qed.

(** Reading [kvs] at the start of a watch. *)
Lemma sets_stored watchkey kvs m s :
  is_Some (lsio s) -> Forall (fun kv => describes (fst kv) (snd kv)) kvs ->
  stored watchkey (omap Unmarshal m) s ->
  exists s', is_Some (lsio s') /\
  stored watchkey (omap Unmarshal (foldl (fun m kv => <[fst kv := snd kv]> m) m kvs)) s' /\
  forall evs, handle_all Unmarshal Parse ParseRange watchkey
    (map (fun kv => Set_ (fst kv) (snd kv)) kvs ++ evs)%list s =
    handle_all Unmarshal Parse ParseRange watchkey evs s'.
Proof.
  intros Hl Hkvs. revert m s Hl. induction Hkvs as [|[k v] kvs (Hk & Hv & [ni Hni]) _ IH]; intros m s Hl Hs.
  { by exists s. }
  cbn [map app handle_all handle foldl fst snd]. run. apply IH.
  - by destruct (tigger_change_others Unmarshal watchkey k v s) as (e & -> & _).
  - rewrite (omap_insert_Some _ _ _ _ ni) by done. by apply stored_put.
Qed.

(** A whole watch: the reading [kvs], then the events. *)
Lemma watch_stored watchkey kvs evs s :
  is_Some (lsio s) -> (kvs = [] \/ etcdSettings s !! watchkey = None) ->
  Forall (fun kv => describes (fst kv) (snd kv)) kvs -> Forall event_describes evs ->
  exists s', handle_all Unmarshal Parse ParseRange watchkey (watch_events kvs evs) s = Ret s' /\
  stored watchkey (omap Unmarshal (foldl kv_event (foldl (fun m kv => <[fst kv := snd kv]> m) ∅ kvs) evs)) s'.
Proof.
  intros [calls Hl] Hold Hkvs Hevs.
  assert (exists s0, is_Some (lsio s0) /\
    stored watchkey (omap Unmarshal (foldl (fun m kv => <[fst kv := snd kv]> m) ∅ kvs)) s0 /\
    handle_all Unmarshal Parse ParseRange watchkey (watch_events kvs evs) s =
    handle_all Unmarshal Parse ParseRange watchkey (map to_event evs) s0) as (s0 & Hl0 & Hs0 & ->).
  2: by apply events_stored.
  destruct kvs as [|kv kvs].
  - destruct (tigger_change_others Unmarshal watchkey "" "" s) as (e & Ht & _).
    destruct (tigger_changes_spec Parse ParseRange watchkey
      (tiggerChangeWatchKeyValue Unmarshal watchkey "" "" s) calls) as (o & Heq & _); [by rewrite Ht|].
    eexists. split; [|split]; [| |cbn [watch_events app handle_all handle]; by rewrite Heq].
    + by eexists.
    + cbn [foldl]. rewrite omap_empty. apply stored_clear.
  - destruct Hold as [|Hold]; [done|].
    destruct (sets_stored watchkey (kv :: kvs) ∅ s) as (s1 & [calls1 Hl1] & Hs1 & Heq1); [by eexists|done| |].
    { unfold stored. by rewrite omap_empty, decide_True. }
    destruct (tigger_changes_spec Parse ParseRange watchkey s1 calls1 Hl1) as (o & Heq & _).
    change (watch_events (kv :: kvs) evs)
      with ((map (fun kv => Set_ (fst kv) (snd kv)) (kv :: kvs) ++ [SetOk]) ++ map to_event evs)%list.
    rewrite <- app_assoc, Heq1. cbn [app handle_all handle]. rewrite Heq. run.
    eexists. split; [|split; [|reflexivity]]; [by eexists|exact Hs1].
Qed.

(** The settings of a watched prefix follow etcd: after the first reading
    [kvs] and any events, they are the decoded keys and values that etcd then
    has, provided every value describes a server, and nothing was left from an
    earlier watch of the prefix. *)
Theorem settings_follow_etcd watchkey kvs evs s :
  is_Some (lsio s) -> (kvs = [] \/ etcdSettings s !! watchkey = None) ->
  Forall (fun kv => describes (fst kv) (snd kv)) kvs -> Forall event_describes evs ->
  exists s', handle_all Unmarshal Parse ParseRange watchkey (watch_events kvs evs) s = Ret s' /\
  inner (etcdSettings s') watchkey =
  omap Unmarshal (foldl kv_event (foldl (fun m kv => <[fst kv := snd kv]> m) ∅ kvs) evs).
Proof.
  intros Hl Hold Hkvs Hevs. destruct (watch_stored watchkey kvs evs s Hl Hold Hkvs Hevs) as (s' & Heq & Hs').
  exists s'. split; [done|]. by apply stored_inner.
Qed.
End theorems.

(** Versions compared as texts, every value a server at one address. *)
Definition demo_Unmarshal (v : string) : option nodeInfo :=
  Some (mkNodeInfo "n" None "" 80 None "10.0.0.1" v).
Definition demo_Parse (v : string) : option string := Some v.
Definition demo_ParseRange (r : string) : option (string -> bool) := Some (String.eqb r).
Definition demo_group : gmap string WatchServerInfo := {["a" := mkWatch "/svc" "1.0.0"]}.
Definition demo_start : State := with_etcdw (Some {["/svc"]}) (with_lsio (Some []) init).
(** One group, and one server of its service. *)
Definition demo_state : State :=
  tiggerChangeWatchKeyValue demo_Unmarshal "/svc" "/svc/1" "1.0.0"
    (fst (AddGroupWatchs (RO:=ascending_order) demo_group "g.json" demo_start)).

Lemma add_group_witness :
  exists s', AddGroupWatchs (RO:=ascending_order) demo_group "g.json" init = (s', None) /\ linked s'.
Proof.
  destruct (proj2 (add_group (RO:=ascending_order) demo_group "g.json" init (linked_init None None)) eq_refl)
    as (s' & H1 & H2 & _). exists s'. split; [exact H1|exact H2].
Defined.

Lemma demo_linked : linked demo_state.
Proof.
  destruct (add_group_linked (RO:=ascending_order) demo_group "g.json" demo_start (linked_init _ _) eq_refl)
    as (s' & H1 & [Hc Hnd Hiff] & _).
  unfold demo_state. rewrite H1. by constructor.
Qed.

Lemma empty_group_witness :
  exists s', EmptyGroupWatchs (RO:=ascending_order) "g.json" demo_state = Ret s' /\
  etcdw s' = Some (dom (namesWithOutputFile s')).
Proof.
  destruct (empty_group (RO:=ascending_order) "g.json" demo_state (dom (namesWithOutputFile demo_state)) demo_linked)
    as (s' & w' & H1 & _ & _ & _ & _ & _ & _ & H2 & _ & H3); [reflexivity|].
  exists s'. split; [exact H1|]. rewrite <- (H3 eq_refl). exact H2.
Defined.

Lemma exported_output_witness :
  exists s' new, tiggerChangesWatchKey (RO:=ascending_order) demo_Parse demo_ParseRange "/svc" demo_state = Ret s' /\
  lsio s' = Some new /\ new.*1 = ["g.json"%string].
Proof.
  destruct (exported_output (RO:=ascending_order) demo_Parse demo_ParseRange "/svc" demo_state [] demo_linked)
    as (s' & new & H1 & H2 & _); [reflexivity|].
  exists s', new. split; [exact H1|]. split; [exact H2|].
  vm_compute in H1. injection H1 as <-. vm_compute in H2. injection H2 as <-. reflexivity.
Defined.

Lemma settings_follow_etcd_witness :
  exists s', handle_all (RO:=ascending_order) demo_Unmarshal demo_Parse demo_ParseRange "/svc"
    (watch_events [("/svc/1", "1.0.0")%string] [Put "/svc/2" "1.0.0" 5 5; Del "/svc/1"]) demo_start = Ret s' /\
  inner (etcdSettings s') "/svc" = {["/svc/2" := mkNodeInfo "n" None "" 80 None "10.0.0.1" "1.0.0"]}.
Proof.
  destruct (settings_follow_etcd (RO:=ascending_order) demo_Unmarshal demo_Parse demo_ParseRange "/svc"
    [("/svc/1", "1.0.0")%string] [Put "/svc/2" "1.0.0" 5 5; Del "/svc/1"] demo_start) as (s' & H1 & H2).
  - eexists. reflexivity.
  - right. reflexivity.
  - constructor; [|constructor]. split; [discriminate|]. split; [discriminate|]. eexists. reflexivity.
  - constructor; [|constructor; [discriminate|constructor]].
    split; [discriminate|]. split; [discriminate|]. eexists. reflexivity.
  - exists s'. split; [exact H1|]. rewrite H2. vm_compute. reflexivity.
Defined.
End EtcdListenTheorems.
