(* ===== verification/EtcdWatcher.v ===== *)
(** * The etcd watches ([src/util/etcd_listen/etcd_watcher.go])

    The file EtcdListen treats the package's variables, one callback at a time.
    Here the watcher runs: a goroutine per watch reads the prefix, then loops
    over the responses of etcd and calls the listener, while the program adds
    and removes watches and groups. One step is a call of the program, an answer
    of etcd, or one call of the listener, which locks the variables it
    changes. *)

From S2P Require Import Prelude GoStrings EtcdListen.

(** ** State *)

(** A watch goroutine: not yet at [mgr.cli.Get]; waiting for [Get]; with calls
    of the listener to make before it opens the watch channel; with calls to
    make, and at the [select] when there are none; returned. *)
Inductive watch_phase := Starting | AtGet | Reading (evs : list event) | Calls (evs : list event) | Returned.

(** [read] and [seen] record what etcd answered, for the statements: the
    key-values of [Get] and the events of the responses. *)
Record watch := mkWatcher {
  w_key : string;
  w_phase : watch_phase;
  cancelled : bool;
  read : list (string * string);
  seen : list etcd_event
}.

(** [mgr] is [closeHandler], by the number of the goroutine that is cancelled;
    [cli] says whether there is a client; [app] are the package's variables. *)
Record System := mkSystem {
  mgr : gmap string nat;
  watches : list watch;
  cli : bool;
  app : State;
  crashed : option panic
}.

Definition with_app (a : State) (s : System) : System := mkSystem (mgr s) (watches s) (cli s) a (crashed s).
Definition set_watch (g : nat) (w : watch) (s : System) : System :=
  mkSystem (mgr s) (<[g := w]> (watches s)) (cli s) (app s) (crashed s).
Definition crash (p : panic) (s : System) : System := mkSystem (mgr s) (watches s) (cli s) (app s) (Some p).

Definition at_phase (ph : watch_phase) (w : watch) : watch :=
  mkWatcher (w_key w) ph (cancelled w) (read w) (seen w).
Definition cancel (w : watch) : watch := mkWatcher (w_key w) (w_phase w) true (read w) (seen w).

(** The handlers after a change; [etcdw] of the variables is their keys. *)
Definition with_mgr (m : gmap string nat) (ws : list watch) (s : System) : System :=
  mkSystem m ws (cli s) (with_etcdw (Some (dom m)) (app s)) (crashed s).

Definition mgr_AddWatch (key : string) (s : System) : System * bool :=
  match mgr s !! key with
  | Some _ => (s, false)
  | None => (with_mgr (<[key := length (watches s)]> (mgr s))
               (watches s ++ [mkWatcher key Starting false [] []])%list s, true)
  end.

Definition mgr_RemoveWatch (key : string) (s : System) : System * bool :=
  match mgr s !! key with
  | None => (s, false)
  | Some g => (with_mgr (delete key (mgr s)) (alter cancel g (watches s)) s, true)
  end.

Section system.
Context {RO : RangeOrder} {version : Type}.
Context (Unmarshal : string -> option nodeInfo)
        (Parse : string -> option version) (ParseRange : string -> option (version -> bool)).

Definition mgr_ClearWatch (s : System) : System :=
  with_mgr ∅ (foldl (fun ws e => alter cancel (snd e) ws) (watches s) (range (mgr s))) s.

(** ** Steps *)

Inductive action :=
(* the program *)
| AddGroup (wsi : gmap string WatchServerInfo) (outputalias : string)
| EmptyGroup (outputalias : string)
| Reload
| DoAddWatch (key : string)
| DoRemoveWatch (key : string)
| DoClearWatch
| CloseClient (wait : bool)                     (* the rest of Close, after ClearWatch *)
(* the goroutine [g] and etcd *)
| CallGet (g : nat)
| GetAnswers (g : nat) (kvs : list (string * string))
| GetFails (g : nat)
| CallListener (g : nat)
| OpenChannel (g : nat)
| Responds (g : nat) (evs : list etcd_event)
| ResponseFails (g : nat)
| ChannelClosed (g : nat)                       (* the zero response: no error and no events *)
| SeesDone (g : nat).

Definition is_returned (w : watch) : bool := match w_phase w with Returned => true | _ => false end.

(** One call of the listener; [ph] is the phase with the calls that remain. *)
Definition call_listener (g : nat) (w : watch) (ph : list event -> watch_phase) (ev : event) (evs : list event)
    (s : System) : option System :=
  match handle Unmarshal Parse ParseRange (w_key w) ev (app s) with
  | Ret a' => Some (set_watch g (at_phase (ph evs) w) (with_app a' s))
  | Panic p => Some (crash p s)
  | Hang => None
  end.

Definition next (a : action) (s : System) : option System :=
  match crashed s with
  | Some _ => None
  | None =>
  match a with
  | AddGroup wsi outputalias => Some (with_app (fst (AddGroupWatchs wsi outputalias (app s))) s)
  | EmptyGroup outputalias =>
      match EmptyGroupWatchs outputalias (app s) with
      | Panic p => Some (crash p s)
      | Hang => None
      | Ret a' =>
          let removed := dom (mgr s) ∖ default ∅ (etcdw a') in
          Some (foldl (fun s key => fst (mgr_RemoveWatch key s)) (with_app a' s) (elements removed))
      end
  | Reload =>
      Some (foldl (fun s e => fst (mgr_AddWatch (fst e) s)) s (range (namesWithOutputFile (app s))))
  | DoAddWatch key => Some (fst (mgr_AddWatch key s))
  | DoRemoveWatch key => Some (fst (mgr_RemoveWatch key s))
  | DoClearWatch => Some (mgr_ClearWatch s)
  | CloseClient wait =>
      if wait && negb (forallb is_returned (watches s)) then None
      else if cli s then Some (mkSystem (mgr s) (watches s) false (app s) (crashed s))
      else Some (crash NilDereference s)
  | CallGet g =>
      match watches s !! g with
      | Some w =>
          match w_phase w with
          | Starting => if cli s then Some (set_watch g (at_phase AtGet w) s) else Some (crash NilDereference s)
          | _ => None
          end
      | None => None
      end
  | GetAnswers g kvs =>
      match watches s !! g with
      | Some w =>
          match w_phase w with
          | AtGet => Some (set_watch g (mkWatcher (w_key w) (Reading (watch_events kvs [])) (cancelled w) kvs []) s)
          | _ => None
          end
      | None => None
      end
  | GetFails g =>
      match watches s !! g with
      | Some w => match w_phase w with AtGet => Some (set_watch g (at_phase Returned w) s) | _ => None end
      | None => None
      end
  | CallListener g =>
      match watches s !! g with
      | Some w =>
          match w_phase w with
          | Reading (ev :: evs) => call_listener g w Reading ev evs s
          | Calls (ev :: evs) => call_listener g w Calls ev evs s
          | _ => None
          end
      | None => None
      end
  | OpenChannel g =>
      match watches s !! g with
      | Some w =>
          match w_phase w with
          | Reading [] => if cli s then Some (set_watch g (at_phase (Calls []) w) s) else Some (crash NilDereference s)
          | _ => None
          end
      | None => None
      end
  | Responds g evs =>
      match watches s !! g with
      | Some w =>
          match w_phase w with
          | Calls [] => Some (set_watch g (mkWatcher (w_key w) (Calls (map to_event evs)) (cancelled w) (read w)
                                             (seen w ++ evs)%list) s)
          | _ => None
          end
      | None => None
      end
  | ResponseFails g =>
      match watches s !! g with
      | Some w => match w_phase w with Calls [] => Some (set_watch g (at_phase Returned w) s) | _ => None end
      | None => None
      end
  | ChannelClosed g =>
      match watches s !! g with
      | Some w => match w_phase w with Calls [] => Some s | _ => None end
      | None => None
      end
  | SeesDone g =>
      match watches s !! g with
      | Some w =>
          match w_phase w with
          | Calls [] => if cancelled w then Some (set_watch g (at_phase Returned w) s) else None
          | _ => None
          end
      | None => None
      end
  end
  end.

Fixpoint run (acts : list action) (s : System) : option System :=
  match acts with
  | [] => Some s
  | a :: acts => next a s ≫= run acts
  end.

Inductive step (s : System) : System -> Prop :=
| step_next a s' : next a s = Some s' -> step s s'.
End system.

(** A watcher that was just made, for the variables [a]. *)
Definition start (a : State) : System := mkSystem ∅ [] true (with_etcdw (Some ∅) a) None.

(** ** Facts *)

Module EtcdWatcherFacts.
Import EtcdListenFacts EtcdListenTheorems.

(** *** One watch per key *)

Section one_watch.
Context {RO : RangeOrder} {version : Type}.
Context (Unmarshal : string -> option nodeInfo)
        (Parse : string -> option version) (ParseRange : string -> option (version -> bool)).
Implicit Types s : System.

(** The handlers are the goroutines that were not cancelled, by their keys, and
    the variables know the keys. *)
Record wf (s : System) : Prop := {
  wf_handler : forall key g, mgr s !! key = Some g ->
    exists w, watches s !! g = Some w /\ w_key w = key /\ cancelled w = false;
  wf_watch : forall g w, watches s !! g = Some w -> cancelled w = false -> mgr s !! w_key w = Some g;
  wf_keys : etcdw (app s) = Some (dom (mgr s));
  wf_lsio : is_Some (lsio (app s))
}.

Lemma wf_start a : is_Some (lsio a) -> wf (start a).
Proof. intros Hl. constructor; cbn; [by intros ? ? ?%lookup_empty_Some|done|by rewrite dom_empty_L|done]. Qed.

Lemma mgr_AddWatch_wf key s : wf s -> wf (fst (mgr_AddWatch key s)).
Proof.
  intros [Hh Hw Hk Hl]. unfold mgr_AddWatch. destruct (mgr s !! key) eqn:Hkey; [by constructor|].
  constructor; cbn [fst with_mgr mgr watches app etcdw with_etcdw]; [| |done|done].
  - intros key' g. destruct (decide (key' = key)) as [->|Hne].
    + rewrite lookup_insert_eq. intros [= <-]. eexists. by rewrite list_lookup_middle.
    + rewrite lookup_insert_ne by done. intros (w & Hg & ?)%Hh. exists w. split; [|done]. by apply lookup_app_l_Some.
  - intros g w Hg Hc. apply lookup_app_Some in Hg as [Hg|[Hlen Hg]].
    + pose proof (Hw g w Hg Hc). by rewrite lookup_insert_ne by congruence.
    + apply list_lookup_singleton_Some in Hg as [Hz <-]. cbn [w_key]. rewrite lookup_insert_eq. f_equal. lia.
Qed.

Lemma mgr_RemoveWatch_wf key s : wf s -> wf (fst (mgr_RemoveWatch key s)).
Proof.
  intros [Hh Hw Hk Hl]. unfold mgr_RemoveWatch. destruct (mgr s !! key) as [g|] eqn:Hkey; [|by constructor].
  destruct (Hh key g Hkey) as (w & Hg & Hwk & _).
  constructor; cbn [fst with_mgr mgr watches app etcdw with_etcdw]; [| |done|done].
  - intros key' g' [Hne Hg']%lookup_delete_Some. destruct (Hh _ _ Hg') as (w' & Hw' & Hk' & Hc').
    exists w'. rewrite list_lookup_alter_ne; [done|]. intros <-. simplify_eq.
  - intros g' w' Hg' Hc'. destruct (decide (g = g')) as [<-|Hne].
    + rewrite list_lookup_alter_eq, Hg in Hg'. cbn in Hg'. injection Hg' as <-. done.
    + rewrite list_lookup_alter_ne in Hg' by done. pose proof (Hw g' w' Hg' Hc') as Hm.
      rewrite lookup_delete_ne; [done|]. intros ->. congruence.
Qed.

(** Cancelling every goroutine of a list. *)
Lemma cancel_all_lookup (l : list (string * nat)) (ws : list watch) g :
  foldl (fun ws e => alter cancel (snd e) ws) ws l !! g =
  (if bool_decide (g ∈ l.*2) then cancel else id) <$> ws !! g.
Proof.
  revert ws. induction l as [|[key h] l IH]; intros ws; [by rewrite option_fmap_id|]. cbn [foldl snd]. rewrite IH.
  cbn [fmap list_fmap snd]. destruct (decide (g = h)) as [->|Hne].
  - rewrite list_lookup_alter_eq, (bool_decide_eq_true_2 (h ∈ h :: l.*2)) by (by left).
    destruct (ws !! h) as [w|]; [|done]. cbn. by case_bool_decide.
  - rewrite list_lookup_alter_ne by done. rewrite (bool_decide_ext (g ∈ l.*2) (g ∈ h :: l.*2)); [done|set_solver].
Qed.

Lemma mgr_ClearWatch_wf s : wf s -> wf (mgr_ClearWatch s).
Proof.
  intros [Hh Hw Hk Hl]. constructor; cbn [mgr_ClearWatch with_mgr mgr watches app etcdw with_etcdw]; [by intros ? ? ?%lookup_empty_Some| |done|done].
  intros g w. rewrite cancel_all_lookup. case_bool_decide as Hg.
  - intros (w' & _ & ->)%fmap_Some. done.
  - rewrite option_fmap_id. intros Hwg Hc. exfalso. apply Hg. specialize (Hw g w Hwg Hc).
    apply list_elem_of_fmap. exists (w_key w, g). split; [done|]. by apply elem_of_range.
Qed.

Lemma set_watch_wf g w w' s :
  wf s -> watches s !! g = Some w -> w_key w' = w_key w -> cancelled w' = cancelled w -> wf (set_watch g w' s).
Proof.
  intros [Hh Hw Hk Hl] Hg Ek Ec. constructor; cbn [set_watch mgr watches app]; [| |done|done].
  - intros key h Hm. destruct (Hh key h Hm) as (v & Hv & Hkv & Hcv). destruct (decide (h = g)) as [->|Hne].
    + simplify_eq. exists w'. rewrite list_lookup_insert_eq by by eapply lookup_lt_Some. by rewrite Ek, Ec.
    + exists v. by rewrite list_lookup_insert_ne.
  - intros h v Hv Hc. destruct (decide (h = g)) as [->|Hne].
    + rewrite list_lookup_insert_eq in Hv by by eapply lookup_lt_Some. injection Hv as <-. rewrite Ek. apply Hw; congruence.
    + rewrite list_lookup_insert_ne in Hv by done. by apply Hw.
Qed.

Lemma with_app_wf a s : wf s -> etcdw a = etcdw (app s) -> is_Some (lsio a) -> wf (with_app a s).
Proof. intros [Hh Hw Hk Hl] Ha. constructor; cbn; [done|done|by rewrite Ha|done]. Qed.

Lemma foldl_inv {A B} (P : A -> Prop) (f : A -> B -> A) l x :
  (forall x y, P x -> P (f x y)) -> P x -> P (foldl f x l).
Proof. intros Hf. revert x. induction l as [|y l IH]; intros x Hx; [done|]. apply IH. by apply Hf. Qed.

(** *** What the operations leave alone *)

Lemma empty_loop_frame a entries (s s' : State) :
  empty_loop a entries s = Ret s' ->
  etcdSettings s' = etcdSettings s /\ lsio s' = lsio s /\
  forall w, etcdw s = Some w -> exists w', etcdw s' = Some w' /\ w' ⊆ w.
Proof.
  revert s. induction entries as [|e entries IH]; intros s; cbn [empty_loop].
  { intros [= <-]. split_and!; [done..|]. intros w Hw. by exists w. }
  case_decide; [|by intros (? & ? & ?)%IH].
  cbn [etcdw with_names]. destruct (etcdw s) as [w|]; [|done].
  intros (He & Hl & Hsub)%IH. split_and!; [done..|]. intros w0 [= <-].
  destruct (Hsub _ eq_refl) as (w' & Hw' & Hle). exists w'. split; [done|].
  unfold RemoveWatch in Hle. case_decide; cbn in Hle; set_solver.
Qed.

Lemma EmptyGroup_frame a (s s' : State) :
  EmptyGroupWatchs a s = Ret s' ->
  etcdSettings s' = etcdSettings s /\ lsio s' = lsio s /\
  forall w, etcdw s = Some w -> exists w', etcdw s' = Some w' /\ w' ⊆ w.
Proof.
  unfold EmptyGroupWatchs. cbn [outputFileHasKeys with_output].
  destruct (outputFileHasKeys s !! a); [|intros [= <-]; split_and!; [done..|]; intros w Hw; by exists w].
  intros H%empty_loop_frame. exact H.
Qed.

Lemma AddGroup_frame wsi a (s : State) :
  let s' := fst (AddGroupWatchs wsi a s) in
  etcdSettings s' = etcdSettings s /\ lsio s' = lsio s /\ etcdw s' = etcdw s.
Proof. unfold AddGroupWatchs. cbn zeta. by repeat case_match. Qed.

(** *** The settings of one key *)

(** What a change does to the settings of its watched key. *)
Definition change (key value : string) (o : option (gmap string nodeInfo)) : option (gmap string nodeInfo) :=
  if String.eqb key "" then None
  else if String.eqb value "" then
    match o with
    | None => None
    | Some nodes => if decide (is_Some (nodes !! key))
                    then if decide (delete key nodes = ∅) then None else Some (delete key nodes)
                    else Some nodes
    end
  else match Unmarshal value with
       | Some ni => Some (<[key := ni]> (default ∅ o))
       | None => Some (default ∅ o)
       end.
Definition settle (o : option (gmap string nodeInfo)) (ev : event) : option (gmap string nodeInfo) :=
  match ev with
  | Set_ k v | Create k v | Modify k v => change k v o
  | SetOk => o
  | Delete k => change k "" o
  | Empty => change "" "" o
  end.

Lemma tigger_change key k v (a : State) :
  etcdSettings (tiggerChangeWatchKeyValue Unmarshal key k v a) !! key = change k v (etcdSettings a !! key).
Proof.
  unfold tiggerChangeWatchKeyValue, change. destruct (String.eqb k ""); [apply lookup_delete_eq|].
  destruct (String.eqb v "").
  - destruct (etcdSettings a !! key) as [nodes|] eqn:Ho; [|done].
    destruct (nodes !! k) as [ni|] eqn:Hn.
    + rewrite (decide_True (P:=is_Some (Some ni))) by by eexists.
      case_decide; cbn; [apply lookup_delete_eq|apply lookup_insert_eq].
    + rewrite (decide_False (P:=is_Some None)) by by intros []. done.
  - destruct (etcdSettings a !! key) as [nodes|] eqn:Ho, (Unmarshal v); cbn;
      rewrite ?lookup_insert_eq; unfold inner; rewrite ?Ho, ?lookup_insert_eq; done.
Qed.

(** A call of the listener works as soon as there is something to export to; it
    settles the key it is for and leaves the other keys alone. *)
Lemma handle_spec key ev (a : State) :
  is_Some (lsio a) ->
  exists a', handle Unmarshal Parse ParseRange key ev a = Ret a' /\
  is_Some (lsio a') /\ etcdw a' = etcdw a /\ etcdSettings a' !! key = settle (etcdSettings a !! key) ev /\
  forall k, k <> key -> etcdSettings a' !! k = etcdSettings a !! k.
Proof.
  intros [calls Hl].
  assert (forall a0, lsio a0 = Some calls -> exists a', tiggerChangesWatchKey Parse ParseRange key a0 = Ret a' /\
    is_Some (lsio a') /\ etcdw a' = etcdw a0 /\ etcdSettings a' = etcdSettings a0) as Hex.
  { intros a0 H0. destruct (tigger_changes_spec Parse ParseRange key a0 calls H0) as (o & -> & _).
    eexists. by split_and!. }
  assert (forall k v, let a1 := tiggerChangeWatchKeyValue Unmarshal key k v a in
    lsio a1 = Some calls /\ etcdw a1 = etcdw a /\ etcdSettings a1 !! key = change k v (etcdSettings a !! key) /\
    forall k', k' <> key -> etcdSettings a1 !! k' = etcdSettings a !! k') as Hch.
  { intros k v a1. pose proof (tigger_change key k v a) as Hc. fold a1 in Hc. split_and!; [..|done|];
      unfold a1; by destruct (tigger_change_others Unmarshal key k v a) as (e & -> & He). }
  assert (forall k v, exists a', tiggerChangesWatchKey Parse ParseRange key (tiggerChangeWatchKeyValue Unmarshal key k v a) = Ret a' /\
    is_Some (lsio a') /\ etcdw a' = etcdw a /\ etcdSettings a' !! key = change k v (etcdSettings a !! key) /\
    forall k', k' <> key -> etcdSettings a' !! k' = etcdSettings a !! k') as Hboth.
  { intros k v. destruct (Hch k v) as (H1 & H2 & H3 & H4).
    destruct (Hex _ H1) as (a' & Ha & Hl' & Hw' & Hs'). exists a'. rewrite Hw', Hs'. by split_and!. }
  destruct ev; cbn [handle settle]; try apply Hboth.
  - destruct (Hch key0 value) as (H1 & H2 & H3 & H4). eexists. split; [done|]. by rewrite H1.
  - destruct (Hex a Hl) as (a' & Ha & Hl' & Hw' & Hs'). exists a'. by rewrite Hs'.
Qed.

Lemma handle_all_settle key evs (a : State) :
  is_Some (lsio a) ->
  exists a', handle_all Unmarshal Parse ParseRange key evs a = Ret a' /\
  etcdSettings a' !! key = foldl settle (etcdSettings a !! key) evs.
Proof.
  revert a. induction evs as [|ev evs IH]; intros a Hl; [by exists a|].
  destruct (handle_spec key ev a Hl) as (a1 & Ha1 & Hl1 & _ & Hs1 & _).
  destruct (IH a1 Hl1) as (a' & Ha' & Hs'). exists a'. cbn [handle_all foldl]. rewrite Ha1. run. by rewrite <- Hs1.
Qed.

(** *** Steps *)

(** A step that neither reads nor calls: watches are added, or change but for
    what they know; the settings stay. *)
Definition same (w w' : watch) : Prop :=
  w_key w' = w_key w /\ w_phase w' = w_phase w /\ read w' = read w /\ seen w' = seen w.
Record extends (s s' : System) : Prop := {
  ext_old : forall g w, watches s !! g = Some w -> exists w', watches s' !! g = Some w' /\ same w w';
  ext_new : forall g w', watches s' !! g = Some w' ->
    (exists w, watches s !! g = Some w /\ same w w') \/ (watches s !! g = None /\ w_phase w' = Starting);
  ext_settings : etcdSettings (app s') = etcdSettings (app s)
}.

Lemma same_trans w1 w2 w3 : same w1 w2 -> same w2 w3 -> same w1 w3.
Proof. intros (? & ? & ? & ?) (? & ? & ? & ?). unfold same. split_and!; congruence. Qed.

Lemma extends_refl s : extends s s.
Proof.
  constructor; [intros g w Hg; by exists w|intros g w Hg; left; by exists w|done].
Qed.

Lemma extends_trans s1 s2 s3 : extends s1 s2 -> extends s2 s3 -> extends s1 s3.
Proof.
  intros [O1 N1 E1] [O2 N2 E2]. constructor; [..|congruence].
  - intros g w Hg. destruct (O1 g w Hg) as (w2 & Hg2 & H2). destruct (O2 g w2 Hg2) as (w3 & Hg3 & H3).
    exists w3. split; [done|]. by eapply same_trans.
  - intros g w3 Hg3. destruct (N2 g w3 Hg3) as [(w2 & Hg2 & H2)|[Hg2 Hp]].
    + destruct (N1 g w2 Hg2) as [(w1 & Hg1 & H1)|[Hg1 Hp]].
      * left. exists w1. split; [done|]. by eapply same_trans.
      * right. split; [done|]. destruct H2 as (_ & Hph & _). congruence.
    + right. split; [|done]. destruct (watches s1 !! g) as [w|] eqn:Hg; [|done].
      destruct (O1 g w Hg) as (w2 & Hg2' & _). congruence.
Qed.

Lemma extends_cancel s m (ws : list watch) c a x :
  (forall g, ws !! g = watches s !! g \/ ws !! g = cancel <$> watches s !! g) ->
  etcdSettings a = etcdSettings (app s) -> extends s (mkSystem m ws c a x).
Proof.
  intros Hws Ha. constructor; cbn [watches app]; [..|done]; intros g w Hg; destruct (Hws g) as [Hw|Hw]; rewrite Hw in *.
  - by exists w.
  - rewrite Hg. by exists (cancel w).
  - left. by exists w.
  - apply fmap_Some in Hg as (w0 & Hg & ->). left. by exists w0.
Qed.

Lemma AddWatch_extends key s : extends s (fst (mgr_AddWatch key s)).
Proof.
  unfold mgr_AddWatch. destruct (mgr s !! key); [apply extends_refl|].
  constructor; cbn [fst with_mgr watches app etcdSettings with_etcdw]; [| |done].
  - intros g w Hg. exists w. split; [by apply lookup_app_l_Some|done].
  - intros g w [Hg|[Hlen Hg]]%lookup_app_Some; [left; by exists w|right].
    apply list_lookup_singleton_Some in Hg as [_ <-]. split; [by apply lookup_ge_None|done].
Qed.

Lemma RemoveWatch_extends key s : extends s (fst (mgr_RemoveWatch key s)).
Proof.
  unfold mgr_RemoveWatch. destruct (mgr s !! key) as [g|]; [|apply extends_refl].
  apply extends_cancel; [|done]. intros h. destruct (decide (g = h)) as [<-|Hne].
  - right. apply list_lookup_alter_eq.
  - left. by apply list_lookup_alter_ne.
Qed.

Lemma ClearWatch_extends s : extends s (mgr_ClearWatch s).
Proof.
  apply extends_cancel; [|done]. intros g. rewrite cancel_all_lookup.
  case_bool_decide; [by right|left; apply option_fmap_id].
Qed.

(** What a goroutine does to itself, and what one call of the listener does. *)
Lemma foldl_extends {B} (f : System -> B -> System) l s :
  (forall s y, extends s (f s y)) -> extends s (foldl f s l).
Proof.
  intros Hf. apply (foldl_inv (extends s)); [|apply extends_refl].
  intros s' y Hs. eapply extends_trans; [exact Hs|apply Hf].
Qed.

Lemma with_app_extends a s : etcdSettings a = etcdSettings (app s) -> extends s (with_app a s).
Proof. intros Ha. apply (extends_cancel s _ _ _ a); [|done]. intros g. by left. Qed.

(** The steps of a watch by itself: its phase and what it knows before and
    after. *)
Inductive moves : watch_phase * list (string * string) * list etcd_event ->
    watch_phase * list (string * string) * list etcd_event -> Prop :=
| move_get r e : moves (Starting, r, e) (AtGet, r, e)
| move_answer r e kvs : moves (AtGet, r, e) (Reading (watch_events kvs []), kvs, [])
| move_open r e : moves (Reading [], r, e) (Calls [], r, e)
| move_respond r e evs : moves (Calls [], r, e) (Calls (map to_event evs), r, (e ++ evs)%list)
| move_return ph r e : moves (ph, r, e) (Returned, r, e).

Definition state_of (w : watch) := (w_phase w, read w, seen w).

(** The kinds of step. *)
Inductive effect (s s' : System) : Prop :=
| effect_crash p : s' = crash p s -> effect s s'
| effect_extends : extends s s' -> (wf s -> wf s') -> effect s s'
| effect_move g w w' : watches s !! g = Some w -> moves (state_of w) (state_of w') ->
    w_key w' = w_key w -> cancelled w' = cancelled w -> s' = set_watch g w' s -> effect s s'
| effect_call g w ph ev evs a' : watches s !! g = Some w -> (ph = Reading \/ ph = Calls) ->
    w_phase w = ph (ev :: evs) -> handle Unmarshal Parse ParseRange (w_key w) ev (app s) = Ret a' ->
    s' = set_watch g (at_phase (ph evs) w) (with_app a' s) -> effect s s'.

Lemma wf_crash p s : wf s -> wf (crash p s).
Proof. intros [Hh Hw Hk Hl]. by constructor. Qed.

Lemma call_listener_effect g w ph ev evs s s' :
  watches s !! g = Some w -> (ph = Reading \/ ph = Calls) -> w_phase w = ph (ev :: evs) ->
  call_listener Unmarshal Parse ParseRange g w ph ev evs s = Some s' -> effect s s'.
Proof.
  intros Hg Hph Hw. unfold call_listener. destruct handle eqn:Hh; [|..]; intros [= <-].
  - by eapply effect_call.
  - by eapply effect_crash.
Qed.

Lemma effect_wf s s' : wf s -> effect s s' -> wf s'.
Proof.
  intros Hwf [p ->|_ Hext|g w w' Hg _ Ek Ec ->|g w ph ev evs a' Hg _ _ Ha ->]; [by apply wf_crash|by apply Hext|..].
  - by eapply set_watch_wf.
  - destruct (handle_spec (w_key w) ev (app s) (wf_lsio _ Hwf)) as (a1 & Ha1 & Hl & Hw & _).
    rewrite Ha in Ha1. injection Ha1 as <-. apply (set_watch_wf g w); [by apply with_app_wf|done..].
Qed.

(** The variables with the keys of the handlers; removing a watch keeps them in
    step. *)
Definition tell_keys s : System := with_app (with_etcdw (Some (dom (mgr s))) (app s)) s.

Lemma tell_keys_known s : etcdw (app s) = Some (dom (mgr s)) -> tell_keys s = s.
Proof.
  destruct s as [m ws c [? ? ? ? e ?] x]. unfold tell_keys, with_app, with_etcdw. cbn. by intros ->.
Qed.

Lemma RemoveWatch_tell_keys key s :
  fst (mgr_RemoveWatch key (tell_keys s)) = tell_keys (fst (mgr_RemoveWatch key s)).
Proof. unfold mgr_RemoveWatch. cbn [tell_keys with_app mgr]. by destruct (mgr s !! key). Qed.

Definition remove_all (l : list string) s : System := foldl (fun s key => fst (mgr_RemoveWatch key s)) s l.

Lemma remove_all_tell_keys l s : remove_all l (tell_keys s) = tell_keys (remove_all l s).
Proof.
  unfold remove_all. revert s. induction l as [|key l IH]; intros s; [done|].
  cbn [foldl]. by rewrite RemoveWatch_tell_keys, IH.
Qed.

Lemma remove_all_known l s : etcdw (app s) = Some (dom (mgr s)) -> tell_keys (remove_all l s) = remove_all l s.
Proof. intros Hs. by rewrite <- remove_all_tell_keys, tell_keys_known. Qed.

Lemma EmptyGroup_wf a s a' :
  EmptyGroupWatchs a (app s) = Ret a' -> wf s ->
  wf (remove_all (elements (dom (mgr s) ∖ default ∅ (etcdw a'))) (with_app a' s)).
Proof.
  intros (_ & Hl & Hsub)%EmptyGroup_frame [Hh Hw Hk Hls].
  destruct (Hsub _ Hk) as (w' & Hw' & Hle). rewrite Hw'. change (default ∅ (Some w')) with w'.
  set (s1 := with_app a' s). assert (wf (tell_keys s1)) as Ht by (constructor; cbn; try done; by rewrite Hl).
  apply (foldl_inv wf (fun s key => fst (mgr_RemoveWatch key s)) (elements (dom (mgr s) ∖ w'))) in Ht.
  2: { intros x y. apply mgr_RemoveWatch_wf. }
  change (wf (remove_all (elements (dom (mgr s) ∖ w')) (tell_keys s1))) in Ht.
  rewrite remove_all_tell_keys in Ht.
  destruct (elements (dom (mgr s) ∖ w')) as [|key l] eqn:El.
  - rewrite tell_keys_known in Ht; [done|]. cbn. rewrite Hw'. f_equal. apply (anti_symm (⊆)); [done|].
    apply elements_empty_iff in El. set_solver.
  - change (remove_all (key :: l) s1) with (remove_all l (fst (mgr_RemoveWatch key s1))) in *. destruct (mgr s !! key) as [g|] eqn:Hg.
    + rewrite remove_all_known in Ht; [done|]. unfold mgr_RemoveWatch, s1. cbn [with_app mgr]. by rewrite Hg.
    + exfalso. apply not_elem_of_dom in Hg. apply Hg.
      assert (key ∈ elements (dom (mgr s) ∖ w')) as Hin by (rewrite El; by left). set_solver.
Qed.

Ltac move_by w :=
  eapply effect_move with (w := w); [eassumption| |..|reflexivity]; [|reflexivity..]; unfold state_of;
  cbn [w_phase at_phase read seen];
  match goal with H : w_phase w = _ |- _ => rewrite H end; constructor.

Lemma next_effect a s s' : next Unmarshal Parse ParseRange a s = Some s' -> effect s s'.
Proof.
  unfold next. destruct (crashed s) eqn:Hc; [done|].
  destruct a; repeat case_match; intros; simplify_eq; try (by eapply effect_crash);
    try match goal with w : watch |- _ => move_by w end;
    try (by (eapply (call_listener_effect _ _ Reading) + eapply (call_listener_effect _ _ Calls)); eauto).
  - destruct (AddGroup_frame wsi outputalias (app s)) as (He & Hl & Hw).
    apply effect_extends; [by apply with_app_extends|]. intros Hwf. apply with_app_wf; [done..|].
    rewrite Hl. apply Hwf.
  - apply effect_extends; [|by eapply EmptyGroup_wf]. eapply extends_trans; [apply with_app_extends|].
    + by eapply EmptyGroup_frame.
    + apply foldl_extends. intros. apply RemoveWatch_extends.
  - apply effect_extends; [apply foldl_extends; intros; apply AddWatch_extends|].
    intros. apply foldl_inv; [intros; by apply mgr_AddWatch_wf|done].
  - apply effect_extends; [apply AddWatch_extends|apply mgr_AddWatch_wf].
  - apply effect_extends; [apply RemoveWatch_extends|apply mgr_RemoveWatch_wf].
  - apply effect_extends; [apply ClearWatch_extends|apply mgr_ClearWatch_wf].
  - apply effect_extends; [apply extends_cancel; [by left|done]|]. intros [Hh Hw Hk Hl]. by constructor.
  - apply effect_extends; [apply extends_refl|done].
Qed.

Lemma steps_wf s s' : wf s -> rtc (step Unmarshal Parse ParseRange) s s' -> wf s'.
Proof.
  intros Hwf Hs. induction Hs as [|s1 s2 s3 [a s2' Ha] _ IH]; [done|].
  apply IH. eapply effect_wf; [done|]. by eapply next_effect.
Qed.

(** *** The settings of a key with one watch *)

(** The watch [w] of the goroutine [g] is the only one that [key] ever had. *)
Definition sole (key : string) (g : nat) (w : watch) s : Prop :=
  watches s !! g = Some w /\ w_key w = key /\
  forall g' w', watches s !! g' = Some w' -> w_key w' = key -> g' = g.

(** The settings [o] and the calls to come make what the watch knows. *)
Definition on_course (st : watch_phase * list (string * string) * list etcd_event) (o : option (gmap string nodeInfo)) : Prop :=
  let '(ph, r, e) := st in
  match ph with
  | Starting | AtGet => o = None
  | Reading evs | Calls evs => foldl settle o evs = foldl settle None (watch_events r e)
  | Returned => True
  end.

Definition tracks (key : string) s : Prop :=
  ((forall g w, watches s !! g = Some w -> w_key w <> key) -> etcdSettings (app s) !! key = None) /\
  forall g w, sole key g w s -> on_course (state_of w) (etcdSettings (app s) !! key).

Lemma watch_events_app r e evs : watch_events r (e ++ evs) = (watch_events r e ++ map to_event evs)%list.
Proof. unfold watch_events. by rewrite map_app, app_assoc. Qed.

Lemma moves_on_course st st' o :
  moves st st' -> on_course st o -> on_course st' o.
Proof.
  intros [r e|r e kvs|r e|r e evs|ph r e]; cbn; try done.
  - by intros ->.
  - intros ->. by rewrite watch_events_app, foldl_app.
Qed.


Lemma extends_tracks key s s' : extends s s' -> tracks key s -> tracks key s'.
Proof.
  intros [Hold Hnew Hset] [Hno Hone]. unfold tracks. rewrite Hset. split.
  - intros Hk. apply Hno. intros g w Hg Hw. destruct (Hold g w Hg) as (w' & Hg' & Hs & _).
    apply (Hk g w' Hg'). congruence.
  - intros g w' (Hg' & Hkey & Hsole). destruct (Hnew g w' Hg') as [(w & Hg & Hs & Hp & Hr & He)|[Hg Hp]].
    + unfold state_of. rewrite Hp, Hr, He. apply (Hone g w). split_and!; [done|congruence|].
      intros g2 w2 Hg2 Hw2. destruct (Hold g2 w2 Hg2) as (w2' & Hg2' & Hs2 & _). apply (Hsole _ _ Hg2'). congruence.
    + unfold state_of. rewrite Hp. apply Hno. intros g2 w2 Hg2 Hw2.
      destruct (Hold g2 w2 Hg2) as (w2' & Hg2' & Hs2 & _).
      rewrite (Hsole g2 w2' Hg2') in Hg2 by congruence. congruence.
Qed.

(** Changing a goroutine, with what its change and the settings of its key do. *)
Lemma set_watch_tracks key g w w' a s :
  watches s !! g = Some w -> w_key w' = w_key w ->
  (key <> w_key w -> etcdSettings a !! key = etcdSettings (app s) !! key) ->
  (key = w_key w -> on_course (state_of w) (etcdSettings (app s) !! key) ->
   on_course (state_of w') (etcdSettings a !! key)) ->
  tracks key s -> tracks key (set_watch g w' (with_app a s)).
Proof.
  intros Hg Ek Hne Heq [Hno Hone]. assert (g < length (watches s)) as Hlt by by eapply lookup_lt_Some.
  assert (forall g2 w2, watches s !! g2 = Some w2 -> exists w3, <[g := w']> (watches s) !! g2 = Some w3 /\ w_key w3 = w_key w2) as Hin.
  { intros g2 w2 H2. destruct (decide (g2 = g)) as [->|Hg2]; [|exists w2; by rewrite list_lookup_insert_ne].
    exists w'. rewrite list_lookup_insert_eq by done. split; [done|]. congruence. }
  unfold tracks, sole. cbn [set_watch with_app watches app]. split.
  - intros Hk. rewrite Hne.
    + apply Hno. intros g2 w2 H2 Hw2. destruct (Hin g2 w2 H2) as (w3 & H3 & E3). apply (Hk g2 w3 H3). congruence.
    + intros ->. apply (Hk g w'); [by apply list_lookup_insert_eq|done].
  - intros g2 w2 (H2 & E2 & Hs2).
    assert (forall w0, watches s !! g2 = Some w0 -> w_key w0 = key -> sole key g2 w0 s) as Hsole.
    { intros w0 Hw0 Ew0. split_and!; [done..|]. intros g3 w3 H3 E3. destruct (Hin g3 w3 H3) as (w4 & H4 & E4).
      apply (Hs2 g3 w4 H4). congruence. }
    destruct (decide (g2 = g)) as [->|Hg2].
    + rewrite list_lookup_insert_eq in H2 by done. injection H2 as <-.
      apply Heq; [congruence|]. apply (Hone g), Hsole; congruence.
    + rewrite list_lookup_insert_ne in H2 by done. rewrite Hne; [by apply (Hone g2), Hsole|].
      intros ->. apply Hg2. symmetry. apply (Hs2 g w'); [by apply list_lookup_insert_eq|done].
Qed.

Lemma effect_tracks key s s' : wf s -> effect s s' -> tracks key s -> tracks key s'.
Proof.
  intros Hwf [p ->|Hext _|g w w' Hg Hm Ek _ ->|g w ph ev evs a' Hg Hph Hw Ha ->]; [done|by apply extends_tracks|..].
  - apply (set_watch_tracks key g w w' (app s) s); [done..|]. intros _. by apply moves_on_course.
  - destruct (handle_spec (w_key w) ev (app s) (wf_lsio _ Hwf)) as (a1 & Ha1 & _ & _ & Hset & Hframe).
    rewrite Ha in Ha1. injection Ha1 as <-.
    apply (set_watch_tracks key g w); [done..|by apply Hframe|]. intros ->. rewrite Hset.
    unfold state_of. rewrite Hw. by destruct Hph as [-> | ->].
Qed.

Lemma steps_tracks key s s' :
  wf s -> tracks key s -> rtc (step Unmarshal Parse ParseRange) s s' -> tracks key s'.
Proof.
  intros Hwf Ht Hs. revert Hwf Ht. induction Hs as [|s1 s2 s3 [a s2' Ha%next_effect] _ IH]; [done|].
  intros Hwf Ht. apply IH; [by eapply effect_wf|by eapply effect_tracks].
Qed.

Lemma start_tracks key a : etcdSettings a !! key = None -> tracks key (start a).
Proof. intros Ha. split; [done|]. intros g w (Hg & _). done. Qed.

(** *** A key whose watches all returned *)

Definition dead (key : string) s : Prop :=
  forall g w, watches s !! g = Some w -> w_key w = key -> w_phase w = Returned.

(** What the program may do without giving up the watch of [key]: a group may be
    emptied if it does not watch the key, or is not the only one that does. *)
Definition leaves (key : string) s (a : action) : Prop :=
  match a with
  | EmptyGroup a =>
      (forall sname wi, inner (outputFileHasKeys (app s)) a !! sname = Some wi -> WatchName wi <> key) \/
      exists a', a' <> a /\ is_Some (inner (namesWithOutputFile (app s)) key !! a')
  | DoClearWatch => False
  | DoRemoveWatch key' => key' <> key
  | _ => True
  end.
Fixpoint all_leave (key : string) (acts : list action) s : Prop :=
  match acts with
  | [] => True
  | a :: acts => leaves key s a /\ forall s1, next Unmarshal Parse ParseRange a s = Some s1 -> all_leave key acts s1
  end.

Lemma drop_name_others a a' entry names n :
  a' <> a -> inner (drop_name a entry names) n !! a' = inner names n !! a'.
Proof.
  intros Ha. destruct entry as [sname w]. destruct (decide (n = WatchName w)) as [->|Hne].
  2: { unfold inner. by rewrite drop_name_other. }
  assert (forall names' : gmap string (gmap string (list string)), inner match default [] (inner names' (WatchName w) !! a) with
    | [] => match names' !! WatchName w with Some files => <[WatchName w := delete a files]> names' | None => names' end
    | _ => names' end (WatchName w) !! a' = inner names' (WatchName w) !! a') as Hdel.
  { intros names'. destruct (default [] _); [|done]. destruct (names' !! WatchName w) as [files|] eqn:E; [|done].
    rewrite inner_insert, lookup_delete_ne by done. unfold inner. by rewrite E. }
  unfold drop_name. rewrite Hdel. destruct (names !! WatchName w ≫= _) as [l|]; [|done].
  destruct (decide _); [done|]. by rewrite inner_insert, lookup_insert_ne.
Qed.

Lemma empty_loop_keeps a key entries (v v' : State) w :
  etcdw v = Some w -> key ∈ w ->
  Forall (fun e => WatchName (snd e) <> key) entries \/
    (exists a', a' <> a /\ is_Some (inner (namesWithOutputFile v) key !! a')) ->
  empty_loop a entries v = Ret v' -> exists w', etcdw v' = Some w' /\ key ∈ w'.
Proof.
  revert v w. induction entries as [|e entries IH]; intros v w Hw Hin Hkeep; cbn [empty_loop].
  { intros [= <-]. by exists w. }
  set (names1 := drop_name a e (namesWithOutputFile v)).
  assert (forall a', a' <> a -> inner names1 key !! a' = inner (namesWithOutputFile v) key !! a') as Hsame
    by (intros; by apply drop_name_others).
  assert (inner names1 (WatchName (snd e)) = ∅ -> WatchName (snd e) <> key) as Hne.
  { intros He. destruct Hkeep as [Hall|(a' & Ha' & [x Hx])]; [by inversion Hall|]. intros <-.
    rewrite <- (Hsame a' Ha'), He, lookup_empty in Hx. done. }
  cbn [namesWithOutputFile with_names etcdw]. destruct (decide _) as [He|_]; [rewrite Hw|].
  - specialize (Hne He). apply IH with (w := fst (RemoveWatch w (WatchName (snd e)))); cbn.
    + done.
    + unfold RemoveWatch. destruct (decide _); cbn; [|done]. apply elem_of_difference. split; [done|]. set_solver.
    + destruct Hkeep as [Hall|(a' & Ha' & Hx)]; [left; by inversion Hall|right]. exists a'. split; [done|].
      rewrite inner_delete_ne by congruence. by rewrite Hsame.
  - apply IH with (w := w); cbn; [done|done|].
    destruct Hkeep as [Hall|(a' & Ha' & Hx)]; [left; by inversion Hall|right]. exists a'. split; [done|]. by rewrite Hsame.
Qed.

(** The handler of [key] is not replaced, and no watch of it is added. *)
Definition holds (key : string) (g : nat) s s' : Prop :=
  mgr s !! key = Some g ->
  mgr s' !! key = Some g /\
  forall h w', watches s' !! h = Some w' -> w_key w' = key -> exists w, watches s !! h = Some w /\ w_key w = key.

Lemma holds_trans key g s1 s2 s3 : holds key g s1 s2 -> holds key g s2 s3 -> holds key g s1 s3.
Proof.
  intros H1 H2 Hg. destruct (H1 Hg) as [Hg1 Hw1]. destruct (H2 Hg1) as [Hg2 Hw2]. split; [done|].
  intros h w Hh Hk. destruct (Hw2 h w Hh Hk) as (w2 & ? & ?). by eapply Hw1.
Qed.

Lemma holds_watches key g m ws c a x s :
  (forall h, w_key <$> ws !! h = w_key <$> watches s !! h) -> m !! key = mgr s !! key ->
  holds key g s (mkSystem m ws c a x).
Proof.
  intros Hws Hm Hg. cbn. rewrite Hm. split; [done|]. intros h w' Hh Hk. specialize (Hws h).
  rewrite Hh in Hws. symmetry in Hws. apply fmap_Some in Hws as (w & Hw & Ew). exists w. split; [done|]. congruence.
Qed.

Lemma holds_refl key g s : holds key g s s.
Proof. intros Hg. split; [done|]. by eauto. Qed.

Lemma AddWatch_holds key g key' s : holds key g s (fst (mgr_AddWatch key' s)).
Proof.
  unfold mgr_AddWatch. destruct (mgr s !! key') eqn:Hk; [apply holds_refl|]. intros Hg. cbn.
  rewrite lookup_insert_ne by congruence. split; [done|].
  intros h w' [Hh|[_ Hh]]%lookup_app_Some Hw; [by exists w'|].
  apply list_lookup_singleton_Some in Hh as [_ <-]. cbn in Hw. congruence.
Qed.

Lemma RemoveWatch_holds key g key' s : key' <> key -> holds key g s (fst (mgr_RemoveWatch key' s)).
Proof.
  intros Hne. unfold mgr_RemoveWatch. destruct (mgr s !! key') as [g'|]; [|apply holds_refl].
  apply holds_watches; [|by apply lookup_delete_ne]. intros h. destruct (decide (g' = h)) as [<-|Hh].
  - rewrite list_lookup_alter_eq. by destruct (watches s !! g').
  - by rewrite list_lookup_alter_ne.
Qed.

Lemma set_watch_holds key g h w w' a s :
  watches s !! h = Some w -> w_key w' = w_key w -> holds key g s (set_watch h w' (with_app a s)).
Proof.
  intros Hh Ek. apply holds_watches; [|done]. intros h'. cbn [with_app watches].
  destruct (decide (h' = h)) as [->|Hne]; [|by rewrite list_lookup_insert_ne].
  rewrite list_lookup_insert_eq by by eapply lookup_lt_Some. rewrite Hh. cbn. by rewrite Ek.
Qed.

Lemma EmptyGroup_holds key g a s v :
  wf s -> leaves key s (EmptyGroup a) -> mgr s !! key = Some g -> EmptyGroupWatchs a (app s) = Ret v ->
  holds key g s (foldl (fun s key => fst (mgr_RemoveWatch key s)) (with_app v s)
    (elements (dom (mgr s) ∖ default ∅ (etcdw v)))).
Proof.
  intros Hwf Hl Hg Hv. assert (exists w', etcdw v = Some w' /\ key ∈ w') as (w' & Hw' & Hin).
  { assert (key ∈ dom (mgr s)) as Hdom by by eapply elem_of_dom_2. unfold EmptyGroupWatchs in Hv.
    cbn [outputFileHasKeys with_output] in Hv. destruct (outputFileHasKeys (app s) !! a) as [group|] eqn:Ha.
    - refine (empty_loop_keeps a key _ _ v (dom (mgr s)) (wf_keys _ Hwf : etcdw (with_keys _ (with_output _ (app s))) = _) Hdom _ Hv).
      destruct Hl as [Hno|Hother]; [left|by right].
      apply Forall_forall. intros [sname wi] He%elem_of_range. cbn. apply (Hno sname). unfold inner. by rewrite Ha.
    - injection Hv as <-. exists (dom (mgr s)). split; [apply (wf_keys _ Hwf)|done]. }
  rewrite Hw'. cbn [default from_option id].
  assert (Forall (fun k => k <> key) (elements (dom (mgr s) ∖ w'))) as Hne.
  { apply Forall_forall. intros k Hk%elem_of_elements ->. set_solver. }
  eapply holds_trans; [by apply (holds_watches key g (mgr s) (watches s) (cli s) v (crashed s))|].
  change (mkSystem _ _ _ v _) with (with_app v s). generalize (with_app v s). clear -Hne.
  induction Hne as [|k l Hk _ IH]; intros s1; [apply holds_refl|]. cbn [foldl].
  eapply holds_trans; [by apply RemoveWatch_holds|apply IH].
Qed.

Lemma next_holds key g a s s' :
  wf s -> mgr s !! key = Some g ->
  leaves key s a -> next Unmarshal Parse ParseRange a s = Some s' -> holds key g s s'.
Proof.
  intros Hwf Hg Hl. unfold next. destruct (crashed s); [done|].
  destruct a; try done; repeat case_match; intros; simplify_eq; try apply holds_refl; try (by apply holds_watches);
    try (by apply (set_watch_holds key g g0 w _ (app s)));
    try (unfold call_listener in *; destruct handle; [|..]; simplify_eq; [by eapply set_watch_holds|by apply holds_watches]).
  - by eapply EmptyGroup_holds.
  - apply (foldl_inv (holds key g s)); [|apply holds_refl]. intros s1 e Hs1. eapply holds_trans; [done|].
    apply AddWatch_holds.
  - apply AddWatch_holds.
  - by apply RemoveWatch_holds.
Qed.

(** Such a step leaves a key alone whose watches all returned. *)
Lemma effect_dead key g s s' :
  wf s -> effect s s' -> holds key g s s' -> mgr s !! key = Some g -> dead key s ->
  dead key s' /\ mgr s' !! key = Some g /\ etcdSettings (app s') !! key = etcdSettings (app s) !! key.
Proof.
  intros Hwf He Hh Hg Hd. destruct (Hh Hg) as [Hg' Hin].
  assert (forall h w w', watches s !! h = Some w -> (w_key w = key -> w_phase w' = Returned) -> w_key w' = w_key w ->
    dead key (set_watch h w' s)) as Hset.
  { intros h w w' Hw Hp Ek h' w2 H2 E2. destruct (decide (h' = h)) as [->|Hne]; cbn [set_watch watches] in H2.
    - rewrite list_lookup_insert_eq in H2 by by eapply lookup_lt_Some. injection H2 as <-. apply Hp. congruence.
    - rewrite list_lookup_insert_ne in H2 by done. by apply (Hd h'). }
  split_and!; [|done|]; destruct He as [p ->|[Hold _ Hs] _|h w w' Hw Hm Ek _ ->|h w ph ev evs a' Hw Hph Hp Ha ->]; try done.
  - intros h w' Hw' Hk. destruct (Hin h w' Hw' Hk) as (w & Hw & Ew).
    destruct (Hold h w Hw) as (w2 & Hw2 & _ & Hp & _). assert (w2 = w') as <- by congruence.
    rewrite Hp. by apply (Hd h).
  - apply (Hset h w); [done| |done]. intros Hk. pose proof (Hd h w Hw Hk) as Hp.
    unfold state_of in Hm. rewrite Hp in Hm. inversion Hm; congruence.
  - apply (Hset h w (at_phase (ph evs) w)); [done| |done]. intros Hk. pose proof (Hd h w Hw Hk).
    destruct Hph as [-> | ->]; congruence.
  - by rewrite Hs.
  - destruct (handle_spec (w_key w) ev (app s) (wf_lsio _ Hwf)) as (a1 & Ha1 & _ & _ & _ & Hframe).
    rewrite Ha in Ha1. injection Ha1 as <-. apply Hframe. intros ->. pose proof (Hd h w Hw eq_refl).
    destruct Hph as [-> | ->]; congruence.
Qed.

Lemma run_dead key g acts s s' :
  wf s -> mgr s !! key = Some g -> dead key s -> all_leave key acts s ->
  run Unmarshal Parse ParseRange acts s = Some s' ->
  dead key s' /\ mgr s' !! key = Some g /\ etcdSettings (app s') !! key = etcdSettings (app s) !! key.
Proof.
  revert s. induction acts as [|a acts IH]; intros s Hwf Hg Hd; cbn [run all_leave].
  { intros _ [= <-]. done. }
  intros [Ha Hacts] (s1 & H1 & Hrun)%bind_Some. pose proof (next_effect _ _ _ H1) as He.
  destruct (effect_dead key g s s1 Hwf He (next_holds _ _ _ _ _ Hwf Hg Ha H1) Hg Hd) as (Hd1 & Hg1 & Hs1).
  rewrite <- Hs1. apply IH; [by eapply effect_wf|done|done|by apply Hacts|done].
Qed.

Lemma run_steps acts s s' :
  run Unmarshal Parse ParseRange acts s = Some s' -> rtc (step Unmarshal Parse ParseRange) s s'.
Proof.
  revert s. induction acts as [|a acts IH]; intros s; cbn [run]; [by intros [= <-]|].
  intros (s1 & H1 & Hrun)%bind_Some. eapply rtc_l; [by econstructor|by apply IH].
Qed.
End one_watch.
End EtcdWatcherFacts.

(** ** Theorems *)

Module EtcdWatcherTheorems.
Import EtcdListenFacts EtcdListenTheorems EtcdWatcherFacts.

Section theorems.
Context {RO : RangeOrder} {version : Type}.
Context (Unmarshal : string -> option nodeInfo)
        (Parse : string -> option version) (ParseRange : string -> option (version -> bool)).

(** C11: whatever the program, the watches and etcd do, at most one goroutine
    per key was not told to stop: it is the one that the key's handler stops,
    every handler has one, and the variables know exactly the keys watched. *)
Theorem one_watch_per_key a s :
  is_Some (lsio a) -> rtc (step Unmarshal Parse ParseRange) (start a) s ->
  (forall key g, mgr s !! key = Some g <->
     exists w, watches s !! g = Some w /\ w_key w = key /\ cancelled w = false) /\
  etcdw (app s) = Some (dom (mgr s)).
Proof.
  intros Ha Hs. destruct (steps_wf Unmarshal Parse ParseRange _ s (wf_start a Ha) Hs) as [Hh Hw Hk _].
  split; [|done]. intros key g. split; [apply Hh|]. intros (w & Hg & <- & Hc). by apply Hw.
Qed.

(** C5: a watch that is the only one its key ever had keeps the settings of the
    key at what etcd told it: when it has no call of the listener left to make,
    they are the decoded keys and values of [Get] with the events since, when
    every value describes a server, whatever the other watches and the program
    did in between. *)
Theorem watched_settings_follow_etcd a s key g w :
  is_Some (lsio a) -> etcdSettings a !! key = None ->
  rtc (step Unmarshal Parse ParseRange) (start a) s -> sole key g w s -> w_phase w = Calls [] ->
  Forall (fun kv => describes Unmarshal (fst kv) (snd kv)) (read w) -> Forall (event_describes Unmarshal) (seen w) ->
  inner (etcdSettings (app s)) key =
  omap Unmarshal (foldl kv_event (foldl (fun m kv => <[fst kv := snd kv]> m) ∅ (read w)) (seen w)).
Proof.
  intros Hl Ha Hs Hw Hp Hr He.
  destruct (steps_tracks Unmarshal Parse ParseRange key _ s (wf_start a Hl) (start_tracks _ key a Ha) Hs) as [_ Hon].
  specialize (Hon g w Hw). unfold state_of in Hon. rewrite Hp in Hon. cbn in Hon.
  destruct (watch_stored Unmarshal Parse ParseRange key (read w) (seen w) a) as (a1 & H1 & Hst); [done|by right|done..|].
  destruct (handle_all_settle Unmarshal Parse ParseRange key (watch_events (read w) (seen w)) a Hl) as (a2 & H2 & Hset).
  rewrite H1 in H2. injection H2 as <-. rewrite Ha, <- Hon in Hset.
  rewrite <- (stored_inner key _ _ Hst). unfold inner. by rewrite Hset.
Qed.

End theorems.

(** One watch, removed and added again, and the second one read two servers, one
    of which then left. *)
Definition demo_actions : list action :=
  [DoAddWatch "/svc"; CallGet 0; GetAnswers 0 []; CallListener 0; OpenChannel 0; DoRemoveWatch "/svc"; SeesDone 0;
   DoAddWatch "/other"; DoAddWatch "/svc"].
Definition demo_reading : list action :=
  [DoAddWatch "/svc"; DoAddWatch "/other"; CallGet 0; CallGet 1;
   GetAnswers 0 [("/svc/1", "1.0.0"); ("/svc/2", "1.0.0")]%string; CallListener 0;
   GetAnswers 1 []; CallListener 1; CallListener 0; CallListener 0;
   OpenChannel 0; Responds 0 [Del "/svc/1"; Put "/svc/3" "1.0.0" 7 7]; CallListener 0; DoRemoveWatch "/other"; CallListener 0].
Definition demo_run (acts : list action) : option System :=
  run (RO:=ascending_order) demo_Unmarshal demo_Parse demo_ParseRange acts (start demo_start).

Lemma one_watch_per_key_witness :
  exists s, demo_run demo_actions = Some s /\ mgr s !! "/svc"%string = Some 2%nat /\
  (forall g w, watches s !! g = Some w -> w_key w = "/svc"%string -> cancelled w = false -> g = 2%nat).
Proof.
  destruct (demo_run demo_actions) as [s|] eqn:E; [|vm_compute in E; discriminate]. exists s. split; [reflexivity|].
  destruct (one_watch_per_key (RO:=ascending_order) demo_Unmarshal demo_Parse demo_ParseRange demo_start s) as [H1 _].
  - eexists. reflexivity.
  - exact (run_steps _ _ _ _ _ _ E).
  - assert (mgr s !! "/svc"%string = Some 2%nat) as Hm by (vm_compute in E; injection E as <-; reflexivity).
    split; [exact Hm|]. intros g w Hg Hk Hc.
    assert (mgr s !! "/svc"%string = Some g) as Hm' by (apply H1; exists w; auto). congruence.
Defined.

Lemma watched_settings_follow_etcd_witness :
  exists s, demo_run demo_reading = Some s /\
  dom (inner (etcdSettings (app s)) "/svc") = {["/svc/2"%string; "/svc/3"%string]}.
Proof.
  destruct (demo_run demo_reading) as [s|] eqn:E; [|vm_compute in E; discriminate]. exists s. split; [reflexivity|].
  assert (exists w, watches s = [w; mkWatcher "/other" (Reading []) true [] []] /\ w_key w = "/svc"%string /\
    w_phase w = Calls [] /\ read w = [("/svc/1", "1.0.0"); ("/svc/2", "1.0.0")]%string /\
    seen w = [Del "/svc/1"; Put "/svc/3" "1.0.0" 7 7]) as (w & Hw & Hk & Hp & Hr & He).
  { vm_compute in E. injection E as <-. eexists. split; [reflexivity|]. auto. }
  rewrite (watched_settings_follow_etcd (RO:=ascending_order) demo_Unmarshal demo_Parse demo_ParseRange demo_start s "/svc" 0 w).
  - rewrite Hr, He. vm_compute. reflexivity.
  - eexists. reflexivity.
  - reflexivity.
  - exact (run_steps _ _ _ _ _ _ E).
  - split; [rewrite Hw; reflexivity|]. split; [exact Hk|].
    intros [|[|g]] w'; rewrite Hw; [reflexivity| |discriminate]. intros [= <-]. discriminate.
  - exact Hp.
  - rewrite Hr. apply Forall_cons_2; [|apply Forall_cons_2; [|apply Forall_nil_2]];
      (split; [discriminate|]; split; [discriminate|]; eexists; reflexivity).
  - rewrite He. apply Forall_cons_2; [discriminate|apply Forall_cons_2; [|apply Forall_nil_2]].
    split; [discriminate|]. split; [discriminate|]. eexists; reflexivity.
Defined.


(** A removed watch may still have calls to make: here it brings back a server
    that the next watch of the key read as gone. *)
Example removed_watch_still_writes :
  exists s, demo_run [DoAddWatch "/svc"; CallGet 0; GetAnswers 0 [("/svc/1", "1.0.0")]%string;
    DoRemoveWatch "/svc"; DoAddWatch "/svc"; CallGet 1; GetAnswers 1 []; CallListener 1; CallListener 0] = Some s /\
  mgr s !! "/svc"%string = Some 1%nat /\ (w_phase <$> watches s !! 1%nat) = Some (Reading []) /\
  is_Some (inner (etcdSettings (app s)) "/svc" !! "/svc/1"%string).
Proof. eexists. split; [vm_compute; reflexivity|]. repeat split. by eexists. Qed.
End EtcdWatcherTheorems.
