(* ===== verification/Grpc.v ===== *)
(** * gRPC streams, clients and servers ([src/components/grpc])

    The server stream ([server/grpc.go]) runs a watcher goroutine per message
    received, which waits for the answer or the time-out; the handler and the
    watchers are a step relation. The client stream, the connection cache of
    [client.go] and the registrations of [server.go] are functions. The gRPC
    library, TLS files and the logger are parameters; what is only logged is
    left out. Serving and calling are in the file GrpcServing. *)

From S2P Require Import Prelude GoStrings Errors.

(** ** Messages *)

Abbreviation MD := (gmap string (list string)).

(** What the code can ask of a message: [GetHeader] ([RequestTrace]), with a
    header that may be nil and has a trace id, and [GetStatus]
    ([ResponseStatus]), with a status that may be nil. *)
Record message := mkMessage {
  payload : string;
  GetHeader : option (option string);
  GetStatus : option (option BusinessStatus)
}.

(** [header.GetTraceId()] of a header that may be nil. *)
Definition GetTraceId (header : option string) : string := default "" header.

(** The trace id that the metadata holds: the first of the values. *)
Definition trace_of (md : option MD) : outcome (option string) :=
  match md ≫= (fun md => md !! "trace_id") with
  | None => Ret None
  | Some traceIds => t ← index traceIds 0; Ret (Some t)
  end.

(** The part of both [SendMsg] that puts the trace id into the status. *)
Definition with_trace (md : option MD) (m : message) : outcome message :=
  match GetStatus m with
  | None => Ret m
  | Some status =>
      t ← trace_of md;
      match (t : option string), status with
      | None, _ => Ret m
      | Some _, None => Panic NilDereference
      | Some t, Some st =>
          Ret (mkMessage (payload m) (GetHeader m) (Some (Some (mkStatus (Code st) (Msg st) t))))
      end
  end.

(** The part of both [RecvMsg] that keeps the request's trace id: the metadata
    map is shared with the parent context. *)
Definition keep_trace (md : option MD) (m : message) : option MD :=
  match GetHeader m with
  | None => md
  | Some header => (<["trace_id" := [GetTraceId header]]>) <$> md
  end.

(** ** The server stream ([server/grpc.go]) *)

Definition DEFAULT_RATE_LIMIT : Z := 1000.
Record Config := mkConfig { PerRequest : Z; ProcessingTimeout : Z }.

(** The configuration as [New] leaves it. *)
Definition New_config (cfg : Config) : Config :=
  if (PerRequest cfg =? 0)%Z then mkConfig DEFAULT_RATE_LIMIT (ProcessingTimeout cfg) else cfg.

(** A watcher: not yet at its [select], waiting on a channel, about to send the
    time-out answer, or finished. *)
Inductive watcher := Starting | Waiting (ch : nat) | Answering (status : BusinessStatus) | Finished.

#[global] Instance BusinessStatus_eq_dec : EqDecision BusinessStatus.
Proof. solve_decision. Defined.
#[global] Instance watcher_eq_dec : EqDecision watcher.
Proof. solve_decision. Defined.

(** [chans] are the buffers of the channels made so far, each of capacity one;
    [processingDone] is nil or one of them. [sent] are the messages given to
    the underlying stream, [fatal] the panic of a goroutine, which ends the
    process. *)
Record GrpcStream := mkStream {
  md : option MD;
  chans : list nat;
  processingDone : option nat;
  watchers : list watcher;
  sent : list message;
  fatal : option panic
}.

Definition New (md : option MD) : GrpcStream := mkStream md [] None [] [] None.

Inductive action :=
| Recv (m : message)          (* RecvMsg, with the message that came *)
| RecvFails                   (* RecvMsg, when the stream gives an error *)
| Send (m : message)          (* SendMsg by the handler *)
| WatcherStarts (i : nat)     (* the goroutine reaches its select *)
| WatcherDone (i : nat)       (* case <-s.processingDone *)
| WatcherLate (i : nat)       (* case <-s.ctx.Done() *)
| WatcherSends (i : nat).     (* its SendMsg *)

Section stream.
Context (pcs : Z * Z * Z) (client : stack).

(** [SendMsg]: blocked ([None]) on a nil or a full channel. *)
Definition SendMsg (m : message) (s : GrpcStream) : option GrpcStream :=
  match processingDone s with
  | None => None
  | Some c =>
      match chans s !! c with
      | Some O =>
          let chans := <[c := 1%nat]> (chans s) in
          match with_trace (md s) m with
          | Ret m => Some (mkStream (md s) chans (processingDone s) (watchers s) (sent s ++ [m])%list (fatal s))
          | Panic p => Some (mkStream (md s) chans (processingDone s) (watchers s) (sent s) (Some p))
          | Hang => None
          end
      | _ => None
      end
  end.

Definition RecvMsg (m : message) (s : GrpcStream) : GrpcStream :=
  mkStream (keep_trace (md s) m) (chans s ++ [0%nat])%list (Some (length (chans s)))
    (watchers s ++ [Starting])%list (sent s) (fatal s).

Definition set_watcher (i : nat) (w : watcher) (s : GrpcStream) : GrpcStream :=
  mkStream (md s) (chans s) (processingDone s) (<[i := w]> (watchers s)) (sent s) (fatal s).

(** The answer that a watcher sends: [TimeoutResponse]. *)
Definition timeout_answer (st : BusinessStatus) : message := mkMessage "" None (Some (Some st)).

Definition next (a : action) (s : GrpcStream) : option GrpcStream :=
  match fatal s with
  | Some _ => None
  | None =>
      match a with
      | Recv m => Some (RecvMsg m s)
      | RecvFails => Some s
      | Send m => SendMsg m s
      | WatcherStarts i =>
          match watchers s !! i, processingDone s with
          | Some Starting, Some c => Some (set_watcher i (Waiting c) s)
          | _, _ => None
          end
      | WatcherDone i =>
          match watchers s !! i with
          | Some (Waiting c) =>
              match chans s !! c with
              | Some (S n) =>
                  Some (mkStream (md s) (<[c := n]> (chans s)) (processingDone s)
                          (<[i := Finished]> (watchers s)) (sent s) (fatal s))
              | _ => None
              end
          | _ => None
          end
      | WatcherLate i =>
          match watchers s !! i with
          | Some (Waiting _) =>
              match NewFromCode pcs client CommonError_PROCESSING_TIMEOUT with
              | Ret e => Some (set_watcher i (Answering (GetResHeader (Some e))) s)
              | Panic p => Some (mkStream (md s) (chans s) (processingDone s) (watchers s) (sent s) (Some p))
              | Hang => None
              end
          | _ => None
          end
      | WatcherSends i =>
          match watchers s !! i with
          | Some (Answering st) => SendMsg (timeout_answer st) (set_watcher i Finished s)
          | _ => None
          end
      end
  end.

Inductive step (s : GrpcStream) : GrpcStream -> Prop :=
| step_next a s' : next a s = Some s' -> step s s'.

(** A whole run; [None] when an action is not possible. *)
Fixpoint run (acts : list action) (s : GrpcStream) : option GrpcStream :=
  match acts with
  | [] => Some s
  | a :: acts => next a s ≫= run acts
  end.
End stream.

(** The messages that a handler's calls of [SendMsg] amount to: each with the
    trace of the metadata at that time, up to the first that panics. *)
Fixpoint handler_answers (md : option MD) (acts : list action) : list message :=
  match acts with
  | [] => []
  | Recv m :: acts => handler_answers (keep_trace md m) acts
  | Send m :: acts => match with_trace md m with Ret m => m :: handler_answers md acts | _ => [] end
  | _ :: acts => handler_answers md acts
  end.

(** The messages that the handler gave to [SendMsg]. *)
Definition given_messages (acts : list action) : list message :=
  omap (fun a => match a with Send m => Some m | _ => None end) acts.

(** ** The client stream ([client/grpc.go]) *)

(** The incoming metadata, and what the underlying stream will give. *)
Record clientStream := mkClient { cs_md : option MD; incoming : list (message + string) }.

(** [cs.g.RecvMsg(m)]: a message decoded into [m], or an error. *)
Definition g_RecvMsg (cs : clientStream) (m : message) : clientStream * message * option string :=
  match incoming cs with
  | [] => (cs, m, Some "EOF"%string)
  | inl m' :: rest => (mkClient (cs_md cs) rest, m', None)
  | inr e :: rest => (mkClient (cs_md cs) rest, m, Some e)
  end.

Definition client_RecvMsg (cs : clientStream) (m : message) : clientStream * message * option string :=
  match g_RecvMsg cs m with
  | (cs, m, Some e) => (cs, m, Some e)
  | (cs, m, None) => g_RecvMsg (mkClient (keep_trace (cs_md cs) m) (incoming cs)) m
  end.

Definition client_SendMsg (cs : clientStream) (m : message) : outcome message := with_trace (cs_md cs) m.

(** *** Log levels *)

Inductive Level := DebugLevel | InfoLevel | WarnLevel.

(** The gRPC codes are 0 (OK) to 16. *)
Definition ClientCodeToLevel (code : Z) : Level :=
  match code with
  | 0 | 1 => DebugLevel          (* OK, Canceled *)
  | 2 => InfoLevel               (* Unknown *)
  | 3 => DebugLevel              (* InvalidArgument *)
  | 4 => InfoLevel               (* DeadlineExceeded *)
  | 5 | 6 => DebugLevel          (* NotFound, AlreadyExists *)
  | 7 => InfoLevel               (* PermissionDenied *)
  | 16 => InfoLevel              (* Unauthenticated *)
  | 8 | 9 | 10 | 11 => DebugLevel  (* ResourceExhausted, FailedPrecondition, Aborted, OutOfRange *)
  | 12 | 13 | 14 | 15 => WarnLevel (* Unimplemented, Internal, Unavailable, DataLoss *)
  | _ => InfoLevel
  end%Z.

(** ** Connections ([client/client.go]) *)

Inductive dial_option :=
| UserOption (n : nat)
| WithInsecure
| WithTLS (rootCAs : option string) (certificates : list (string * string)).

Inductive connectivity := IdleConn | Connecting | Ready | TransientFailure | Shutdown.

Record GrpcClient := mkGrpcClient {
  serviceName : string;
  addr : string;
  timeout : Z;
  opts : list dial_option;
  Ctx : option (option Z);
  Conn : option nat
}.

Definition NewGrpcClient (serviceName : string) (timeOut : Z) (options : list dial_option) : GrpcClient :=
  mkGrpcClient serviceName "" timeOut options None None.

Definition with_opt (o : dial_option) (c : GrpcClient) : GrpcClient :=
  mkGrpcClient (serviceName c) (addr c) (timeout c) (opts c ++ [o])%list (Ctx c) (Conn c).

(** A context without or with a time-out. *)
Definition with_ctx (t : option Z) (c : GrpcClient) : GrpcClient :=
  mkGrpcClient (serviceName c) (addr c) (timeout c) (opts c) (Some t) (Conn c).

(** [RegisterStreamInterceptors] and [RegisterUnaryInterceptors] of the client:
    [n] names the interceptor's option. *)
Definition RegisterInterceptor (n : nat) (c : GrpcClient) : GrpcClient := with_opt (UserOption n) c.

Section endpoint.
(** The state of a connection; reading a file; [AppendCertsFromPEM];
    [LoadX509KeyPair]; [grpc.DialContext] with the options in force. *)
Context (GetState : nat -> connectivity) (ReadFile : string -> string + string)
        (AppendCertsFromPEM : string -> bool) (LoadX509KeyPair : string -> string -> option string)
        (DialContext : string -> list dial_option -> nat + string).

Definition checkConnStatus (conn : nat) : bool :=
  match GetState conn with TransientFailure | Shutdown => false | _ => true end.

(** The certificate authorities: the file's, none, or a result to return. *)
Definition root_cas (cacert : string) : option string + option string :=
  if String.eqb cacert "" then inl None
  else match ReadFile cacert with
       | inr e => inr (Some e)
       | inl b => if AppendCertsFromPEM b then inl (Some cacert) else inr None
       end.

(** The options that [Endpoint] adds, or the error it returns, which may be
    nil. *)
Definition transport (useTLS : bool) (cacert cert certKey : string)
    : list dial_option + option string :=
  if useTLS then
    match root_cas cacert with
    | inr e => inr e
    | inl roots =>
        if negb (String.eqb cert "") && negb (String.eqb certKey "") then
          match LoadX509KeyPair cert certKey with
          | Some e => inr (Some e)
          | None => inl [WithTLS roots [(cert, certKey)]; WithTLS roots [(cert, certKey)]]
          end
        else if negb (String.eqb cert "") || negb (String.eqb certKey "") then
          inr (Some "cert and certkey are required to authenticate mutually"%string)
        else inl [WithTLS roots []]
    end
  else inl [WithInsecure].

(** [Endpoint] once the cache gave nothing: the client, the cache, and the
    connection or the error, which both may be nil. *)
Definition dial (c : GrpcClient) (connMap : gmap string nat) (address : string) (useTLS : bool)
    (cacert cert certKey : string) : GrpcClient * gmap string nat * option nat * option string :=
  match transport useTLS cacert cert certKey with
  | inr e => (c, connMap, None, e)
  | inl os =>
      let c := with_ctx (if (timeout c =? 0)%Z then None else Some (timeout c))
                 (foldl (fun c o => with_opt o c) c os) in
      match DialContext address (opts c) with
      | inr e => (c, connMap, None, Some e)
      | inl conn =>
          if checkConnStatus conn then
            (mkGrpcClient (serviceName c) address (timeout c) (opts c) (Ctx c) (Some conn),
             <[address := conn]> connMap, Some conn, None)
          else (c, connMap, None, None)
      end
  end.

Definition Endpoint (c : GrpcClient) (connMap : gmap string nat) (address : string) (useTLS : bool)
    (cacert cert certKey : string) : GrpcClient * gmap string nat * option nat * option string :=
  match connMap !! address with
  | Some conn =>
      if checkConnStatus conn then (c, connMap, Some conn, None)
      else dial c connMap address useTLS cacert cert certKey
  | None => dial c connMap address useTLS cacert cert certKey
  end.
End endpoint.

(** ** The server ([server/server.go]) *)

(** A value given to a [Register] method, by its dynamic type. *)
Inductive registered := StreamInterceptor (n : nat) | UnaryInterceptor (n : nat) | Callback (n : nat) | OtherValue.

Inductive server_option := UserServerOption (n : nat) | ChainStream (fs : list nat) | ChainUnary (fs : list nat).

Record GrpcServer := mkServer { server_opts : list server_option; cb : list nat; built : bool }.

Definition NewGrpcServer (opts : list server_option) : GrpcServer := mkServer opts [] false.

Definition RegisterStreamInterceptors (fs : list registered) (g : GrpcServer) : GrpcServer :=
  let tmp := omap (fun f => match f with StreamInterceptor n => Some n | _ => None end) fs in
  mkServer (server_opts g ++ [ChainStream tmp])%list (cb g) (built g).

Definition RegisterUnaryInterceptors (fs : list registered) (g : GrpcServer) : GrpcServer :=
  let tmp := omap (fun f => match f with UnaryInterceptor n => Some n | _ => None end) fs in
  mkServer (server_opts g ++ [ChainUnary tmp])%list (cb g) (built g).

Definition RegisterCb (cbs : list registered) (g : GrpcServer) : GrpcServer :=
  mkServer (server_opts g)
    (cb g ++ omap (fun f => match f with Callback n => Some n | _ => None end) cbs)%list (built g).

(** The callbacks run in order up to the first error. *)
Fixpoint run_callbacks (call : nat -> option string) (cbs : list nat) : list nat * option string :=
  match cbs with
  | [] => ([], None)
  | f :: cbs =>
      match call f with
      | Some e => ([f], Some e)
      | None => let '(ran, e) := run_callbacks call cbs in (f :: ran, e)
      end
  end.

(** [NewServ]: the server, the callbacks that ran, and the error. *)
Definition NewServ (call : nat -> option string) (g : GrpcServer)
    : GrpcServer * list nat * option string :=
  let '(ran, e) := run_callbacks call (cb g) in (mkServer (server_opts g) (cb g) true, ran, e).

(** ** Facts *)

Module GrpcFacts.

Section facts.
Context (pcs : Z * Z * Z) (client : stack).

Definition is_finished (w : watcher) : bool := match w with Finished => true | _ => false end.
Definition finished : list watcher -> nat := count_if is_finished.

(** Every message sent is in a channel's buffer or was taken by a watcher that
    is finished, or is about to be. *)
Record inv (s : GrpcStream) : Prop := {
  inv_chan : forall c, processingDone s = Some c -> (c < length (chans s))%nat;
  inv_watchers : length (watchers s) = length (chans s);
  inv_buffers : Forall (fun b => b <= 1)%nat (chans s);
  inv_sent : (length (sent s) <= sum_list (chans s) + finished (watchers s))%nat
}.

Lemma finished_insert ws i w :
  ws !! i = Some w -> is_finished w = false -> forall w',
  finished (<[i := w']> ws) = (finished ws + if is_finished w' then 1 else 0)%nat.
Proof.
  intros Hi Hw w'. pose proof (count_if_insert is_finished ws i w w' Hi) as H. rewrite Hw in H. cbn in H.
  unfold finished. destruct (is_finished w'); cbn in *; lia.
Qed.

Lemma inv_New m : inv (New m).
Proof. constructor; cbn; done || lia. Qed.

Lemma SendMsg_inv m s s' : inv s -> SendMsg m s = Some s' -> inv s'.
Proof.
  intros [Hc Hw Hb Hs]. unfold SendMsg. destruct (processingDone s) as [c|] eqn:Hp; [|done].
  destruct (chans s !! c) as [[|n]|] eqn:Hl; [|done..].
  pose proof (sum_insert (chans s) c 0 1 Hl) as Hsum.
  assert (Forall (fun b => b <= 1)%nat (<[c:=1%nat]> (chans s))) by (apply Forall_insert; [done|lia]).
  destruct (with_trace (md s) m); [| |done]; intros [= <-]; constructor;
    cbn [md chans processingDone watchers sent fatal length];
    rewrite ?Hp, ?length_insert, ?length_app; cbn [length]; try done; try lia.
Qed.

Lemma set_watcher_inv i w w' s :
  inv s -> watchers s !! i = Some w -> is_finished w = false -> inv (set_watcher i w' s).
Proof.
  intros [Hc Hw Hb Hs] Hi Hf. constructor; cbn [set_watcher md chans processingDone watchers sent fatal length]; rewrite ?length_insert; try done.
  rewrite (finished_insert _ _ w Hi Hf). lia.
Qed.

Lemma next_inv a s s' : inv s -> next pcs client a s = Some s' -> inv s'.
Proof.
  intros Hi. unfold next. destruct (fatal s); [done|]. pose proof Hi as [Hc Hw Hb Hs].
  destruct a as [m| |m|i|i|i|i].
  - intros [= <-]. constructor; cbn [RecvMsg md chans processingDone watchers sent fatal length]; rewrite ?length_app; unfold finished; rewrite ?count_if_app; cbn [length]; [|lia| |].
    + intros c [= <-]. lia.
    + apply Forall_app. split; [done|]. by repeat constructor.
    + rewrite sum_snoc. change (count_if is_finished [Starting]) with 0%nat. unfold finished in Hs. lia.
  - by intros [= <-].
  - by apply SendMsg_inv.
  - destruct (watchers s !! i) as [[| | |]|] eqn:Hwi; try done. destruct (processingDone s); [|done].
    intros [= <-]. by eapply set_watcher_inv.
  - destruct (watchers s !! i) as [[|c| |]|] eqn:Hwi; try done.
    destruct (chans s !! c) as [[|n]|] eqn:Hl; try done. intros [= <-].
    pose proof (sum_insert (chans s) c (S n) n Hl).
    pose proof (Forall_lookup_1 _ _ _ _ Hb Hl) as Hn. cbn in Hn.
    constructor; cbn [md chans processingDone watchers sent fatal length]; rewrite ?length_insert; [done|done| |].
    + apply Forall_insert; [done|lia].
    + rewrite (finished_insert _ _ (Waiting c) Hwi eq_refl). cbn [is_finished]. lia.
  - destruct (watchers s !! i) as [[| | |]|] eqn:Hwi; try done. intros [= <-]. by constructor.
  - destruct (watchers s !! i) as [[| |st|]|] eqn:Hwi; try done.
    apply SendMsg_inv. by eapply set_watcher_inv.
Qed.

Lemma reachable_inv m s : rtc (step pcs client) (New m) s -> inv s.
Proof.
  assert (forall s1 s2, rtc (step pcs client) s1 s2 -> inv s1 -> inv s2) as H.
  { induction 1 as [|s1 s2 s3 [a s2' Hn] _ IH]; [done|]. intros Hi. apply IH. by eapply next_inv. }
  intros Hr. eapply H; [done|apply inv_New].
Qed.

(** *** Watchers that would answer *)

Definition is_late (a : action) : bool := match a with WatcherLate _ => true | _ => false end.
Definition no_answer (s : GrpcStream) : Prop := Forall (fun w => forall st, w <> Answering st) (watchers s).

(** A step of a run in which no watcher is about to answer sends what the
    handler's call amounts to. *)
Lemma next_no_answer a s s' :
  no_answer s -> next pcs client a s = Some s' ->
  no_answer s' /\ (forall i, a <> WatcherSends i) /\ fatal s = None /\
  (is_late a = true -> exists p, fatal s' = Some p) /\
  (fatal s' <> None -> sent s' = (sent s ++ handler_answers (md s) [a])%list) /\
  (fatal s' = None -> forall acts,
   (sent s ++ handler_answers (md s) (a :: acts))%list = (sent s' ++ handler_answers (md s') acts)%list).
Proof.
  intros Hn. unfold next. destruct (fatal s) eqn:Hf; [done|].
  assert (forall i w, (forall st, w <> Answering st) -> no_answer (set_watcher i w s)) as Hset
    by (intros; by apply Forall_insert).
  destruct a as [m| |m|i|i|i|i]; cbn [is_late handler_answers].
  - intros [= <-]. split_and!; try done. apply Forall_app. split; [done|]. by repeat constructor.
  - intros [= <-]. by split_and!.
  - unfold SendMsg. destruct (processingDone s); [|done]. destruct (chans s !! _) as [[|]|]; [|done..].
    destruct (with_trace _ _) as [m'| |] eqn:Ht; [| |done]; intros [= <-]; cbn [watchers sent fatal md]; split_and!; try done.
    + intros _ acts. by rewrite <- app_assoc.
    + intros _. by rewrite app_nil_r.
  - destruct (watchers s !! i) as [[]|], (processingDone s); try done. intros [= <-].
    split_and!; try done. by apply Hset.
  - destruct (watchers s !! i) as [[|c| |]|]; try done. destruct (chans s !! c) as [[]|]; try done.
    intros [= <-]. split_and!; try done. by apply (Hset i Finished).
  - destruct (watchers s !! i) as [[]|]; try done. intros [= <-]. split_and!; try done; [by eexists|].
    intros _. cbn. by rewrite app_nil_r.
  - intros Hs. exfalso. destruct (watchers s !! i) as [w|] eqn:Hw; [|done].
    pose proof (Forall_lookup_1 _ _ _ _ Hn Hw) as Hna. destruct w; try done. by eapply Hna.
Qed.

(** After a panic nothing runs. *)
Lemma run_fatal acts s s' : run pcs client acts s = Some s' -> fatal s <> None -> acts = [] /\ s' = s.
Proof.
  destruct acts as [|a acts]; cbn; [by intros [= <-]|]. unfold next. by destruct (fatal s).
Qed.

Lemma run_no_answer acts s s' :
  no_answer s -> run pcs client acts s = Some s' ->
  (forall i, WatcherSends i ∉ acts) /\
  (forall pre i post, acts = (pre ++ WatcherLate i :: post)%list -> post = [] /\ exists p, fatal s' = Some p) /\
  sent s' = (sent s ++ handler_answers (md s) acts)%list.
Proof.
  revert s. induction acts as [|a acts IH]; intros s Hn; cbn [run].
  { intros [= ->]. split_and!; [set_solver|by intros []|by rewrite app_nil_r]. }
  intros (s1 & Ha & Hr)%bind_Some.
  destruct (next_no_answer _ _ _ Hn Ha) as (Hn1 & Hw & _ & Hl & Hfat & Hsent).
  destruct (IH s1 Hn1 Hr) as (IHw & IHl & IHs). split_and!.
  - intros i [Ha'|?]%elem_of_cons; [by apply (Hw i)|by apply (IHw i)].
  - intros [|b pre] i post; cbn; intros [= -> Hacts]; [|by apply (IHl pre i post)].
    destruct (Hl eq_refl) as [p Hp]. destruct (run_fatal acts s1 s' Hr) as [Hnil ->]; [by rewrite Hp|].
    subst acts. split; [done|]. by exists p.
  - destruct (fatal s1) eqn:Hf1.
    + destruct (run_fatal acts s1 s' Hr) as [-> ->]; [by rewrite Hf1|]. by apply Hfat.
    + by rewrite IHs, <- Hsent.
Qed.

(** A message as it was given, but for the trace in its status. *)
Definition same_but_trace (m' m : message) : Prop :=
  payload m' = payload m /\ GetHeader m' = GetHeader m /\
  match GetStatus m with
  | Some (Some st) => exists t, GetStatus m' = Some (Some (mkStatus (Code st) (Msg st) t))
  | other => GetStatus m' = other
  end.

Lemma with_trace_same md m m' : with_trace md m = Ret m' -> same_but_trace m' m.
Proof.
  unfold with_trace, same_but_trace. destruct (GetStatus m) as [status|] eqn:Hs; [|intros [= <-]; by rewrite Hs].
  destruct (trace_of md) as [t| |]; cbn; [|done..]. destruct t as [t|], status as [st|]; try done; intros [= <-];
    cbn; rewrite ?Hs; split_and!; try done; [by exists t|]. exists (TraceId st). by destruct st.
Qed.

(** While nothing panics, every message that was given is an answer. *)
Lemma answers_given acts s s' :
  run pcs client acts s = Some s' -> fatal s' = None -> Forall2 same_but_trace (handler_answers (md s) acts) (given_messages acts).
Proof.
  revert s. induction acts as [|a acts IH]; intros s; cbn [run]; [constructor|].
  intros (s1 & Ha & Hr)%bind_Some Hf. specialize (IH s1 Hr Hf).
  assert (fatal s1 = None) as Hf1.
  { destruct (fatal s1) as [p|] eqn:E; [|done]. destruct (run_fatal acts s1 s' Hr) as [_ ->]; congruence. }
  revert Ha. unfold next. destruct (fatal s); [done|]. destruct a as [m| |m|i|i|i|i]; cbn [handler_answers given_messages omap list_omap].
  - by intros [= <-].
  - by intros [= <-].
  - unfold SendMsg. destruct (processingDone s); [|done]. destruct (chans s !! _) as [[|]|]; [|done..].
    destruct (with_trace _ _) as [m'| |] eqn:Ht; [| |done]; intros [= <-]; [|done].
    constructor; [by eapply with_trace_same|done].
  - destruct (watchers s !! i) as [[]|], (processingDone s); try done. by intros [= <-].
  - destruct (watchers s !! i) as [[|c| |]|]; try done. destruct (chans s !! c) as [[]|]; try done. by intros [= <-].
  - destruct (watchers s !! i) as [[]|]; try done. by intros [= <-].
  - destruct (watchers s !! i) as [[| |st|]|]; try done. unfold SendMsg. cbn [set_watcher processingDone chans md].
    destruct (processingDone s); [|done]. destruct (chans s !! _) as [[|]|]; [|done..].
    destruct (with_trace _ _); [| |done]; by intros [= <-].
Qed.
End facts.

(** What [Endpoint] does when the cache gave nothing. *)
Lemma dial_spec GetState ReadFile Append Load Dial c connMap address tls ca cert key :
  let '(c', map', conn, err) := dial GetState ReadFile Append Load Dial c connMap address tls ca cert key in
  (forall k, conn = Some k -> err = None /\ checkConnStatus GetState k = true /\ map' !! address = Some k) /\
  (conn = None -> map' = connMap) /\
  (forall b, tls = true -> ca <> ""%string -> ReadFile ca = inl b -> Append b = false ->
   conn = None /\ err = None) /\
  (tls = false -> forall k, Dial address (opts c ++ [WithInsecure])%list = inl k ->
   conn = (if checkConnStatus GetState k then Some k else None) /\ err = None).
Proof.
  unfold dial.
  assert (forall os, opts (with_ctx (if (timeout c =? 0)%Z then None else Some (timeout c))
    (foldl (fun c o => with_opt o c) c os)) = (opts c ++ os)%list) as Ho.
  { intros os. cbn. revert c. induction os as [|o os IH]; intros c; cbn; [by rewrite app_nil_r|].
    rewrite IH. cbn. by rewrite <- (assoc app). }
  assert (tls = false -> transport ReadFile Append Load tls ca cert key = inl [WithInsecure]) as Hplain
    by by intros ->.
  assert (forall b, tls = true -> ca <> ""%string -> ReadFile ca = inl b -> Append b = false ->
    transport ReadFile Append Load tls ca cert key = inr None) as Hca.
  { intros b -> Hca Hf Ha. unfold transport, root_cas.
    by rewrite (proj2 (String.eqb_neq _ _) Hca), Hf, Ha. }
  destruct (transport _ _ _ _ _ _ _) as [os|e].
  - rewrite Ho. destruct (Dial address _) as [k0|] eqn:Hd; [destruct (checkConnStatus GetState k0) eqn:Hs|].
    all: split_and!; try done.
    all: try (intros b H1 H2 H3 H4; by specialize (Hca b H1 H2 H3 H4)).
    all: try (intros [= ->]%Hplain k Hk; rewrite Hk in Hd; simplify_eq; by rewrite ?Hs).
    intros k [= <-]. by rewrite lookup_insert_eq.
  - split_and!; [done|done| |by intros ?%Hplain].
    intros b H1 H2 H3 H4. specialize (Hca b H1 H2 H3 H4). by simplify_eq.
Qed.
End GrpcFacts.

(** ** Properties *)

Module GrpcTheorems.
Import GrpcFacts.

(** C36: a time-out never becomes an answer. A watcher can notice one whenever
    it waits, but making the error panics, as a [CommonError] has no [String]
    method; so in every run this is the last step and ends the process, and no
    watcher ever sends anything. What was sent is what the handler sent: its
    messages in order, each with the trace of the metadata at that time and
    otherwise as it was given, all of them as long as nothing panics. *)
Theorem timeout_is_fatal pcs client m0 acts s :
  run pcs client acts (New m0) = Some s ->
  (forall i, WatcherSends i ∉ acts) /\
  (forall pre i post, acts = (pre ++ WatcherLate i :: post)%list -> post = [] /\ exists p, fatal s = Some p) /\
  (forall i c, fatal s = None -> watchers s !! i = Some (Waiting c) ->
   exists s' p, next pcs client (WatcherLate i) s = Some s' /\ fatal s' = Some p) /\
  sent s = handler_answers m0 acts /\
  (fatal s = None -> Forall2 same_but_trace (sent s) (given_messages acts)).
Proof.
  intros Hr. destruct (run_no_answer pcs client acts (New m0) s) as (H1 & H2 & H3); [by constructor|done|].
  cbn [New sent md app] in H3. split_and!; try done.
  - intros i c Hf Hi. unfold next. rewrite Hf, Hi. by eexists _, _.
  - intros Hf. rewrite H3. by apply (answers_given pcs client acts (New m0) s).
Qed.

(** A stream takes at most two answers per message it received: when that
    many have been sent, [SendMsg] blocks for ever, and before the first message
    it blocks as well. *)
Theorem two_answers_per_request pcs client m0 s :
  rtc (step pcs client) (New m0) s ->
  (length (sent s) <= 2 * length (chans s))%nat /\
  forall m, fatal s = None -> length (sent s) = (2 * length (chans s))%nat ->
  next pcs client (Send m) s = None.
Proof.
  intros Hi%reachable_inv.
  assert (forall s, inv s -> (length (sent s) <= 2 * length (chans s))%nat) as Hbound.
  { intros s0 [_ Hw Hb Hs]. unfold finished in Hs. pose proof (sum_le _ Hb). pose proof (count_if_le is_finished (watchers s0)). lia. }
  split; [by apply Hbound|]. intros m Hf Hfull. unfold next. rewrite Hf.
  unfold SendMsg. destruct (processingDone s) as [c|]; [|done].
  destruct (chans s !! c) as [[|n]|] eqn:Hl; [|done..]. exfalso.
  destruct Hi as [_ Hw Hb Hs]. pose proof (sum_insert (chans s) c 0 1 Hl) as Hsum.
  assert (Forall (fun b => b <= 1)%nat (<[c:=1%nat]> (chans s))) as Hb' by (apply Forall_insert; [done|lia]).
  pose proof (sum_le _ Hb') as Hle. rewrite length_insert in Hle.
  unfold finished in Hs. pose proof (count_if_le is_finished (watchers s)). lia.
Qed.

(** The messages of [n] calls of [RecvMsg] on the client stream. *)
Fixpoint client_receives (n : nat) (cs : clientStream) (m : message) : list message :=
  match n with
  | O => []
  | S n => match client_RecvMsg cs m with
           | (cs, m, None) => m :: client_receives n cs m
           | _ => []
           end
  end.

(** The client stream loses every other message: of pairs that the server
    sent, each call of [RecvMsg] gives the second, and a lone last message is
    reported as the end of the stream. *)
Theorem client_loses_messages incoming_md (pairs : list (message * message)) last m :
  client_receives (S (length pairs))
    (mkClient incoming_md (map inl ((pairs ≫= (fun p => [fst p; snd p])) ++ [last])%list)) m =
  map snd pairs.
Proof.
  revert incoming_md m. induction pairs as [|[a b] pairs IH]; intros incoming_md m; [done|].
  cbn [length map]. rewrite <- (IH (keep_trace incoming_md a) b). done.
Qed.

(** [Endpoint] gives a cached connection that is not broken without
    dialing; else it dials once with the options it built up, keeps a working
    connection for the address, and never returns a broken one: then, and when
    the certificate authorities cannot be read from their file, it returns
    neither a connection nor an error. *)
Theorem endpoint_cache GetState ReadFile Append Load Dial c connMap address tls ca cert key :
  let '(c', map', conn, err) := Endpoint GetState ReadFile Append Load Dial c connMap address tls ca cert key in
  (forall k, connMap !! address = Some k -> checkConnStatus GetState k = true ->
   (c', map', conn, err) = (c, connMap, Some k, None)) /\
  (forall k, conn = Some k -> err = None /\ checkConnStatus GetState k = true /\ map' !! address = Some k) /\
  (conn = None -> map' = connMap) /\
  (forall b, tls = true -> ca <> ""%string -> ReadFile ca = inl b -> Append b = false ->
   connMap !! address = None -> conn = None /\ err = None) /\
  (tls = false -> connMap !! address = None -> forall k, Dial address (opts c ++ [WithInsecure])%list = inl k ->
   conn = (if checkConnStatus GetState k then Some k else None) /\ err = None).
Proof.
  unfold Endpoint.
  destruct (connMap !! address) as [k0|] eqn:Hk; [destruct (checkConnStatus GetState k0) eqn:Hs0|].
  1: by split_and!; intros; simplify_eq.
  all: pose proof (dial_spec GetState ReadFile Append Load Dial c connMap address tls ca cert key) as Hd;
    destruct (dial _ _ _ _ _ _ _ _ _ _ _ _) as [[[c' map'] conn] err];
    destruct Hd as (H1 & H2 & H3 & H4); split_and!; try done; intros; simplify_eq.
  all: first [congruence|by eapply H3|by apply H4].
Qed.

Definition demo_message : message := mkMessage "m" (Some (Some "t1"%string)) (Some (Some (mkStatus 0 "" ""))).
Definition demo_run : list action := [Recv demo_message; WatcherStarts 0; Send demo_message; WatcherLate 0].

Lemma timeout_is_fatal_witness :
  exists s p, run (0, 0, 0)%Z [] demo_run (New (Some ∅)) = Some s /\ length (sent s) = 1%nat /\ fatal s = Some p.
Proof.
  destruct (run (0, 0, 0)%Z [] demo_run (New (Some ∅))) as [s|] eqn:Hr; [|discriminate Hr].
  destruct (timeout_is_fatal (0, 0, 0)%Z [] (Some ∅) demo_run s Hr) as (_ & H & _).
  destruct (H [Recv demo_message; WatcherStarts 0; Send demo_message] 0%nat [] eq_refl) as (_ & p & Hp).
  exists s, p. split; [reflexivity|]. split; [|exact Hp].
  vm_compute in Hr. injection Hr as <-. reflexivity.
Defined.

Lemma two_answers_per_request_witness :
  next (0, 0, 0)%Z [] (Send demo_message) (New None) = None.
Proof.
  apply (two_answers_per_request (0, 0, 0)%Z [] None (New None)); [apply rtc_refl|reflexivity|reflexivity].
Defined.
End GrpcTheorems.
