(* ===== verification/GrpcInterceptors.v ===== *)
(** * gRPC interceptors ([src/components/grpc/client/grpc.go], [grpc/interceptor])

    What the package puts around a call: on the client a log line with the
    service, the method, the trace id and the time taken; on the server the
    log of an error and the stream that carries the trace. The call itself, the
    status library and the identifiers that xid makes are parameters; the parts
    of Go's [path] and of its 32-bit floats that the code uses are written
    out. *)

From Stdlib Require Import SpecFloat.
From S2P Require Import Prelude GoStrings Errors Grpc.
Local Open Scope Z_scope.
Local Open Scope list_scope.

(** ** Go's [path] *)

Definition slash : Z := 47.
Definition dot : Z := 46.

(** The elements between slashes; [cur] is the one being read. *)
Fixpoint elements_of (cur l : list Z) : list (list Z) :=
  match l with
  | [] => [cur]
  | b :: l => if b =? slash then cur :: elements_of [] l else elements_of (cur ++ [b]) l
  end.

(** One element of [Clean], on the elements kept so far, the last one first. *)
Definition clean_element (rooted : bool) (out : list (list Z)) (e : list Z) : list (list Z) :=
  if decide (e = [] \/ e = [dot]) then out
  else if decide (e = [dot; dot]) then
    match out with
    | e' :: rest => if decide (e' = [dot; dot]) then e :: out else rest
    | [] => if rooted then [] else [e]
    end
  else e :: out.

Fixpoint join_slash (es : list (list Z)) : list Z :=
  match es with
  | [] => []
  | [e] => e
  | e :: es => e ++ slash :: join_slash es
  end.

Definition Clean (p : list Z) : list Z :=
  let rooted := starts_with [slash] p in
  let out := join_slash (rev (foldl (clean_element rooted) [] (elements_of [] p))) in
  let out := if rooted then slash :: out else out in
  match out with [] => [dot] | _ => out end.

(** The part of a path up to its last slash, and the rest. *)
Fixpoint split_last (cur l dir : list Z) : list Z * list Z :=
  match l with
  | [] => (dir, cur)
  | b :: l => if b =? slash then split_last [] l (dir ++ cur ++ [b]) else split_last (cur ++ [b]) l dir
  end.

Definition path_Dir (p : string) : string := of_bytes (Clean (fst (split_last [] (bytes p) []))).

Fixpoint trim_right_slashes (l : list Z) : list Z :=
  match l with
  | [] => []
  | b :: l => match trim_right_slashes l with
              | [] => if b =? slash then [] else [b]
              | l => b :: l
              end
  end.
Definition path_Base (p : string) : string :=
  match bytes p with
  | [] => "."
  | l => match snd (split_last [] (trim_right_slashes l) []) with
         | [] => "/"
         | base => of_bytes base
         end
  end.

Example path_demo :
  map path_Dir ["/pkg.Service/Method"; "Method"; "/"; "a//b/../c/d"; "/../x"; ""] = ["/pkg.Service"; "."; "/"; "a/c"; "/"; "."] /\
  map path_Base ["/pkg.Service/Method"; "Method"; "//"; "a/b/"; ""] = ["Method"; "Method"; "/"; "b"; "."].
Proof. split; reflexivity. Qed.

(** ** 32-bit floats *)

Definition float32 (n : Z) : spec_float := binary_normalize 24 128 n 0 false.

(** [float32(duration.Nanoseconds()/1000) / 1000] *)
Definition durationToMilliseconds (duration : Z) : spec_float :=
  SFdiv 24 128 (float32 (Z.quot duration 1000)) (float32 1000).

(** Three halves of a millisecond; the largest duration is not infinite. *)
Example milliseconds_demo :
  durationToMilliseconds 1500999 = S754_finite false 12582912 (-23) /\
  durationToMilliseconds (2 ^ 63 - 1) = S754_finite false 8796093 20.
Proof. split; reflexivity. Qed.

(** ** Log lines *)

Section errors.
(** A Go error; [status.Code], and [codes.Code.String]. *)
Context {E : Type} (StatusCode : option E -> Z) (CodeString : Z -> string).

Inductive log_field :=
| FString (key value : string)
| FError (err : option E)
| FFloat32 (key : string) (value : spec_float).

Record log_line := mkLine { line_level : Level; line_msg : string; line_fields : list log_field }.

(** [traceId] is what [GenerageTranceId] made, should the context have none. *)
Definition newClientLoggerFields (md : option MD) (traceId fullMethodString : string) : outcome (list log_field) :=
  service ← slice_string (path_Dir fullMethodString) 1 (length (bytes (path_Dir fullMethodString)));
  let method := path_Base fullMethodString in
  t ← trace_of md;
  Ret [FString "grpc.service" service; FString "grpc.method" method;
       FString "grpc.trace_id" (default traceId t)].

Definition DurationToTimeMillisField (duration : Z) : log_field :=
  FFloat32 "grpc.time_ms" (durationToMilliseconds duration).

(** The line has the logger's fields first. [enabled] is the logger's [Check] of
    the level, which gives nil, on which [Write] does nothing, for a level that
    is off. *)
Definition logFinalClientLine (enabled : Level -> bool) (fields : list log_field) (elapsed : Z) (err : option E)
    (msg : string) : list log_line :=
  let code := StatusCode err in
  let level := ClientCodeToLevel code in
  if enabled level then
    [mkLine level msg (fields ++ [FError err; FString "grpc.code" (CodeString code); DurationToTimeMillisField elapsed])]
  else [].

(** ** The client's interceptors *)

(** A wrapped stream: the context's metadata, the method, and the stream that
    the streamer gave, nil if it failed. *)
Record wrapped (S : Type) := NewStream { ws_md : option MD; ws_method : string; ws_g : option S }.
Arguments NewStream {S} _ _ _.

Definition finished : string := "finished client streaming call".

Definition UnaryClientInterceptor {R} (enabled : Level -> bool) (md : option MD) (traceId : string) (elapsed : Z) (method : string)
    (invoker : string -> R * option E) : outcome (list log_line * (R * option E)) :=
  fields ← newClientLoggerFields md traceId method;
  let '(reply, err) := invoker method in
  Ret (logFinalClientLine enabled fields elapsed err finished, (reply, err)).

Definition StreamClientInterceptor {S} (enabled : Level -> bool) (md : option MD) (traceId : string) (elapsed : Z) (method : string)
    (streamer : string -> option S * option E) : outcome (list log_line * (wrapped S * option E)) :=
  fields ← newClientLoggerFields md traceId method;
  let '(clientStream, err) := streamer method in
  Ret (logFinalClientLine enabled fields elapsed err finished, (NewStream md method clientStream, err)).

(** ** The server's interceptors *)

(** [status.FromError], which gives a status for any error, and [Status.Err],
    which is nil for the code OK. *)
Context {status : Type} (FromError : E -> status) (Err : status -> option E).

(** The lines logged at the error level: the method and the error. *)
Definition UnaryServerErrorInterceptor {Req Res} (FullMethod : string) (handler : Req -> option Res * option E)
    (req : Req) : list (string * E) * (option Res * option E) :=
  match handler req with
  | (res, None) => ([], (res, None))
  | (_, Some err) => ([(FullMethod, err)], (None, Err (FromError err)))
  end.

Definition StreamServerErrorInterceptor {St} (FullMethod : string) (handler : St -> option E) (stream : St)
    : list (string * E) * option E :=
  match handler stream with
  | None => ([], None)
  | Some err => ([(FullMethod, err)], Err (FromError err))
  end.

(** The handler is given the stream of Grpc, over the context's metadata. *)
Definition StreamServerTraceInterceptor (md : option MD) (cfg : Config)
    (handler : GrpcStream -> Config -> option E) : option E :=
  handler (New md) (New_config cfg).
End errors.
Arguments NewStream {S} _ _ _.

(** ** Facts *)

Module GrpcInterceptorsFacts.

Lemma elements_of_none cur l : slash ∉ l -> elements_of cur l = [cur ++ l].
Proof.
  revert cur. induction l as [|b l IH]; intros cur; cbn; [by rewrite app_nil_r|].
  intros [Hb Hl]%not_elem_of_cons. rewrite (proj2 (Z.eqb_neq b slash)) by congruence.
  rewrite IH by done. by rewrite <- app_assoc.
Qed.

Lemma elements_of_slash cur l1 l2 : slash ∉ l1 -> elements_of cur (l1 ++ slash :: l2) = (cur ++ l1) :: elements_of [] l2.
Proof.
  revert cur. induction l1 as [|b l1 IH]; intros cur; [intros _; cbn; by rewrite app_nil_r|].
  intros [Hb Hl]%not_elem_of_cons. cbn [app elements_of]. rewrite (proj2 (Z.eqb_neq b slash)) by congruence.
  rewrite IH by done. by rewrite <- app_assoc.
Qed.

Lemma split_last_none cur l dir : slash ∉ l -> split_last cur l dir = (dir, cur ++ l).
Proof.
  revert cur. induction l as [|b l IH]; intros cur; cbn; [by rewrite app_nil_r|].
  intros [Hb Hl]%not_elem_of_cons. rewrite (proj2 (Z.eqb_neq b slash)) by congruence.
  rewrite IH by done. by rewrite <- app_assoc.
Qed.

Lemma split_last_slash cur l1 l2 dir :
  slash ∉ l2 -> split_last cur (l1 ++ slash :: l2) dir = (dir ++ cur ++ l1 ++ [slash], l2).
Proof.
  intros Hl. revert cur dir. induction l1 as [|b l1 IH]; intros cur dir; cbn [app split_last].
  - rewrite Z.eqb_refl. by rewrite split_last_none.
  - destruct (Z.eqb_spec b slash) as [->|]; rewrite IH; by rewrite <- ?app_assoc.
Qed.

Lemma trim_right_slashes_id l m : m <> [] -> slash ∉ m -> trim_right_slashes (l ++ m) = (l ++ m)%list.
Proof.
  intros Hne Hm. assert (trim_right_slashes m = m) as Htrim.
  { induction m as [|b m IH]; [done|]. apply not_elem_of_cons in Hm as [Hb Hm]. cbn [trim_right_slashes].
    destruct m as [|b2 m]; [|by rewrite IH]. cbn. by rewrite (proj2 (Z.eqb_neq b slash)) by congruence. }
  induction l as [|b l IH]; [done|]. cbn [app trim_right_slashes]. rewrite IH.
  destruct (l ++ m)%list eqn:E; [|done]. apply app_eq_nil in E as [_ ->]. done.
Qed.

(** A name that [Clean] keeps as it is. *)
Definition plain (l : list Z) : Prop := (slash ∉ l) /\ l <> [] /\ l <> [dot] /\ l <> [dot; dot].

Lemma path_of_method service method :
  plain (bytes service) -> slash ∉ bytes method -> method <> ""%string ->
  path_Dir ("/" +:+ service +:+ "/" +:+ method) = "/" +:+ service /\
  path_Base ("/" +:+ service +:+ "/" +:+ method) = method.
Proof.
  intros (Hs & H0 & H1 & H2) Hm Hne.
  assert (bytes ("/" +:+ service +:+ "/" +:+ method) = (slash :: bytes service) ++ slash :: bytes method) as Hb
    by by rewrite !bytes_app.
  unfold path_Dir, path_Base. rewrite Hb. split.
  - rewrite split_last_slash by done. cbn [fst app].
    assert (Clean (slash :: bytes service ++ [slash]) = slash :: bytes service) as ->.
    { unfold Clean. change (slash :: bytes service ++ [slash])%list with ([] ++ slash :: bytes service ++ [slash])%list.
      rewrite elements_of_slash by apply not_elem_of_nil. rewrite elements_of_slash by done. cbn [elements_of foldl app].
      assert (forall o, clean_element true o [] = o) as Hnil.
      { intros o. unfold clean_element. by rewrite decide_True by by left. }
      change (starts_with [slash] (slash :: (bytes service ++ [slash]))) with true. rewrite !Hnil.
      unfold clean_element. rewrite decide_False by (intros [|]; done). by rewrite decide_False. }
    change (slash :: bytes service) with (bytes "/" ++ bytes service)%list. by rewrite <- bytes_app, of_bytes_bytes.
  - destruct ((slash :: bytes service) ++ slash :: bytes method)%list eqn:E; [done|]. rewrite <- E. clear E.
    assert (bytes method <> []) as Hmn by (intros E; apply Hne; apply bytes_inj; done).
    replace ((slash :: bytes service) ++ slash :: bytes method)%list
      with (((slash :: bytes service) ++ [slash]) ++ bytes method)%list by (by rewrite <- app_assoc).
    rewrite trim_right_slashes_id by done. rewrite <- app_assoc. cbn [app].
    change (slash :: bytes service ++ slash :: bytes method)%list with ((slash :: bytes service) ++ slash :: bytes method)%list.
    rewrite split_last_slash by done. cbn [snd]. destruct (bytes method) eqn:E; [done|]. by rewrite <- E, of_bytes_bytes.
Qed.

Lemma newClientLoggerFields_eq {E} md traceId service method :
  plain (bytes service) -> slash ∉ bytes method -> method <> ""%string ->
  newClientLoggerFields (E:=E) md traceId ("/" +:+ service +:+ "/" +:+ method) =
  t ← trace_of md;
  Ret [FString "grpc.service" service; FString "grpc.method" method; FString "grpc.trace_id" (default traceId t)].
Proof.
  intros Hs Hm Hne. unfold newClientLoggerFields. destruct (path_of_method service method Hs Hm Hne) as [-> ->].
  unfold slice_string, slice. rewrite bytes_app. change (bytes "/") with [slash]. cbn [app length drop].
  rewrite decide_True by lia. rewrite drop_0, take_ge by lia. run. by rewrite of_bytes_bytes.
Qed.
End GrpcInterceptorsFacts.

(** ** Properties *)

Module GrpcInterceptorsTheorems.
Import GrpcInterceptorsFacts.

(** C38: a call of the method [/service/method] through either interceptor of the
    client logs one line, if the logger is on for the level of the call's code;
    it has that level and names the service, the method, the error, its code, the
    time taken and the context's trace id or else the new one. The
    caller gets the reply and the error of the call, unchanged, or the stream
    wrapped. When the metadata lists no value under [trace_id], the interceptor
    panics before the call is made. *)
Theorem client_calls_logged {E R S} (StatusCode : option E -> Z) (CodeString : Z -> string)
    enabled md traceId elapsed service method (invoker : string -> R * option E) (streamer : string -> option S * option E) :
  plain (bytes service) -> slash ∉ bytes method -> method <> ""%string ->
  let full := "/" +:+ service +:+ "/" +:+ method in
  let lines t err := if enabled (ClientCodeToLevel (StatusCode err)) : bool then
    [mkLine (ClientCodeToLevel (StatusCode err)) finished
      [FString "grpc.service" service; FString "grpc.method" method; FString "grpc.trace_id" t;
       FError err; FString "grpc.code" (CodeString (StatusCode err)); DurationToTimeMillisField elapsed]] else [] in
  let unary := UnaryClientInterceptor StatusCode CodeString enabled md traceId elapsed full invoker in
  let stream := StreamClientInterceptor StatusCode CodeString enabled md traceId elapsed full streamer in
  match md ≫= (fun md => md !! "trace_id"%string) with
  | Some [] => unary = Panic IndexOutOfRange /\ stream = Panic IndexOutOfRange
  | o =>
      let t := match o with Some (t :: _) => t | _ => traceId end in
      unary = Ret (lines t (snd (invoker full)), invoker full) /\
      stream = Ret (lines t (snd (streamer full)), (NewStream md full (fst (streamer full)), snd (streamer full)))
  end.
Proof.
  intros Hs Hm Hne full lines unary stream. unfold unary, stream, UnaryClientInterceptor, StreamClientInterceptor, full.
  rewrite newClientLoggerFields_eq by done. unfold trace_of. fold full.
  destruct (md ≫= _) as [[|t ts]|]; [done|..]; cbn [index lookup list_lookup]; run;
    destruct (invoker full), (streamer full); done.
Qed.

Definition demo_md (ids : list string) : option MD := Some {["trace_id"%string := ids]}.

(** A call that timed out after a millisecond and a half. *)
Lemma client_calls_logged_witness :
  UnaryClientInterceptor (fun e => default 0 e) (fun c => Itoa c) (fun _ => true) (demo_md ["t1"%string]) "new" 1500000 "/app.Users/Get"
    (fun _ => (7, Some 4)) =
  Ret ([mkLine InfoLevel finished
          [FString "grpc.service" "app.Users"; FString "grpc.method" "Get"; FString "grpc.trace_id" "t1";
           FError (Some 4); FString "grpc.code" "4"; FFloat32 "grpc.time_ms" (S754_finite false 12582912 (-23))]],
       (7, Some 4)) /\
  UnaryClientInterceptor (fun e => default 0 e) (fun c => Itoa c) (fun _ => true) (demo_md []) "new" 0 "/app.Users/Get"
    (fun _ => (7, Some 4)) = Panic IndexOutOfRange.
Proof.
  assert (plain (bytes "app.Users")) as Hp.
  { split; [intros H; apply list_elem_of_In in H; vm_compute in H; intuition discriminate|].
    split; [discriminate|split; discriminate]. }
  assert (slash ∉ bytes "Get") as Hm.
  { intros H. apply list_elem_of_In in H. vm_compute in H. intuition discriminate. }
  pose proof (client_calls_logged (S:=unit) (fun e => default 0 e) (fun c => Itoa c) (fun _ => true) (demo_md ["t1"%string]) "new" 1500000
    "app.Users" "Get" (fun _ => (7, Some 4)) (fun _ => (None, None)) Hp Hm ltac:(discriminate)) as H1.
  pose proof (client_calls_logged (S:=unit) (fun e => default 0 e) (fun c => Itoa c) (fun _ => true) (demo_md []) "new" 0
    "app.Users" "Get" (fun _ => (7, Some 4)) (fun _ => (None, None)) Hp Hm ltac:(discriminate)) as H2.
  split; [exact (proj1 H1)|exact (proj1 H2)].
Defined.
End GrpcInterceptorsTheorems.
