(* ===== verification/Support.v ===== *)
(** * Small packages: JSON columns, helpers and logging

    [types/type_JSON.go], [util/helper.go], [util/reflect.go],
    [components/log/zap.go], [internal/log/logger.go],
    [components/mq/api_request.go] and the logger of [mq/consumer.go]. *)

From S2P Require Import Prelude GoStrings.

(** ** JSON columns ([types/type_JSON.go]) *)

Module JSON.

(** [type JSON []byte]: nil, or bytes. *)
Definition JSON : Type := option string.

(** [string(j)] *)
Definition text (j : JSON) : string := default "" j.

(** [append] of the bytes to the receiver: nothing appended to nil gives nil. *)
Definition append (j : JSON) (s : string) : JSON :=
  match j with
  | None => if String.eqb s "" then None else Some s
  | Some t => Some (t +:+ s)
  end.

(** A [driver.Value]: nil, a Go [string], a Go [[]byte], or another type. *)
Inductive db_value := DbNull | DbString (s : string) | DbBytes (s : string) | DbOther.

Definition IsNull (j : JSON) : bool := String.eqb (text j) "null".

Definition Value (j : JSON) : db_value := if IsNull j then DbNull else DbString (text j).

(** [Scan]: the new value. Only a [[]byte] passes the assertion; for a value of
    another type, a Go [string] too, the error is made and dropped, and nothing
    is appended. *)
Definition Scan (value : db_value) (j : JSON) : JSON :=
  match value with
  | DbNull => None
  | DbBytes s => append j s
  | DbString _ | DbOther => append j ""
  end.

Definition MarshalJSON (m : JSON) : string := match m with None => "null" | Some s => s end.

(** [UnmarshalJSON] on a pointer that may be nil. *)
Definition UnmarshalJSON (data : string) (m : option JSON) : option JSON * option string :=
  match m with
  | None => (None, Some "null point exception"%string)
  | Some m => (Some (append m data), None)
  end.

Definition Equals (j j1 : JSON) : bool := String.eqb (text j) (text j1).
End JSON.

(** ** Helpers ([util]) *)

(** A field of a structure: its name, its json tag and its value. *)
Record field (V : Type) := mkField { FieldName : string; JsonTag : string; FieldValue : V }.
Arguments mkField {V}.
Arguments FieldName {V}.
Arguments JsonTag {V}.
Arguments FieldValue {V}.

Definition field_key {V} (f : field V) : string :=
  if String.eqb (JsonTag f) "" then FieldName f else JsonTag f.
Definition Struct2Map {V} (fields : list (field V)) : gmap string V :=
  foldl (fun data f => <[field_key f := FieldValue f]> data) ∅ fields.

(** The incoming metadata of the context, if there is any. *)
Definition GetMetaData (md : option (gmap string (list string))) (meta : string) : outcome string :=
  match md ≫= (fun md => md !! meta) with
  | Some metaVal => index metaVal 0
  | None => Ret ("mock-metadata-" +:+ meta)
  end.

(** An address of an interface: whether it is a loopback address, and its text
    if it is an IPv4 address; [None] when it is not an [*net.IPNet]. *)
Definition address : Type := option (bool * option string).
Definition address_ip (a : address) : option string :=
  match a with
  | Some (false, Some ip) => Some ip
  | _ => None
  end.
(** [GetLocalIps]: interfaces are up or not and have addresses. *)
Definition GetLocalIps (netInterfaces : list (bool * list address)) : list string :=
  netInterfaces ≫= (fun i => if (fst i : bool) then omap address_ip (snd i) else []).

(** ** Logging ([components/log/zap.go]) *)

Module Log.

Record EncoderConfig := mkEncoder {
  MessageKey : string; LevelKey : string; TimeKey : string; NameKey : string;
  CallerKey : string; StacktraceKey : string
}.
Record Config := mkConfig {
  Level : string; Encoding : string; Encoder : EncoderConfig;
  OutputPaths : list string; ErrorOutputPaths : list string
}.

(** The two sets of encoders: of levels, times and durations. *)
Inductive encoders := CapitalCST | LowercaseEpoch.
Record ZapConfig := mkZap {
  ZapLevel : Z; Development : bool; ZapEncoding : string; Keys : EncoderConfig;
  Outputs : list string; ErrorOutputs : list string; Encoders : encoders
}.

Definition InfoLevel : Z := 0.

Definition or_default (s d : string) : string := if String.eqb s "" then d else s.
Definition or_stderr (paths : list string) : list string := match paths with [] => ["stderr"%string] | _ => paths end.

(** The configuration with its defaults, which [NewZap] writes back. *)
Definition with_defaults (c : Config) : Config :=
  mkConfig (Level c) (Encoding c)
    (mkEncoder (or_default (MessageKey (Encoder c)) "M") (or_default (LevelKey (Encoder c)) "L")
       (or_default (TimeKey (Encoder c)) "T") (or_default (NameKey (Encoder c)) "N")
       (or_default (CallerKey (Encoder c)) "C") (or_default (StacktraceKey (Encoder c)) "S"))
    (or_stderr (OutputPaths c)) (or_stderr (ErrorOutputPaths c)).

(** [NewZap]: what is given to zap, or the error of the level's text;
    [UnmarshalText] reads a level. A level is enabled at its own level and
    above. *)
Definition NewZap (UnmarshalText : string -> Z + string) (c : Config) : Config * (ZapConfig + string) :=
  match UnmarshalText (Level c) with
  | inr e => (c, inr e)
  | inl ll =>
      let isDebugMode := (ll <=? InfoLevel)%Z in
      let c := with_defaults c in
      (c, inl (mkZap ll isDebugMode (Encoding c) (Encoder c) (OutputPaths c) (ErrorOutputPaths c)
                 (if isDebugMode then CapitalCST else LowercaseEpoch)))
  end.

(** [Trace]: the trace id that is added to the logger. *)
Definition Trace (md : option (gmap string (list string))) : outcome (option string) :=
  match md ≫= (fun md => md !! "trace_id"%string) with
  | None => Ret None
  | Some traceId => t ← index traceId 0; Ret (Some t)
  end.

Inductive severity := SInfo | SWarn | SError | SDebug.

(** [Output]: where the line goes, if anywhere. *)
Definition Output (s : string) : outcome (option severity) :=
  p ← slice_string s 0 3;
  Ret (if String.eqb p "INF" then Some SInfo
       else if String.eqb p "WRN" then Some SWarn
       else if String.eqb p "ERR" then Some SError
       else if String.eqb p "DBG" then Some SDebug
       else None).

(** [Write]: what is logged, and the number of bytes written. *)
Definition Write (p : list Z) : (severity * string) * Z :=
  ((SDebug, "HTTP: " +:+ of_bytes p), Z.of_nat (length p)).

(** The default logger: every level prints in the manner of its method, and the
    fatal ones then end the process. *)
Inductive grpc_level := GInfo | GWarning | GError | GFatal.
Inductive print_style := Print | Println | Printf (format : string).
Definition LoggerD_log (level : grpc_level) (style : print_style) : print_style * bool :=
  (style, match level with GFatal => true | _ => false end).

(** [V] of the default logger ([internal/log/logger.go]). *)
Definition V (l : Z) : bool := (l <=? 0)%Z.

(** The level that [SetLogger] of a consumer chooses ([mq/consumer.go]). *)
Definition SetLogger_level (lvl : string) : severity :=
  if String.eqb lvl "info" then SInfo
  else if String.eqb lvl "error" then SError
  else if String.eqb lvl "warning" then SWarn
  else SDebug.
End Log.

(** ** The lookup's HTTP request ([components/mq/api_request.go]) *)

Module ApiRequest.

(** An answer: its status, the header [X-NSQ-Content-Type], and the body or the
    error of reading it. *)
Record response := mkResponse { Status : string; StatusCode : Z; ContentType : string; Body : string + string }.

Section request.
(** Decoding a body into the caller's value or the [data] of a wrapped answer;
    [%q] of the body. *)
Context {A : Type} (Unmarshal UnmarshalWrapped : string -> A + string) (Quote : string -> string).

(** [apiRequestNegotiateV1]: [sent] is the answer, or the error of making the
    request or of sending it. *)
Definition apiRequestNegotiateV1 (sent : response + string) : A + string :=
  match sent with
  | inr e => inr e
  | inl resp =>
      match Body resp with
      | inr e => inr e
      | inl body =>
          if negb (StatusCode resp =? 200)%Z then inr ("got response " +:+ Status resp +:+ " " +:+ Quote body)
          else
            let body := if String.eqb body "" then "{}"%string else body in
            if String.eqb (ContentType resp) "nsq; version=1.0" then Unmarshal body else UnmarshalWrapped body
      end
  end.
End request.
End ApiRequest.

(** ** Properties *)

Module SupportTheorems.
Import JSON.

(** C40: with a driver that gives a column back as bytes, as the one for MySQL
    does, what [Value] wrote and [Scan] reads into a nil variable is the same
    value, but for nil, the empty text and the text null, which all become nil;
    read into a variable that is in use, it is added to what is there. With a
    driver that gives back the string it was given, [Scan] reads nothing of the
    column and reports no error. *)
Theorem json_column_roundtrip (column : db_value -> db_value) j old :
  column DbNull = DbNull -> (forall s, column (DbString s) = DbBytes s) ->
  Scan (column (Value j)) None = (if String.eqb (text j) "" || IsNull j then None else j) /\
  (IsNull j = false -> text (Scan (column (Value j)) old) = text old +:+ text j) /\
  (IsNull j = true -> Scan (column (Value j)) old = None) /\
  (IsNull j = false -> Scan (Value j) old = old).
Proof.
  intros Hnull Htext. unfold Value.
  destruct (IsNull j) eqn:Hn; rewrite ?Hnull, ?Htext; cbn [Scan]; split_and!; try done.
  - by rewrite orb_true_r.
  - destruct j as [s|]; [|done]. cbn. by destruct (String.eqb s "").
  - intros _. destruct old as [t|]; [done|]. cbn. destruct (String.eqb_spec (text j) "") as [->|]; done.
  - intros _. destruct old as [t|]; [|done]. unfold append. by rewrite string_app_nil_r.
Qed.

(** The driver for MySQL. *)
Definition mysql_column (v : db_value) : db_value := match v with DbString s => DbBytes s | v => v end.

Lemma json_column_roundtrip_witness :
  Scan (mysql_column (Value (Some "{}"%string))) None = Some "{}"%string /\
  Scan (Value (Some "{}"%string)) None = None.
Proof.
  destruct (json_column_roundtrip mysql_column (Some "{}"%string) None) as (H1 & _ & _ & H2);
    [reflexivity|reflexivity|].
  split; [exact H1|exact (H2 eq_refl)].
Defined.

(** A later field of a structure replaces an earlier one of the same key; the
    other keys are those of the fields. *)
Theorem struct_to_map {V} (fields : list (field V)) k :
  Struct2Map fields !! k = FieldValue <$> last (List.filter (fun f => String.eqb (field_key f) k) fields).
Proof.
  unfold Struct2Map. induction fields as [|f fields IH] using rev_ind; [done|].
  rewrite foldl_app, List.filter_app. cbn [foldl List.filter].
  destruct (String.eqb_spec (field_key f) k) as [<-|Hne].
  - by rewrite lookup_insert_eq, last_snoc.
  - by rewrite lookup_insert_ne, app_nil_r.
Qed.

(** [Output] sends a line by its first three bytes and panics on a shorter
    one. *)
Theorem output_by_prefix s :
  (length (bytes s) < 3 -> Log.Output s = Panic SliceOutOfRange) /\
  (3 <= length (bytes s) -> exists sv, Log.Output s = Ret sv).
Proof.
  unfold Log.Output, slice_string, slice. split; intros H; case_decide as Hd; try lia; [done|]. by eexists.
Qed.
End SupportTheorems.
