(* ===== verification/Email.v ===== *)
(** * Mail ([src/components/email/email.go])

    The dialer of gomail, made from a configuration. gomail is a parameter. *)

From S2P Require Import Prelude.

(** The [tls.Config] is nil or a number. *)
Record Config := mkConfig {
  SmtpAddr : string; Port : Z; User : string; Password : string;
  SenderName : string; TlsConfig : option nat; ToUsers : list string
}.

(** [New]: the dialer that [gomail.NewDialer] made, with the configuration's
    TLS if there is one; [with_tls] sets the dialer's field. *)
Definition New {Dialer} (NewDialer : string -> Z -> string -> string -> Dialer) (with_tls : nat -> Dialer -> Dialer)
    (c : Config) : Dialer :=
  let d := NewDialer (SmtpAddr c) (Port c) (User c) (Password c) in
  match TlsConfig c with Some tls => with_tls tls d | None => d end.
