(* ===== verification/Producer.v ===== *)
(** * Message producers ([src/components/mq])

    A [Producer] finds nsqd servers through lookup servers and keeps a pool of
    connections per server, a channel from which [Publish] takes one and to
    which it gives it back. The methods are steps on the producer; receiving
    from a channel that stays empty is [Hang]. The nsq library, HTTP, URLs and
    random numbers are parameters. *)

From Stdlib Require Import SpecFloat.
From S2P Require Import Prelude GoStrings Support.

(** ** Configuration ([config.go]) *)

(** An [interface{}]: nil, the dynamic types that [isEmpty] tells apart, and the
    others that a field of [Config] may have; a [*tls.Config] is nil or a
    number. *)
Inductive value :=
| VInt (z : Z) | VString (s : string) | VDuration (d : Z) | VBool (b : bool) | VNil
| VUint16 (z : Z) | VInt64 (z : Z) | VFloat64 (f : spec_float) | VAddr (network addr : string) | VTls (config : option nat).

(** [value == 0] compares an interface with an [int], so it is never true of a
    [time.Duration]; the case of strings is empty. *)
Definition isEmpty (v : value) : bool :=
  match v with
  | VInt z => (z =? 0)%Z
  | VString _ => false
  | VDuration _ => false
  | VBool b => negb b
  | VNil => true
  | VUint16 _ | VInt64 _ | VFloat64 _ | VAddr _ _ | VTls _ => false
  end.

Section config.
Context {RO : RangeOrder} {C : Type} (nsq_default : C) (Set_ : string -> value -> C -> C * option string).

(** Errors of [Set] are skipped. *)
Definition NewConfig (cfg : list (field value)) : C * option string :=
  (foldl (fun c kv => if isEmpty (snd kv) then c else fst (Set_ (fst kv) (snd kv) c)) nsq_default
     (range (Struct2Map cfg)), None).
End config.

(** ** Producers ([producer.go]) *)

Definition ErrAlreadyConnected : string := "already connected".

(** A pool: the connections in the channel, by number, and its capacity. *)
Record producerPool := mkPool { closed : bool; conns : list nat; cap : nat }.

Record peerInfo := mkPeer { BroadcastAddress : string; TCPPort : Z }.

(** [exited] says that [exitChan] is closed; [stopped] are the connections on
    which [Stop] was called, in order. *)
Record Producer := mkProducer {
  lookupdQueryIndex : Z;
  lookupdHTTPAddrs : list string;
  nsqdTCPAddrs : list string;
  connections : gmap string producerPool;
  exited : bool;
  stopped : list nat
}.

Definition NewProducer : Producer := mkProducer 0 [] [] ∅ false [].

Definition with_connections (cs : gmap string producerPool) (p : Producer) : Producer :=
  mkProducer (lookupdQueryIndex p) (lookupdHTTPAddrs p) (nsqdTCPAddrs p) cs (exited p) (stopped p).
Definition with_index (i : Z) (p : Producer) : Producer :=
  mkProducer i (lookupdHTTPAddrs p) (nsqdTCPAddrs p) (connections p) (exited p) (stopped p).
Definition with_nsqd (addrs : list string) (p : Producer) : Producer :=
  mkProducer (lookupdQueryIndex p) (lookupdHTTPAddrs p) addrs (connections p) (exited p) (stopped p).
Definition stop (conn : nat) (p : Producer) : Producer :=
  mkProducer (lookupdQueryIndex p) (lookupdHTTPAddrs p) (nsqdTCPAddrs p) (connections p) (exited p)
    (stopped p ++ [conn])%list.

(** [net.JoinHostPort] *)
Definition JoinHostPort (host port : string) : string :=
  if Contains_sub host ":" then "[" +:+ host +:+ "]:" +:+ port else host +:+ ":" +:+ port.

Section producer.
Context {RO : RangeOrder}.
(** [nsq.NewProducer]: the number of the connection, or an error. *)
Context (nsq_NewProducer : string -> nat + string).
(** [url.Parse], [u.Path], [u.Path = ...], [u.String()]. *)
Context {U : Type} (Parse : string -> U + string) (Path : U -> string) (set_Path : string -> U -> U)
        (URL : U -> string).
(** The answer of a lookup server to the request number [n] of a query. *)
Context (api : nat -> string -> list peerInfo + string).
(** [rand.Intn]. *)
Context (Intn : nat -> nat).
(** [producer.Publish], by the attempt. *)
Context (nsq_Publish : nat -> nat -> option string).

Definition ConnectToNSQD (addr : string) (poolCap : Z) (p : Producer) : outcome (Producer * option string) :=
  match connections p !! addr with
  | Some _ => Ret (p, Some ErrAlreadyConnected)
  | None =>
      if (poolCap <? 0)%Z then Panic (PanicMessage "makechan: size out of range")
      else
        let cap := Z.to_nat poolCap in
        match nsq_NewProducer addr with
        | inr e => Ret (with_connections (<[addr := mkPool false [] cap]> (connections p)) p, Some e)
        | inl conn =>
            Ret (with_connections (<[addr := mkPool false (replicate cap conn) cap]> (connections p)) p, None)
        end
  end.

Definition nextLookupdEndpoint (p : Producer) : outcome (Producer * string) :=
  let n := Z.of_nat (length (lookupdHTTPAddrs p)) in
  let i := if (n <=? lookupdQueryIndex p)%Z then 0%Z else lookupdQueryIndex p in
  addr ← index_z (lookupdHTTPAddrs p) i;
  let p := with_index (Z.rem (i64 (i + 1)) n) p in
  let urlString := if Contains_sub addr "://" then addr else "http://" +:+ addr in
  match Parse urlString with
  | inr e => Panic (PanicMessage e)
  | inl u =>
      let u := if String.eqb (Path u) "/" || String.eqb (Path u) "" then set_Path "/nodes" u else u in
      Ret (p, URL u)
  end.

(** The requests: at most three, each to the next server. *)
Fixpoint request (more retries : nat) (p : Producer) : outcome (Producer * option (list peerInfo)) :=
  '(p, endpoint) ← nextLookupdEndpoint p;
  match api retries endpoint with
  | inl data => Ret (p, Some data)
  | inr _ => match more with
             | O => Ret (p, None)
             | S more => request more (S retries) p
             end
  end.

Fixpoint connect_all (addrs : list string) (poolCap : Z) (p : Producer) : outcome Producer :=
  match addrs with
  | [] => Ret p
  | addr :: addrs => '(p, _) ← ConnectToNSQD addr poolCap p; connect_all addrs poolCap p
  end.

Definition peer_addr (pr : peerInfo) : string := JoinHostPort (BroadcastAddress pr) (Itoa (TCPPort pr)).

Definition queryLookupd (poolCap : Z) (p : Producer) : outcome Producer :=
  '(p, data) ← request 2 0 p;
  match (data : option (list peerInfo)) with
  | None => Ret p
  | Some producers =>
      let nsqdAddrs := map peer_addr producers in
      p ← connect_all nsqdAddrs poolCap p;
      Ret (with_nsqd nsqdAddrs p)
  end.

(** [lookupdLoop] up to a number of ticks; [interval] is the configured one. *)
Fixpoint ticks (n : nat) (poolCap : Z) (p : Producer) : outcome Producer :=
  match n with
  | O => Ret p
  | S n => p ← queryLookupd poolCap p; ticks n poolCap p
  end.
Definition lookupdLoop (interval : Z) (n : nat) (poolCap : Z) (p : Producer) : outcome Producer :=
  if (interval <=? 0)%Z then Panic (PanicMessage "non-positive interval for NewTicker")
  else ticks n poolCap p.

Definition ConnectToNSQLookupd (addr : string) (poolCap : Z) (p : Producer) : outcome Producer :=
  if existsb (fun x => String.eqb x addr) (lookupdHTTPAddrs p) then Ret p
  else
    let p := mkProducer (lookupdQueryIndex p) (lookupdHTTPAddrs p ++ [addr])%list (nsqdTCPAddrs p)
               (connections p) (exited p) (stopped p) in
    if (length (lookupdHTTPAddrs p) =? 1)%nat then queryLookupd poolCap p else Ret p.

(** *** Taking and giving back a connection *)

Definition pool_of (addr : string) (p : Producer) : outcome producerPool :=
  match connections p !! addr with Some pool => Ret pool | None => Panic NilDereference end.

Definition getProducerConn (p : Producer) : outcome (Producer * (string * nat + string)) :=
  if (length (nsqdTCPAddrs p) =? 0)%nat || (size (connections p) =? 0)%nat
  then Ret (p, inr "producer not exist"%string)
  else
    addr ← index (nsqdTCPAddrs p) (Intn (length (nsqdTCPAddrs p)));
    pool ← pool_of addr p;
    if closed pool then Ret (p, inr "connect pool is closed"%string)
    else match conns pool with
         | [] => Hang
         | conn :: rest =>
             Ret (with_connections (<[addr := mkPool false rest (cap pool)]> (connections p)) p, inl (addr, conn))
         end.

Definition putProducerConn (addr : string) (conn : nat) (p : Producer) : outcome (Producer * option string) :=
  pool ← pool_of addr p;
  if closed pool then Ret (p, Some "connect pool is closed"%string)
  else if (length (conns pool) <? cap pool)%nat then
    Ret (with_connections (<[addr := mkPool false (conns pool ++ [conn])%list (cap pool)]> (connections p)) p,
         None)
  else Ret (stop conn p, Some ("connect addr(" +:+ addr +:+ ") pool is filled")).

(** The attempts to publish: how many were made. *)
Fixpoint attempts (more n conn : nat) : nat :=
  match nsq_Publish conn n with
  | None => S n
  | Some _ => match more with O => S n | S more => attempts more (S n) conn end
  end.

(** [Publish]: the producer, the attempts made, and the error returned. After
    the last failure [err] is overwritten with what [putProducerConn] says. *)
Definition Publish (p : Producer) : outcome (Producer * nat * option string) :=
  '(p, got) ← getProducerConn p;
  match (got : string * nat + string) with
  | inr e => Ret (p, O, Some e)
  | inl (addr, conn) =>
      let n := attempts 2 0 conn in
      '(p, err) ← putProducerConn addr conn p;
      Ret (p, n, err)
  end.

(** *** Closing *)

Fixpoint close_pools (pools : list (string * producerPool)) (p : Producer) : outcome Producer :=
  match pools with
  | [] => Ret p
  | (addr, pool) :: pools =>
      if closed pool then Panic ClosedChannel
      else
        let p := with_connections (<[addr := mkPool true [] (cap pool)]> (connections p)) p in
        close_pools pools (foldl (fun p conn => stop conn p) p (conns pool))
  end.

Definition Close (p : Producer) : outcome Producer :=
  p ← close_pools (range (connections p)) p;
  if exited p then Panic ClosedChannel
  else Ret (mkProducer (lookupdQueryIndex p) (lookupdHTTPAddrs p) (nsqdTCPAddrs p) (connections p) true (stopped p)).
End producer.

(** ** Facts *)

Module ProducerFacts.

Lemma attempts_bounds nsq_Publish more n conn :
  (S n <= attempts nsq_Publish more n conn <= S n + more)%nat.
Proof.
  revert n. induction more as [|more IH]; intros n; cbn [attempts].
  - destruct (nsq_Publish conn n); lia.
  - destruct (nsq_Publish conn n); [specialize (IH (S n)); lia|lia].
Qed.

(** The attempts go on up to the first that succeeds. *)
Lemma attempts_failed nsq_Publish more n conn i :
  (n <= i)%nat -> (S i < attempts nsq_Publish more n conn)%nat -> nsq_Publish conn i <> None.
Proof.
  revert n. induction more as [|more IH]; intros n Hn; cbn [attempts].
  - destruct (nsq_Publish conn n); lia.
  - destruct (nsq_Publish conn n) eqn:E; [|lia].
    destruct (decide (n = i)) as [<-|Hne]; [congruence|]. apply IH. lia.
Qed.

Lemma foldl_stop cs p :
  foldl (fun p conn => stop conn p) p cs =
  mkProducer (lookupdQueryIndex p) (lookupdHTTPAddrs p) (nsqdTCPAddrs p) (connections p) (exited p)
    (stopped p ++ cs)%list.
Proof.
  revert p. induction cs as [|c cs IH]; intros p; cbn; [rewrite app_nil_r; by destruct p|].
  rewrite IH. cbn. by rewrite <- (assoc app).
Qed.

(** Closing open pools closes each of them and stops what it holds. *)
Lemma close_pools_spec pools p :
  Forall (fun e => closed (snd e) = false) pools -> NoDup pools.*1 ->
  exists cs, close_pools pools p =
  Ret (mkProducer (lookupdQueryIndex p) (lookupdHTTPAddrs p) (nsqdTCPAddrs p) cs (exited p)
        (stopped p ++ (pools ≫= (fun e => conns (snd e))))%list) /\
  (forall addr pool, (addr, pool) ∈ pools -> cs !! addr = Some (mkPool true [] (cap pool))) /\
  forall addr, addr ∉ pools.*1 -> cs !! addr = connections p !! addr.
Proof.
  intros Hall. revert p. induction Hall as [|[addr pool] pools Hc _ IH]; intros p Hnd.
  { exists (connections p). cbn. rewrite app_nil_r. split; [by destruct p|].
    split; [by intros ?? ?%elem_of_nil|done]. }
  cbn in Hnd. apply NoDup_cons in Hnd as [Hin Hnd]. cbn [snd] in Hc. cbn [close_pools]. rewrite Hc.
  rewrite foldl_stop. edestruct IH as (cs & -> & Hcs & Hother); [done|].
  exists cs. cbn. split; [by rewrite <- (assoc app)|]. split.
  - intros addr' pool' [[= -> ->]|Hp]%elem_of_cons; [|by apply Hcs].
    rewrite Hother by done. cbn. by rewrite lookup_insert_eq.
  - intros addr' [Hne Hp]%not_elem_of_cons. rewrite Hother by done. cbn.
    by rewrite lookup_insert_ne.
Qed.
End ProducerFacts.

(** ** Properties *)

Module ProducerTheorems.
Import ProducerFacts.

(** With a connection in the pool of the server that is drawn, [Publish]
    always returns nil: also when all its attempts, which are then three, have
    failed. The connection goes back to its pool. *)
Theorem publish_hides_failures Intn nsq_Publish p addr pool conn rest :
  index (nsqdTCPAddrs p) (Intn (length (nsqdTCPAddrs p))) = Ret addr ->
  connections p !! addr = Some pool -> closed pool = false -> conns pool = conn :: rest ->
  (length (conns pool) <= cap pool)%nat ->
  exists n, Publish Intn nsq_Publish p =
    Ret (with_connections (<[addr := mkPool false (rest ++ [conn])%list (cap pool)]> (connections p)) p, n, None) /\
  (1 <= n <= 3)%nat /\ (forall i, (S i < n)%nat -> nsq_Publish conn i <> None) /\
  ((forall i, nsq_Publish conn i <> None) -> n = 3%nat).
Proof.
  intros Hi Hp Hc Hconns Hcap. exists (attempts nsq_Publish 2 0 conn).
  unfold Publish, getProducerConn. rewrite Hi. run.
  destruct (length (nsqdTCPAddrs p) =? 0)%nat eqn:El.
  { apply Nat.eqb_eq, nil_length_inv in El. rewrite El in Hi. done. }
  rewrite (proj2 (Nat.eqb_neq (size (connections p)) 0)).
  2: { intros Hs%map_size_empty_iff. rewrite Hs in Hp. by destruct (lookup_empty_Some (M:=gmap string) _ _ Hp). }
  cbn [orb]. unfold pool_of. rewrite Hp. run. rewrite Hc, Hconns. run.
  unfold putProducerConn, pool_of. cbn [connections with_connections]. rewrite lookup_insert_eq. run.
  cbn [closed conns cap]. rewrite Hconns in Hcap. cbn in Hcap. rewrite (proj2 (Nat.ltb_lt _ _)) by lia. run.
  rewrite insert_insert_eq. split_and!; [done| | | |].
  - apply (attempts_bounds nsq_Publish 2 0 conn).
  - apply (attempts_bounds nsq_Publish 2 0 conn).
  - intros i. apply attempts_failed. lia.
  - intros Hall. cbn. specialize (Hall 0%nat) as H0. specialize (Hall 1%nat) as H1. specialize (Hall 2%nat).
    by destruct (nsq_Publish conn 0%nat), (nsq_Publish conn 1%nat), (nsq_Publish conn 2%nat).
Qed.

(** [Close] on open pools stops every pooled connection once per place it
    has in a pool; after it [Publish] gives an error without trying, and a
    second [Close] panics. *)
Theorem close_stops_all {RO : RangeOrder} Intn nsq_Publish p :
  (forall addr pool, connections p !! addr = Some pool -> closed pool = false) -> exited p = false ->
  (forall n, (0 < n)%nat -> (Intn n < n)%nat) ->
  Forall (fun addr => is_Some (connections p !! addr)) (nsqdTCPAddrs p) ->
  exists p', Close p = Ret p' /\
  stopped p' = (stopped p ++ (range (connections p) ≫= (fun e => conns (snd e))))%list /\
  (exists msg, Publish Intn nsq_Publish p' = Ret (p', O, Some msg)) /\ Close p' = Panic ClosedChannel.
Proof.
  intros Hopen Hex Hrand Haddrs. unfold Close.
  destruct (close_pools_spec (range (connections p)) p) as (cs & -> & Hcs & Hother).
  { apply Forall_forall. intros [addr pool] Hin%elem_of_range. by eapply Hopen. }
  { apply range_fst_NoDup. }
  run. cbn [exited]. rewrite Hex.
  assert (forall addr pool, cs !! addr = Some pool -> closed pool = true) as Hclosed.
  { intros addr pool Ha. destruct (connections p !! addr) as [pool0|] eqn:E.
    - rewrite (Hcs addr pool0) in Ha by by apply elem_of_range. by simplify_eq.
    - rewrite Hother in Ha; [congruence|]. intros ([addr' pool'] & -> & Hin%elem_of_range)%list_elem_of_fmap.
      cbn in E. congruence. }
  eexists. split; [done|]. split; [done|]. split.
  - unfold Publish, getProducerConn. cbn [nsqdTCPAddrs connections].
    destruct (length (nsqdTCPAddrs p) =? 0)%nat eqn:El; cbn [orb]; [run; by eexists|].
    destruct (size cs =? 0)%nat; [run; by eexists|]. apply Nat.eqb_neq in El.
    destruct (index_lt (nsqdTCPAddrs p) (Intn (length (nsqdTCPAddrs p)))) as (addr & -> & Ha);
      [apply Hrand; lia|]. run. apply (Forall_lookup_1 _ _ _ _ Haddrs) in Ha as [pool Hpool].
    unfold pool_of. cbn [connections]. rewrite (Hcs addr pool) by by apply elem_of_range. run.
    cbn [closed]. by eexists.
  - cbn [connections]. destruct (range cs) as [|[addr pool] rest] eqn:Hr; [done|].
    cbn [close_pools]. rewrite (Hclosed addr pool); [done|].
    apply elem_of_range. rewrite Hr. by left.
Qed.

(** The lookup servers are asked in turn: a call asks the server at the index,
    at [/nodes] if its URL has no path, and moves the index to the next server,
    after the last to the first. *)
Theorem lookup_in_turn {U} Parse (Path : U -> string) set_Path URL p i :
  (forall s, exists u, Parse s = inl u) -> lookupdQueryIndex p = Z.of_nat i ->
  (i < length (lookupdHTTPAddrs p))%nat -> (Z.of_nat (length (lookupdHTTPAddrs p)) < 2 ^ 63)%Z ->
  exists p' addr u, nextLookupdEndpoint Parse Path set_Path URL p = Ret (p', URL u) /\
  lookupdHTTPAddrs p !! i = Some addr /\
  p' = with_index (Z.of_nat ((i + 1) mod length (lookupdHTTPAddrs p))) p /\
  exists u0, Parse (if Contains_sub addr "://" then addr else "http://" +:+ addr) = inl u0 /\
  u = if String.eqb (Path u0) "/" || String.eqb (Path u0) "" then set_Path "/nodes" u0 else u0.
Proof.
  intros HParse Hq Hi Hn. destruct (lookup_lt_is_Some_2 _ _ Hi) as [addr Ha].
  unfold nextLookupdEndpoint. rewrite Hq. rewrite (proj2 (Z.leb_gt _ _)) by lia.
  unfold index_z. rewrite decide_True, Nat2Z.id by lia. rewrite (index_lookup _ _ _ Ha). run.
  destruct (HParse (if Contains_sub addr "://" then addr else "http://" +:+ addr)) as [u0 Hu].
  rewrite Hu. eexists _, addr, _. split; [done|]. split; [done|]. split; [|by exists u0].
  f_equal. rewrite i64_id by (unfold in_int64; lia).
  rewrite Z.rem_mod_nonneg, Nat2Z.inj_mod by lia. f_equal. lia.
Qed.

Definition demo_producer : Producer :=
  mkProducer 0 ["a"; "b"]%string ["n1:4150"%string] {["n1:4150"%string := mkPool false [7; 7]%nat 2]} false [].

Lemma publish_hides_failures_witness :
  exists p', Publish (fun _ => 0%nat) (fun _ _ => Some "refused"%string) demo_producer = Ret (p', 3%nat, None).
Proof.
  destruct (publish_hides_failures (fun _ => 0%nat) (fun _ _ => Some "refused"%string) demo_producer
    "n1:4150" (mkPool false [7; 7]%nat 2) 7 [7%nat]) as (n & H1 & _ & _ & H2);
    [reflexivity|reflexivity|reflexivity|reflexivity|cbn; lia|].
  rewrite H2 in H1 by discriminate. eexists. exact H1.
Defined.

Lemma close_stops_all_witness :
  exists p', Close (RO:=ascending_order) demo_producer = Ret p' /\ stopped p' = [7; 7]%nat.
Proof.
  destruct (close_stops_all (RO:=ascending_order) (fun _ => 0%nat) (fun _ _ => None) demo_producer)
    as (p' & H1 & H2 & _).
  - intros addr pool H. unfold demo_producer in H. cbn [connections] in H.
    apply lookup_singleton_Some in H as [_ <-]. reflexivity.
  - reflexivity.
  - intros n Hn. exact Hn.
  - constructor; [eexists; reflexivity|constructor].
  - exists p'. split; [exact H1|]. rewrite H2. reflexivity.
Defined.

Lemma lookup_in_turn_witness :
  exists p', nextLookupdEndpoint (fun s => inl s) (fun _ => ""%string) (fun p u => u +:+ p) id demo_producer =
    Ret (p', "http://a/nodes"%string) /\ lookupdQueryIndex p' = 1%Z.
Proof.
  destruct (lookup_in_turn (fun s => inl s) (fun _ => ""%string) (fun p u => u +:+ p) id demo_producer 0)
    as (p' & addr & u & H1 & H2 & H3 & u0 & H4 & H5);
    [intros s; exists s; reflexivity|reflexivity|cbn; lia|cbn; lia|].
  exists p'. cbn in H2. injection H2 as <-. injection H4 as <-. subst u. split; [exact H1|].
  subst p'. reflexivity.
Defined.
End ProducerTheorems.
