(* ===== verification/MqConfig.v ===== *)
(** * The configuration of producers and consumers ([src/components/mq/config.go], [consumer.go])

    [Config] with the json tags of its fields, which [NewConfig] turns into
    options of nsq through [Struct2Map]. The configuration of nsq is an
    interface: options that can be set and read; the theorem says which options
    a [Config] changes. *)

From Stdlib Require Import SpecFloat.
From S2P Require Import Prelude GoStrings Support Producer.

(** ** Data *)

(** Durations in nanoseconds; a [net.Addr] may be nil. *)
Record Config := mkConfig {
  DialTimeout : Z;
  ReadTimeout : Z;
  WriteTimeout : Z;
  LocalAddr : option (string * string);
  LookupdPollInterval : Z;
  LookupdPollJitter : spec_float;
  MaxRequeueDelay : Z;
  DefaultRequeueDelay : Z;
  MaxAttempts : Z;
  HeartbeatInterval : Z;
  TlsV1 : bool;
  TlsConfig : option nat;
  Deflate : bool;
  DeflateLevel : Z;
  Snappy : bool;
  OutputBufferSize : Z;
  OutputBufferTimeout : Z;
  MaxInFlight : Z;
  MsgTimeout : Z;
  PoolCap : Z;
  Concurrency : Z
}.

(** The fields as reflection lists them. *)
Definition config_fields (cfg : Config) : list (field value) :=
  [ mkField "DialTimeout" "dial_timeout" (VDuration (DialTimeout cfg));
    mkField "ReadTimeout" "read_timeout" (VDuration (ReadTimeout cfg));
    mkField "WriteTimeout" "write_timeout" (VDuration (WriteTimeout cfg));
    mkField "LocalAddr" "local_addr"
      (match LocalAddr cfg with None => VNil | Some (network, addr) => VAddr network addr end);
    mkField "LookupdPollInterval" "lookupd_poll_interval" (VDuration (LookupdPollInterval cfg));
    mkField "LookupdPollJitter" "lookupd_poll_jitter" (VFloat64 (LookupdPollJitter cfg));
    mkField "MaxRequeueDelay" "max_requeue_delay" (VDuration (MaxRequeueDelay cfg));
    mkField "DefaultRequeueDelay" "default_requeue_delay" (VDuration (DefaultRequeueDelay cfg));
    mkField "MaxAttempts" "max_attempts" (VUint16 (MaxAttempts cfg));
    mkField "HeartbeatInterval" "heartbeat_interval" (VDuration (HeartbeatInterval cfg));
    mkField "TlsV1" "tls_v1" (VBool (TlsV1 cfg));
    mkField "TlsConfig" "tls_config" (VTls (TlsConfig cfg));
    mkField "Deflate" "deflate" (VBool (Deflate cfg));
    mkField "DeflateLevel" "deflate_level" (VInt (DeflateLevel cfg));
    mkField "Snappy" "snappy" (VBool (Snappy cfg));
    mkField "OutputBufferSize" "output_buffer_size" (VInt64 (OutputBufferSize cfg));
    mkField "OutputBufferTimeout" "output_buffer_timeout" (VDuration (OutputBufferTimeout cfg));
    mkField "MaxInFlight" "max_in_flight" (VInt (MaxInFlight cfg));
    mkField "MsgTimeout" "msg_timeout" (VDuration (MsgTimeout cfg));
    mkField "PoolCap" "pool_cap" (VInt (PoolCap cfg));
    mkField "Concurrency" "concurrency" (VInt (Concurrency cfg)) ]%string.

(** What nsq promises of its configuration: an option that it knows can be set
    to a value of the right type, and nothing else changes. *)
Class NsqConfig (C : Type) := {
  nsq_NewConfig : C;
  nsq_Set : string -> value -> C -> C * option string;
  nsq_option : C -> string -> value;
  nsq_accepts : string -> value -> bool;
  nsq_option_Set k v c k' :
    nsq_option (fst (nsq_Set k v c)) k' = if String.eqb k' k && nsq_accepts k v then v else nsq_option c k'
}.

Section consumer.
Context {RO : RangeOrder} {C : Type} `{NsqConfig C}.

(** [NewConfig] of a [Config], with its nil error. *)
Definition options (cfg : Config) : C * option string := NewConfig nsq_NewConfig nsq_Set (config_fields cfg).

(** [nsq.NewConsumer] is a parameter: a consumer or an error. *)
Definition NewConsumer {Consumer} (nsq_NewConsumer : string -> string -> C -> Consumer + string)
    (topic channel : string) (cfg : Config) : option Consumer * option string :=
  match options cfg with
  | (_, Some err) => (None, Some err)
  | (config, None) =>
      match nsq_NewConsumer topic channel config with
      | inr err => (None, Some err)
      | inl consumer => (Some consumer, None)
      end
  end.
End consumer.

(** ** Facts *)

Module MqConfigFacts.

Section options.
Context {RO : RangeOrder} {C : Type} `{NsqConfig C}.

Definition set_option (c : C) (kv : string * value) : C :=
  if isEmpty (snd kv) then c else fst (nsq_Set (fst kv) (snd kv) c).

Lemma set_option_get c kv k :
  nsq_option (set_option c kv) k =
  if String.eqb k (fst kv) && (negb (isEmpty (snd kv)) && nsq_accepts (fst kv) (snd kv)) then snd kv else nsq_option c k.
Proof.
  unfold set_option. destruct (isEmpty (snd kv)); cbn [negb andb]; [by rewrite andb_false_r|].
  apply nsq_option_Set.
Qed.

Lemma set_options_get l c k :
  NoDup l.*1 ->
  nsq_option (foldl set_option c l) k =
  match (list_to_map l : gmap string value) !! k with
  | Some v => if negb (isEmpty v) && nsq_accepts k v then v else nsq_option c k
  | None => nsq_option c k
  end.
Proof.
  revert c. induction l as [|[k1 v1] l IH]; intros c; [done|].
  cbn [fmap list_fmap fst foldl]. intros [Hk1 Hnd]%NoDup_cons. rewrite IH by done. rewrite list_to_map_cons.
  rewrite set_option_get. cbn [fst snd]. destruct (String.eqb_spec k k1) as [->|Hne].
  - rewrite (not_elem_of_list_to_map_1 (M:=gmap string) l k1), lookup_insert_eq by done. by destruct (isEmpty v1), (nsq_accepts k1 v1).
  - by rewrite lookup_insert_ne.
Qed.

(** The values that replace a default: all but the nil of an interface, false
    and the zero of an [int]; zeros of other types and a nil [*tls.Config] do
    replace it. *)
Definition overrides (v : value) : bool :=
  match v with VInt z => bool_decide (z <> 0%Z) | VBool b => b | VNil => false | _ => true end.

Lemma overrides_spec v : negb (isEmpty v) = overrides v.
Proof. destruct v as [z| | |b| | | | | |]; try done; cbn; [|by destruct b]. destruct (Z.eqb_spec z 0); by case_bool_decide. Qed.

(** The tags are all different. *)
Lemma config_tags cfg f :
  f ∈ config_fields cfg -> Struct2Map (config_fields cfg) !! JsonTag f = Some (FieldValue f).
Proof.
  intros Hf. unfold config_fields in Hf.
  repeat (apply elem_of_cons in Hf as [->|Hf]; [vm_compute; reflexivity|]). by apply elem_of_nil in Hf.
Qed.
End options.
End MqConfigFacts.

(** ** Properties *)

Module MqConfigTheorems.
Import MqConfigFacts.

(** C37: an option of nsq that a [Config] has a field for takes the field's
    value, if nsq accepts it, unless the value is a nil [LocalAddr], a false, or
    a zero of the type [int], which leave nsq's default. So every value of
    another type is set, those that the program left out included: zero
    durations, a zero [MaxAttempts] or [OutputBufferSize], a nil [TlsConfig]. The
    other options keep their defaults, whatever order the map of the fields is
    visited in, and there is no error. *)
Theorem config_overrides (RO : RangeOrder) {C} `{NsqConfig C} cfg :
  exists c : C, options cfg = (c, None) /\
  (forall f, f ∈ config_fields cfg ->
     nsq_option c (JsonTag f) =
     if overrides (FieldValue f) && nsq_accepts (JsonTag f) (FieldValue f)
     then FieldValue f else nsq_option nsq_NewConfig (JsonTag f)) /\
  (forall f, f ∈ config_fields cfg -> nsq_accepts (JsonTag f) (FieldValue f) = true ->
     FieldValue f <> VNil -> FieldValue f <> VBool false -> FieldValue f <> VInt 0 ->
     nsq_option c (JsonTag f) = FieldValue f) /\
  forall k, k ∉ map JsonTag (config_fields cfg) -> nsq_option c k = nsq_option nsq_NewConfig k.
Proof.
  eexists. split; [reflexivity|].
  change (fun c kv => if isEmpty (snd kv) then c else fst (nsq_Set (fst kv) (snd kv) c)) with set_option.
  assert (forall k, nsq_option (foldl set_option nsq_NewConfig (range (Struct2Map (config_fields cfg)))) k =
    match Struct2Map (config_fields cfg) !! k with
    | Some v => if negb (isEmpty v) && nsq_accepts k v then v else nsq_option nsq_NewConfig k
    | None => nsq_option nsq_NewConfig k
    end) as Hget.
  { intros k. by rewrite set_options_get, range_list_to_map by apply range_fst_NoDup. }
  split_and!.
  - intros f Hf. by rewrite Hget, config_tags, overrides_spec.
  - intros f Hf Ha H1 H2 H3. rewrite Hget, config_tags, overrides_spec, Ha by done.
    assert (overrides (FieldValue f) = true) as ->; [|done].
    destruct (FieldValue f) as [z| | |[]| | | | | |]; try done. cbn. apply bool_decide_eq_true_2. congruence.
  - intros k Hk. rewrite Hget. rewrite SupportTheorems.struct_to_map.
    destruct (List.filter _ _) as [|f l] eqn:E; [done|]. exfalso. apply Hk.
    assert (In f (f :: l)) as Hin by by left. rewrite <- E in Hin. apply filter_In in Hin as [Hf Heq%String.eqb_eq].
    subst k. apply list_elem_of_In in Hf. apply list_elem_of_fmap. exists f. split; [|done].
    unfold config_fields in Hf. repeat (apply elem_of_cons in Hf as [->|Hf]; [done|]). by apply elem_of_nil in Hf.
Qed.

(** An nsq that knows two options, with a default of a second for one. *)
Definition demo_known : list string := ["dial_timeout"; "max_in_flight"]%string.
#[local] Instance demo_nsq : NsqConfig (gmap string value).
Proof.
  refine {| nsq_NewConfig := {["dial_timeout"%string := VDuration 1000000000; "max_in_flight"%string := VInt 1]};
            nsq_Set k v c := if bool_decide (k ∈ demo_known) then (<[k := v]> c, None) else (c, Some "invalid option"%string);
            nsq_option c k := default VNil (c !! k);
            nsq_accepts k _ := bool_decide (k ∈ demo_known) |}.
  intros k v c k'. destruct (String.eqb_spec k' k) as [->|Hne]; cbn [andb]; case_bool_decide; cbn [fst]; try done;
    by rewrite ?lookup_insert_eq, ?lookup_insert_ne by congruence.
Defined.

Definition demo_config : Config :=
  mkConfig 0 0 0 None 0 (S754_zero false) 0 0 0 0 false None false 0 false 0 0 0 0 4 2.

(** Left out, the dial time-out becomes zero, the number in flight stays. *)
Lemma config_overrides_witness :
  exists c, options (RO:=descending_order) demo_config = (c, None) /\
  nsq_option c "dial_timeout" = VDuration 0 /\ nsq_option c "max_in_flight" = VInt 1.
Proof.
  destruct (config_overrides descending_order demo_config) as (c & H1 & H2 & H3 & _). exists c. split; [exact H1|]. split.
  - apply (H3 (mkField "DialTimeout" "dial_timeout" (VDuration 0))); [by left|reflexivity|discriminate..].
  - eapply eq_trans; [apply (H2 (mkField "MaxInFlight" "max_in_flight" (VInt 0)))|reflexivity].
    apply list_elem_of_In. cbn. tauto.
Defined.
End MqConfigTheorems.
