(* ===== verification/Publishers.v ===== *)
(** * Publishing from several goroutines ([src/components/mq/producer.go])

    The file Producer runs one method at a time. Here any number of goroutines
    call [Publish] and [Close] on one producer, and the lookup loop replaces the
    addresses: a step relation with one step per lock, channel operation and
    test, from a producer whose pools are made. [addrMtx] behaves as Go's
    [RWMutex]: a writer first keeps new readers out, then waits for the readers
    that are in. *)

From S2P Require Import Prelude GoStrings Support Producer.

(** ** State *)

(** Where a goroutine stands: at the statement it runs next. *)
Inductive phase :=
| Idle
| AtRLock                            (* getProducerConn: p.addrMtx.RLock() *)
| AtDraw                             (* the address, and the test of its closed flag *)
| AtReceive (addr : string)          (* <-p.connections[addr].conns *)
| AtRUnlock (got : option string)    (* the deferred RUnlock *)
| AtPublish (addr : string)          (* producer.Publish, up to three times *)
| AtPutLock (addr : string)          (* putProducerConn: p.addrMtx.Lock() is called *)
| AtPutWait (addr : string)          (* no new readers; waiting for those inside *)
| AtPutTest (addr : string)          (* if p.connections[addr].closed *)
| AtPutSend (addr : string)          (* the select with the send *)
| AtPutUnlock                        (* the deferred Unlock *)
| AtAddrLock (addrs : list string)   (* queryLookupd: p.addrMtx.Lock() is called *)
| AtAddrWait (addrs : list string)
| AtAddrStore (addrs : list string)  (* p.nsqdTCPAddrs = nsqdAddrs *)
| AtAddrUnlock
| AtCloseLock                        (* Close: p.mtx.Lock() *)
| AtCloseChan (rest : list string)   (* the loop: close(pool.conns) *)
| AtCloseFlag (addr : string) (rest : list string)   (* pool.closed = true *)
| AtCloseDrain (addr : string) (rest : list string)  (* for closer := range pool.conns *)
| AtCloseUnlock.                     (* the deferred Unlock *)

(** A pool: its flag, whether its channel is closed, how many connections are
    in the channel, and the channel's capacity. *)
Record chan_pool := mkChan { flagged : bool; shut : bool; tokens : nat; room : nat }.

(** [addrMtx] is [readers] and [writer], the latter from the call of [Lock] on;
    [halted] is the panic that ended the process; [refused] counts the
    connections that were stopped because their pool was full. *)
Record State := mkState {
  threads : list phase;
  readers : nat;
  writer : bool;
  mtx : bool;
  pools : gmap string chan_pool;
  addrs : list string;
  exit_closed : bool;
  refused : nat;
  halted : option panic
}.

Definition chan_of (pool : producerPool) : chan_pool :=
  mkChan (closed pool) (closed pool) (length (conns pool)) (cap pool).

(** [n] goroutines that share the producer [p]. *)
Definition start (p : Producer) (n : nat) : State :=
  mkState (replicate n Idle) 0 false false (chan_of <$> connections p) (nsqdTCPAddrs p) (exited p) 0 None.

Definition with_threads (ts : list phase) (s : State) : State :=
  mkState ts (readers s) (writer s) (mtx s) (pools s) (addrs s) (exit_closed s) (refused s) (halted s).
Definition with_readers (n : nat) (s : State) : State :=
  mkState (threads s) n (writer s) (mtx s) (pools s) (addrs s) (exit_closed s) (refused s) (halted s).
Definition with_writer (b : bool) (s : State) : State :=
  mkState (threads s) (readers s) b (mtx s) (pools s) (addrs s) (exit_closed s) (refused s) (halted s).
Definition with_mtx (b : bool) (s : State) : State :=
  mkState (threads s) (readers s) (writer s) b (pools s) (addrs s) (exit_closed s) (refused s) (halted s).
Definition with_pool (addr : string) (pool : chan_pool) (s : State) : State :=
  mkState (threads s) (readers s) (writer s) (mtx s) (<[addr := pool]> (pools s)) (addrs s) (exit_closed s)
    (refused s) (halted s).
Definition with_addrs (l : list string) (s : State) : State :=
  mkState (threads s) (readers s) (writer s) (mtx s) (pools s) l (exit_closed s) (refused s) (halted s).
Definition with_exit (s : State) : State :=
  mkState (threads s) (readers s) (writer s) (mtx s) (pools s) (addrs s) true (refused s) (halted s).
Definition with_refused (s : State) : State :=
  mkState (threads s) (readers s) (writer s) (mtx s) (pools s) (addrs s) (exit_closed s) (S (refused s)) (halted s).
Definition halt (p : panic) (s : State) : State :=
  mkState (threads s) (readers s) (writer s) (mtx s) (pools s) (addrs s) (exit_closed s) (refused s) (Some p).

Definition move (g : nat) (ph : phase) (s : State) : State := with_threads (<[g := ph]> (threads s)) s.

(** ** Steps *)

(** The calls that goroutines make, and the address that is drawn. *)
Inductive choice := CallPublish | CallClose | CallStoreAddrs (addrs : list string) | Draw (addr : string) | Run.

Section steps.
Context {RO : RangeOrder}.

(** A step that needs the pool of an address. *)
Definition on_pool (addr : string) (s : State) (f : chan_pool -> option State) : option State :=
  match pools s !! addr with
  | None => Some (halt NilDereference s)
  | Some pool => f pool
  end.

(** One step of goroutine [g]; [None] when it cannot move. *)
Definition next (g : nat) (c : choice) (s : State) : option State :=
  match halted s with
  | Some _ => None
  | None =>
  match threads s !! g, c with
  | Some Idle, CallPublish =>
      if (length (addrs s) =? 0)%nat || (size (pools s) =? 0)%nat then Some s else Some (move g AtRLock s)
  | Some Idle, CallClose => Some (move g AtCloseLock s)
  | Some Idle, CallStoreAddrs l => Some (move g (AtAddrLock l) s)
  (* getProducerConn *)
  | Some AtRLock, Run => if writer s then None else Some (move g AtDraw (with_readers (S (readers s)) s))
  | Some AtDraw, Draw addr =>
      if bool_decide (addr ∈ addrs s)
      then on_pool addr s (fun pool =>
             Some (move g (if flagged pool then AtRUnlock None else AtReceive addr) s))
      else None
  | Some AtDraw, Run =>
      (* rand.Intn(0), when the addresses were replaced by none meanwhile *)
      if (length (addrs s) =? 0)%nat then Some (halt (PanicMessage "invalid argument to Intn") s) else None
  | Some (AtReceive addr), Run =>
      on_pool addr s (fun pool =>
        match tokens pool with
        | S n => Some (move g (AtRUnlock (Some addr))
                        (with_pool addr (mkChan (flagged pool) (shut pool) n (room pool)) s))
        | O => if shut pool then Some s (* ok is false: again *) else None
        end)
  | Some (AtRUnlock got), Run =>
      Some (move g (match got with Some addr => AtPublish addr | None => Idle end)
              (with_readers (pred (readers s)) s))
  | Some (AtPublish addr), Run => Some (move g (AtPutLock addr) s)
  (* putProducerConn *)
  | Some (AtPutLock addr), Run => if writer s then None else Some (move g (AtPutWait addr) (with_writer true s))
  | Some (AtPutWait addr), Run => if (readers s =? 0)%nat then Some (move g (AtPutTest addr) s) else None
  | Some (AtPutTest addr), Run =>
      on_pool addr s (fun pool => Some (move g (if flagged pool then AtPutUnlock else AtPutSend addr) s))
  | Some (AtPutSend addr), Run =>
      on_pool addr s (fun pool =>
        if shut pool then Some (halt ClosedChannel s)
        else if (tokens pool <? room pool)%nat
        then Some (move g AtPutUnlock
                    (with_pool addr (mkChan (flagged pool) (shut pool) (S (tokens pool)) (room pool)) s))
        else Some (move g AtPutUnlock (with_refused s)))
  | Some AtPutUnlock, Run | Some AtAddrUnlock, Run => Some (move g Idle (with_writer false s))
  (* the end of queryLookupd *)
  | Some (AtAddrLock l), Run => if writer s then None else Some (move g (AtAddrWait l) (with_writer true s))
  | Some (AtAddrWait l), Run => if (readers s =? 0)%nat then Some (move g (AtAddrStore l) s) else None
  | Some (AtAddrStore l), Run => Some (move g AtAddrUnlock (with_addrs l s))
  (* Close *)
  | Some AtCloseLock, Run =>
      if mtx s then None else Some (move g (AtCloseChan (range (pools s)).*1) (with_mtx true s))
  | Some (AtCloseChan []), Run =>
      if exit_closed s then Some (halt ClosedChannel s) else Some (move g AtCloseUnlock (with_exit s))
  | Some (AtCloseChan (addr :: rest)), Run =>
      on_pool addr s (fun pool =>
        if shut pool then Some (halt ClosedChannel s)
        else Some (move g (AtCloseFlag addr rest)
                    (with_pool addr (mkChan (flagged pool) true (tokens pool) (room pool)) s)))
  | Some (AtCloseFlag addr rest), Run =>
      on_pool addr s (fun pool =>
        Some (move g (AtCloseDrain addr rest) (with_pool addr (mkChan true (shut pool) (tokens pool) (room pool)) s)))
  | Some (AtCloseDrain addr rest), Run =>
      on_pool addr s (fun pool =>
        match tokens pool with
        | S n => Some (with_pool addr (mkChan (flagged pool) (shut pool) n (room pool)) s)
        | O => Some (move g (AtCloseChan rest) s)
        end)
  | Some AtCloseUnlock, Run => Some (move g Idle (with_mtx false s))
  | _, _ => None
  end
  end.

(** A schedule: which goroutine goes on, and how. *)
Fixpoint run_schedule (sched : list (nat * choice)) (s : State) : option State :=
  match sched with
  | [] => Some s
  | (g, c) :: sched => next g c s ≫= run_schedule sched
  end.

Inductive step (s : State) : State -> Prop :=
| step_next g c s' : next g c s = Some s' -> step s s'.
End steps.

(** ** Facts *)

Module PublishersFacts.

(** The goroutines that hold a read lock; that announced a write; that are
    inside the write lock; that have a connection of a pool. *)
Definition reading (ph : phase) : bool :=
  match ph with AtDraw | AtReceive _ | AtRUnlock _ => true | _ => false end.
Definition inside (ph : phase) : bool :=
  match ph with AtPutTest _ | AtPutSend _ | AtPutUnlock | AtAddrStore _ | AtAddrUnlock => true | _ => false end.
Definition announced (ph : phase) : bool :=
  match ph with AtPutWait _ | AtAddrWait _ => true | _ => inside ph end.
Definition held (ph : phase) : option string :=
  match ph with
  | AtRUnlock got => got
  | AtPublish a | AtPutLock a | AtPutWait a | AtPutTest a | AtPutSend a => Some a
  | _ => None
  end.
Definition holds (addr : string) (ph : phase) : bool := bool_decide (held ph = Some addr).
Definition closing (addr : string) (ph : phase) : bool :=
  match ph with AtCloseFlag a _ | AtCloseDrain a _ => bool_decide (a = addr) | _ => false end.

Section facts.
Context {RO : RangeOrder} (full : string -> nat).
Implicit Types s : State.

(** The lock excludes writers from readers, and the connections of a pool whose
    channel is open are in the channel or with a goroutine. *)
Record inv (s : State) : Prop := {
  inv_readers : count_if reading (threads s) = readers s;
  inv_writer : count_if announced (threads s) = Nat.b2n (writer s);
  inv_excl : (0 < count_if inside (threads s) -> readers s = 0)%nat;
  inv_tokens : forall addr pool, pools s !! addr = Some pool -> shut pool = false ->
    (tokens pool + count_if (holds addr) (threads s) = full addr)%nat;
  inv_room : forall addr pool, pools s !! addr = Some pool -> (full addr <= room pool)%nat;
  inv_flag : forall addr pool, pools s !! addr = Some pool -> flagged pool = true -> shut pool = true;
  inv_closing : forall addr pool, pools s !! addr = Some pool ->
    (0 < count_if (closing addr) (threads s))%nat -> shut pool = true;
  inv_refused : refused s = 0%nat
}.

Lemma inside_announced s : (count_if inside (threads s) <= count_if announced (threads s))%nat.
Proof. apply count_if_impl. by intros []. Qed.

(** A step that changes one goroutine's phase and the lock, and no pool. *)
Lemma inv_moved g old ph s r w m l x :
  inv s -> threads s !! g = Some old ->
  (r + Nat.b2n (reading old) = readers s + Nat.b2n (reading ph))%nat ->
  (Nat.b2n w + Nat.b2n (announced old) = Nat.b2n (writer s) + Nat.b2n (announced ph))%nat ->
  (inside ph = true -> r = 0%nat) ->
  (inside ph = false -> (0 < r)%nat -> readers s = 0%nat -> writer s = false) ->
  (forall addr, held ph <> held old -> held old = Some addr -> held ph = None /\
     exists pool, pools s !! addr = Some pool /\ shut pool = true) ->
  (held old = None -> held ph = None) ->
  (forall addr, closing addr ph = false) ->
  inv (mkState (<[g := ph]> (threads s)) r w m (pools s) l x (refused s) (halted s)).
Proof.
  intros [Hr Hw He Ht Hroom Hf Hc Href] Hg Hr' Hw' Hin Hout Hdrop Hheld Hcl.
  pose proof (inside_announced s) as Hia.
  pose proof (count_if_insert reading _ _ _ ph Hg). pose proof (count_if_insert announced _ _ _ ph Hg).
  pose proof (count_if_insert inside _ _ _ ph Hg) as Hins.
  constructor; cbn [threads readers writer mtx pools addrs exit_closed refused halted]; try done; try lia.
  - intros Hpos. destruct (inside ph) eqn:Ep; [by apply Hin|]. cbn [Nat.b2n] in Hins.
    assert (readers s = 0%nat) as Hzero by (apply He; lia).
    destruct (decide (r = 0%nat)) as [|Hnz]; [done|]. rewrite Hout in Hw by (done || lia). cbn in Hw. lia.
  - intros addr pool Hp Hs. specialize (Ht addr pool Hp Hs).
    pose proof (count_if_insert (holds addr) _ _ _ ph Hg) as Hh. unfold holds in Hh.
    assert (Nat.b2n (bool_decide (held ph = Some addr)) = Nat.b2n (bool_decide (held old = Some addr))) as Heq; [|unfold holds in *; lia].
    destruct (decide (held ph = held old)) as [->|Hne]; [done|].
    destruct (held old) as [a|] eqn:Ho; [|by rewrite Hheld].
    destruct (Hdrop a Hne eq_refl) as (-> & pool' & Hp' & Hs').
    rewrite !bool_decide_eq_false_2; [done|congruence|done].
  - intros addr pool Hp Hpos. apply (Hc addr pool Hp). pose proof (count_if_insert (closing addr) _ _ _ ph Hg) as Hcc.
    rewrite Hcl in Hcc. cbn in Hcc. lia.
Qed.

(** A step that changes one goroutine's phase and a pool, and no lock. *)
Lemma inv_pool g old ph s addr pool pool' m x :
  inv s -> threads s !! g = Some old -> pools s !! addr = Some pool ->
  reading ph = reading old -> announced ph = announced old -> inside ph = inside old ->
  room pool' = room pool -> (shut pool = true -> shut pool' = true) -> (flagged pool' = true -> shut pool' = true) ->
  (shut pool' = false -> tokens pool' + Nat.b2n (holds addr ph) = tokens pool + Nat.b2n (holds addr old))%nat ->
  (forall a, a <> addr -> holds a ph = holds a old) ->
  (forall a, closing a ph = true -> a = addr /\ shut pool' = true) ->
  inv (mkState (<[g := ph]> (threads s)) (readers s) (writer s) m (<[addr := pool']> (pools s)) (addrs s) x
         (refused s) (halted s)).
Proof.
  intros [Hr Hw He Ht Hroom Hf Hc Href] Hg Hp Er Ea Ei Hroom' Hshut Hflag Htok Hother Hclos.
  pose proof (count_if_insert reading _ _ _ ph Hg). pose proof (count_if_insert announced _ _ _ ph Hg).
  pose proof (count_if_insert inside _ _ _ ph Hg). rewrite Er, Ea, Ei in *.
  constructor; cbn [threads readers writer mtx pools addrs exit_closed refused halted]; try done; try lia.
  - intros a q Hq Hs. pose proof (count_if_insert (holds a) _ _ _ ph Hg).
    apply lookup_insert_Some in Hq as [[<- <-]|[Hne Hq]].
    + assert (shut pool = false) as Hs0 by (destruct (shut pool); [by rewrite Hshut in Hs|done]).
      specialize (Ht addr pool Hp Hs0). specialize (Htok Hs). lia.
    + specialize (Ht a q Hq Hs). rewrite Hother in * by done. lia.
  - intros a q Hq. apply lookup_insert_Some in Hq as [[<- <-]|[Hne Hq]]; [rewrite Hroom'|]; by apply Hroom.
  - intros a q Hq. apply lookup_insert_Some in Hq as [[<- <-]|[Hne Hq]]; [done|by apply (Hf a)].
  - intros a q Hq Hpos. pose proof (count_if_insert (closing a) _ _ _ ph Hg) as Hcc.
    destruct (closing a ph) eqn:Ec.
    + destruct (Hclos a Ec) as [-> Hs]. rewrite lookup_insert_eq in Hq. by simplify_eq.
    + cbn in Hcc. apply lookup_insert_Some in Hq as [[<- <-]|[Hne Hq]]; [apply Hshut, (Hc addr)|apply (Hc a)]; done || lia.
Qed.

Lemma inv_unchanged s s' :
  inv s -> threads s' = threads s -> readers s' = readers s -> writer s' = writer s -> pools s' = pools s ->
  refused s' = refused s -> inv s'.
Proof. intros [] Et Er Ew Ep Ef. constructor; rewrite ?Et, ?Er, ?Ew, ?Ep, ?Ef; done. Qed.

(** A goroutine at work shows in the lock. *)
Lemma at_work s g ph :
  inv s -> threads s !! g = Some ph ->
  (reading ph = true -> (0 < readers s)%nat) /\ (announced ph = true -> writer s = true) /\
  (inside ph = true -> readers s = 0%nat).
Proof.
  intros [Hr Hw He _ _ _ _ _] Hg. split_and!; intros H.
  - rewrite <- Hr. by eapply count_if_pos.
  - pose proof (count_if_pos announced _ _ _ Hg H). destruct (writer s); [done|cbn in *; lia].
  - apply He. by eapply count_if_pos.
Qed.

(** A connection that is given back has room in its pool. *)
Lemma room_for s g addr pool :
  inv s -> threads s !! g = Some (AtPutSend addr) -> pools s !! addr = Some pool -> shut pool = false ->
  (tokens pool < room pool)%nat.
Proof.
  intros [_ _ _ Ht Hroom _ _ _] Hg Hp Hs. specialize (Ht addr pool Hp Hs). specialize (Hroom addr pool Hp).
  assert (0 < count_if (holds addr) (threads s))%nat; [|lia].
  eapply count_if_pos; [done|]. by apply bool_decide_eq_true_2.
Qed.

Lemma closing_shut s g ph addr pool :
  inv s -> threads s !! g = Some ph -> closing addr ph = true -> pools s !! addr = Some pool -> shut pool = true.
Proof. intros Hi Hg Hc Hp. eapply inv_closing; [done..|]. by eapply count_if_pos. Qed.

#[local] Ltac by_move :=
  eapply inv_moved; [eassumption|eassumption|..]; cbn [reading announced inside held closing Nat.b2n]; try done;
  repeat match goal with H : writer _ = _ |- _ => rewrite H end; try done; try lia; try congruence;
  repeat match goal with H : (_ =? _)%nat = true |- _ => apply Nat.eqb_eq in H end; try done; try lia.
#[local] Ltac by_pool :=
  eapply inv_pool; [eassumption|eassumption|eassumption|..]; cbn [flagged shut tokens room reading announced inside closing]; try done.

#[local] Ltac solve_pool :=
  by_pool; intros; unfold holds in *; cbn [held] in *; repeat case_bool_decide; cbn [Nat.b2n]; simplify_eq;
  first [done | lia | by eapply inv_flag | congruence
        | match goal with H : pools _ !! _ = Some ?c |- _ => assert (shut c = true) by (by eapply inv_flag); congruence end].

(** Every step keeps the invariant. *)
Lemma next_keeps_inv g c s s' : inv s -> next g c s = Some s' -> inv s'.
Proof.
  intros Hi. unfold next, on_pool. destruct (halted s); [done|].
  destruct (threads s !! g) as [ph|] eqn:Hg; [|done].
  assert (forall p, inv (halt p s)) as Hhalt by (intros p; by apply (inv_unchanged s)).
  destruct (at_work s g ph Hi Hg) as (Hrd & Han & Hin).
  destruct ph, c; try done; cbn [reading announced inside] in *;
    try specialize (Hrd eq_refl); try specialize (Han eq_refl); try specialize (Hin eq_refl).
  all: repeat (first [case_match|progress simplify_eq]; try done).
  all: intros [= <-]; try done; try by apply (inv_unchanged s).
  all: unfold move, with_threads, with_readers, with_writer, with_mtx, with_pool, with_addrs, with_exit, with_refused;
    cbn [threads readers writer mtx pools addrs exit_closed refused halted].
  all: try (by_move; fail).
  all: try (by_pool; fail).
  - solve_pool.
  - (* the pool was closed: its connection is dropped *)
    by_move. intros a _ [= <-]. split; [done|]. eexists. split; [eassumption|]. by eapply inv_flag.
  - solve_pool.
  - (* the pool is never full *) exfalso.
    assert (tokens c < room c)%nat by (by eapply room_for). rewrite Nat.ltb_ge in *. lia.
  - solve_pool.
  - assert (shut c = true) by (eapply closing_shut; [done..| |done]; by apply bool_decide_eq_true_2). solve_pool.
  - assert (shut c = true) by (eapply closing_shut; [done..| |done]; by apply bool_decide_eq_true_2).
    rewrite <- (list_insert_id (threads s) g (AtCloseDrain addr rest)) at 1 by done. solve_pool.
Qed.
Lemma steps_inv s s' : rtc step s s' -> inv s -> inv s'.
Proof. induction 1 as [|s1 s2 s3 [g c s2' Hn] _ IH]; [done|]. intros Hi. apply IH. by eapply next_keeps_inv. Qed.

(** *** Waiting for a connection while nobody can give one back *)

(** Goroutine [g] holds the read lock and waits at an empty pool. *)
Definition waiting (g : nat) (addr : string) (s : State) : Prop :=
  threads s !! g = Some (AtReceive addr) /\ exists pool, pools s !! addr = Some pool /\ tokens pool = 0%nat.

Lemma waiting_next g addr h c s s' : inv s -> waiting g addr s -> next h c s = Some s' -> waiting g addr s'.
Proof.
  intros Hi (Hg & pool & Hp & Ht). unfold next, on_pool. destruct (halted s); [done|].
  destruct (threads s !! h) as [ph|] eqn:Hh; [|done].
  destruct (at_work s g _ Hi Hg) as (Hrd & _ & _). specialize (Hrd eq_refl).
  destruct (at_work s h ph Hi Hh) as (_ & _ & Hin).
  assert (inside ph = true -> False) as Hout by (intros H; specialize (Hin H); lia). clear Hin.
  destruct (decide (h = g)) as [->|Hne].
  { simplify_eq. destruct c; try done. rewrite Hp, Ht. destruct (shut pool); [|done]. intros [= <-].
    split; [done|]. by exists pool. }
  destruct ph, c; try done; try by (exfalso; apply Hout).
  all: repeat (first [case_match|progress simplify_eq]; try done).
  all: intros [= <-]; unfold waiting, move; cbn [threads pools with_threads with_readers with_writer with_mtx with_pool
    with_addrs with_exit with_refused halt]; rewrite ?list_lookup_insert_ne by done; split; try done.
  all: try by exists pool.
  all: match goal with |- context [<[?a := _]> _ !! ?b] =>
         destruct (decide (a = b)) as [->|]; [rewrite lookup_insert_eq; simplify_eq; first [congruence|by eexists]
                                                |rewrite lookup_insert_ne by done; by exists pool] end.
Qed.

Lemma waiting_steps g addr s s' : rtc step s s' -> inv s -> waiting g addr s -> inv s' /\ waiting g addr s'.
Proof.
  induction 1 as [|s1 s2 s3 [h c s2' Hn] _ IH]; [done|]. intros Hi Hw.
  apply IH; [by eapply next_keeps_inv|by eapply waiting_next].
Qed.

(** *** Every connection taken *)

(** The schedule of a goroutine that comes to the channel, and of one that goes
    on with a connection. *)
Definition ask (addr : string) (g : nat) : list (nat * choice) := [(g, CallPublish); (g, Run); (g, Draw addr)].
Definition take_conn (addr : string) (g : nat) : list (nat * choice) := ask addr g ++ [(g, Run); (g, Run)].

Lemma schedule_steps sched s s' : run_schedule sched s = Some s' -> rtc step s s'.
Proof.
  revert s. induction sched as [|[g c] sched IH]; intros s; cbn; [by intros [= ->]|].
  destruct (next g c s) as [s1|] eqn:Hn; [|done]. intros Hr. eapply rtc_l; [by econstructor|by apply IH].
Qed.

Lemma run_schedule_app l1 l2 s s1 :
  run_schedule l1 s = Some s1 -> run_schedule (l1 ++ l2) s = run_schedule l2 s1.
Proof.
  revert s. induction l1 as [|[g c] l1 IH]; intros s; cbn; [by intros [= ->]|].
  destruct (next g c s) as [s2|]; [apply IH|done].
Qed.

(** No lock is taken, and the pool of [addr] is open with [k] connections. *)
Definition ready (addr : string) (k : nat) (s : State) : Prop :=
  halted s = None /\ writer s = false /\ readers s = 0%nat /\ addr ∈ addrs s /\
  exists pool, pools s !! addr = Some pool /\ flagged pool = false /\ shut pool = false /\ tokens pool = k.

(** Go to the next step of a goroutine that just moved. *)
#[local] Ltac fields :=
  cbn [mbind option_bind move with_threads with_readers with_pool halted threads writer readers addrs pools
       flagged shut tokens room].
#[local] Ltac advance :=
  fields; rewrite list_lookup_insert_eq by (rewrite ?length_insert; done); fields.

Lemma asked addr g k s :
  ready addr k s -> threads s !! g = Some Idle ->
  run_schedule (ask addr g) s = Some (move g (AtReceive addr) (with_readers 1 s)).
Proof.
  intros (Hh & Hw & Hr & Ha & pool & Hp & Hf & Hsh & Ht) Hg.
  assert ((length (addrs s) =? 0)%nat || (size (pools s) =? 0)%nat = false) as Hsome.
  { apply orb_false_iff; split; apply Nat.eqb_neq; intros Hz; [destruct (addrs s); [by apply elem_of_nil in Ha|done]|].
    apply map_size_empty_iff in Hz. rewrite Hz in Hp. by destruct (lookup_empty_Some (M:=gmap string) _ _ Hp). }
  destruct s as [ts rd wr m ps ad ex rf hl].
  cbn [halted writer readers addrs pools threads] in *. subst.
  assert (g < length ts)%nat as Hlt by by eapply lookup_lt_Some.
  unfold ask. cbn [run_schedule]. unfold next. cbn [halted threads]. rewrite Hg. cbn [addrs pools].
  rewrite Hsome. advance. advance. unfold on_pool. rewrite bool_decide_eq_true_2 by done. fields.
  rewrite Hp, Hf. unfold move, with_threads, with_readers. fields. by rewrite !list_insert_insert_eq.
Qed.

Lemma take_one addr g k s :
  ready addr (S k) s -> threads s !! g = Some Idle ->
  exists s', run_schedule (take_conn addr g) s = Some s' /\ ready addr k s' /\
  threads s' = <[g := AtPublish addr]> (threads s).
Proof.
  intros Hready Hg. unfold take_conn. rewrite (run_schedule_app _ _ _ _ (asked addr g _ s Hready Hg)).
  destruct Hready as (Hh & Hw & Hr & Ha & pool & Hp & Hf & Hsh & Ht).
  destruct s as [ts rd wr m ps ad ex rf hl].
  cbn [halted writer readers addrs pools threads] in *. subst.
  assert (g < length ts)%nat as Hlt by by eapply lookup_lt_Some.
  eexists. split.
  - cbn [run_schedule]. unfold next. advance. unfold on_pool. fields. rewrite Hp, Ht. advance. reflexivity.
  - unfold ready. fields. split.
    + split_and!; try done. rewrite lookup_insert_eq. by eexists.
    + by rewrite !list_insert_insert_eq.
Qed.

(** The first goroutines take every connection of the pool. *)
Lemma take_all addr k n ts s :
  ready addr k s -> threads s = (ts ++ replicate k Idle ++ n)%list ->
  exists s', rtc step s s' /\ ready addr 0 s' /\ threads s' = (ts ++ replicate k (AtPublish addr) ++ n)%list.
Proof.
  revert ts s. induction k as [|k IH]; intros ts s Hready Hts; [by exists s|].
  destruct (take_one addr (length ts) k s Hready) as (s1 & Hrun & Hready1 & Hts1).
  { rewrite Hts. by apply list_lookup_middle. }
  rewrite Hts in Hts1. cbn [replicate app] in Hts1. rewrite insert_app_r_alt, Nat.sub_diag in Hts1 by lia.
  destruct (IH (ts ++ [AtPublish addr])%list s1 Hready1) as (s2 & Hsteps & Hready2 & Hts2).
  { rewrite <- (assoc app). exact Hts1. }
  exists s2. split; [|split; [done|]].
  - etrans; [by eapply schedule_steps|done].
  - rewrite Hts2, <- (assoc app). done.
Qed.

(** *** Everybody in the middle of [Publish] *)

(** The goroutines wait for a connection of [addr], or for the lock to give one
    back. *)
Definition in_publish (addr : string) (ph : phase) : Prop :=
  match ph with AtReceive a => a = addr | AtPublish _ | AtPutLock _ | AtPutWait _ => True | _ => False end.

Lemma in_publish_next addr g h c s s' :
  inv s -> waiting g addr s -> (forall pool, pools s !! addr = Some pool -> shut pool = false) ->
  Forall (in_publish addr) (threads s) -> next h c s = Some s' ->
  Forall (in_publish addr) (threads s') /\ (forall pool, pools s' !! addr = Some pool -> shut pool = false).
Proof.
  intros Hi (Hg & pool & Hp & Ht) Hopen Hall. unfold next, on_pool. destruct (halted s); [done|].
  destruct (threads s !! h) as [ph|] eqn:Hh; [|done].
  destruct (at_work s g _ Hi Hg) as (Hrd & _ & _). specialize (Hrd eq_refl).
  pose proof (Forall_lookup_1 _ _ _ _ Hall Hh) as Hph. destruct ph, c; try done; cbn in Hph; subst.
  - rewrite Hp, Ht, (Hopen _ Hp). done.
  - intros [= <-]. split; [by apply Forall_insert|done].
  - destruct (writer s); [done|]. intros [= <-]. split; [by apply Forall_insert|done].
  - rewrite (proj2 (Nat.eqb_neq _ _)) by lia. done.
Qed.

Lemma all_in_publish addr g s s' :
  rtc step s s' -> inv s -> waiting g addr s -> (forall pool, pools s !! addr = Some pool -> shut pool = false) ->
  Forall (in_publish addr) (threads s) -> Forall (in_publish addr) (threads s').
Proof.
  induction 1 as [|s1 s2 s3 [h c s2' Hn] _ IH]; [done|]. intros Hi Hw Hopen Hall.
  destruct (in_publish_next addr g h c _ _ Hi Hw Hopen Hall Hn) as [Hall' Hopen'].
  apply IH; [by eapply next_keeps_inv|by eapply waiting_next|done..].
Qed.

End facts.

(** *** Runs without [Close] *)

Section calm.
(** [K] are the addresses with pools. [E] may the addresses be replaced by none,
    and [U] by some without a pool? *)
Context {RO : RangeOrder} (K : gset string) (E U : Prop).
Implicit Types s : State.

Definition known (a : string) : Prop := a ∈ K \/ U.
Definition storable (l : list string) : Prop := (l = [] -> E) /\ Forall known l.

(** Nothing is closed, and every address in use is known. *)
Definition phase_ok (ph : phase) : Prop :=
  match ph with
  | AtReceive a | AtPublish a | AtPutLock a | AtPutWait a | AtPutTest a | AtPutSend a | AtRUnlock (Some a) => known a
  | AtAddrLock l | AtAddrWait l | AtAddrStore l => storable l
  | AtCloseLock | AtCloseChan _ | AtCloseFlag _ _ | AtCloseDrain _ _ | AtCloseUnlock => False
  | _ => True
  end.
Record calm (s : State) : Prop := {
  calm_dom : dom (pools s) = K;
  calm_open : forall addr pool, pools s !! addr = Some pool -> shut pool = false;
  calm_addrs : storable (addrs s);
  calm_phases : Forall phase_ok (threads s);
  calm_halted : halted s = None
}.

(** A panic for one of the two reasons. *)
Definition no_addresses : panic := PanicMessage "invalid argument to Intn".
Definition explained (s : State) : Prop :=
  E /\ halted s = Some no_addresses \/ U /\ halted s = Some NilDereference.

(** The calls of a producer that is not closed. *)
Definition harmless (c : choice) : Prop :=
  match c with CallClose => False | CallStoreAddrs l => storable l | _ => True end.

(** A change of the contents of a pool. *)
Lemma calm_pool s addr pool pool' :
  calm s -> pools s !! addr = Some pool -> shut pool' = false -> calm (with_pool addr pool' s).
Proof.
  intros [Hd Ho Ha Hp Hh] Hpool Hshut. constructor; cbn [pools with_pool addrs threads halted]; try done.
  - apply elem_of_dom_2 in Hpool. rewrite dom_insert_L. set_solver.
  - intros a q [[<- <-]|[_ Hq]]%lookup_insert_Some; [done|by eapply Ho].
Qed.

Lemma calm_move s g ph : calm s -> phase_ok ph -> calm (move g ph s).
Proof. intros [] ?. constructor; try done. by apply Forall_insert. Qed.

Lemma calm_lock s r w rf : calm s -> calm (mkState (threads s) r w (mtx s) (pools s) (addrs s) (exit_closed s) rf (halted s)).
Proof. intros []. by constructor. Qed.

(** A step that needs a pool of a known address. *)
Lemma calm_on_pool s addr f s' :
  calm s -> known addr -> on_pool addr s f = Some s' ->
  (forall pool, pools s !! addr = Some pool -> shut pool = false -> f pool = Some s' -> calm s' \/ explained s') ->
  calm s' \/ explained s'.
Proof.
  intros Hcalm Hk. unfold on_pool. destruct (pools s !! addr) as [pool|] eqn:Hp.
  - intros Hf Hnext. apply (Hnext pool); [done|by eapply (calm_open s Hcalm)|done].
  - intros [= <-] _. right; right. split; [|done]. destruct Hk as [Hk|]; [|done]. exfalso.
    rewrite <- (calm_dom s Hcalm) in Hk. by apply not_elem_of_dom in Hp.
Qed.

Lemma calm_next g c s s' : calm s -> harmless c -> next g c s = Some s' -> calm s' \/ explained s'.
Proof.
  intros Hcalm Hc. pose proof Hcalm as [_ _ Ha Hp Hh]. unfold next. rewrite Hh.
  destruct (threads s !! g) as [ph|] eqn:Hg; [|done].
  pose proof (Forall_lookup_1 _ _ _ _ Hp Hg) as Hph.
  destruct ph as [| | |a|got|a|a|a|a|a| |l|l|l| | | | | |], c; try done; cbn in Hph, Hc.
  all: try (repeat case_match; intros [= <-]; left; try done; (apply calm_move; try done; by apply calm_lock)).
  - destruct (bool_decide (addr ∈ addrs s)) eqn:Hin; [|done]. apply bool_decide_eq_true_1 in Hin.
    assert (known addr) as Hk by (by apply (proj1 (Forall_forall _ _) (proj2 Ha))).
    intros Hon. eapply calm_on_pool; [done..|]. intros pool _ _ [= <-]. left. apply calm_move; [done|]. by destruct (flagged pool).
  - destruct (length (addrs s) =? 0)%nat eqn:Hl; [|done]. intros [= <-]. right; left. split; [|done].
    apply (proj1 Ha). by apply length_zero_iff_nil, Nat.eqb_eq.
  - intros Hon. eapply calm_on_pool; [done..|]. intros pool Hpool Hs. cbn beta. rewrite Hs.
    destruct (tokens pool); [done|]. intros [= <-]. left. apply calm_move; [|done]. by eapply calm_pool.
  - intros Hon. eapply calm_on_pool; [done..|]. intros pool _ _ [= <-]. left. apply calm_move; [done|]. by destruct (flagged pool).
  - intros Hon. eapply calm_on_pool; [done..|]. intros pool Hpool Hs. cbn beta. rewrite Hs.
    destruct (tokens pool <? room pool)%nat; intros [= <-]; left; (apply calm_move; [|done]);
      [by eapply calm_pool|by apply calm_lock].
  - intros [= <-]. left. apply calm_move; [|done]. destruct Hcalm. by constructor.
Qed.

Lemma calm_run sched s s' :
  calm s -> Forall (fun gc => harmless (snd gc)) sched -> run_schedule sched s = Some s' -> calm s' \/ explained s'.
Proof.
  intros Hc Hall. revert s Hc. induction Hall as [|[g c] sched Hh _ IH]; intros s Hc; cbn; [intros [= <-]; by left|].
  destruct (next g c s) as [s1|] eqn:Hn; [|done].
  destruct (calm_next g c s s1 Hc Hh Hn) as [Hc1|He]; [by apply IH|].
  assert (is_Some (halted s1)) as [p Hp] by (destruct He as [[_ ->]|[_ ->]]; by eexists).
  destruct sched as [|[g2 c2] sched]; cbn; [intros [= <-]; by right|]. unfold next at 1. by rewrite Hp.
Qed.
End calm.
End PublishersFacts.

(** ** Properties *)

Module PublishersTheorems.
Import PublishersFacts.

Section theorems.
Context {RO : RangeOrder} (p : Producer).

(** A producer whose pools fit into their channels. *)
Definition fits : Prop := forall addr pool, connections p !! addr = Some pool -> (length (conns pool) <= cap pool)%nat.
(** The connections that the pool of an address was made with. *)
Definition made (addr : string) : nat :=
  match connections p !! addr with Some pool => length (conns pool) | None => 0%nat end.

Lemma start_inv n : fits -> inv made (start p n).
Proof.
  intros Hfits. constructor; cbn [start threads readers writer pools refused Nat.b2n];
    rewrite ?count_if_replicate by done; try done.
  all: intros addr pool; rewrite lookup_fmap; unfold made; intros H;
    destruct (connections p !! addr) as [pool0|] eqn:Hp; cbn in H; [injection H as <-|done]; cbn [tokens shut flagged room chan_of].
  - intros _. rewrite count_if_replicate by done. lia.
  - exact (Hfits addr pool0 Hp).
  - done.
  - rewrite count_if_replicate by done. lia.
Qed.

(** C12: connections are neither lost nor doubled. As long as the channel of a
    pool is open, the connections in it and those with a goroutine are the ones
    it was made with, so one that is given back always has room and is never
    stopped; and the address lock keeps a writer apart from readers and from
    other writers. *)
Theorem connections_conserved n s :
  fits -> rtc step (start p n) s ->
  refused s = 0%nat /\
  (forall addr pool, pools s !! addr = Some pool -> shut pool = false ->
   (tokens pool + count_if (holds addr) (threads s) = made addr)%nat /\ (tokens pool <= room pool)%nat) /\
  (count_if inside (threads s) <= 1)%nat /\
  (0 < count_if inside (threads s) -> count_if reading (threads s) = 0)%nat.
Proof.
  intros Hfits Hs. pose proof (steps_inv made _ _ Hs (start_inv n Hfits)) as Hi.
  pose proof (inside_announced s). destruct Hi as [Hr Hw He Ht Hroom Hf Hc Href]. split_and!; try done.
  - intros addr pool Hp Hsh. specialize (Ht addr pool Hp Hsh). specialize (Hroom addr pool Hp). lia.
  - destruct (writer s); cbn in *; lia.
  - rewrite Hr. exact He.
Qed.

(** One goroutine more than there are connections: all of them can block. *)
Lemma all_block addr pool :
  fits -> connections p !! addr = Some pool -> closed pool = false -> addr ∈ nsqdTCPAddrs p ->
  let n := S (length (conns pool)) in
  exists s, rtc step (start p n) s /\ forall s', rtc step s s' -> Forall (fun ph => ph <> Idle) (threads s').
Proof.
  intros Hfits Hp Hclosed Haddr. cbn zeta. set (g := length (conns pool)).
  assert (ready addr g (start p (S g))) as Hready.
  { split_and!; try done. exists (chan_of pool). cbn. by rewrite lookup_fmap, Hp. }
  destruct (take_all addr g [Idle] [] _ Hready) as (s1 & Hs1 & Hready1 & Hts1).
  { cbn [start threads app]. by rewrite replicate_S_end. }
  cbn [app] in Hts1.
  assert (threads s1 !! g = Some Idle) as Hg by (rewrite Hts1; apply list_lookup_middle; by rewrite length_replicate).
  pose proof (asked addr g 0 s1 Hready1 Hg) as Hask. set (s2 := move g (AtReceive addr) (with_readers 1 s1)) in *.
  assert (rtc step (start p (S g)) s2) as Hs2 by (etrans; [done|by eapply schedule_steps]).
  assert (threads s2 = (replicate g (AtPublish addr) ++ [AtReceive addr])%list) as Hts2.
  { cbn. rewrite Hts1, insert_app_r_alt by (by rewrite length_replicate). by rewrite length_replicate, Nat.sub_diag. }
  destruct Hready1 as (_ & _ & _ & _ & pool1 & Hp1 & _ & Hsh & Ht1).
  exists s2. split; [done|]. intros s' Hs'.
  eapply Forall_impl; [eapply (all_in_publish made addr g s2 s' Hs')|by intros [] ?].
  - eapply steps_inv; [exact Hs2|by apply start_inv].
  - split; [|by exists pool1]. rewrite Hts2. apply list_lookup_middle. by rewrite length_replicate.
  - intros q Hq. cbn in Hq. by simplify_eq.
  - rewrite Hts2. apply Forall_app. split; [|by repeat constructor]. by apply Forall_replicate.
Qed.

(** C6: a call of [Publish] that finds its pool empty blocks for ever, and the
    whole producer with it. It waits with the read lock held, so that no other
    call gets as far as giving a connection back, not even to another pool; it
    waits also after [Close], where it spins. One call more than the pool has
    connections is enough: then none of them ever returns. *)
Theorem exhausted_pool_blocks n addr pool :
  fits -> connections p !! addr = Some pool -> closed pool = false -> addr ∈ nsqdTCPAddrs p ->
  (forall s g pool', rtc step (start p n) s ->
   threads s !! g = Some (AtReceive addr) -> pools s !! addr = Some pool' -> tokens pool' = 0%nat ->
   forall s', rtc step s s' -> threads s' !! g = Some (AtReceive addr) /\ count_if inside (threads s') = 0%nat) /\
  (n = S (length (conns pool)) ->
   exists s, rtc step (start p n) s /\
   forall s', rtc step s s' -> Forall (fun ph => ph <> Idle) (threads s')).
Proof.
  intros Hfits Hp Hclosed Haddr. split.
  - intros s g pool' Hs Hg Hq Ht s' Hs'. pose proof (steps_inv made _ _ Hs (start_inv n Hfits)) as Hi.
    destruct (waiting_steps made g addr s s' Hs' Hi) as (Hi' & Hg' & _); [split; [done|by exists pool']|].
    split; [done|]. destruct (at_work made s' g _ Hi' Hg') as (Hrd & _ & _). specialize (Hrd eq_refl).
    pose proof (inv_excl _ _ Hi'). lia.
  - intros ->. by eapply all_block.
Qed.
(** A connection on its way back when the channel is closed. *)
Definition crash_schedule (addr : string) : list (nat * choice) :=
  (take_conn addr 0 ++ [(0, Run); (0, Run); (0, Run); (0, Run)] ++ [(1, CallClose); (1, Run); (1, Run)] ++ [(0, Run)])%list%nat.

Lemma run_cons g c sched s s1 s2 :
  next g c s = Some s1 -> run_schedule sched s1 = Some s2 -> run_schedule ((g, c) :: sched) s = Some s2.
Proof. cbn [run_schedule]. by intros ->. Qed.

(** One step on known data. *)
#[local] Ltac run_step Hrange Hin :=
  eapply run_cons;
  [unfold next, on_pool; cbn -[size bool_decide run_schedule];
   rewrite ?map_size_singleton, ?lookup_singleton_eq, ?Hrange, ?Hin; cbn -[size bool_decide run_schedule]; reflexivity|];
  unfold move, with_threads, with_readers, with_pool, with_writer, with_mtx; cbn -[size bool_decide run_schedule];
  rewrite ?insert_singleton_eq.

Lemma crash_run ts addr k c ex :
  exists s, run_schedule (crash_schedule addr)
    (mkState (Idle :: Idle :: ts) 0 false false {[addr := mkChan false false (S k) c]} [addr] ex 0 None) = Some s /\
  halted s = Some ClosedChannel.
Proof.
  assert (forall q, (range ({[addr := q]} : gmap string chan_pool)).*1 = [addr]) as Hrange.
  { intros q. apply Permutation_singleton_r. rewrite range_perm. by rewrite map_to_list_singleton. }
  assert (bool_decide (addr ∈ [addr]) = true) as Hin by (apply bool_decide_eq_true_2; by left).
  eexists. split; [|shelve]. unfold crash_schedule, take_conn, ask. cbn [app].
  do 13 run_step Hrange Hin. reflexivity.
  Unshelve. done.
Qed.

End theorems.

(** One server with one connection. *)
Definition demo : Producer := mkProducer 0 [] ["h:1"%string] {["h:1"%string := mkPool false [7%nat] 1]} false [].

Lemma demo_fits : fits demo.
Proof.
  intros addr pool Hp. cbn in Hp. apply lookup_singleton_Some in Hp as [_ <-]. cbn. lia.
Qed.

Lemma connections_conserved_witness :
  exists s, run_schedule (RO:=ascending_order) (take_conn "h:1" 0) (start demo 2) = Some s /\
  refused s = 0%nat /\ threads s = [AtPublish "h:1"; Idle].
Proof.
  destruct (run_schedule (RO:=ascending_order) (take_conn "h:1" 0) (start demo 2)) as [s|] eqn:Hr;
    [|vm_compute in Hr; discriminate Hr].
  exists s. split; [reflexivity|].
  destruct (connections_conserved (RO:=ascending_order) demo 2 s demo_fits) as (H & _);
    [exact (schedule_steps _ _ _ Hr)|].
  split; [exact H|]. vm_compute in Hr. injection Hr as <-. reflexivity.
Defined.

Lemma exhausted_pool_blocks_witness :
  exists s, rtc (step (RO:=ascending_order)) (start demo 2) s /\
  forall s', rtc (step (RO:=ascending_order)) s s' -> Forall (fun ph => ph <> Idle) (threads s').
Proof.
  apply (exhausted_pool_blocks (RO:=ascending_order) demo 2 "h:1" (mkPool false [7%nat] 1)); try reflexivity.
  - exact demo_fits.
  - apply list_elem_of_here.
Defined.

End PublishersTheorems.
