(* ===== verification/ServiceRegister.v ===== *)
(** * Service registration ([src/components/service_register])

    What a service announces ([service.go]), the registration interface
    ([register.go]) and its implementation by etcd ([etcd.go]). The etcd client
    is a parameter: each call of it may fail, and is recorded in order. *)

From S2P Require Import Prelude.
Local Open Scope Z_scope.

(** ** Services ([service.go]) *)

Record ServiceInfo := mkServiceInfo {
  Methods : list string; SvcVersion : string; SvcMetadata : gmap string string
}.

Record Node := mkNode {
  NodeId : string;
  Services : gmap string (option ServiceInfo);
  Address : string;
  Port : Z;
  Metadata : gmap string string;
  Ip : string;
  Version : string
}.

Definition NewNode (nodeId address ip version : string) (port : Z) (metadata : gmap string string) : Node :=
  mkNode nodeId ∅ address port metadata ip version.

(** Each service of the list overwrites the one before. *)
Definition SetServices (key : string) (ss : list (option ServiceInfo)) (n : Node) : Node :=
  mkNode (NodeId n) (foldl (fun m s => <[key := s]> m) (Services n) ss) (Address n) (Port n) (Metadata n)
    (Ip n) (Version n).

Record MethodInfo := mkMethod { MethodName : string; IsClientStream : bool; IsServerStream : bool }.
Record ServerInfo := mkServerInfo { InfoMethods : list MethodInfo; InfoMetadata : option string }.

(** Times in nanoseconds. *)
Definition millisecond : Z := 1000000.
Definition second : Z := 1000000000.
Definition minHeartBeatTime : Z := 500 * millisecond.

Record TTLOption := mkTTL { heartbeat : Z; ttl : Z }.

Definition NewTTLOption (heartbeat ttl : Z) : TTLOption :=
  let heartbeat := if heartbeat <=? minHeartBeatTime then minHeartBeatTime else heartbeat in
  let ttl := if ttl <=? heartbeat then i64 (3 * heartbeat) else ttl in
  mkTTL heartbeat ttl.

Record Service := mkService { Key : string; Value : string; TTL : option TTLOption }.

(** ** The registration interface ([register.go]) *)

(** [RegisterFunc]: an implementation's state, and its two methods with the
    error they return. *)
Class RegisterFunc (R : Type) := {
  Register : Service -> R -> R * option string;
  DeRegister : Service -> R -> R * option string
}.

(** [RegisterOpts], without data or with data for an implementation. *)
Record RegisterOpts (R : Type) := mkOpts { RegisterData : option Service; RegisterImpl : R }.
Arguments mkOpts {R}.
Arguments RegisterData {R}.
Arguments RegisterImpl {R}.

Section opts.
Context {R : Type} `{RegisterFunc R}.

Definition opts_Register (o : RegisterOpts R) : outcome (RegisterOpts R * option string) :=
  match RegisterData o with
  | None => Panic NilDereference
  | Some s => let '(r, e) := Register s (RegisterImpl o) in Ret (mkOpts (Some s) r, e)
  end.
Definition opts_DeRegister (o : RegisterOpts R) : outcome (RegisterOpts R * option string) :=
  match RegisterData o with
  | None => Panic NilDereference
  | Some s => let '(r, e) := DeRegister s (RegisterImpl o) in Ret (mkOpts (Some s) r, e)
  end.
End opts.

(** ** Registration in etcd ([etcd.go]) *)

Record Config := mkConfig {
  Endpoints : list string; AutoSyncInterval : Z; DialTimeout : Z; DialKeepAliveTime : Z;
  DialKeepAliveTimeout : Z; Username : string; Password : string
}.

(** The times that [NewEtcd] hands to [clientv3.New]: the configuration is in
    milliseconds. *)
Definition NewEtcd_times (c : Config) : Z * Z * Z * Z :=
  (i64 (AutoSyncInterval c * millisecond), i64 (DialTimeout c * millisecond),
   i64 (DialKeepAliveTime c * millisecond), i64 (DialKeepAliveTimeout c * millisecond)).

(** The calls of the etcd client. *)
Inductive etcd_call :=
| CloseLeaser
| OpenLeaser
| CloseWatcher
| OpenWatcher
| Grant (seconds : Z)
| Put (key value : string) (lease : Z)
| KeepAlive (lease : Z)
| Delete (key : string).

#[global] Instance etcd_call_eq_dec : EqDecision etcd_call.
Proof. solve_decision. Defined.

(** [calls] are the calls so far; [hbch] says whether there is a channel of
    heartbeats. *)
Record EtcdCli := mkEtcd {
  has_ctx : bool;
  leaseID : Z;
  leaser : bool;
  watcher : bool;
  hbch : bool;
  calls : list etcd_call
}.

Definition NewEtcd : EtcdCli := mkEtcd false 0 false false false [].

Section etcd.
(** The error of the [n]-th call, if it fails; the lease of a grant. *)
Context (fails : nat -> etcd_call -> option string) (granted : nat -> Z).

Definition call (c : etcd_call) (e : EtcdCli) : EtcdCli * option string :=
  (mkEtcd (has_ctx e) (leaseID e) (leaser e) (watcher e) (hbch e) (calls e ++ [c])%list,
   fails (length (calls e)) c).

(** A step of a method: after an error the rest is not run. *)
Definition and_then (m : EtcdCli * option string) (f : EtcdCli -> EtcdCli * option string)
    : EtcdCli * option string :=
  match m with (e, None) => f e | (e, Some err) => (e, Some err) end.

(** A call that is made when [b]. *)
Definition call_if (b : bool) (c : etcd_call) (e : EtcdCli) : EtcdCli * option string :=
  if b then call c e else (e, None).

(** [Duration.Seconds] cut to an integer; floats do not round it up below about
    four million seconds. *)
Definition whole_seconds (d : Z) : Z := Z.quot d second.

(** [Register] of a [Service]. The service's own TTL is filled in when it has
    none. *)
Definition etcd_Register (s : Service) (e : EtcdCli) : EtcdCli * option string :=
  and_then (call_if (leaser e) CloseLeaser e) (fun e =>
  let e := fst (call OpenLeaser (mkEtcd (has_ctx e) (leaseID e) true (watcher e) (hbch e) (calls e))) in
  and_then (call_if (watcher e) CloseWatcher e) (fun e =>
  let e := fst (call OpenWatcher (mkEtcd (has_ctx e) (leaseID e) (leaser e) true (hbch e) (calls e))) in
  let t := default (NewTTLOption (3 * second) (10 * second)) (TTL s) in
  let e := mkEtcd true (leaseID e) (leaser e) (watcher e) (hbch e) (calls e) in
  let id := granted (length (calls e)) in
  and_then (call (Grant (whole_seconds (ttl t))) e) (fun e =>
  let e := mkEtcd (has_ctx e) id (leaser e) (watcher e) (hbch e) (calls e) in
  and_then (call (Put (Key s) (Value s) id) e) (fun e =>
  let '(e, err) := call (KeepAlive id) e in
  (mkEtcd (has_ctx e) (leaseID e) (leaser e) (watcher e) (bool_decide (err = None)) (calls e), err))))).

Definition close (e : EtcdCli) : EtcdCli :=
  let e := fst (call_if (leaser e) CloseLeaser e) in
  fst (call_if (watcher e) CloseWatcher e).

(** [DeRegister]; [close] is deferred. *)
Definition etcd_DeRegister (s : Service) (e : EtcdCli) : EtcdCli * option string :=
  if String.eqb (Key s) "" then (close e, Some "no key provided"%string)
  else let '(e, err) := call (Delete (Key s)) e in (close e, err).
End etcd.

#[global] Instance etcd_register_func (fails : nat -> etcd_call -> option string) (granted : nat -> Z)
  : RegisterFunc EtcdCli := {
  Register := etcd_Register fails granted;
  DeRegister := etcd_DeRegister fails
}.

(** ** Properties *)

Module RegisterTheorems.

(** *** A script of calls *)

(** Opening a keeper or a watcher cannot fail. *)
Definition fallible (c : etcd_call) : bool := match c with OpenLeaser | OpenWatcher => false | _ => true end.

(** The calls [made], and the error, when [script] is followed up to its first
    failure. *)
Fixpoint follow (fails : nat -> etcd_call -> option string) (made script : list etcd_call)
    : list etcd_call * option string :=
  match script with
  | [] => (made, None)
  | c :: script =>
      match (if fallible c then fails (length made) c else None) with
      | Some err => ((made ++ [c])%list, Some err)
      | None => follow fails (made ++ [c])%list script
      end
  end.

Lemma follow_done fails made script made' :
  follow fails made script = (made', None) ->
  made' = (made ++ script)%list /\
  forall i c, script !! i = Some c -> fallible c = true -> fails (length made + i)%nat c = None.
Proof.
  revert made. induction script as [|c script IH]; intros made; cbn [follow].
  { intros [= <-]. by rewrite app_nil_r. }
  destruct (if fallible c then fails (length made) c else None) as [err|] eqn:E; [done|].
  intros [-> Hs]%IH. rewrite <- app_assoc. split; [done|]. intros [|i] c' Hi Hc; cbn in Hi.
  - injection Hi as <-. rewrite Hc in E. by rewrite Nat.add_0_r.
  - specialize (Hs i c' Hi Hc). rewrite length_app in Hs. cbn in Hs. by rewrite <- Nat.add_1_r, (Nat.add_comm i), Nat.add_assoc.
Qed.

(** What a registration closes and opens before it asks for a lease, and what
    it then does with the lease [id]. *)
Definition reopen (e : EtcdCli) : list etcd_call :=
  ((if leaser e then [CloseLeaser] else []) ++ [OpenLeaser] ++ (if watcher e then [CloseWatcher] else []) ++ [OpenWatcher])%list.
Definition announce (s : Service) (id : Z) : list etcd_call :=
  [Grant (whole_seconds (ttl (default (mkTTL (3 * second) (10 * second)) (TTL s)))); Put (Key s) (Value s) id; KeepAlive id].

(** A heartbeat is at least half a second and the time to live is longer
    than the heartbeat, three heartbeats if the one asked for was not; larger
    wishes are kept. *)
Theorem ttl_option_bounds h t :
  h < 2 ^ 61 ->
  let o := NewTTLOption h t in
  minHeartBeatTime <= heartbeat o /\ heartbeat o < ttl o /\
  (minHeartBeatTime <= h -> heartbeat o = h) /\ (heartbeat o < t -> ttl o = t) /\
  (t <= heartbeat o -> ttl o = 3 * heartbeat o).
Proof.
  intros Hh. unfold NewTTLOption, minHeartBeatTime, millisecond in *. cbn [heartbeat ttl].
  set (h' := if h <=? 500 * 1000000 then 500 * 1000000 else h).
  assert (500000000 <= h' < 2 ^ 61 /\ (500000000 <= h -> h' = h)) as [Hh' Hid]
    by (subst h'; destruct (h <=? 500 * 1000000) eqn:E; lia).
  rewrite i64_id by (unfold in_int64; lia).
  destruct (t <=? h') eqn:E; split_and!; lia || (intros; apply Hid; lia) || idtac.
Qed.

Lemma register_follows fails granted s e :
  let id := granted (length (calls e ++ reopen e)%list) in
  let '(e', err) := etcd_Register fails granted s e in
  (calls e', err) = follow fails (calls e) (reopen e ++ announce s id) /\
  (err = None -> leaser e' = true /\ watcher e' = true /\ hbch e' = true /\ leaseID e' = id).
Proof.
  destruct e as [ctx old l w hb cs]. unfold reopen, announce, etcd_Register, and_then, call_if, call.
  cbn [leaser watcher calls has_ctx leaseID hbch]. rewrite !app_assoc.
  change (NewTTLOption (3 * second) (10 * second)) with (mkTTL (3 * second) (10 * second)).
  destruct l, w; cbn; rewrite ?app_nil_r;
    repeat match goal with |- context [fails ?n ?c] => destruct (fails n c); cbn end; split; done.
Qed.

(** C35: whatever calls of etcd fail, [Register] makes the calls of its script up
    to the first failure, whose error it returns: it closes what an earlier
    registration opened and opens anew, asks for a lease of the service's time
    to live, ten seconds if it has none, puts the key under that very lease and
    keeps it alive. Without an error all of them were made, and the heartbeats
    are those of that lease. *)
Theorem register_script fails granted s e :
  let id := granted (length (calls e ++ reopen e)%list) in
  let '(e', err) := etcd_Register fails granted s e in
  (calls e', err) = follow fails (calls e) (reopen e ++ announce s id) /\
  (err = None -> leaser e' = true /\ watcher e' = true /\ hbch e' = true /\ leaseID e' = id).
Proof. apply register_follows. Qed.

(** [DeRegister] closes the lease keeper and the watcher on every path; it
    deletes the key unless there is none, which is an error. *)
Theorem deregister_closes fails s e :
  let '(e', err) := etcd_DeRegister fails s e in
  calls e' = (calls e ++ (if String.eqb (Key s) "" then [] else [Delete (Key s)]) ++
    (if leaser e then [CloseLeaser] else []) ++ (if watcher e then [CloseWatcher] else []))%list /\
  err = (if String.eqb (Key s) "" then Some "no key provided"%string
         else fails (length (calls e)) (Delete (Key s))).
Proof.
  unfold etcd_DeRegister, close, call_if, call.
  destruct (String.eqb (Key s) ""), e as [ctx id [] [] hb cs]; cbn;
    (split; [rewrite <- ?app_assoc; cbn; by rewrite ?app_nil_r|done]).
Qed.

(** Several services set under one key: only the last is kept, and other
    keys are not touched. *)
Theorem set_services key ss s n :
  Services (SetServices key (ss ++ [s])%list n) = <[key := s]> (Services n).
Proof.
  unfold SetServices. cbn. rewrite foldl_app. cbn. generalize (Services n).
  induction ss as [|s' ss IH]; intros m; [done|]. cbn. rewrite IH. apply insert_insert_eq.
Qed.

Lemma ttl_option_bounds_witness : ttl (NewTTLOption 0 1) = 1500000000.
Proof.
  destruct (ttl_option_bounds 0 1) as (_ & _ & _ & _ & H); [lia|]. rewrite H; [reflexivity|].
  vm_compute. discriminate.
Defined.

(** The second registration stops at the close that fails. *)
Lemma register_script_witness :
  let fails n c := if bool_decide (c = CloseWatcher) then Some "lost"%string else None in
  let e := fst (etcd_Register (fun _ _ => None) Z.of_nat (mkService "k" "v" None) NewEtcd) in
  calls e = [OpenLeaser; OpenWatcher; Grant 10; Put "k" "v" 2; KeepAlive 2] /\
  (calls (fst (etcd_Register fails Z.of_nat (mkService "k" "v" None) e)),
   snd (etcd_Register fails Z.of_nat (mkService "k" "v" None) e)) =
  ((calls e ++ [CloseLeaser; OpenLeaser; CloseWatcher])%list, Some "lost"%string).
Proof.
  intros fails e. split.
  - pose proof (register_script (fun _ _ => None) Z.of_nat (mkService "k" "v" None) NewEtcd) as H.
    cbn in H. exact (f_equal fst (proj1 H)).
  - pose proof (register_script fails Z.of_nat (mkService "k" "v" None) e) as H. cbn in H. exact (proj1 H).
Defined.
End RegisterTheorems.
