(* ===== verification/GrpcServing.v ===== *)
(** * Serving and calling by gRPC ([src/components/grpc])

    What [server.go] and [client.go] do with the gRPC library once everything is
    set up: serving, stopping, the list of services, and a call by name. The
    library is the class [GrpcLib], with what its documentation says of [Stop];
    a call through a connection is a parameter. *)

From S2P Require Import Prelude Grpc ServiceRegister.

(** ** The library *)

(** The state of a [grpc.Server]: whether [Serve] goes on, the calls being
    served, and the services by name. [Stop] makes [Serve] return and cancels
    the calls; a listener that fails only ends [Serve]. *)
Class GrpcLib (S : Type) := {
  lib_serving : S -> bool;
  lib_calls : S -> nat;
  lib_GetServiceInfo : S -> gmap string ServerInfo;
  lib_Stop : S -> S;
  lib_broken : S -> S;
  lib_Stop_serving : forall s, lib_serving (lib_Stop s) = false;
  lib_Stop_calls : forall s, lib_calls (lib_Stop s) = 0%nat;
  lib_broken_serving : forall s, lib_serving (lib_broken s) = false
}.

(** ** The server ([server/server.go]) *)

Section server.
Context {S : Type} `{GrpcLib S}.

(** The wrapped server and the library's, which is nil before [NewServ]. *)
Record Serving := mkServing { set_up : GrpcServer; engine : option S }.

(** [NewServ], with what [grpc.NewServer] makes of the options. *)
Definition NewServ_serving (lib_NewServer : list server_option -> S) (call : nat -> option string) (g : GrpcServer)
    : Serving * option string :=
  let '(g', _, e) := NewServ call g in (mkServing g' (Some (lib_NewServer (server_opts g))), e).

Definition GetEngine (g : Serving) : option S := engine g.

(** [StartServ]: [Serve] with the listener gives an error in the end. *)
Definition StartServ (lib_Serve : S -> S * option string) (g : Serving) : outcome (Serving * option string) :=
  match engine g with
  | None => Panic NilDereference
  | Some s => let '(s, err) := lib_Serve s in Ret (mkServing (set_up g) (Some s), err)
  end.

Definition Stop (g : Serving) : outcome Serving :=
  match engine g with
  | None => Panic NilDereference
  | Some s => Ret (mkServing (set_up g) (Some (lib_Stop s)))
  end.

Definition GracefulStop (g : Serving) : outcome Serving :=
  match engine g with
  | None => Panic NilDereference
  | Some s => Ret (mkServing (set_up g) (Some (lib_Stop s)))
  end.

(** A service's entry, its methods copied one by one. *)
Definition service_entry (v : ServerInfo) : ServerInfo :=
  foldl (fun info m => mkServerInfo
           (InfoMethods info ++ [mkMethod (MethodName m) (IsClientStream m) (IsServerStream m)])%list (InfoMetadata info))
        (mkServerInfo [] (InfoMetadata v)) (InfoMethods v).

Definition GetServicesInfo `{RangeOrder} (g : Serving) : outcome (gmap string ServerInfo) :=
  match engine g with
  | None => Panic NilDereference
  | Some s => Ret (foldl (fun infos kv => <[kv.1 := service_entry kv.2]> infos) ∅ (range (lib_GetServiceInfo s)))
  end.
End server.
Arguments Serving : clear implicits.

(** ** A call by name ([client/client.go]) *)

(** A context: its values under texts, and the metadata to send. *)
Record context := mkContext { ctx_values : gmap string string; ctx_outgoing : option MD }.

(** [Invoke]: the reply is filled in by the call, and given only when there is
    no error. *)
Definition Invoke {Req Rep E} (conn_Invoke : nat -> context -> string -> Req -> Rep * option E)
    (c : GrpcClient) (ctx : context) (method : string) (request : Req) : outcome (option Rep * option E) :=
  let ctx := mkContext (<["method"%string := method]> (ctx_values ctx)) (ctx_outgoing ctx) in
  let ctx := mkContext (ctx_values ctx) (Some ∅) in
  match Conn c with
  | None => Panic NilDereference
  | Some conn =>
      match conn_Invoke conn ctx method request with
      | (_, Some err) => Ret (None, Some err)
      | (reply, None) => Ret (Some reply, None)
      end
  end.

(** ** Properties *)

Module GrpcServingTheorems.

Lemma service_entry_id v : service_entry v = v.
Proof.
  destruct v as [ms md]. unfold service_entry. cbn [InfoMetadata InfoMethods].
  assert (forall acc, foldl (fun info m => mkServerInfo
    (InfoMethods info ++ [mkMethod (MethodName m) (IsClientStream m) (IsServerStream m)])%list (InfoMetadata info))
    (mkServerInfo acc md) ms = mkServerInfo (acc ++ ms) md) as H; [|by rewrite H].
  induction ms as [|[] ms IH]; intros acc; cbn; [by rewrite app_nil_r|]. by rewrite IH, <- app_assoc.
Qed.

(** The services listed are those of the library, in whatever order they are
    visited. *)
Theorem grpc_services_info {S} `{GrpcLib S} `{RangeOrder} (g : Serving S) :
  GetServicesInfo g = match engine g with Some s => Ret (lib_GetServiceInfo s) | None => Panic NilDereference end.
Proof.
  unfold GetServicesInfo. destruct (engine g) as [s|]; [|done]. f_equal. rewrite range_copy.
  rewrite <- (map_fmap_id (lib_GetServiceInfo s)) at 2. apply map_fmap_ext. intros k v _. apply service_entry_id.
Qed.

(** Stopping gracefully is stopping: the calls being served are cancelled. *)
Theorem graceful_stop_cancels {S} `{GrpcLib S} (g g' : Serving S) :
  GracefulStop g = Ret g' ->
  GracefulStop g = Stop g /\ exists s, engine g' = Some s /\ lib_calls s = 0%nat /\ lib_serving s = false.
Proof.
  unfold GracefulStop, Stop. destruct (engine g) as [s|]; [|done]. intros [= <-]. split; [done|].
  eexists. split; [done|]. by rewrite lib_Stop_calls, lib_Stop_serving.
Qed.

(** The metadata that the caller put into the context is not sent. *)
Theorem invoke_ignores_metadata {Req Rep E} (conn_Invoke : nat -> context -> string -> Req -> Rep * option E)
    c ctx md method request :
  Invoke conn_Invoke c ctx method request = Invoke conn_Invoke c (mkContext (ctx_values ctx) md) method request.
Proof. done. Qed.
End GrpcServingTheorems.
