(* ===== verification/Grace.v ===== *)
(** * Graceful shutdown and restart ([src/components/grace])

    A [Server] reacts to the signals it receives, one at a time: a hang-up
    starts a new process, the others shut the server down, which takes its
    registration back and stops the listener, now or after a time-out. The
    package's variables and the server are one record; what the server does to
    the outside is a list of effects. The listener, the hooks and starting a
    process are parameters; the registration is the interface [RegisterFunc]. The
    goroutines of a server and its listener are in the file Serving. *)

From S2P Require Import Prelude ServiceRegister.
Local Open Scope Z_scope.

(** ** Data *)

Inductive Signal := SIGHUP | SIGINT | SIGTERM | SIGKILL | OtherSignal (n : Z).

#[global] Instance Signal_eq_dec : EqDecision Signal.
Proof. solve_decision. Defined.

Definition PreSignal : Z := 0.
Definition SufSignal : Z := 1.

Definition hookableSignals : list Signal := [SIGHUP; SIGINT; SIGTERM; SIGKILL].

(** [SignalHooks]: nil, or a partial map from the flag to nil or a partial map
    from signals to hooks, by number. *)
Definition Hooks : Type := option (Z -> option (Signal -> option (list nat))).

Inductive effect :=
| RunHook (n : nat)
| Deregister (e : option string)
| StopAfter (d : Z)
| GracefulStop
| SignalParent
| StartProcess (path : string) (args : list string) (files : nat).

(** The server, with the package's [DefaultTimeout] (nanoseconds),
    [runningServers] (nil, or how many) and [runningServersForked]. *)
Record Server (R : Type) := mkServer {
  Rr : RegisterOpts R;
  SignalHooks : Hooks;
  isChild : bool;
  runing : bool;
  DefaultTimeout : Z;
  runningServers : option nat;
  runningServersForked : bool
}.
Arguments mkServer {R}.
Arguments Rr {R}.
Arguments SignalHooks {R}.
Arguments isChild {R}.
Arguments runing {R}.
Arguments DefaultTimeout {R}.
Arguments runningServers {R}.
Arguments runningServersForked {R}.

Section server.
Context {R : Type} `{RegisterFunc R}.
Implicit Types (s : Server R).

(** [NewServer]: the map of running servers it fills is a new one of its own,
    the package's stays nil. The registration is set by the caller. *)
Definition NewServer (rr : RegisterOpts R) (child : bool) : Server R :=
  mkServer rr None child false (60 * 1000000000) None false.

(** The hooks of a position and a signal; reading a nil map gives nothing. *)
Definition hooks_of (h : Hooks) (ppFlag : Z) (sig : Signal) : option (list nat) :=
  h ≫= (fun f => f ppFlag ≫= (fun g => g sig)).

Definition signalHooks (s : Server R) (ppFlag : Z) (sig : Signal) : list effect :=
  match hooks_of (SignalHooks s) ppFlag sig with
  | None => []
  | Some fs => map RunHook fs
  end.

(** [RegisterSignalHook]: the server or an error; the write into a map that is
    nil panics. *)
Definition RegisterSignalHook (ppFlag : Z) (sig : Signal) (f : nat) (s : Server R)
    : outcome (Server R * option string) :=
  if negb (ppFlag =? PreSignal) && negb (ppFlag =? SufSignal) then
    Ret (s, Some "invalid ppFlag argument. Must be either grace.PreSignal or grace.PostSignal"%string)
  else if bool_decide (sig ∈ hookableSignals) then
    match SignalHooks s with
    | None => Panic NilMapWrite
    | Some h =>
        match h ppFlag with
        | None => Panic NilMapWrite
        | Some g =>
            let g' := fun sig' => if decide (sig' = sig) then Some (default [] (g sig) ++ [f])%list else g sig' in
            let h' := fun p => if p =? ppFlag then Some g' else h p in
            Ret (mkServer (Rr s) (Some h') (isChild s) (runing s) (DefaultTimeout s) (runningServers s)
                   (runningServersForked s), None)
        end
    end
  else Ret (s, Some "signal is not supported"%string).

Definition with_timeout (d : Z) s : Server R :=
  mkServer (Rr s) (SignalHooks s) (isChild s) (runing s) d (runningServers s) (runningServersForked s).
Definition with_runing (b : bool) s : Server R :=
  mkServer (Rr s) (SignalHooks s) (isChild s) b (DefaultTimeout s) (runningServers s) (runningServersForked s).
Definition with_Rr (rr : RegisterOpts R) s : Server R :=
  mkServer rr (SignalHooks s) (isChild s) (runing s) (DefaultTimeout s) (runningServers s)
    (runningServersForked s).
Definition with_forked s : Server R :=
  mkServer (Rr s) (SignalHooks s) (isChild s) (runing s) (DefaultTimeout s) (runningServers s) true.

(** [shutdown]; the stop that is put off runs [GracefulStop] later, also when
    the process forgot about it. *)
Definition shutdown (s : Server R) : Server R * list effect :=
  if runing s then
    let s := with_runing false s in
    let '(s, effs) :=
      match RegisterData (Rr s) with
      | None => (s, [])
      | Some svc =>
          let '(r, e) := DeRegister svc (RegisterImpl (Rr s)) in
          (with_Rr (mkOpts (Some svc) r) s, [Deregister e])
      end in
    (s, effs ++ [if 0 <? DefaultTimeout s then StopAfter (DefaultTimeout s) else GracefulStop])%list
  else (s, []).

Section signals.
(** [os.Args]: the program and its arguments. *)
Context (program : string) (args : list string).

(** The arguments of the new process. *)
Definition fork_args : list string :=
  (List.filter (fun arg => negb (String.eqb arg "--graceful")) args ++ ["--graceful"])%list.

(** [fork]: the slice of files starts with a nil for each running server. *)
Definition fork (s : Server R) : Server R * list effect :=
  if runningServersForked s then (s, [])
  else (with_forked s, [StartProcess program fork_args (2 * default 0%nat (runningServers s))]).

(** What a signal does between its hooks. *)
Definition on_signal (sig : Signal) (s : Server R) : Server R * list effect :=
  match sig with
  | SIGHUP => fork s
  | SIGINT | SIGKILL => shutdown (with_timeout 0 s)
  | SIGTERM => shutdown s
  | OtherSignal _ => (s, [])
  end.

(** The loop over the signals that come; it ends when the server is not
    running. *)
Fixpoint handleSignals (sigs : list Signal) (s : Server R) : Server R * list effect :=
  if runing s then
    match sigs with
    | [] => (s, [])
    | sig :: sigs =>
        let pre := signalHooks s PreSignal sig in
        let '(s, effs) := on_signal sig s in
        let suf := signalHooks s SufSignal sig in
        let '(s, rest) := handleSignals sigs s in
        (s, pre ++ effs ++ suf ++ rest)%list
    end
  else (s, []).

(** [ListenAndServe] up to [Serve]: a child asks its parent to go. *)
Definition ListenAndServe (sigs : list Signal) (s : Server R) : Server R * list effect :=
  let s := with_runing true s in
  let '(s', effs) := handleSignals sigs s in
  (s', (if isChild s then [SignalParent] else []) ++ effs)%list.
End signals.
End server.

(** ** Facts *)

Module GraceFacts.

Definition is_stop (e : effect) : bool := match e with StopAfter _ | GracefulStop => true | _ => false end.
Definition is_deregister (e : effect) : bool := match e with Deregister _ => true | _ => false end.
Definition is_start (e : effect) : bool := match e with StartProcess _ _ _ => true | _ => false end.
Lemma count_hooks {R} f (s : Server R) p sig :
  (forall n, f (RunHook n) = false) -> count_if f (signalHooks s p sig) = 0%nat.
Proof.
  intros Hf. unfold signalHooks. destruct (hooks_of _ _ _) as [fs|]; [|done].
  unfold count_if. induction fs as [|n fs IH]; [done|]. cbn. by rewrite Hf.
Qed.

(** The signals that shut the server down. *)
Definition ends (sig : Signal) : bool :=
  match sig with SIGINT | SIGTERM | SIGKILL => true | _ => false end.

Section facts.
Context {R : Type} `{RegisterFunc R} (program : string) (args : list string).
Implicit Types (s : Server R).

Definition data s : nat := match RegisterData (Rr s) with Some _ => 1 | None => 0 end.

Lemma on_signal_ends sig s :
  runing s = true -> ends sig = true ->
  runing (fst (on_signal program args sig s)) = false /\
  count_if is_stop (snd (on_signal program args sig s)) = 1%nat /\
  count_if is_deregister (snd (on_signal program args sig s)) = data s /\
  count_if is_start (snd (on_signal program args sig s)) = 0%nat.
Proof.
  assert (forall d, runing s = true -> runing (fst (shutdown (with_timeout d s))) = false /\
    count_if is_stop (snd (shutdown (with_timeout d s))) = 1%nat /\
    count_if is_deregister (snd (shutdown (with_timeout d s))) = data s /\
    count_if is_start (snd (shutdown (with_timeout d s))) = 0%nat) as Hs.
  { intros d Hr. unfold shutdown, data. cbn. rewrite Hr.
    destruct (RegisterData (Rr s)) as [svc|]; [destruct (DeRegister _ _)|]; cbn; destruct (0 <? d); done. }
  intros Hr He. destruct sig; try done; cbn [on_signal]; [by apply Hs| |by apply Hs].
  replace s with (with_timeout (DefaultTimeout s) s) at 1 2 3 5 by by destruct s. by apply Hs.
Qed.

Lemma on_signal_goes_on sig s :
  ends sig = false ->
  runing (fst (on_signal program args sig s)) = runing s /\ data (fst (on_signal program args sig s)) = data s /\
  count_if is_stop (snd (on_signal program args sig s)) = 0%nat /\
  count_if is_deregister (snd (on_signal program args sig s)) = 0%nat /\
  count_if is_start (snd (on_signal program args sig s)) =
    (if bool_decide (sig = SIGHUP) && negb (runningServersForked s) then 1 else 0)%nat /\
  runningServersForked (fst (on_signal program args sig s)) =
    (runningServersForked s || bool_decide (sig = SIGHUP)).
Proof.
  intros He. destruct sig; try done; cbn [on_signal].
  - unfold fork. destruct (runningServersForked s) eqn:Hf; cbn; by rewrite ?Hf.
  - cbn. by rewrite orb_false_r.
Qed.
End facts.
End GraceFacts.

(** ** Properties *)

Module GraceTheorems.
Import GraceFacts.

Section theorems.
Context {R : Type} `{RegisterFunc R} (program : string) (args : list string).

(** Whatever signals a running server receives, it is stopped and its
    registration taken back once if one of them ends it, and not at all
    otherwise; after that it handles no signal; and it starts a new process at
    most once, at the first hang-up it handles. *)
Theorem one_shutdown sigs (s : Server R) :
  runing s = true ->
  let '(s', effs) := handleSignals program args sigs s in
  let ended := existsb ends sigs in
  runing s' = negb ended /\
  count_if is_stop effs = (if ended then 1 else 0)%nat /\
  count_if is_deregister effs = (if ended then data s else 0)%nat /\
  (count_if is_start effs <= if runningServersForked s then 0 else 1)%nat.
Proof.
  revert s. induction sigs as [|sig sigs IH]; intros s Hr; cbn [handleSignals]; rewrite Hr.
  { cbn. split_and!; done || lia. }
  destruct (on_signal program args sig s) as [s1 effs] eqn:Hon. cbn [existsb].
  destruct (ends sig) eqn:He.
  - destruct (on_signal_ends program args sig s Hr He) as (H1 & H2 & H3 & H4). rewrite Hon in *.
    cbn [fst snd] in *.
    assert (handleSignals program args sigs s1 = (s1, [])) as -> by (destruct sigs; cbn [handleSignals]; by rewrite H1).
    rewrite !count_if_app, !count_hooks, H2, H3, H4 by done. cbn [orb negb count_if]. split_and!; done || (cbn; lia).
  - destruct (on_signal_goes_on program args sig s He) as (H1 & H2 & H3 & H4 & H5 & H6). rewrite Hon in *.
    cbn [fst snd] in *. specialize (IH s1 ltac:(congruence)).
    destruct (handleSignals program args sigs s1) as [s2 rest]. destruct IH as (I1 & I2 & I3 & I4).
    cbn [orb]. rewrite !count_if_app, !count_hooks, H3, H4, H5 by done. cbn [Nat.add].
    rewrite I1, I2, I3, H2. rewrite H6 in I4. split_and!; [done..|].
    destruct (bool_decide (sig = SIGHUP)), (runningServersForked s); cbn in *; lia.
Qed.

(** The new process gets the old arguments in their order, and the flag
    once. *)
Theorem fork_arguments :
  fork_args args = (List.filter (fun a => negb (String.eqb a "--graceful")) args ++ ["--graceful"%string])%list /\
  length (List.filter (String.eqb "--graceful") (fork_args args)) = 1%nat.
Proof.
  split; [done|]. unfold fork_args. rewrite List.filter_app, length_app.
  induction args as [|a l IH]; [done|]. cbn [List.filter].
  destruct (String.eqb_spec a "--graceful") as [|Ha]; cbn [negb List.filter]; [done|].
  rewrite (proj2 (String.eqb_neq "--graceful" a)) by congruence. done.
Qed.

(** A new server has no hooks and can get none: registering one for a
    signal that can be hooked panics, as the map is nil. *)
Theorem hooks_cannot_be_registered rr child ppFlag sig f :
  match RegisterSignalHook ppFlag sig f (NewServer (R:=R) rr child) with
  | Ret (s, e) => s = NewServer rr child /\ e <> None /\
                  ((ppFlag <> PreSignal /\ ppFlag <> SufSignal) \/ sig ∉ hookableSignals)
  | Panic p => p = NilMapWrite /\ (ppFlag = PreSignal \/ ppFlag = SufSignal) /\ sig ∈ hookableSignals
  | Hang => False
  end.
Proof.
  unfold RegisterSignalHook. destruct (ppFlag =? PreSignal) eqn:E1, (ppFlag =? SufSignal) eqn:E2; cbn [negb andb].
  4: { split; [done|]. split; [done|]. left. lia. }
  all: case_bool_decide; cbn; split_and!; try done; try (by right); lia.
Qed.
End theorems.

Lemma one_shutdown_witness :
  let s := with_runing true (NewServer (R:=EtcdCli)
    (mkOpts (Some (mkService "k" "v" None)) NewEtcd) false) in
  count_if is_stop (snd (handleSignals (H:=etcd_register_func (fun _ _ => None) Z.of_nat) "app" ["-v"%string]
    [SIGHUP; SIGTERM; SIGINT] s)) = 1%nat.
Proof.
  intros s.
  destruct (one_shutdown (H:=etcd_register_func (fun _ _ => None) Z.of_nat) "app" ["-v"%string]
    [SIGHUP; SIGTERM; SIGINT] s) as (_ & H & _); [reflexivity|]. exact H.
Defined.
End GraceTheorems.
