(* ===== verification/Lifecycle.v ===== *)
(** * A server's registration from start to end ([src/components/grace], [service_register])

    The server of Grace takes its registration back through the interface
    [RegisterFunc]; here that is proved for any implementation, and put together
    with the one by etcd: what stands in etcd under the service's key while the
    server runs, and after the signal that ends it. etcd itself is a parameter,
    of which the theorems use what its documentation says of the calls made. *)

From S2P Require Import Prelude ServiceRegister Grace.

(** ** etcd *)

Section etcd_history.
(** An entry is a value with its lease. [entry n] is what stands under [key] once
    [n] of the calls have returned; [runs_out] are the leases that ran out. *)
Context (fails : nat -> etcd_call -> option string) (key : string)
        (entry : nat -> option (string * Z)) (runs_out : Z -> Prop).

(** The entry after a call that was carried out. *)
Definition written (c : etcd_call) (old : option (string * Z)) : option (string * Z) :=
  match c with
  | Put k value lease => if String.eqb k key then Some (value, lease) else old
  | ServiceRegister.Delete k => if String.eqb k key then None else old
  | _ => old
  end.

(** What a call leaves: one that returned no error was carried out, one that
    returned an error was carried out or not. *)
Definition may_leave (n : nat) (c : etcd_call) (x : option (string * Z)) : Prop :=
  x = written c (entry n) \/ (is_Some (fails n c) /\ x = entry n).

(** An entry whose lease has run out may be gone. *)
Definition may_expire (x x' : option (string * Z)) : Prop :=
  x' = x \/ (x' = None /\ exists value lease, x = Some (value, lease) /\ runs_out lease).

(** The documented behaviour of etcd under a key that nobody else writes. *)
Definition documented (cs : list etcd_call) : Prop :=
  forall n c, cs !! n = Some c -> exists x, may_leave n c x /\ may_expire x (entry (S n)).
End etcd_history.

(** ** Facts *)

Module LifecycleFacts.
Import GraceFacts.

(** *** The server, with any registration *)

Section interface.
Context {R : Type} `{RegisterFunc R} (program : string) (args : list string).
Implicit Types s : Server R.

Definition deregisters (effs : list effect) : list (option string) :=
  omap (fun x => match x with Deregister e => Some e | _ => None end) effs.

Lemma deregisters_hooks s p sig : deregisters (signalHooks s p sig) = [].
Proof.
  unfold signalHooks. destruct (hooks_of _ _ _) as [fs|]; [|done]. unfold deregisters.
  induction fs as [|n fs IH]; [done|]. exact IH.
Qed.

Lemma deregisters_app e1 e2 : deregisters (e1 ++ e2) = (deregisters e1 ++ deregisters e2)%list.
Proof. apply omap_app. Qed.

Lemma on_signal_registration sig s svc :
  runing s = true -> RegisterData (Rr s) = Some svc ->
  let '(s', effs) := on_signal program args sig s in
  RegisterData (Rr s') = Some svc /\ runing s' = negb (ends sig) /\
  RegisterImpl (Rr s') = (if ends sig then fst (DeRegister svc (RegisterImpl (Rr s))) else RegisterImpl (Rr s)) /\
  deregisters effs = if ends sig then [snd (DeRegister svc (RegisterImpl (Rr s)))] else [].
Proof.
  intros Hr Hd.
  assert (forall d, RegisterData (Rr (with_timeout d s)) = Some svc /\ runing (with_timeout d s) = true) as Hw by done.
  assert (forall s0, Rr s0 = Rr s -> runing s0 = true -> let '(s', effs) := shutdown s0 in
    RegisterData (Rr s') = Some svc /\ runing s' = false /\
    RegisterImpl (Rr s') = fst (DeRegister svc (RegisterImpl (Rr s))) /\
    deregisters effs = [snd (DeRegister svc (RegisterImpl (Rr s)))]) as Hshut.
  { intros s0 H0 Hr0. unfold shutdown. rewrite Hr0. cbn [with_runing Rr]. rewrite H0, Hd.
    destruct (DeRegister svc (RegisterImpl (Rr s))) as [r e]. cbn. by destruct (0 <? DefaultTimeout s0)%Z. }
  destruct sig; cbn [on_signal ends negb].
  - unfold fork. by destruct (runningServersForked s).
  - by apply Hshut.
  - by apply Hshut.
  - by apply Hshut.
  - done.
Qed.

Lemma handleSignals_registration sigs s svc :
  runing s = true -> RegisterData (Rr s) = Some svc ->
  let '(s', effs) := handleSignals program args sigs s in
  RegisterImpl (Rr s') = (if existsb ends sigs then fst (DeRegister svc (RegisterImpl (Rr s))) else RegisterImpl (Rr s)) /\
  deregisters effs = if existsb ends sigs then [snd (DeRegister svc (RegisterImpl (Rr s)))] else [].
Proof.
  revert s. induction sigs as [|sig sigs IH]; intros s Hr Hd; cbn [handleSignals]; rewrite Hr; [done|].
  pose proof (on_signal_registration sig s svc Hr Hd) as Hon.
  destruct (on_signal program args sig s) as [s1 effs]. destruct Hon as (Hd1 & Hr1 & Hi1 & He1). cbn [existsb].
  destruct (ends sig); cbn [negb orb] in *.
  - assert (handleSignals program args sigs s1 = (s1, [])) as -> by (destruct sigs; cbn [handleSignals]; by rewrite Hr1).
    rewrite !deregisters_app, !deregisters_hooks, He1. done.
  - specialize (IH s1 Hr1 Hd1). destruct (handleSignals program args sigs s1) as [s2 rest]. rewrite Hi1 in IH.
    by rewrite !deregisters_app, !deregisters_hooks, He1.
Qed.
End interface.

(** *** The registration in etcd *)

Lemma registered fails granted svc e0 e1 :
  etcd_Register fails granted svc e0 = (e1, None) ->
  leaser e1 = true /\ watcher e1 = true /\
  exists cs, calls e1 = (cs ++ [Put (Key svc) (Value svc) (leaseID e1); KeepAlive (leaseID e1)])%list /\
  fails (length cs) (Put (Key svc) (Value svc) (leaseID e1)) = None.
Proof.
  intros Hr. pose proof (RegisterTheorems.register_follows fails granted svc e0) as H. rewrite Hr in H. cbn zeta in H.
  destruct H as [Hf Hok]. destruct (Hok eq_refl) as (Hl & Hw & _ & Hid). split; [done|]. split; [done|].
  symmetry in Hf. destruct (RegisterTheorems.follow_done _ _ _ _ Hf) as [Hc Hs].
  rewrite <- Hid in Hc, Hs. unfold RegisterTheorems.announce in Hc, Hs. set (pre := RegisterTheorems.reopen e0) in *.
  set (g := Grant _) in *. exists (calls e0 ++ pre ++ [g])%list. split; [by rewrite Hc, <- !app_assoc|].
  rewrite !length_app. apply (Hs (length pre + 1)%nat); [|done].
  rewrite lookup_app_r by lia. by replace (_ - _)%nat with 1%nat by lia.
Qed.

Lemma deregistered fails svc e :
  Key svc <> ""%string -> leaser e = true -> watcher e = true ->
  let '(e', err) := etcd_DeRegister fails svc e in
  calls e' = (calls e ++ [ServiceRegister.Delete (Key svc); CloseLeaser; CloseWatcher])%list /\
  err = fails (length (calls e)) (ServiceRegister.Delete (Key svc)).
Proof.
  intros Hk Hl Hw. pose proof (RegisterTheorems.deregister_closes fails svc e) as H.
  destruct (etcd_DeRegister fails svc e) as [e' err]. by rewrite Hl, Hw, (proj2 (String.eqb_neq _ _) Hk) in H.
Qed.

Section history.
Context (fails : nat -> etcd_call -> option string) (key value : string) (lease : Z).
Context (entry : nat -> option (string * Z)) (runs_out : Z -> Prop).

(** The entry stands, or its lease ran out. *)
Definition stands (x : option (string * Z)) : Prop := x = Some (value, lease) \/ (x = None /\ runs_out lease).

Lemma documented_app cs1 cs2 :
  documented fails key entry runs_out (cs1 ++ cs2) -> documented fails key entry runs_out cs1.
Proof. intros Hd n c Hn. apply Hd. by apply lookup_app_l_Some. Qed.

(** The next call; one that does not write the key leaves an entry alone. *)
Lemma documented_call cs c :
  documented fails key entry runs_out (cs ++ [c]) ->
  exists x, may_leave fails key entry (length cs) c x /\ may_expire runs_out x (entry (length (cs ++ [c]))).
Proof. rewrite length_app, Nat.add_1_r. intros Hd. apply Hd. by rewrite lookup_app_r, Nat.sub_diag by lia. Qed.

Lemma other_call_gone cs c :
  documented fails key entry runs_out (cs ++ [c]) -> (forall x, written key c x = x) ->
  entry (length cs) = None -> entry (length (cs ++ [c])) = None.
Proof.
  intros (x & Hx & He)%documented_call Hw Hn. assert (x = None) as -> by (destruct Hx as [->|[_ ->]]; by rewrite ?Hw).
  by destruct He as [->|[-> _]].
Qed.

Lemma other_call_stands cs c :
  documented fails key entry runs_out (cs ++ [c]) -> (forall x, written key c x = x) ->
  stands (entry (length cs)) -> stands (entry (length (cs ++ [c]))).
Proof.
  intros Hd Hw [Hs|[Hn Hr]]; [|right; split; [by apply other_call_gone|done]].
  apply documented_call in Hd as (x & Hx & He).
  assert (x = Some (value, lease)) as -> by (destruct Hx as [->|[_ ->]]; by rewrite ?Hw).
  destruct He as [->|(-> & v & l & [= <- <-] & Hr)]; [by left|by right].
Qed.

Lemma put_stands cs :
  documented fails key entry runs_out (cs ++ [Put key value lease]) -> fails (length cs) (Put key value lease) = None ->
  stands (entry (length (cs ++ [Put key value lease]))).
Proof.
  intros (x & Hx & He)%documented_call Hf. unfold may_leave in Hx. rewrite Hf in Hx. cbn in Hx. rewrite String.eqb_refl in Hx.
  destruct Hx as [->|[[? ?] _]]; [|done]. destruct He as [->|(-> & v & l & [= <- <-] & Hr)]; [by left|by right].
Qed.

(** A deletion: the entry is gone, or the call failed and it may stand. *)
Lemma delete_gone cs :
  documented fails key entry runs_out (cs ++ [ServiceRegister.Delete key]) ->
  entry (length (cs ++ [ServiceRegister.Delete key])) = None \/
  is_Some (fails (length cs) (ServiceRegister.Delete key)) /\
  may_expire runs_out (entry (length cs)) (entry (length (cs ++ [ServiceRegister.Delete key]))).
Proof.
  intros (x & Hx & He)%documented_call. unfold may_leave in Hx. cbn in Hx. rewrite String.eqb_refl in Hx.
  destruct Hx as [->|[Hf ->]]; [|by right]. left. by destruct He as [->|[-> _]].
Qed.

(** While a registration stands, and after it was taken back. *)
Lemma registration_stands granted svc e0 e1 :
  key = Key svc -> value = Value svc -> lease = leaseID e1 ->
  etcd_Register fails granted svc e0 = (e1, None) -> documented fails key entry runs_out (calls e1) ->
  stands (entry (length (calls e1))).
Proof.
  intros Ek Ev El (_ & _ & cs & -> & Hf)%registered. rewrite <- Ek, <- Ev, <- El in *.
  change [Put key value lease; KeepAlive lease] with ([Put key value lease] ++ [KeepAlive lease])%list.
  rewrite app_assoc. intros Hd. apply other_call_stands; [done|done|]. apply put_stands; [by eapply documented_app|done].
Qed.

Lemma deregistration_ends cs :
  documented fails key entry runs_out (cs ++ [ServiceRegister.Delete key; CloseLeaser; CloseWatcher]) ->
  stands (entry (length cs)) ->
  let here := entry (length (cs ++ [ServiceRegister.Delete key; CloseLeaser; CloseWatcher])) in
  (fails (length cs) (ServiceRegister.Delete key) = None -> here = None) /\ (here = None \/ here = Some (value, lease)).
Proof.
  change [ServiceRegister.Delete key; CloseLeaser; CloseWatcher]
    with ([ServiceRegister.Delete key] ++ [CloseLeaser] ++ [CloseWatcher])%list.
  rewrite !app_assoc. intros Hd Hs here. pose proof (documented_app _ _ Hd) as Hd1. pose proof (documented_app _ _ Hd1) as Hd2.
  assert (entry (length (cs ++ [ServiceRegister.Delete key])) = None -> here = None) as Hgone.
  { intros Hn. apply other_call_gone; [done|done|]. by apply other_call_gone. }
  destruct (delete_gone cs Hd2) as [Hn|[[err Hf] He]]; [split; [by intros _; apply Hgone|left; by apply Hgone]|].
  split; [by rewrite Hf|]. assert (stands (entry (length (cs ++ [ServiceRegister.Delete key])))) as Hs2.
  { destruct He as [->|(-> & v & l & Heq & Hr)]; [done|]. destruct Hs as [Hs|[Hs _]]; rewrite Hs in Heq; [|done].
    injection Heq as <- <-. by right. }
  assert (stands here) as [?|[? _]]; [|by right|by left]. apply other_call_stands; [done|done|]. by apply other_call_stands.
Qed.
End history.
End LifecycleFacts.

(** ** Properties *)

Module LifecycleTheorems.
Import GraceFacts LifecycleFacts.

(** C14: once [Register] returned without an error, the service's key stands in
    etcd with its value under the lease kept alive, until that lease runs out,
    and no call is made whatever signals the server receives, until one ends it.
    Then, and once only, the key is deleted before the keeper of the lease and the
    watcher are closed, both also when the deletion fails. If the deletion
    returned no error the key is gone; else it is gone or stands as before, and
    the error is that of the deletion. This for a running server and a key that is
    not empty and that nobody else writes, of an etcd that carries out the calls that return no error, and may or may not
    have carried out the others. *)
Theorem registration_lifecycle fails granted svc e0 e1 program args sigs (s : Server EtcdCli) entry runs_out :
  Key svc <> ""%string -> etcd_Register fails granted svc e0 = (e1, None) ->
  runing s = true -> Rr s = mkOpts (Some svc) e1 ->
  let '(s', effs) := handleSignals (H:=etcd_register_func fails granted) program args sigs s in
  let e2 := RegisterImpl (Rr s') in
  documented fails (Key svc) entry runs_out (calls e2) ->
  (entry (length (calls e1)) = Some (Value svc, leaseID e1) \/
   entry (length (calls e1)) = None /\ runs_out (leaseID e1)) /\
  if existsb ends sigs then
    calls e2 = (calls e1 ++ [ServiceRegister.Delete (Key svc); CloseLeaser; CloseWatcher])%list /\
    exists err, deregisters effs = [err] /\ err = fails (length (calls e1)) (ServiceRegister.Delete (Key svc)) /\
    (err = None -> entry (length (calls e2)) = None) /\
    (entry (length (calls e2)) = None \/ entry (length (calls e2)) = Some (Value svc, leaseID e1))
  else e2 = e1 /\ deregisters effs = [].
Proof.
  intros Hk Hreg Hr HRr. destruct (registered _ _ _ _ _ Hreg) as (Hl & Hw & _).
  pose proof (handleSignals_registration (H:=etcd_register_func fails granted) program args sigs s svc Hr) as Hs.
  rewrite HRr in Hs. specialize (Hs eq_refl). cbn [RegisterImpl DeRegister etcd_register_func] in Hs.
  destruct (handleSignals program args sigs s) as [s' effs]. destruct Hs as [Hi He]. cbn zeta. intros Hd.
  pose proof (deregistered fails svc e1 Hk Hl Hw) as Hde.
  pose proof (registration_stands fails (Key svc) (Value svc) (leaseID e1) entry runs_out granted svc e0 e1
    eq_refl eq_refl eq_refl Hreg) as Hst.
  destruct (existsb ends sigs); rewrite Hi in Hd |- *; [|by split; [apply Hst|]].
  destruct (etcd_DeRegister fails svc e1) as [e2 err]. cbn [fst snd] in Hd, He |- *. destruct Hde as [Hc Herr].
  rewrite Hc in Hd |- *. specialize (Hst (documented_app _ _ _ _ _ _ Hd)). split; [done|]. split; [done|].
  exists err. split; [done|]. split; [done|]. rewrite Herr. by apply (deregistration_ends _ _ _ _ _ runs_out).
Qed.

(** A hang-up, then the end; the deletion is the sixth call. *)
Definition demo_service : Service := mkService "app/1" "10.0.0.1:80" None.
Definition demo_etcd : EtcdCli := fst (etcd_Register (fun _ _ => None) Z.of_nat demo_service NewEtcd).

(** The deletion reports an error though it was carried out. *)
Definition demo_fails (n : nat) (c : etcd_call) : option string :=
  match c with ServiceRegister.Delete _ => Some "timed out"%string | _ => None end.
Definition demo_entry (n : nat) : option (string * Z) :=
  if (3 <? n)%nat && (n <? 6)%nat then Some ("10.0.0.1:80"%string, 2%Z) else None.

Lemma registration_lifecycle_witness :
  let '(s', effs) := handleSignals (H:=etcd_register_func demo_fails Z.of_nat) "app" [] [SIGHUP; SIGTERM]
    (with_runing true (NewServer (mkOpts (Some demo_service) demo_etcd) false)) in
  calls (RegisterImpl (Rr s')) = (calls demo_etcd ++ [ServiceRegister.Delete "app/1"; CloseLeaser; CloseWatcher])%list /\
  deregisters effs = [Some "timed out"%string].
Proof.
  assert (documented demo_fails "app/1" demo_entry (fun _ => False)
    (calls demo_etcd ++ [ServiceRegister.Delete "app/1"; CloseLeaser; CloseWatcher])) as Hd.
  { intros n c Hn. eexists. split; [left; reflexivity|]. left.
    do 8 (destruct n as [|n]; [injection Hn as <-; reflexivity|]). discriminate Hn. }
  pose proof (registration_lifecycle demo_fails Z.of_nat demo_service NewEtcd demo_etcd "app" [] [SIGHUP; SIGTERM]
    (with_runing true (NewServer (mkOpts (Some demo_service) demo_etcd) false)) demo_entry (fun _ => False)
    ltac:(discriminate) ltac:(vm_compute; reflexivity) eq_refl eq_refl) as H.
  destruct (handleSignals _ _ _ _) as [s' effs] eqn:E. vm_compute in E. injection E as <- <-.
  destruct (H Hd) as (_ & H1 & err & H2 & H3 & _). split; [exact H1|]. rewrite H3 in H2. exact H2.
Defined.
End LifecycleTheorems.
