(* ===== verification/Http.v ===== *)
(** * The HTTP server and its middleware ([src/components/http])

    The registrations of [server.go], the answers to unknown routes
    ([controller.go]) and the middleware. What the code asks of gin is a list
    of calls, in order; the program's call stack, the files of its source and
    the JSON decoder are parameters. *)

From S2P Require Import Prelude GoStrings ServiceRegister Grpc.
Local Open Scope Z_scope.

(** ** The server ([server.go]) *)

(** A value given to a [Register] method, by its dynamic type. *)
Inductive http_value := HandlerFunc (n : nat) | HttpCallback (n : nat) | NotKnown.

(** [handlers] are what the engine uses, [cb] the callbacks; [ping] says
    whether the ping route was added and [ready] whether there is a server. *)
Record HttpServer := mkHttpServer { handlers : list nat; cb : list nat; ping : bool; ready : bool }.

Definition NewHttpServer : HttpServer := mkHttpServer [] [] false false.

(** [RegisterUnaryInterceptors], and [RegisterStreamInterceptors], which is the
    same. *)
Definition RegisterInterceptors (fs : list http_value) (g : HttpServer) : HttpServer :=
  mkHttpServer (handlers g ++ omap (fun f => match f with HandlerFunc n => Some n | _ => None end) fs)%list
    (cb g) (ping g) (ready g).

Definition RegisterCb (cbs : list http_value) (g : HttpServer) : HttpServer :=
  mkHttpServer (handlers g)
    (cb g ++ omap (fun f => match f with HttpCallback n => Some n | _ => None end) cbs)%list (ping g) (ready g).

(** [NewServ]: the server, the callbacks that ran, and the error. *)
Definition NewServ (call : nat -> option string) (g : HttpServer) : HttpServer * list nat * option string :=
  let '(ran, e) := run_callbacks call (cb g) in
  match e with
  | Some e => (g, ran, Some e)
  | None => (mkHttpServer (handlers g) (cb g) true true, ran, None)
  end.

(** A route of the engine. *)
Record RouteInfo := mkRoute { Method : string; Path : string }.

Definition add_route (info : gmap string ServerInfo) (route : RouteInfo) : gmap string ServerInfo :=
  let info := match info !! Path route with
              | None => <[Path route := mkServerInfo [] None]> info
              | Some _ => info
              end in
  let methods := match info !! Path route with Some i => InfoMethods i | None => [] end in
  <[Path route := mkServerInfo (methods ++ [mkMethod (Method route) false false])%list None]> info.

Definition GetServicesInfo (routes : list RouteInfo) : gmap string ServerInfo := foldl add_route ∅ routes.

(** ** Unknown routes ([controller.go]) *)

(** What the code asks of gin. *)
Inductive gin_call :=
| HTML (code : Z) (name : string) (data : string)
| JSONAnswer (code : Z)
| AbortWithError (code : Z) (e : string)
| AbortWithStatus (code : Z)
| ContextError (e : string)
| SetKey (key value : string)
| SetParam (param : string)
| SetBody (body : string)
| Next
| LogError (msg : string)
| LogInfo (msg : string).

(** [strings.TrimLeft(s, "/")] and [strings.TrimSuffix(s, suffix)]. *)
Fixpoint trim_slashes (l : list Z) : list Z :=
  match l with
  | 47 :: l => trim_slashes l
  | _ => l
  end.
Definition TrimSuffix (s suffix : string) : string :=
  let k := (length (bytes s) - length (bytes suffix))%nat in
  if decide (drop k (bytes s) = bytes suffix) then of_bytes (take k (bytes s)) else s.

Definition page_name (uri : string) : string := TrimSuffix (of_bytes (trim_slashes (bytes uri))) ".shtml".

Definition NoMethod (RequestURI requested_with : string) : list gin_call :=
  let uri := page_name RequestURI in
  if Contains_sub RequestURI ".shtml" then [HTML 200 (uri +:+ ".html") "Q"]
  else if String.eqb "XMLHttpRequest" requested_with then [JSONAnswer 200]
  else [].

(** [urimap] is the package's variable. *)
Definition NoRoute (urimap : gmap string Z) (RequestURI requested_with : string) : list gin_call :=
  let isAjax := String.eqb "XMLHttpRequest" requested_with in
  let isPage := Contains_sub RequestURI ".shtml" in
  let uri := page_name RequestURI in
  if default 0 (urimap !! uri) <? 0 then NoMethod RequestURI requested_with
  else if isPage then [HTML 200 (uri +:+ ".html") "Q"]
  else if isAjax then [JSONAnswer 200]
  else [].

(** ** Middleware *)

(** [Error]: [errors] is how many errors the context has after the handlers. *)
Definition Error (errors : nat) : list gin_call :=
  Next :: (if (0 <? errors)%nat then [JSONAnswer 400] else []).

(** [JsonParam]: what [GetRawData] read of the body, and its error;
    [Unmarshal] is nil or the parameter. The error is recorded twice, as
    [AbortWithError] records it as well, and the function goes on. *)
Definition JsonParam (Unmarshal : string -> option string) (body : string) (err : option string)
    : list gin_call :=
  (match err with None => [] | Some e => [AbortWithError 403 e; ContextError e] end
   ++ [SetKey "raw-data" body; SetBody body]
   ++ (if String.eqb body "" then []
       else match Unmarshal body with Some param => [SetParam param] | None => [] end)
   ++ [Next])%list.

(** *** Printing the stack ([recovery.go]) *)

Definition dunno : string := "???".

(** [bytes.Split(data, "\n")] *)
Fixpoint Split (data : list Z) : list (list Z) :=
  match data with
  | [] => [[]]
  | b :: data =>
      match Split data with
      | [] => [[b]]   (* does not happen *)
      | line :: lines => if b =? 10 then [] :: line :: lines else (b :: line) :: lines
      end
  end.

(** The encodings of the white space of Unicode, one after the other:
    [bytes.TrimSpace] takes them off both ends. *)
Definition spaces : list (list Z) :=
  (map (fun b => [b]) [9; 10; 11; 12; 13; 32] ++ [[0xC2; 0x85]; [0xC2; 0xA0]; [0xE1; 0x9A; 0x80]]
   ++ map (fun b => [0xE2; 0x80; b]) [0x80; 0x81; 0x82; 0x83; 0x84; 0x85; 0x86; 0x87; 0x88; 0x89; 0x8A; 0xA8; 0xA9; 0xAF]
   ++ [[0xE2; 0x81; 0x9F]; [0xE3; 0x80; 0x80]])%list.

(** How many bytes of the beginning are one of [ss]; [skip] of them were
    counted already. *)
Definition space_length (ss : list (list Z)) (l : list Z) : nat :=
  default 0%nat (head (omap (fun s => if starts_with s l then Some (length s) else None) ss)).
Fixpoint trim (ss : list (list Z)) (skip : nat) (l : list Z) : list Z :=
  match l, skip with
  | [], _ => []
  | _ :: rest, S skip => trim ss skip rest
  | _ :: rest, O =>
      match space_length ss l with
      | O => l
      | S k => trim ss k rest
      end
  end.
Definition TrimSpace (l : list Z) : list Z :=
  rev (trim (map (@rev Z) spaces) 0 (rev (trim spaces 0 l))).

(** [source]; [n] counts from one. *)
Definition source (lines : list (list Z)) (n : Z) : string :=
  let n := i64 (n - 1) in
  if (n <? 0) || (Z.of_nat (length lines) <=? n) then dunno
  else match lines !! Z.to_nat n with Some line => of_bytes (TrimSpace line) | None => dunno end.

(** [bytes.Replace(name, "·", ".", -1)] *)
Fixpoint replace_dots (skip : bool) (l : list Z) : list Z :=
  match l with
  | [] => []
  | b :: l =>
      if skip then replace_dots false l
      else if starts_with [0xC2; 0xB7] (b :: l) then 46 :: replace_dots true l
      else b :: replace_dots false l
  end.

Definition function_name (name : string) : string :=
  let lastslash := LastIndex name "/" in
  let name := if 0 <=? lastslash then of_bytes (drop (Z.to_nat (lastslash + 1)) (bytes name)) else name in
  let period := Index name "." in
  let name := if 0 <=? period then of_bytes (drop (Z.to_nat (period + 1)) (bytes name)) else name in
  of_bytes (replace_dots false (bytes name)).

(** [%x] of a [uintptr] *)
Fixpoint hex_digits (fuel : nat) (n : Z) (acc : list Z) : list Z :=
  match fuel with
  | O => acc
  | S fuel =>
      let d := n mod 16 in
      let acc := (if d <? 10 then 48 + d else 87 + d) :: acc in
      if n <? 16 then acc else hex_digits fuel (n / 16) acc
  end.
Definition hex (n : Z) : string := of_bytes (hex_digits 16 n []).

Definition tab : string := of_bytes [9].
Definition newline : string := of_bytes [10].

(** What [runtime.Caller] gives: the program counter, the file and the line. *)
Record frame := mkFrame { f_pc : Z; f_file : string; f_line : Z }.

Section stack.
(** [runtime.FuncForPC(pc)], nil or the function's name; reading a file. *)
Context (FuncForPC : Z -> option string) (ReadFile : string -> list Z + string).

Definition function (pc : Z) : string :=
  match FuncForPC pc with None => dunno | Some name => function_name name end.

(** The two lines that are printed of a frame. *)
Definition frame_head (f : frame) : string :=
  f_file f +:+ ":" +:+ Itoa (f_line f) +:+ " (0x" +:+ hex (f_pc f) +:+ ")" +:+ newline.
Definition frame_source (lines : list (list Z)) (f : frame) : string :=
  tab +:+ function (f_pc f) +:+ ": " +:+ source lines (f_line f) +:+ newline.

(** The loop over the frames, with the file read last and its lines. *)
Fixpoint stack_loop (frames : list frame) (lines : list (list Z)) (lastFile : string) : string :=
  match frames with
  | [] => ""
  | f :: frames =>
      frame_head f +:+
      (if String.eqb (f_file f) lastFile then frame_source lines f +:+ stack_loop frames lines lastFile
       else match ReadFile (f_file f) with
            | inr _ => stack_loop frames lines lastFile
            | inl data => frame_source (Split data) f +:+ stack_loop frames (Split data) (f_file f)
            end)
  end.

(** [stack]: [frames] is the call stack, innermost first. *)
Definition stack (frames : list frame) (skip : nat) : string := stack_loop (drop skip frames) [] "".

(** [Recovery] around the handlers, which return or panic with a value that
    prints as [err]; [logger] says whether there is a logger, [dump] is the
    request. *)
Definition Recovery (logger : bool) (dump : string) (frames : list frame) (err : option string)
    : list gin_call :=
  Next :: match err with
          | None => []
          | Some err =>
              ((if logger
                then [LogError ("[Recovery] panic recovered:" +:+ newline +:+ dump +:+ newline +:+ err
                                +:+ newline +:+ stack frames 3 +:+ " ")]
                else []) ++ [AbortWithStatus 500])%list
          end.
End stack.

(** ** Properties *)

Module HttpTheorems.

(** The services a server announces are its routes: under each path the
    methods of its routes in their order, and nothing for a path without a
    route. *)
Theorem services_info routes path :
  GetServicesInfo routes !! path =
  match List.filter (fun r => String.eqb (Path r) path) routes with
  | [] => None
  | rs => Some (mkServerInfo (map (fun r => mkMethod (Method r) false false) rs) None)
  end.
Proof.
  unfold GetServicesInfo. induction routes as [|r routes IH] using rev_ind; [done|].
  rewrite foldl_app, List.filter_app. cbn [foldl List.filter]. unfold add_route at 1.
  destruct (String.eqb_spec (Path r) path) as [<-|Hne].
  - rewrite lookup_insert_eq. destruct (foldl add_route ∅ routes !! Path r) as [i|] eqn:Hi.
    + rewrite Hi. destruct (List.filter _ routes) as [|r0 rs]; simplify_eq/=. by rewrite map_app.
    + rewrite lookup_insert_eq. by destruct (List.filter _ routes).
  - rewrite lookup_insert_ne by done. rewrite app_nil_r.
    destruct (foldl add_route ∅ routes !! Path r); [|rewrite lookup_insert_ne by done]; exact IH.
Qed.

(** The text of a frame, its source read from the file it names. *)
Definition frame_text FuncForPC (ReadFile : string -> list Z + string) (f : frame) : string :=
  frame_head f +:+ match ReadFile (f_file f) with
                   | inl data => frame_source FuncForPC (Split data) f
                   | inr _ => ""
                   end.
Definition frame_texts FuncForPC ReadFile (frames : list frame) : string :=
  foldr (fun f text => frame_text FuncForPC ReadFile f +:+ text) ""%string frames.

(** The lines kept are those of the file read last. *)
Lemma stack_loop_texts FuncForPC ReadFile frames lines lastFile :
  Forall (fun f => f_file f <> ""%string) frames ->
  lastFile = ""%string \/ (exists data, ReadFile lastFile = inl data /\ lines = Split data) ->
  stack_loop FuncForPC ReadFile frames lines lastFile = frame_texts FuncForPC ReadFile frames.
Proof.
  intros Hf. revert lines lastFile. induction Hf as [|f fs Hne _ IH]; intros lines lastFile Hl; [done|].
  cbn [stack_loop frame_texts foldr]. unfold frame_text. rewrite string_app_assoc. f_equal.
  destruct (String.eqb_spec (f_file f) lastFile) as [He|_].
  - destruct Hl as [Hl|(data & Hd & ->)]; [congruence|]. rewrite He, Hd. f_equal. apply IH. right. by exists data.
  - destruct (ReadFile (f_file f)) as [data|e] eqn:Hd; [|by apply IH].
    f_equal. apply IH. right. by exists data.
Qed.

(** C39: the printed stack does not depend on which file was read last: it is,
    from the frame asked for, the head of each frame and its source, read from
    the frame's own file, or the head alone when that cannot be read. No frame has the empty
    file name, the value of [lastFile] before any file was read. *)
Theorem stack_is_uncached FuncForPC ReadFile frames skip :
  Forall (fun f => f_file f <> ""%string) frames ->
  stack FuncForPC ReadFile frames skip = frame_texts FuncForPC ReadFile (drop skip frames).
Proof. intros Hf. apply stack_loop_texts; [by apply Forall_drop|by left]. Qed.

(** As nothing is ever stored in [urimap], an unknown route is answered as an
    unknown method. *)
Theorem no_route_is_no_method RequestURI requested_with :
  NoRoute ∅ RequestURI requested_with = NoMethod RequestURI requested_with.
Proof. done. Qed.

Lemma stack_is_uncached_witness :
  stack (fun _ => Some "a/b.(*T)·m"%string) (fun _ => inl [9; 97; 10; 98; 32]) [mkFrame 255 "x.go" 1; mkFrame 16 "x.go" 2] 0 =
  ("x.go:1 (0xff)" +:+ newline +:+ tab +:+ "(*T).m: a" +:+ newline +:+
   "x.go:2 (0x10)" +:+ newline +:+ tab +:+ "(*T).m: b" +:+ newline)%string.
Proof.
  rewrite (stack_is_uncached (fun _ => Some "a/b.(*T)·m"%string) (fun _ => inl [9; 97; 10; 98; 32])
    [mkFrame 255 "x.go" 1; mkFrame 16 "x.go" 2] 0); [vm_compute; reflexivity|].
  repeat constructor; discriminate.
Defined.
End HttpTheorems.
