(* ===== verification/HttpAnswers.v ===== *)
(** * Answers and the life of the HTTP server ([src/components/http])

    The bodies that [result.go] and [ping.go] answer with, the line that the
    logging middleware writes for a request ([middleware/logger.go]), with the
    text of a [time.Duration] written out, and starting and stopping the server
    ([server/server.go]). *)

From S2P Require Import Prelude GoStrings Http.
Local Open Scope Z_scope.

(** ** Answers ([result.go], [ping.go]) *)

(** A value in a body: a number, a text, or some data of the program, which may
    be nil. *)
Inductive json := JInt (n : Z) | JText (s : string) | JData (data : option string).

(** [ctx.JSON]: the status of HTTP and the body, a [gin.H]. *)
Definition json_answer : Type := Z * gmap string json.

Definition Result (code : Z) (data msg : json) : json_answer :=
  (200, {["code" := JInt code; "data" := data; "msg" := msg]}%string).
Definition ResultOk (data : json) : json_answer :=
  (200, {["code" := JInt 200; "data" := data; "msg" := JText ""]}%string).
Definition ResultList (data : json) (total : Z) : json_answer :=
  (200, {["code" := JInt 200; "rows" := data; "msg" := JText ""; "total" := JInt total]}%string).
Definition ResultOkMsg (data msg : json) : json_answer :=
  (200, {["code" := JInt 200; "data" := data; "msg" := msg]}%string).
Definition ResultFail (err : json) : json_answer :=
  (200, {["code" := JInt 400; "data" := JData None; "msg" := err]}%string).
Definition ResultFailData (data err : json) : json_answer :=
  (200, {["code" := JInt 400; "data" := data; "msg" := err]}%string).

(** [pong]: the parameter [ping] of the query, empty when there is none. *)
Definition pong (query : option string) : json_answer :=
  (200, {["data" := JText (default "" query); "msg" := JText "pong"; "result" := JInt 1]}%string).

(** ** The request's line ([middleware/logger.go]) *)

(** The decimals of [v / 10^prec] without trailing zeros, and the whole part. *)
Fixpoint fmtFrac (prec : nat) (v : Z) (print : bool) (acc : list Z) : list Z * Z :=
  match prec with
  | O => (if print then 46 :: acc else acc, v)
  | S prec =>
      let digit := v mod 10 in
      let print := print || negb (digit =? 0) in
      fmtFrac prec (v / 10) print (if print then 48 + digit :: acc else acc)
  end.

(** [time.Duration.String] *)
Definition Duration_String (d : Z) : string :=
  let u := Z.abs d in
  let sign := if d <? 0 then "-"%string else "" in
  if u =? 0 then "0s"
  else if u <? 10 ^ 9 then
    let '(prec, unit) := if u <? 10 ^ 3 then (0%nat, "ns"%string)
                         else if u <? 10 ^ 6 then (3%nat, "µs"%string) else (6%nat, "ms"%string) in
    let '(frac, v) := fmtFrac prec u false [] in
    sign +:+ Itoa v +:+ of_bytes frac +:+ unit
  else
    let '(frac, secs) := fmtFrac 9 u false [] in
    let mins := secs / 60 in
    let hours := mins / 60 in
    sign +:+ (if 0 <? hours then Itoa hours +:+ "h" else "")
         +:+ (if 0 <? mins then Itoa (mins mod 60) +:+ "m" else "")
         +:+ Itoa (secs mod 60) +:+ of_bytes frac +:+ "s".

Example durations :
  map Duration_String [0; 1500; 2000000; -1500000000; 3600000000000; 2 ^ 63 - 1] =
  ["0s"; "1.5µs"; "2ms"; "-1.5s"; "1h0m0s"; "2562047h47m16.854775807s"]%string.
Proof. reflexivity. Qed.

(** ["%3d"] *)
Definition pad3 (n : Z) : string :=
  of_bytes (replicate (3 - length (bytes (Itoa n))) 32) +:+ Itoa n.

(** [Logger]: the handlers run first, then the line is written; [status],
    [latency] and [errors] are what they left. *)
Definition Logger (status latency : Z) (clientIP method path params errors : string) : list gin_call :=
  [Next;
   LogInfo ("Common:" +:+ pad3 status +:+ " | " +:+ Duration_String latency +:+ " | " +:+ clientIP +:+ " |  "
     +:+ method +:+ "  " +:+ path +:+ " Headers:" +:+ params +:+ " Errors:" +:+ errors +:+ "`")].

(** ** The life of the server ([server.go]) *)

(** [StartServ]: the error that [Serve] ends with; before [NewServ] there is no
    [http.Server], and using the nil one panics. *)
Definition StartServ (Serve : option string) (g : HttpServer) : outcome (option string) :=
  if ready g then Ret Serve else Panic NilDereference.

(** [shutdown], within 15 seconds: the lines logged, and how it ends. *)
Definition shutdown (Shutdown : option string) (g : HttpServer) : list string * outcome unit :=
  if ready g then
    match Shutdown with
    | Some err => (["Shutdown Server ..."; "server"]%string, Panic (PanicMessage "server"))
    | None => (["Shutdown Server ..."; "Server exiting"]%string, Ret tt)
    end
  else (["Shutdown Server ..."]%string, Panic NilDereference).

Definition Stop : option string -> HttpServer -> list string * outcome unit := shutdown.
Definition GracefulStop : option string -> HttpServer -> list string * outcome unit := shutdown.

(** ** Properties *)

Module HttpAnswersTheorems.

(** A server that was not made by [NewServ], or whose callbacks failed in it, can
    neither serve nor be stopped; one that was made can. *)
Theorem server_life call g serve stop :
  ready g = false ->
  let '(g', _, err) := NewServ call g in
  match err with
  | Some _ => StartServ serve g' = Panic NilDereference /\ snd (Stop stop g') = Panic NilDereference
  | None => StartServ serve g' = Ret serve /\
            snd (GracefulStop stop g') = match stop with None => Ret tt | Some _ => Panic (PanicMessage "server") end
  end.
Proof.
  intros Hg. unfold NewServ. destruct (Grpc.run_callbacks call (cb g)) as [ran [e|]];
    unfold StartServ, Stop, GracefulStop, shutdown; cbn; [by rewrite Hg|by destruct stop].
Qed.

Lemma server_life_witness : StartServ None (fst (fst (NewServ (fun _ => None) NewHttpServer))) = Ret None.
Proof. exact (proj1 (server_life (fun _ => None) NewHttpServer None None eq_refl)). Defined.
End HttpAnswersTheorems.
