(* ===== verification/Serving.v ===== *)
(** * A server's process: serving, signals and the registration together

    [ListenAndServe] of Grace ([src/components/grace/server.go]) is three
    goroutines that share [runing]: the one that serves, the one that handles
    signals, and the timer of a stop that was put off. Here they are a step
    relation over the server of Grace, its registration and its listener: the
    statements of [handleSignals] and [shutdown] that read or change them are
    steps of their own, and the hooks of a signal are one. The listener is the
    interface [graceListener] of [grace.go], which the gRPC server (GrpcServing)
    and the HTTP server (HttpAnswers) implement. *)

From S2P Require Import Prelude Grpc ServiceRegister GrpcServing Grace Lifecycle Http HttpAnswers.

(** ** The interface ([grace.go]) *)

(** [lis_serving]: [StartServ] has not returned. [lis_broken] is a listener
    that fails by itself, with which [StartServ] returns its error. After a
    [GracefulStop] that returns, [StartServ] returns. *)
Class graceListener (L : Type) := {
  lis_serving : L -> bool;
  lis_broken : L -> L;
  lis_GracefulStop : L -> L * option panic;
  lis_broken_serving : forall l, lis_serving (lis_broken l) = false;
  lis_stop_serving : forall l, snd (lis_GracefulStop l) = None -> lis_serving (fst (lis_GracefulStop l)) = false
}.

(** The panic that a call ends with; what it leaves behind. *)
Definition panic_of {A} (o : outcome A) : option panic := match o with Panic p => Some p | _ => None end.
Definition result_of {A} (a : A) (o : outcome A) : A := match o with Ret a => a | _ => a end.

#[global, program] Instance grpc_listener {S} `{GrpcLib S} : graceListener (Serving S) := {
  lis_serving g := match engine g with Some s => lib_serving s | None => false end;
  lis_broken g := mkServing (set_up g) (lib_broken <$> engine g);
  lis_GracefulStop g :=
    let o := GrpcServing.GracefulStop g in (result_of g o, panic_of o)
}.
Next Obligation. intros S ? [g [s|]]; cbn; [apply lib_broken_serving|done]. Qed.
Next Obligation. intros S ? [g [s|]]; cbn; [intros _; apply lib_Stop_serving|done]. Qed.

(** The HTTP server with whether its listener is open; [Shutdown] is how
    [http.Server.Shutdown] ends, which closes the listener at once. *)
#[global, program] Instance http_listener (Shutdown : option string) : graceListener (HttpServer * bool) := {
  lis_serving l := ready (fst l) && snd l;
  lis_broken l := (fst l, false);
  lis_GracefulStop l :=
    ((fst l, snd l && negb (ready (fst l))), panic_of (snd (HttpAnswers.GracefulStop Shutdown (fst l))))
}.
Next Obligation. intros _ [g b]. apply andb_false_r. Qed.
Next Obligation. intros sh [g b]. cbn. unfold HttpAnswers.GracefulStop, HttpAnswers.shutdown. destruct (ready g), b; done. Qed.

(** ** The process *)

Section process.
Context {R : Type} `{RegisterFunc R} {L : Type} `{graceListener L} (program : string) (args : list string).

(** The goroutine of [handleSignals] at the statement it runs next: the look at
    [runing], waiting for a signal, the hooks before it, the switch; in
    [shutdown] after its test of [runing], the assignment to it, [DeRegister] and
    the stop; the hooks after the signal; or returned. *)
Inductive handler :=
| AtLook
| AtSignal
| AtPre (sig : Signal)
| AtSwitch (sig : Signal)
| AtClear (sig : Signal)
| AtDeregister (sig : Signal)
| AtStop (sig : Signal)
| AtSuf (sig : Signal)
| HandlerDone.

(** [timers] counts the stops that were put off and are still to run;
    [returned] says that [ListenAndServe] has; [crashed] is the panic that ended
    the process; [effects] is what was done to the outside. *)
Record Process := mkProcess {
  grace_server : Server R;
  listener : L;
  handling : handler;
  timers : nat;
  returned : bool;
  crashed : option panic;
  effects : list effect
}.

Definition with_server (s : Server R) (p : Process) : Process :=
  mkProcess s (listener p) (handling p) (timers p) (returned p) (crashed p) (effects p).
Definition with_handling (h : handler) (p : Process) : Process :=
  mkProcess (grace_server p) (listener p) h (timers p) (returned p) (crashed p) (effects p).

(** [Close]: a panic of the listener is caught and raised again. *)
Definition Close (p : Process) : Process :=
  let '(l, panicked) := lis_GracefulStop (listener p) in
  mkProcess (grace_server p) l (handling p) (timers p) (returned p) panicked
    (effects p ++ [Grace.GracefulStop])%list.

(** An effect of the handler on the process; a crash ends it all. *)
Definition act (p : Process) (e : effect) : Process :=
  match crashed p, e with
  | Some _, _ => p
  | None, Grace.GracefulStop => Close p
  | None, _ => mkProcess (grace_server p) (listener p) (handling p)
           (match e with StopAfter _ => S (timers p) | _ => timers p end) (returned p) None
           (effects p ++ [e])%list
  end.

Inductive happening :=
| Looks                    (* the handler looks at runing *)
| Receives (sig : Signal)  (* and gets a signal *)
| Tests                    (* shutdown tests runing *)
| Handles                  (* any other statement of the handler *)
| TimerFires               (* a stop that was put off *)
| ListenerBreaks           (* the listener fails *)
| ServeReturns.            (* StartServ has returned, and Serve returns *)

(** A statement of the handler that is neither its look nor its test. *)
Definition handle_step (p : Process) : option Process :=
  let s := grace_server p in
  match handling p with
  | AtPre sig => Some (with_handling (AtSwitch sig) (foldl act p (signalHooks s PreSignal sig)))
  | AtSwitch SIGHUP =>
      let '(s, effs) := fork program args s in
      Some (with_handling (AtSuf SIGHUP) (foldl act (with_server s p) effs))
  | AtSwitch (OtherSignal n) => Some (with_handling (AtSuf (OtherSignal n)) p)
  | AtClear sig => Some (with_handling (AtDeregister sig) (with_server (with_runing false s) p))
  | AtDeregister sig =>
      match RegisterData (Rr s) with
      | None => Some (with_handling (AtStop sig) p)
      | Some svc =>
          let '(r, e) := DeRegister svc (RegisterImpl (Rr s)) in
          Some (with_handling (AtStop sig) (act (with_server (with_Rr (mkOpts (Some svc) r) s) p) (Deregister e)))
      end
  | AtStop sig =>
      Some (with_handling (AtSuf sig)
              (act p (if (0 <? DefaultTimeout s)%Z then StopAfter (DefaultTimeout s) else Grace.GracefulStop)))
  | AtSuf sig => Some (with_handling AtLook (foldl act p (signalHooks s SufSignal sig)))
  | _ => None
  end.

(** The arms of the switch that shut down, up to the test. *)
Definition test_step (p : Process) : option Process :=
  let test sig s := Some (with_handling (if runing s then AtClear sig else AtSuf sig) (with_server s p)) in
  match handling p with
  | AtSwitch SIGTERM => test SIGTERM (grace_server p)
  | AtSwitch SIGINT => test SIGINT (with_timeout 0 (grace_server p))
  | AtSwitch SIGKILL => test SIGKILL (with_timeout 0 (grace_server p))
  | _ => None
  end.

Definition next (e : happening) (p : Process) : option Process :=
  match crashed p with Some _ => None | None =>
  match e with
  | Looks =>
      match handling p with
      | AtLook => Some (with_handling (if runing (grace_server p) then AtSignal else HandlerDone) p)
      | _ => None
      end
  | Receives sig => match handling p with AtSignal => Some (with_handling (AtPre sig) p) | _ => None end
  | Tests => test_step p
  | Handles => handle_step p
  | TimerFires =>
      match timers p with
      | S n => Some (Close (mkProcess (grace_server p) (listener p) (handling p) n (returned p) None (effects p)))
      | O => None
      end
  | ListenerBreaks =>
      if lis_serving (listener p)
      then Some (mkProcess (grace_server p) (lis_broken (listener p)) (handling p) (timers p) (returned p) None (effects p))
      else None
  | ServeReturns =>
      if returned p || lis_serving (listener p) then None
      else Some (mkProcess (with_runing false (grace_server p)) (listener p) (handling p) (timers p) true None (effects p))
  end end.

Fixpoint run (es : list happening) (p : Process) : option Process :=
  match es with
  | [] => Some p
  | e :: es => next e p ≫= run es
  end.

(** [ListenAndServe] until it serves: [parent] is the error of asking the parent
    to go, with which it returns, [runing] still set. *)
Definition start (parent : option string) (s : Server R) (l : L) : Process :=
  let s := with_runing true s in
  if isChild s then
    match parent with
    | Some _ => mkProcess s l AtLook 0 true None []
    | None => mkProcess s l AtLook 0 false None [SignalParent]
    end
  else mkProcess s l AtLook 0 false None [].
End process.
Arguments Process : clear implicits.

(** ** Facts *)

Module ServingFacts.
Import GraceFacts LifecycleFacts.

Section facts.
Context {R : Type} `{RegisterFunc R} {L : Type} `{graceListener L} (program : string) (args : list string).
Implicit Types (p : Process R L) (s : Server R).

(** The events that end the server: a test by [shutdown], or the return of
    [Serve]. *)
Definition is_test (e : happening) : bool := match e with Tests => true | _ => false end.
Definition is_return (e : happening) : bool := match e with ServeReturns => true | _ => false end.
Definition decides (e : happening) : bool := is_test e || is_return e.

Lemma is_test_true e : is_test e = true -> e = Tests.
Proof. by destruct e. Qed.

Lemma Close_server p : grace_server (Close p) = grace_server p /\ handling (Close p) = handling p /\
  returned (Close p) = returned p /\ effects (Close p) = (effects p ++ [Grace.GracefulStop])%list.
Proof. unfold Close. by destruct (lis_GracefulStop _). Qed.

Lemma act_server p l :
  grace_server (foldl act p l) = grace_server p /\ handling (foldl act p l) = handling p /\
  returned (foldl act p l) = returned p.
Proof.
  revert p. induction l as [|e l IH]; intros p; [done|]. cbn [foldl]. destruct (IH (act p e)) as (-> & -> & ->).
  unfold act. destruct (crashed p); [done|]. destruct e; try done. by destruct (Close_server p) as (-> & -> & -> & _).
Qed.

Lemma act_deregisters p l :
  deregisters l = [] -> deregisters (effects (foldl act p l)) = deregisters (effects p).
Proof.
  revert p. induction l as [|e l IH]; intros p Hl; [done|]. cbn [foldl].
  assert (deregisters l = [] /\ deregisters [e] = []) as [Hl' He] by by destruct e.
  rewrite IH by done. unfold act. destruct (crashed p); [done|].
  destruct e; try done; try (cbn; rewrite deregisters_app; cbn; by rewrite app_nil_r).
  destruct (Close_server p) as (_ & _ & _ & ->). rewrite deregisters_app. cbn. by rewrite app_nil_r.
Qed.

(** The server's registration, and what was taken back; is the handler between
    the test of [runing] and [DeRegister]? *)
Definition registration p : option Service * R * list (option string) :=
  (RegisterData (Rr (grace_server p)), RegisterImpl (Rr (grace_server p)), deregisters (effects p)).
Definition pending p : bool := match handling p with AtClear _ | AtDeregister _ => true | _ => false end.

Lemma with_handling_registration h p : registration (with_handling h p) = registration p.
Proof. done. Qed.

Lemma acts_registration p l : deregisters l = [] -> registration (foldl act p l) = registration p.
Proof.
  intros Hl. unfold registration. rewrite act_deregisters by done. by destruct (act_server p l) as (-> & _).
Qed.

Lemma act_stop p e :
  is_stop e = true ->
  registration (act p e) = registration p /\ grace_server (act p e) = grace_server p /\ returned (act p e) = returned p.
Proof.
  intros He. split; [apply (acts_registration p [e]); by destruct e|]. by destruct (act_server p [e]) as (? & _ & ?).
Qed.

Lemma Close_registration p : registration (Close p) = registration p.
Proof.
  unfold registration. destruct (Close_server p) as (-> & _ & _ & ->). rewrite deregisters_app. cbn. by rewrite app_nil_r.
Qed.

(** The statements of the handler that are not between test and [DeRegister]. *)
Lemma handle_step_quiet p p' :
  pending p = false -> handle_step program args p = Some p' ->
  registration p' = registration p /\ runing (grace_server p') = runing (grace_server p) /\ pending p' = false.
Proof.
  unfold pending, handle_step. destruct (handling p) as [| |sig|sig|sig|sig|sig|sig|] eqn:Hh; try done; intros _.
  - intros [= <-]. rewrite with_handling_registration, acts_registration by apply deregisters_hooks.
    cbn. by destruct (act_server p (signalHooks (grace_server p) PreSignal sig)) as (-> & _).
  - destruct sig; try done; [|by intros [= <-]]. unfold fork.
    destruct (runningServersForked (grace_server p)); intros [= <-]; rewrite with_handling_registration; [done|].
    unfold registration, act. cbn. destruct (crashed p); cbn; [done|]. by rewrite deregisters_app, app_nil_r.
  - intros [= <-]. rewrite with_handling_registration.
    set (e := if (0 <? DefaultTimeout (grace_server p))%Z then _ else _).
    destruct (act_stop p e) as (-> & Hs & _); [unfold e; by destruct (0 <? _)%Z|]. cbn. by rewrite Hs.
  - intros [= <-]. rewrite with_handling_registration, acts_registration by apply deregisters_hooks.
    cbn. by destruct (act_server p (signalHooks (grace_server p) SufSignal sig)) as (-> & _).
Qed.

(** Any event while nothing is pending: the registration stays. Only a test of a
    running server makes something pending; only [Serve] clears [runing]. *)
Lemma next_quiet e p p' :
  pending p = false -> next program args e p = Some p' ->
  registration p' = registration p /\
  runing (grace_server p') = runing (grace_server p) && negb (is_return e) /\
  pending p' = is_test e && runing (grace_server p).
Proof.
  intros Hp. unfold next. destruct (crashed p) eqn:Hc; [done|]. destruct e as [|sig| | | | |]; cbn [is_return is_test].
  - destruct (handling p); try done. intros [= <-]. rewrite andb_true_r. by destruct (runing (grace_server p)) eqn:?.
  - destruct (handling p); try done. intros [= <-]. by rewrite andb_true_r.
  - unfold test_step. destruct (handling p) as [| | |[]| | | | |]; try done; intros [= <-]; rewrite andb_true_r;
      cbn; by destruct (runing (grace_server p)) eqn:?.
  - intros Hh. destruct (handle_step_quiet p p' Hp Hh) as (-> & -> & ->). by rewrite andb_true_r.
  - destruct (timers p); [done|]. intros [= <-]. rewrite Close_registration, andb_true_r. unfold pending.
    by destruct (Close_server (mkProcess (grace_server p) (listener p) (handling p) n (returned p) None (effects p)))
      as (-> & -> & _).
  - destruct (lis_serving _); [|done]. intros [= <-]. by rewrite andb_true_r.
  - destruct (returned p || _); [done|]. intros [= <-]. by rewrite andb_false_r.
Qed.

(** While a shutdown is pending [runing] may only be cleared, and then the
    registration is taken back. *)
Definition cleared p : Prop := match handling p with AtDeregister _ => runing (grace_server p) = false | _ => True end.

Lemma next_pending e p p' svc r ds :
  registration p = (Some svc, r, ds) -> pending p = true -> cleared p -> next program args e p = Some p' ->
  (registration p' = registration p /\ pending p' = true /\ cleared p') \/
  (registration p' = (Some svc, fst (DeRegister svc r), (ds ++ [snd (DeRegister svc r)])%list) /\
   pending p' = false /\ runing (grace_server p') = false).
Proof.
  unfold pending, cleared, next. intros Hreg Hp Hc. destruct (crashed p) eqn:Hcr; [done|].
  destruct e as [|sig| | | | |].
  - by destruct (handling p).
  - by destruct (handling p).
  - unfold test_step. by destruct (handling p).
  - unfold handle_step. destruct (handling p) as [| |sig|sig|sig|sig|sig|sig|] eqn:Hh; try done.
    + intros [= <-]. by left.
    + injection Hreg as Hd Hi He. rewrite Hd. destruct (DeRegister svc (RegisterImpl (Rr (grace_server p)))) as [r' d] eqn:Hdr.
      intros [= <-]. right. unfold registration, act. cbn [with_server crashed]. rewrite Hcr. subst r. rewrite Hdr.
      cbn. rewrite deregisters_app, He. split_and!; done.
  - destruct (timers p) as [|n]; [done|]. intros [= <-]. left. rewrite Close_registration.
    by destruct (Close_server (mkProcess (grace_server p) (listener p) (handling p) n (returned p) None (effects p)))
      as (-> & -> & _).
  - destruct (lis_serving _); [|done]. intros [= <-]. by left.
  - destruct (returned p || _); [done|]. intros [= <-]. left. cbn. split_and!; [done..|]. by destruct (handling p).
Qed.

(** The registration after a run: not touched, or taken back once. *)
Definition kept r p : Prop := registration p = r.
Definition taken_back svc r p : Prop :=
  registration p = (Some svc, fst (DeRegister svc r), [snd (DeRegister svc r)]).

Lemma run_quiet es p p' :
  pending p = false -> runing (grace_server p) = false -> run program args es p = Some p' ->
  registration p' = registration p /\ pending p' = false.
Proof.
  revert p. induction es as [|e es IH]; intros p Hp Hr; cbn [run]; [by intros [= <-]|].
  intros (p1 & Hn & Hrun)%bind_Some. destruct (next_quiet e p p1 Hp Hn) as (<- & Hr1 & Hp1).
  rewrite Hr in *. rewrite andb_false_r in Hp1. by apply IH.
Qed.

Lemma run_pending es p p' svc r :
  registration p = (Some svc, r, []) -> pending p = true -> cleared p -> run program args es p = Some p' ->
  (kept (Some svc, r, []) p' /\ pending p' = true) \/ (taken_back svc r p' /\ pending p' = false).
Proof.
  revert p. induction es as [|e es IH]; intros p Hreg Hp Hc; cbn [run]; [intros [= <-]; by left|].
  intros (p1 & Hn & Hrun)%bind_Some. destruct (next_pending e p p1 svc r [] Hreg Hp Hc Hn) as [(H1 & H2 & H3)|(H1 & H2 & H3)].
  - apply (IH p1); [by rewrite H1|done..].
  - right. destruct (run_quiet es p1 p' H2 H3 Hrun) as [H4 H5]. split; [|done]. unfold taken_back. by rewrite H4.
Qed.

Lemma run_registration es p p' svc r :
  registration p = (Some svc, r, []) -> pending p = false -> runing (grace_server p) = true ->
  run program args es p = Some p' ->
  match find decides es with
  | Some Tests => (kept (Some svc, r, []) p' /\ pending p' = true) \/ (taken_back svc r p' /\ pending p' = false)
  | _ => kept (Some svc, r, []) p' /\ pending p' = false
  end.
Proof.
  revert p. induction es as [|e es IH]; intros p Hreg Hp Hr; cbn [run find]; [by intros [= <-]|].
  intros (p1 & Hn & Hrun)%bind_Some. destruct (next_quiet e p p1 Hp Hn) as (Hreg1 & Hr1 & Hp1). rewrite Hreg in Hreg1.
  rewrite Hr in *. cbn [andb] in *. rewrite andb_true_r in Hp1.
  assert (is_test e = true -> cleared p1) as Hclear.
  { intros ->%is_test_true. revert Hn. unfold next, test_step, cleared. destruct (crashed p); [done|].
    destruct (handling p) as [| | |[]| | | | |]; try done; intros [= <-]; cbn; by destruct (runing (grace_server p)). }
  unfold decides at 1. destruct e as [|sig| | | | |]; cbn [is_test is_return orb negb] in *; try exact (IH p1 Hreg1 Hp1 Hr1 Hrun).
  - by eapply run_pending; [..|exact Hrun]; [| |apply Hclear].
  - destruct (run_quiet es p1 p' Hp1 Hr1 Hrun) as [H4 H5]. split; [|done]. unfold kept. by rewrite H4.
Qed.

(** The handler's own next statements take a pending registration back. *)
Lemma pending_taken_back p svc r :
  registration p = (Some svc, r, []) -> pending p = true -> crashed p = None ->
  exists es' p', es' ⊆ [Handles] /\ run program args es' p = Some p' /\ taken_back svc r p'.
Proof.
  intros Hreg Hp Hc.
  assert (forall q sig, registration q = (Some svc, r, []) -> handling q = AtDeregister sig -> crashed q = None ->
    exists q', next program args Handles q = Some q' /\ taken_back svc r q') as Hlast.
  { intros q sig [= Hd <- He] Hh Hcq. unfold next, handle_step, taken_back. rewrite Hcq, Hh, Hd.
    destruct (DeRegister svc (RegisterImpl (Rr (grace_server q)))) as [r' e]. eexists. split; [reflexivity|].
    unfold registration, act. cbn. rewrite Hcq. cbn. by rewrite deregisters_app, He. }
  unfold pending in Hp. destruct (handling p) as [| |sig|sig|sig|sig|sig|sig|] eqn:Hh; try done.
  - set (q := with_handling (AtDeregister sig) (with_server (with_runing false (grace_server p)) p)).
    assert (next program args Handles p = Some q) as Hq by (unfold next, handle_step; by rewrite Hc, Hh).
    destruct (Hlast q sig) as (q' & Hn & Hq'); [done..|]. exists [Handles; Handles], q'.
    split; [intros x [->|Hx]%elem_of_cons; [by left|done]|]. split; [|done].
    cbn [run]. rewrite Hq. cbn [mbind option_bind]. by rewrite Hn.
  - destruct (Hlast p sig Hreg Hh Hc) as (q' & Hn & Hq'). exists [Handles], q'.
    split; [done|]. cbn [run]. by rewrite Hn.
Qed.

Lemma start_quiet parent s (l : L) :
  registration (start parent s l) = (RegisterData (Rr s), RegisterImpl (Rr s), []) /\
  pending (start parent s l) = false /\ runing (grace_server (start parent s l)) = true.
Proof. unfold start. cbn. by destruct (isChild s), parent. Qed.

(** The end is under way: the handler is about to stop, a stop is put off, the
    listener has stopped, or the process is gone. *)
Definition ending p : Prop :=
  match handling p with AtDeregister _ | AtStop _ => True | _ => False end \/
  timers p <> 0%nat \/ lis_serving (listener p) = false \/ is_Some (crashed p).

(** The part of it that the handler does not change. *)
Definition stopping p : Prop := timers p <> 0%nat \/ lis_serving (listener p) = false \/ is_Some (crashed p).

Lemma Close_stopping p : stopping (Close p).
Proof.
  unfold Close, stopping. pose proof (lis_stop_serving (listener p)) as Hs.
  destruct (lis_GracefulStop (listener p)) as [l [e|]]; cbn in *; [by right; right|right; left; by apply Hs].
Qed.

Lemma act_stopping e p : stopping p \/ is_stop e = true -> stopping (act p e).
Proof.
  unfold act. destruct (crashed p) eqn:Hc; [intros _; right; right; by rewrite Hc|].
  destruct e; try (intros _; apply Close_stopping); try (intros _; by left);
    (intros [[|[|[? Hx]]]|]; [by left|by right; left|congruence|done]).
Qed.

Lemma acts_stopping l p : stopping p -> stopping (foldl act p l).
Proof. revert p. induction l as [|e l IH]; intros p Hp; [done|]. apply IH, act_stopping. by left. Qed.

Lemma handle_step_ending p p' :
  handle_step program args p = Some p' ->
  runing (grace_server p) = true \/ returned p = true \/ ending p ->
  runing (grace_server p') = true \/ returned p' = true \/ ending p'.
Proof.
  unfold handle_step, ending. destruct (handling p) as [| |sig|sig|sig|sig|sig|sig|] eqn:Hh; try done.
  - intros [= <-]. cbn. destruct (act_server p (signalHooks (grace_server p) PreSignal sig)) as (-> & _ & ->).
    intros [|[|[[]|?]]]; [by left|by right; left|right; right; right]. by apply acts_stopping.
  - destruct sig; try done.
    + destruct (fork program args (grace_server p)) as [s effs] eqn:Hf. intros [= <-]. cbn.
      destruct (act_server (with_server s p) effs) as (-> & _ & ->). cbn.
      assert (runing s = runing (grace_server p)) as -> by (unfold fork in Hf; by destruct (runningServersForked _); simplify_eq).
      intros [|[|[[]|?]]]; [by left|by right; left|right; right; right]. by apply acts_stopping.
    + intros [= <-]. tauto.
  - intros [= <-] _. right; right. by left.
  - intros Hn _. right; right. left. destruct (RegisterData _); [destruct (DeRegister _ _)|]; by simplify_eq.
  - intros [= <-] _. right; right. right. cbn. apply (act_stopping _ p). right. by destruct (0 <? _)%Z.
  - intros [= <-]. cbn. destruct (act_server p (signalHooks (grace_server p) SufSignal sig)) as (-> & _ & ->).
    intros [|[|[[]|?]]]; [by left|by right; left|right; right; right]. by apply acts_stopping.
Qed.

Lemma next_ending e p p' :
  next program args e p = Some p' ->
  runing (grace_server p) = true \/ returned p = true \/ ending p ->
  runing (grace_server p') = true \/ returned p' = true \/ ending p'.
Proof.
  unfold next. destruct (crashed p) eqn:Hc; [done|]. unfold ending. destruct e as [|sig| | | | |].
  - destruct (handling p) eqn:Hh; try done. intros [= <-]. cbn. rewrite Hc. tauto.
  - destruct (handling p) eqn:Hh; try done. intros [= <-]. cbn. rewrite Hc. tauto.
  - unfold test_step. destruct (handling p) as [| | |[]| | | | |] eqn:Hh; try done; intros [= <-]; cbn; rewrite Hc; tauto.
  - apply handle_step_ending.
  - destruct (timers p); [done|]. intros [= <-] _. right; right. right. apply Close_stopping.
  - destruct (lis_serving _); [|done]. intros [= <-] _. right; right. right. right; left. apply lis_broken_serving.
  - destruct (returned p || _); [done|]. intros [= <-] _. by right; left.
Qed.

Lemma run_ending es p p' :
  run program args es p = Some p' ->
  runing (grace_server p) = true \/ returned p = true \/ ending p ->
  runing (grace_server p') = true \/ returned p' = true \/ ending p'.
Proof.
  revert p. induction es as [|e es IH]; intros p; cbn [run]; [by intros [= <-]|].
  intros (p1 & Hn & Hrun)%bind_Some Hp. exact (IH p1 Hrun (next_ending e p p1 Hn Hp)).
Qed.

(** The process returns, or panics, with what happens next among [es]. *)
Definition can_end p : Prop :=
  exists es' p', es' ⊆ [Handles; TimerFires; ServeReturns] /\ run program args es' p = Some p' /\
    (returned p' = true \/ is_Some (crashed p')).

Lemma can_end_next e p p' :
  e ∈ [Handles; TimerFires; ServeReturns] -> next program args e p = Some p' -> can_end p' -> can_end p.
Proof.
  intros He Hn (es & p2 & Hes & Hrun & Hend). exists (e :: es), p2. split; [|by cbn [run]; rewrite Hn].
  intros x [->|Hx]%elem_of_cons; [done|by apply Hes].
Qed.

Lemma can_end_crashed p : is_Some (crashed p) -> can_end p.
Proof. intros Hc. exists [], p. split; [apply list_subseteq_nil|]. split; [done|by right]. Qed.

Lemma stopped_ends p : lis_serving (listener p) = false -> returned p = false -> can_end p.
Proof.
  intros Hs Hr. destruct (crashed p) eqn:Hc; [apply can_end_crashed; by rewrite Hc|].
  eapply (can_end_next ServeReturns); [by right; right; left|unfold next; rewrite Hc, Hs, Hr; reflexivity|].
  eexists [], _. split; [apply list_subseteq_nil|]. split; [reflexivity|by left].
Qed.

Lemma stopping_ends p : stopping p -> returned p = false -> can_end p.
Proof.
  intros He Hr. destruct (crashed p) eqn:Hc; [apply can_end_crashed; by rewrite Hc|].
  destruct (lis_serving (listener p)) eqn:Hs; [|by apply stopped_ends].
  destruct He as [Ht|[?|[? ?]]]; [|congruence..]. destruct (timers p) as [|n] eqn:Hn; [done|].
  set (q0 := mkProcess (grace_server p) (listener p) (handling p) n (returned p) None (effects p)).
  eapply (can_end_next TimerFires); [by right; left|unfold next; rewrite Hc, Hn; reflexivity|]. fold q0.
  destruct (crashed (Close q0)) eqn:Hcq; [apply can_end_crashed; by rewrite Hcq|].
  apply stopped_ends; [|by destruct (Close_server q0) as (_ & _ & -> & _)].
  unfold Close in *. pose proof (lis_stop_serving (listener q0)) as H1.
  destruct (lis_GracefulStop (listener q0)). by apply H1.
Qed.

Lemma at_stop_ends p sig : handling p = AtStop sig -> returned p = false -> can_end p.
Proof.
  intros Hh Hr. destruct (crashed p) eqn:Hc; [apply can_end_crashed; by rewrite Hc|].
  eapply (can_end_next Handles); [by left|unfold next, handle_step; rewrite Hc, Hh; reflexivity|].
  set (e := if (0 <? DefaultTimeout (grace_server p))%Z then _ else _).
  assert (is_stop e = true) as He by (unfold e; by destruct (0 <? _)%Z).
  apply stopping_ends; [apply (act_stopping e p); by right|]. cbn. by destruct (act_stop p e He) as (_ & _ & ->).
Qed.

Lemma ending_ends p : ending p -> returned p = false -> can_end p.
Proof.
  intros [Hh|He] Hr; [|by apply stopping_ends]. destruct (handling p) as [| |sig|sig|sig|sig|sig|sig|] eqn:Eh; try done.
  - destruct (crashed p) eqn:Hc; [apply can_end_crashed; by rewrite Hc|].
    destruct (handle_step program args p) as [q|] eqn:Hq.
    2: { unfold handle_step in Hq. rewrite Eh in Hq. destruct (RegisterData _); [destruct (DeRegister _ _)|]; done. }
    apply (can_end_next Handles p q); [by left|unfold next; by rewrite Hc|].
    unfold handle_step in Hq. rewrite Eh in Hq.
    destruct (RegisterData _); [destruct (DeRegister _ _)|]; injection Hq as <-; apply (at_stop_ends _ sig); try done.
    cbn. unfold act. cbn. by rewrite Hc.
  - by apply (at_stop_ends _ sig).
Qed.
End facts.
End ServingFacts.

(** ** Properties *)

Module ServingTheorems.
Import GraceFacts LifecycleFacts ServingFacts.

(** C34: the statements of a serving process interleave in any order with the
    signals it gets, its timers and its listener: [shutdown]'s test of [runing],
    its assignment, [DeRegister] and the stop are separate steps. If the test
    comes before [Serve] has returned, the registration is taken back once, or
    the handler's next statements take it back; otherwise it never is: a
    server whose listener ends by itself stays registered, whatever signals
    follow. Once [runing] is cleared the process gets to return, with at most the
    rest of the handler and the timer of the stop to wait for, unless stopping
    the listener panics. *)
Theorem serving_ends {R} `{RegisterFunc R} {L} `{graceListener L} program args parent (s : Server R) (l : L) es p svc :
  RegisterData (Rr s) = Some svc -> run program args es (start parent s l) = Some p ->
  let r := RegisterImpl (Rr s) in
  match find decides es with
  | Some Tests => (kept (Some svc, r, []) p /\ pending p = true) \/ (taken_back svc r p /\ pending p = false)
  | _ => kept (Some svc, r, []) p /\ pending p = false
  end /\
  (pending p = true -> crashed p = None ->
   exists es' p', es' ⊆ [Handles] /\ run program args es' p = Some p' /\ taken_back svc r p') /\
  (runing (grace_server p) = false -> crashed p = None -> returned p = false ->
   exists es' p', es' ⊆ [Handles; TimerFires; ServeReturns] /\ run program args es' p = Some p' /\
     (returned p' = true \/ is_Some (crashed p'))).
Proof.
  intros Hd Hrun r. destruct (start_quiet parent s l) as (Hreg & Hp & Hr). rewrite Hd in Hreg. fold r in Hreg.
  pose proof (run_registration program args es _ p svc r Hreg Hp Hr Hrun) as Hend.
  split; [exact Hend|]. split.
  { intros Hp1 Hc1. apply pending_taken_back; [|done..].
    destruct (find decides es) as [[]|]; destruct Hend as [[Hk Hb]|[_ Hb]] || destruct Hend as [Hk Hb];
      exact Hk || congruence. }
  intros Hf Hc Hret. apply ending_ends; [|done].
  by destruct (run_ending program args es _ p Hrun) as [|[|]]; [by left|congruence..|].
Qed.

(** With etcd: of a server that registered and whose listener failed, no call of
    etcd is made any more, whatever signal the process still gets; so its key
    stands as long as its lease is kept alive. *)
Theorem dead_server_stays_registered fails granted svc e0 e1 {L} `{graceListener L} program args parent
    (s : Server EtcdCli) (l : L) es p entry runs_out :
  etcd_Register fails granted svc e0 = (e1, None) -> Rr s = mkOpts (Some svc) e1 ->
  run (H:=etcd_register_func fails granted) program args es (start parent s l) = Some p ->
  find decides es = Some ServeReturns ->
  RegisterImpl (Rr (grace_server p)) = e1 /\
  (documented fails (Key svc) entry runs_out (calls e1) -> ~ runs_out (leaseID e1) ->
   entry (length (calls e1)) = Some (Value svc, leaseID e1)).
Proof.
  intros Hreg HRr Hrun Hf. destruct (start_quiet parent s l) as (Hq & Hp & Hr).
  rewrite HRr in Hq. cbn [RegisterData RegisterImpl] in Hq.
  pose proof (run_registration (H:=etcd_register_func fails granted) program args es _ p svc e1 Hq Hp Hr Hrun) as Hend.
  rewrite Hf in Hend. destruct Hend as [[= _ -> _] _]. split; [done|]. intros Hd Hout.
  by destruct (registration_stands fails (Key svc) (Value svc) (leaseID e1) entry runs_out granted svc e0 e1
    eq_refl eq_refl eq_refl Hreg Hd) as [|[_ ?]].
Qed.

(** The gRPC library with nothing but what the class asks for. *)
#[local, program] Instance demo_lib : GrpcLib (bool * nat) := {
  lib_serving := fst; lib_calls := snd; lib_GetServiceInfo _ := ∅;
  lib_Stop _ := (false, 0%nat); lib_broken s := (false, snd s)
}.
Next Obligation. done. Qed.
Next Obligation. done. Qed.
Next Obligation. done. Qed.

Definition demo_server : Server EtcdCli := NewServer (mkOpts (Some LifecycleTheorems.demo_service) LifecycleTheorems.demo_etcd) false.
Definition demo_grpc : Serving (bool * nat) := mkServing (NewGrpcServer []) (Some (true, 3%nat)).

Definition demo_run (es : list happening) : option (Process EtcdCli (Serving (bool * nat))) :=
  run (H:=etcd_register_func (fun _ _ => None) Z.of_nat) "app" [] es (start None demo_server demo_grpc).

(** SIGTERM while serving; and one after the listener failed. In the last run
    [Serve] returns between the test of [shutdown] and its [DeRegister]. *)
Definition stopped_in_time : list happening :=
  [Looks; Receives SIGTERM; Handles; Tests; Handles; Handles; Handles; TimerFires; ServeReturns; Handles; Looks].
Definition stopped_too_late : list happening :=
  [Looks; ListenerBreaks; ServeReturns; Receives SIGTERM; Handles; Tests; Handles; Looks].
Definition stopped_meanwhile : list happening :=
  [Looks; Receives SIGTERM; Handles; Tests; ListenerBreaks; ServeReturns].

(** Whether a run of the demonstration has returned, and is about to deregister. *)
Definition demo_outcome (es : list happening) : option (bool * bool) :=
  (fun p => (returned p, pending p)) <$> demo_run es.

Lemma demo_ends es r b : demo_outcome es = Some (r, b) -> exists p, demo_run es = Some p /\ returned p = r /\ pending p = b.
Proof. unfold demo_outcome. destruct (demo_run es) as [p|]; [|done]. intros [= <- <-]. by exists p. Qed.

Lemma serving_ends_witness :
  (exists p, demo_run stopped_in_time = Some p /\ deregisters (effects p) = [None] /\ returned p = true) /\
  (exists p, demo_run stopped_too_late = Some p /\ deregisters (effects p) = [] /\ returned p = true) /\
  (exists p, demo_run stopped_meanwhile = Some p /\ deregisters (effects p) = [] /\ pending p = true).
Proof.
  pose proof (fun es p (E : demo_run es = Some p) =>
    serving_ends (H:=etcd_register_func (fun _ _ => None) Z.of_nat) "app" [] None demo_server demo_grpc
      es p LifecycleTheorems.demo_service eq_refl E) as Hends.
  destruct (demo_ends stopped_in_time true false) as (p1 & E1 & Hr1 & Hp1); [vm_compute; reflexivity|].
  destruct (demo_ends stopped_too_late true false) as (p2 & E2 & Hr2 & Hp2); [vm_compute; reflexivity|].
  destruct (demo_ends stopped_meanwhile true true) as (p3 & E3 & Hr3 & Hp3); [vm_compute; reflexivity|].
  split_and!; [exists p1|exists p2|exists p3].
  - destruct (Hends stopped_in_time p1 E1) as [[[_ Hp]|[H _]] _]; [congruence|]. split_and!; [done|exact (f_equal snd H)|done].
  - destruct (Hends stopped_too_late p2 E2) as [[H _] _]. split_and!; [done|exact (f_equal snd H)|done].
  - destruct (Hends stopped_meanwhile p3 E3) as [[[H _]|[_ Hp]] _]; [|congruence]. split_and!; [done|exact (f_equal snd H)|done].
Defined.
End ServingTheorems.
