(* ===== verification/Wrappers.v ===== *)
(** * What the packages hand on

    Methods that only pass their arguments to the object they wrap, and the
    object's answer back: a consumer ([src/components/mq/consumer.go]), the two
    gRPC streams ([components/grpc/server/grpc.go], [client/grpc.go]) and the
    logger ([components/log/zap.go]). The wrapped object is a class of its
    operations. Also here: the time in a log line. *)

From S2P Require Import Prelude GoStrings GoTime Grpc Support HttpAnswers.
Local Open Scope Z_scope.

(** ** The consumer ([consumer.go]) *)

Section consumer.
(** [nsq.Consumer]; a handler is known by a number. Adding one after connecting
    panics. *)
Class NsqConsumer (C : Type) := {
  nsq_ConnectToNSQLookupd : string -> C -> C * option string;
  nsq_ConnectToNSQLookupds : list string -> C -> C * option string;
  nsq_ConnectToNSQD : string -> C -> C * option string;
  nsq_ConnectToNSQDs : list string -> C -> C * option string;
  nsq_DisconnectFromNSQD : string -> C -> C * option string;
  nsq_DisconnectFromNSQLookupd : string -> C -> C * option string;
  nsq_AddHandler : nat -> C -> outcome C;
  nsq_AddConcurrentHandlers : nat -> Z -> C -> outcome C;
  nsq_SetLogger : nat -> Log.severity -> C -> C
}.
Context {C : Type} `{NsqConsumer C}.

Definition ConnectToNSQLookupd (addr : string) (c : C) : C * option string := nsq_ConnectToNSQLookupd addr c.
Definition ConnectToNSQLookupds (addresses : list string) (c : C) : C * option string :=
  nsq_ConnectToNSQLookupds addresses c.
Definition ConnectToNSQD (addr : string) (c : C) : C * option string := nsq_ConnectToNSQD addr c.
Definition ConnectToNSQDs (addresses : list string) (c : C) : C * option string := nsq_ConnectToNSQDs addresses c.
Definition DisconnectFromNSQD (addr : string) (c : C) : C * option string := nsq_DisconnectFromNSQD addr c.
Definition DisconnectFromNSQLookupd (addr : string) (c : C) : C * option string := nsq_DisconnectFromNSQLookupd addr c.
Definition AddHandler (handler : nat) (c : C) : outcome C := nsq_AddHandler handler c.
Definition AddConcurrentHandlers (handler : nat) (concurrency : Z) (c : C) : outcome C :=
  nsq_AddConcurrentHandlers handler concurrency c.
Definition SetLogger (l : nat) (lvl : string) (c : C) : C := nsq_SetLogger l (Log.SetLogger_level lvl) c.
End consumer.

(** ** The streams *)

Section streams.
(** [grpc.ServerStream] and [grpc.ClientStream], apart from the messages; a
    context is the metadata it carries. *)
Class StreamLib (G : Type) := {
  g_SetHeader : MD -> G -> G * option string;
  g_SendHeader : MD -> G -> G * option string;
  g_SetTrailer : MD -> G -> G;
  g_Header : G -> G * (option MD * option string);
  g_Trailer : G -> option MD;
  g_CloseSend : G -> G * option string;
  g_Context : G -> option MD
}.
Context {G : Type} `{StreamLib G}.

Definition SetHeader (m : MD) (g : G) : G * option string := g_SetHeader m g.
Definition SendHeader (m : MD) (g : G) : G * option string := g_SendHeader m g.
Definition SetTrailer (m : MD) (g : G) : G := g_SetTrailer m g.
(** The server's stream has a context of its own, with the trace it keeps... *)
Definition server_Context (s : GrpcStream) (g : G) : option MD := md s.
Definition client_Header (cs : clientStream) (g : G) : G * (option MD * option string) := g_Header g.
Definition client_Trailer (cs : clientStream) (g : G) : option MD := g_Trailer g.
Definition client_CloseSend (cs : clientStream) (g : G) : G * option string := g_CloseSend g.
(** ... the client's gives that of the stream it wraps. *)
Definition client_Context (cs : clientStream) (g : G) : option MD := g_Context g.
End streams.

(** ** The logger ([zap.go]) *)

(** The time of day in seconds; the fraction loses its trailing zeros. *)
Definition clock_of_unix (offset sec : Z) : Z := u64 (sec + offset + unix_to_absolute) mod 86400.

(** [CSTTimeEncoder] of a time, given by its second and nanosecond and the
    offset of its zone: [2006-01-02 15:04:05.999999999]. *)
Definition CSTTimeEncoder (offset sec nsec : Z) : string :=
  let c := clock_of_unix offset sec in
  of_bytes (format_date (date_of_unix offset sec) ++ [32] ++ append_int (c / 3600) 2 ++ [58]
    ++ append_int (c mod 3600 / 60) 2 ++ [58] ++ append_int (c mod 60) 2 ++ fst (fmtFrac 9 nsec false []))%list.

(** The zone is that of the time, whatever the name says. *)
Example cst_time_demo :
  CSTTimeEncoder 0 1709222400 0 = "2024-02-29 16:00:00"%string /\
  CSTTimeEncoder 28800 1709222461 20500000 = "2024-03-01 00:01:01.0205"%string.
Proof. split; vm_compute; reflexivity. Qed.

(** [ResetLogger]: the receiver gets the other's zap logger. *)
Definition ResetLogger {L : Type} (logger l : L) : L := logger.

(** ** Properties *)

Module WrappersTheorems.

(** The time of day is read as it was written, for any time after the calendar's
    year zero: hours, minutes and seconds come from the second and the zone. *)
Lemma clock_of_day offset d s :
  0 <= s < 86400 -> in_uint64 (d * 86400 + s + unix_to_absolute) ->
  clock_of_unix offset (d * 86400 + s - offset) = s.
Proof.
  intros Hs Hu. unfold clock_of_unix. replace (d * 86400 + s - offset + offset) with (d * 86400 + s) by lia.
  rewrite u64_id by done. unfold unix_to_absolute.
  replace (d * 86400 + s + 9223372028715321600) with (s + (d + 106751991073094) * 86400) by lia.
  rewrite Z.mod_add by lia. apply Z.mod_small. lia.
Qed.
End WrappersTheorems.
